(** * SecureChatApp: the cryptographic core and the hardened-session service

    A shallow embedding of
      - client/src/lib/crypto.js            (module [Crypto]),
      - server/services/signatureService.js (module [Signature]),
      - server/services/ussService.js, routes/ussRoutes.js and
        routes/ussMessageRoutes.js          (module [USS]),
    followed by the properties of the specification that are checked
    against them.

    JavaScript strings are sequences of UTF-16 code units, byte arrays
    ([Uint8Array], [ArrayBuffer], [Buffer]) are lists of bytes.  The
    browser and Node.js primitives the code calls ([crypto.subtle],
    [crypto.createVerify], the archiver, the mail transport, the SQL
    store) are parameters of the model; the text codec and base64 are
    written out after the standards that define them. *)

From Stdlib Require Import NArith ZArith List Bool Lia Ascii String.
From Stdlib Require Strings.Byte.
From Stdlib Require Import Sorted.
From stdpp Require Import base numbers option list gmap.
Import ListNotations.

Local Open Scope N_scope.

(** ** JavaScript strings *)

Module JS.

(** A string is the list of its UTF-16 code units. *)
Abbreviation jsstring := (list N).

(** An ASCII literal as a JavaScript string. *)
Definition js (s : string) : jsstring :=
  map N_of_ascii (list_ascii_of_string s).

Definition between (lo hi c : N) : bool := (lo <=? c) && (c <=? hi).

(** [/[...]/.test(s)] for a character class: some code unit is in the class. *)
Definition test (class : N -> bool) (s : jsstring) : bool := existsb class s.

(** [a < b] on strings: code unit by code unit, a proper prefix is smaller. *)
Fixpoint str_lt (a b : jsstring) : bool :=
  match a, b with
  | _, [] => false
  | [], _ :: _ => true
  | x :: a', y :: b' => if x <? y then true else if y <? x then false else str_lt a' b'
  end.

(** [Array.prototype.sort()] with the default comparator, as an insertion
    sort: [x] is placed before the first element that is greater than it,
    so equal elements keep their order. *)
Fixpoint insert_sorted (x : jsstring) (l : list jsstring) : list jsstring :=
  match l with
  | [] => [x]
  | y :: l' => if str_lt x y then x :: l else y :: insert_sorted x l'
  end.

Definition sort (l : list jsstring) : list jsstring :=
  fold_left (fun acc x => insert_sorted x acc) l [].

(** [Array.prototype.join(sep)]. *)
Fixpoint join (sep : jsstring) (l : list jsstring) : jsstring :=
  match l with
  | [] => []
  | [x] => x
  | x :: l' => x ++ sep ++ join sep l'
  end.

(** [String(n)] for a non-negative integer: its decimal digits. *)
Fixpoint digits (u : Decimal.uint) : jsstring :=
  match u with
  | Decimal.Nil => []
  | Decimal.D0 u' => 48 :: digits u'
  | Decimal.D1 u' => 49 :: digits u'
  | Decimal.D2 u' => 50 :: digits u'
  | Decimal.D3 u' => 51 :: digits u'
  | Decimal.D4 u' => 52 :: digits u'
  | Decimal.D5 u' => 53 :: digits u'
  | Decimal.D6 u' => 54 :: digits u'
  | Decimal.D7 u' => 55 :: digits u'
  | Decimal.D8 u' => 56 :: digits u'
  | Decimal.D9 u' => 57 :: digits u'
  end.

Definition String_of (n : N) : jsstring := digits (N.to_uint n).

End JS.
Export JS.

(** ** Exceptions

    Every function that can throw returns a [Result]. *)

Module Exceptions.

Inductive Exn :=
  | InvalidCharacterError   (* btoa / atob *)
  | DataError               (* crypto.subtle.importKey *)
  | OperationError          (* crypto.subtle.decrypt: the tag does not verify *)
  | TypeError
  | SessionNotFound         (* new Error('Session not found') *)
  | DbError                 (* a rejected db.query *)
  | ArchiverError           (* the archive stream's 'error' event *)
  | SmtpError               (* a rejected transporter.sendMail *)
  | NodeCryptoError.        (* an error thrown by Node's crypto module *)

Inductive Result (A : Type) :=
  | Ok (a : A)
  | Throw (e : Exn).
Arguments Ok {A} a.
Arguments Throw {A} e.

Definition rbind {A B} (m : Result A) (k : A -> Result B) : Result B :=
  match m with
  | Ok a => k a
  | Throw e => Throw e
  end.

End Exceptions.
Export Exceptions.

Declare Scope result_scope.
Delimit Scope result_scope with result.
Notation "x <- m ;; k" := (rbind m (fun x => k))
  (at level 100, m at next level, right associativity) : result_scope.

(** ** Platform functions: bytes, text codec, base64 *)

Module Platform.

Abbreviation byte := Byte.byte.
Abbreviation bytes := (list byte).

#[global] Instance byte_eq_decision : EqDecision byte := Byte.byte_eq_dec.

(** Storing a number into a [Uint8Array] keeps it modulo 256. *)
Definition byte_of_N (n : N) : byte :=
  match Byte.of_N (n mod 256) with
  | Some b => b
  | None => Byte.x00
  end.

(** [new Uint8Array(buf).slice(a, b)] on prefixes and suffixes. *)
Definition slice_to (n : nat) (b : bytes) : bytes := firstn n b.
Definition slice_from (n : nat) (b : bytes) : bytes := skipn n b.

(** *** TextEncoder (WHATWG Encoding: conversion to scalar values, UTF-8 encoder) *)

Definition is_high_surrogate (c : N) : bool := between 0xD800 0xDBFF c.
Definition is_low_surrogate (c : N) : bool := between 0xDC00 0xDFFF c.

(** Conversion of a JavaScript string to a sequence of Unicode scalar
    values: a surrogate pair is one code point, an unpaired surrogate is
    replaced by U+FFFD. *)
Fixpoint to_scalar_values (s : jsstring) : list N :=
  match s with
  | [] => []
  | c :: rest =>
      if is_high_surrogate c then
        match rest with
        | d :: rest' =>
            if is_low_surrogate d
            then (0x10000 + (c - 0xD800) * 0x400 + (d - 0xDC00)) :: to_scalar_values rest'
            else 0xFFFD :: to_scalar_values rest
        | [] => [0xFFFD]
        end
      else if is_low_surrogate c then 0xFFFD :: to_scalar_values rest
      else c :: to_scalar_values rest
  end.

Definition utf8_encode_code_point (c : N) : list N :=
  if c <=? 0x7F then [c]
  else if c <=? 0x7FF then
    [N.lor 0xC0 (N.shiftr c 6); N.lor 0x80 (N.land c 0x3F)]
  else if c <=? 0xFFFF then
    [N.lor 0xE0 (N.shiftr c 12);
     N.lor 0x80 (N.land (N.shiftr c 6) 0x3F);
     N.lor 0x80 (N.land c 0x3F)]
  else
    [N.lor 0xF0 (N.shiftr c 18);
     N.lor 0x80 (N.land (N.shiftr c 12) 0x3F);
     N.lor 0x80 (N.land (N.shiftr c 6) 0x3F);
     N.lor 0x80 (N.land c 0x3F)].

Definition TEXT_ENCODER_encode (s : jsstring) : bytes :=
  map byte_of_N (flat_map utf8_encode_code_point (to_scalar_values s)).

(** *** TextDecoder (WHATWG Encoding: UTF-8 decoder, replacement error mode,
        byte order mark removed) *)

Record utf8_decoder := {
  code_point : N;
  bytes_seen : N;
  bytes_needed : N;
  lower_boundary : N;
  upper_boundary : N
}.

Definition utf8_initial : utf8_decoder :=
  {| code_point := 0; bytes_seen := 0; bytes_needed := 0;
     lower_boundary := 0x80; upper_boundary := 0xBF |}.

(** The handler when no continuation byte is awaited. *)
Definition utf8_lead (b : N) : utf8_decoder * list N :=
  if b <=? 0x7F then (utf8_initial, [b])
  else if between 0xC2 0xDF b then
    ({| code_point := N.land b 0x1F; bytes_seen := 0; bytes_needed := 1;
        lower_boundary := 0x80; upper_boundary := 0xBF |}, [])
  else if between 0xE0 0xEF b then
    ({| code_point := N.land b 0xF; bytes_seen := 0; bytes_needed := 2;
        lower_boundary := if b =? 0xE0 then 0xA0 else 0x80;
        upper_boundary := if b =? 0xED then 0x9F else 0xBF |}, [])
  else if between 0xF0 0xF4 b then
    ({| code_point := N.land b 0x7; bytes_seen := 0; bytes_needed := 3;
        lower_boundary := if b =? 0xF0 then 0x90 else 0x80;
        upper_boundary := if b =? 0xF4 then 0x8F else 0xBF |}, [])
  else (utf8_initial, [0xFFFD]).

(** One byte through the decoder: the new state and the code points
    emitted.  A byte that is not the awaited continuation emits U+FFFD and
    is then read again as a lead byte. *)
Definition utf8_handler (st : utf8_decoder) (b : N) : utf8_decoder * list N :=
  if bytes_needed st =? 0 then utf8_lead b
  else if negb (between (lower_boundary st) (upper_boundary st) b) then
    let '(st', out) := utf8_lead b in (st', 0xFFFD :: out)
  else
    let cp := N.lor (N.shiftl (code_point st) 6) (N.land b 0x3F) in
    let seen := bytes_seen st + 1 in
    if seen =? bytes_needed st then (utf8_initial, [cp])
    else ({| code_point := cp; bytes_seen := seen;
             bytes_needed := bytes_needed st;
             lower_boundary := 0x80; upper_boundary := 0xBF |}, []).

Fixpoint utf8_decode (st : utf8_decoder) (bs : list N) : list N :=
  match bs with
  | [] => if bytes_needed st =? 0 then [] else [0xFFFD]
  | b :: bs' =>
      let '(st', out) := utf8_handler st b in
      out ++ utf8_decode st' bs'
  end.

(** [new TextDecoder()] has [ignoreBOM = false]: a leading U+FEFF is dropped. *)
Definition strip_bom (cps : list N) : list N :=
  match cps with
  | c :: rest => if c =? 0xFEFF then rest else cps
  | [] => []
  end.

Definition code_point_to_utf16 (c : N) : jsstring :=
  if c <=? 0xFFFF then [c]
  else [0xD800 + (c - 0x10000) / 0x400; 0xDC00 + (c - 0x10000) mod 0x400].

Definition TEXT_DECODER_decode (b : bytes) : jsstring :=
  flat_map code_point_to_utf16
    (strip_bom (utf8_decode utf8_initial (map Byte.to_N b))).

(** A string is well formed when its code units are 16-bit values and
    every surrogate is half of a pair; it has no byte order mark when it
    does not begin with U+FEFF. *)
Fixpoint well_formed (s : jsstring) : bool :=
  match s with
  | [] => true
  | c :: rest =>
      if is_high_surrogate c then
        match rest with
        | d :: rest' => is_low_surrogate d && well_formed rest'
        | [] => false
        end
      else negb (is_low_surrogate c) && (c <=? 0xFFFF) && well_formed rest
  end.

Definition no_leading_bom (s : jsstring) : bool :=
  match s with
  | c :: _ => negb (c =? 0xFEFF)
  | [] => true
  end.

(** A Unicode scalar value: a code point that is not a surrogate. *)
Definition is_scalar (c : N) : Prop :=
  c <= 0x10FFFF /\ ~ (0xD800 <= c <= 0xDFFF).

(** *** btoa / atob (WHATWG Infra: forgiving-base64) *)

(** The character of a 6-bit value in the base64 alphabet. *)
Definition b64char (v : N) : N :=
  if v <? 26 then 65 + v
  else if v <? 52 then 97 + (v - 26)
  else if v <? 62 then 48 + (v - 52)
  else if v =? 62 then 43
  else 47.

Definition b64val (c : N) : option N :=
  if between 65 90 c then Some (c - 65)
  else if between 97 122 c then Some (c - 97 + 26)
  else if between 48 57 c then Some (c - 48 + 52)
  else if c =? 43 then Some 62
  else if c =? 47 then Some 63
  else None.

Definition pad : N := 61.

Fixpoint b64_encode (l : list N) : jsstring :=
  match l with
  | [] => []
  | a :: l1 =>
      match l1 with
      | [] => [b64char (a / 4); b64char ((a mod 4) * 16); pad; pad]
      | b :: l2 =>
          match l2 with
          | [] => [b64char (a / 4); b64char ((a mod 4) * 16 + b / 16);
                   b64char ((b mod 16) * 4); pad]
          | c :: rest =>
              b64char (a / 4) :: b64char ((a mod 4) * 16 + b / 16)
              :: b64char ((b mod 16) * 4 + c / 64) :: b64char (c mod 64)
              :: b64_encode rest
          end
      end
  end.

(** The 6-bit values the encoding spells, without the padding. *)
Fixpoint sextets (l : list N) : list N :=
  match l with
  | [] => []
  | a :: l1 =>
      match l1 with
      | [] => [a / 4; (a mod 4) * 16]
      | b :: l2 =>
          match l2 with
          | [] => [a / 4; (a mod 4) * 16 + b / 16; (b mod 16) * 4]
          | c :: rest =>
              a / 4 :: (a mod 4) * 16 + b / 16 :: (b mod 16) * 4 + c / 64
              :: c mod 64 :: sextets rest
          end
      end
  end.

(** [btoa] throws on a code unit above 255. *)
Definition btoa (binary : jsstring) : Result jsstring :=
  if forallb (fun c => c <=? 255) binary then Ok (b64_encode binary)
  else Throw InvalidCharacterError.

Definition is_ascii_whitespace (c : N) : bool :=
  (c =? 9) || (c =? 10) || (c =? 12) || (c =? 13) || (c =? 32).

(** Remove one or two trailing [=]. *)
Fixpoint remove_padding (s : jsstring) : jsstring :=
  match s with
  | [] => []
  | c :: r =>
      match r with
      | [] => if c =? pad then [] else [c]
      | [d] => if (c =? pad) && (d =? pad) then [] else c :: remove_padding r
      | _ => c :: remove_padding r
      end
  end.

Fixpoint b64_values (s : jsstring) : option (list N) :=
  match s with
  | [] => Some []
  | c :: r =>
      match b64val c, b64_values r with
      | Some v, Some vs => Some (v :: vs)
      | _, _ => None
      end
  end.

(** Four 6-bit values give three bytes; a rest of three gives two bytes
    and a rest of two gives one, the spare bits being discarded. *)
Fixpoint b64_decode_values (vs : list N) : list N :=
  match vs with
  | a :: b :: c :: d :: rest =>
      (a * 4 + b / 16) :: ((b mod 16) * 16 + c / 4) :: ((c mod 4) * 64 + d)
      :: b64_decode_values rest
  | [a; b; c] => [a * 4 + b / 16; (b mod 16) * 16 + c / 4]
  | [a; b] => [a * 4 + b / 16]
  | _ => []
  end.

Definition atob (data : jsstring) : Result jsstring :=
  let data := List.filter (fun c => negb (is_ascii_whitespace c)) data in
  let data :=
    if (N.of_nat (length data)) mod 4 =? 0 then remove_padding data else data in
  if (N.of_nat (length data)) mod 4 =? 1 then Throw InvalidCharacterError
  else
    match b64_values data with
    | Some vs => Ok (b64_decode_values vs)
    | None => Throw InvalidCharacterError
    end.

End Platform.
Export Platform.

(** ** client/src/lib/crypto.js *)

Module Crypto.

(** *** The Web Crypto provider

    [crypto.subtle] is a parameter: the primitives below are the ones
    crypto.js calls.  Keys are imported from raw bytes, so a [CryptoKey]
    is its algorithm and its raw key material. *)

Record WebCrypto := {
  (** [digest('SHA-256', data)] *)
  sha256 : bytes -> bytes;
  (** [sign('HMAC', key, data)] with hash SHA-256 *)
  hmac_sha256 : bytes -> bytes -> bytes;
  (** [encrypt({name: 'AES-GCM', iv}, key, data)]: ciphertext followed by the tag *)
  aes_gcm_encrypt : bytes -> bytes -> bytes -> bytes;
  (** [decrypt({name: 'AES-GCM', iv}, key, data)]: [None] when the tag does not verify *)
  aes_gcm_decrypt : bytes -> bytes -> bytes -> option bytes;
  (** PBKDF2 with HMAC-SHA-512: password, salt, iterations, length in bits *)
  pbkdf2_sha512 : bytes -> bytes -> N -> N -> bytes
}.

Inductive KeyAlgorithm := HMAC | AES_GCM | PBKDF2.

Record CryptoKey := {
  algorithm : KeyAlgorithm;
  raw : bytes
}.

(** [importKey('raw', data, alg, ...)]: an HMAC key must not be empty, an
    AES key has 128, 192 or 256 bits, any byte string is PBKDF2 material. *)
Definition importKey (alg : KeyAlgorithm) (data : bytes) : Result CryptoKey :=
  match alg with
  | HMAC =>
      if (length data =? 0)%nat then Throw DataError
      else Ok {| algorithm := HMAC; raw := data |}
  | AES_GCM =>
      if (length data =? 16)%nat || (length data =? 24)%nat || (length data =? 32)%nat
      then Ok {| algorithm := AES_GCM; raw := data |}
      else Throw DataError
  | PBKDF2 => Ok {| algorithm := PBKDF2; raw := data |}
  end.

(** [crypto.getRandomValues(new Uint8Array(n))], reading the entropy source. *)
Definition getRandomValues (entropy : nat -> byte) (n : nat) : bytes :=
  map entropy (seq 0 n).

Section WithProvider.

Context (subtle : WebCrypto).
Local Open Scope result_scope.

(** *** Helper utilities *)

Definition arrayBufferToBase64 (buf : bytes) : Result jsstring :=
  let bytes := buf in
  (* binary += String.fromCharCode(bytes[i]) *)
  let binary := map Byte.to_N bytes in
  btoa binary.

Definition base64ToUint8Array (base64 : jsstring) : Result bytes :=
  binary <- atob base64 ;;
  (* bytes[i] = binary.charCodeAt(i) *)
  Ok (map byte_of_N binary).

(** *** Session key derivation *)

Definition getSessionKey (userA userB : jsstring) : bytes :=
  let sorted := join (js ":") (sort [userA; userB]) in
  let hashBuf := sha256 subtle (TEXT_ENCODER_encode sorted) in
  hashBuf.

(** *** Per-message key derivation and AES-GCM helpers *)

Definition deriveMessageKey (sessionKeyRaw : bytes) (msgNo : N) : Result CryptoKey :=
  let msgNoBytes := TEXT_ENCODER_encode (String_of msgNo) in
  hmacKey <- importKey HMAC sessionKeyRaw ;;
  let signature := hmac_sha256 subtle (raw hmacKey) msgNoBytes in
  aesKey <- importKey AES_GCM (slice_to 32 signature) ;;
  Ok aesKey.

Definition encryptMessage (entropy : nat -> byte)
    (sessionKeyRaw : bytes) (msgNo : N) (plaintext : jsstring) : Result jsstring :=
  aesKey <- deriveMessageKey sessionKeyRaw msgNo ;;
  let iv := getRandomValues entropy 12 in
  let data := TEXT_ENCODER_encode plaintext in
  let cipherBuf := aes_gcm_encrypt subtle (raw aesKey) iv data in
  let combined := iv ++ cipherBuf in
  arrayBufferToBase64 combined.

Definition subtle_decrypt (key : CryptoKey) (iv data : bytes) : Result bytes :=
  match aes_gcm_decrypt subtle (raw key) iv data with
  | Some plain => Ok plain
  | None => Throw OperationError
  end.

Definition decryptMessage
    (sessionKeyRaw : bytes) (msgNo : N) (base64Cipher : jsstring) : Result jsstring :=
  aesKey <- deriveMessageKey sessionKeyRaw msgNo ;;
  combined <- base64ToUint8Array base64Cipher ;;
  let iv := slice_to 12 combined in
  let cipher := slice_from 12 combined in
  plainBuf <- subtle_decrypt aesKey iv cipher ;;
  Ok (TEXT_DECODER_decode plainBuf).

(** *** Passphrase-based encryption *)

Definition iterations : N := 310000.

(** [deriveKey] is [deriveBits] for the length of the derived key type,
    followed by the raw import of the bits as that key. *)
Definition derivePassphraseKey (passphrase : jsstring) (salt : bytes) : Result CryptoKey :=
  passphraseKey <- importKey PBKDF2 (TEXT_ENCODER_encode passphrase) ;;
  let bits := pbkdf2_sha512 subtle (raw passphraseKey) salt iterations 256 in
  derivedKey <- importKey AES_GCM bits ;;
  Ok derivedKey.

Definition encryptWithPassphrase (entropy : nat -> byte)
    (data : bytes) (passphrase : jsstring) (salt : bytes)
    : Result (jsstring * jsstring) :=
  passphraseKey <- derivePassphraseKey passphrase salt ;;
  let iv := getRandomValues entropy 12 in
  let encrypted := aes_gcm_encrypt subtle (raw passphraseKey) iv data in
  enc64 <- arrayBufferToBase64 encrypted ;;
  iv64 <- arrayBufferToBase64 iv ;;
  Ok (enc64, iv64).

Definition decryptWithPassphrase
    (encryptedBase64 ivBase64 passphrase : jsstring) (salt : bytes) : Result bytes :=
  passphraseKey <- derivePassphraseKey passphrase salt ;;
  encrypted <- base64ToUint8Array encryptedBase64 ;;
  iv <- base64ToUint8Array ivBase64 ;;
  decrypted <- subtle_decrypt passphraseKey iv encrypted ;;
  Ok decrypted.

Definition hashPassphrase (passphrase : jsstring) (salt : bytes) : Result jsstring :=
  passphraseKey <- importKey PBKDF2 (TEXT_ENCODER_encode passphrase) ;;
  let hashBits := pbkdf2_sha512 subtle (raw passphraseKey) salt iterations 256 in
  arrayBufferToBase64 hashBits.

(** What a holder of the stored verifier can compute without the
    passphrase: decode the verifier, import it as an AES-GCM key, decrypt. *)
Definition decryptWithVerifier
    (encryptedBase64 ivBase64 verifier : jsstring) : Result bytes :=
  keyBytes <- base64ToUint8Array verifier ;;
  key <- importKey AES_GCM keyBytes ;;
  encrypted <- base64ToUint8Array encryptedBase64 ;;
  iv <- base64ToUint8Array ivBase64 ;;
  subtle_decrypt key iv encrypted.

End WithProvider.

(** The derivation in the words of the specification: the smaller
    identity, the separator, the greater identity, hashed with SHA-256. *)
Definition deriveSessionKey_spec (subtle : WebCrypto) (idA idB : jsstring) : bytes :=
  let first := if str_lt idB idA then idB else idA in
  let second := if str_lt idB idA then idA else idB in
  sha256 subtle (TEXT_ENCODER_encode (first ++ js ":" ++ second)).

(** What is assumed of a provider: an HMAC-SHA-256 tag has 32 bytes, and
    AES-GCM decryption under the same key and IV returns what was
    encrypted. *)
Record lawful (subtle : WebCrypto) : Prop := {
  hmac_length : forall key data, length (hmac_sha256 subtle key data) = 32%nat;
  aes_gcm_correct : forall key iv data,
    aes_gcm_decrypt subtle key iv (aes_gcm_encrypt subtle key iv data) = Some data
}.

(** *** validatePassphraseStrength *)

Inductive Strength := weak | medium | strong.

Inductive PassphraseError :=
  | TooShort | NoNumber | NoSpecial | NoUppercase | NoLowercase.

Record StrengthReport := {
  valid : bool;
  strength : Strength;
  score : N;
  errors : list PassphraseError
}.

(** [/[0-9]/], [/[A-Z]/], [/[a-z]/]. *)
Definition is_digit (c : N) : bool := between 48 57 c.
Definition is_upper (c : N) : bool := between 65 90 c.
Definition is_lower (c : N) : bool := between 97 122 c.

(** The class of special characters of the third check: the punctuation
    below, the double quote (code 34) included. *)
Definition special_chars : jsstring :=
  js "!@#$%^&*()_+-=[]{};':" ++ [34] ++ js "\|,.<>/?".

Definition is_special (c : N) : bool := existsb (N.eqb c) special_chars.

Definition length_of (s : jsstring) : N := N.of_nat (length s).

Definition validatePassphraseStrength (passphrase : jsstring) : StrengthReport :=
  let errors := [] in
  let score := 0 in
  (* Length check *)
  let '(errors, score) :=
    if length_of passphrase <? 10 then (errors ++ [TooShort], score)
    else
      let score := score + 20 in
      let score := if 15 <=? length_of passphrase then score + 20 else score in
      let score := if 20 <=? length_of passphrase then score + 10 else score in
      (errors, score) in
  (* Numbers check *)
  let '(errors, score) :=
    if negb (test is_digit passphrase) then (errors ++ [NoNumber], score)
    else (errors, score + 15) in
  (* Special characters check *)
  let '(errors, score) :=
    if negb (test is_special passphrase) then (errors ++ [NoSpecial], score)
    else (errors, score + 15) in
  (* Uppercase check *)
  let '(errors, score) :=
    if negb (test is_upper passphrase) then (errors ++ [NoUppercase], score)
    else (errors, score + 10) in
  (* Lowercase check *)
  let '(errors, score) :=
    if negb (test is_lower passphrase) then (errors ++ [NoLowercase], score)
    else (errors, score + 10) in
  (* Determine strength *)
  let strength :=
    if 80 <=? score then strong else if 60 <=? score then medium else weak in
  {| valid := (length errors =? 0)%nat;
     strength := strength;
     score := score;
     errors := errors |}.

End Crypto.
Export Crypto.

(** ** The server: store, collaborators and the effect monad *)

Module Server.

(** *** Tables *)

Inductive Status := ACTIVE | LOCKED | DELETED.

(** A row of [ultra_secure_sessions]. *)
Record SessionRow := {
  session_id : Z;
  user_a : jsstring;
  user_b : jsstring;
  user_a_email : jsstring;
  user_b_email : jsstring;
  double_encrypted_key_a : jsstring;
  double_encrypted_key_b : jsstring;
  passphrase_hash : jsstring;
  salt : jsstring;
  iv_a : jsstring;
  iv_b : jsstring;
  wrong_attempts : Z;
  max_attempts : Z;
  status : Status;
  created_at : Z;
  last_access : option Z;
  locked_at : option Z
}.

(** A row of [uss_messages]. *)
Record MessageRow := {
  id : Z;
  uss_session_id : Z;
  sender : jsstring;
  receiver : jsstring;
  content : jsstring;
  msg_no : option Z;
  signature : option jsstring;
  verified : bool;
  timestamp : Z
}.

Inductive EventType :=
  | USS_CREATED | USS_ACCESSED | USS_ACCESS_DENIED | USS_LOCKDOWN
  | DECOY_ACTIVATED | BACKUP_SENT | BACKUP_FAILED | DATA_WIPED.

(** The [details] JSON of a security event, by the fields it carries. *)
Inductive Details :=
  | DCreated (userA userB : jsstring) (createdAt : Z)
  | DAttempts (attempts : Z) (at_time : Z)
  | DAccessed (at_time : Z)
  | DBackup (emailsSent totalRecipients : nat) (at_time : Z)
  | DWiped (messagesDeleted : nat) (at_time : Z)
  | DLockdown (userA userB : jsstring) (messagesExported emailsSent : nat) (at_time : Z)
  | DLockdownFailed (message : Exn) (at_time : Z).

(** A row of [security_events]. *)
Record SecurityEvent := {
  event_type : EventType;
  event_session : Z;
  user_involved : option jsstring;
  details : Details
}.

(** A row of [users], by the one column read here. *)
Record UserRow := {
  signature_key_public : option jsstring
}.

(** *** Console output *)

Inductive LogLine :=
  | LogActivatingLockdown (sessionId : Z)
  | LogSessionNotFoundForLockdown
  | LogExportingMessages
  | LogExported (n : nat)
  | LogCreatingZip
  | LogZipCreated (size : nat)
  | LogSendingEmails
  | LogEmailSent (recipient : jsstring)
  | LogEmailSendFailed (recipient : jsstring) (e : Exn)
  | LogFailedToEmail (user : jsstring) (e : Exn)
  | LogSentEmails (ok total : nat)
  | LogWipingMessages
  | LogDeleted (n : nat)
  | LogLockdownCompleted (sessionId : Z)
  | LogLockdownActivationFailed (e : Exn)
  | LogFailedToLogSecurityEvent (e : Exn)
  | LogVerificationError (e : Exn)
  | LogFetchError (e : Exn)
  | LogNoSigningKey (user : jsstring)
  | LogTryingDER
  | LogSignatureVerificationError (e : Exn)
  | LogUssMessageSignature (valid : bool)
  | LogFailedToSendUssMessage (e : Exn).

(** A mail accepted by the transport. *)
Record Mail := {
  mail_to : jsstring;
  mail_session : Z;
  mail_attachment : bytes
}.

(** The object pushed over socket.io and returned by the message route. *)
Record MessageObj := {
  mo_id : Z;
  mo_uss_session_id : Z;
  mo_sender : jsstring;
  mo_receiver : jsstring;
  mo_content : jsstring;
  mo_msgNo : option Z;
  mo_signature : option jsstring;
  mo_verified : bool;
  mo_timestamp : Z
}.

(** *** The world the server acts on *)

Record World := {
  sessions : gmap Z SessionRow;
  next_session_id : Z;
  uss_messages : list MessageRow;
  next_message_id : Z;
  security_events : list SecurityEvent;
  users : gmap jsstring UserRow;
  console : list LogLine;
  outbox : list Mail;
  emitted : list (jsstring * MessageObj);
  queries : nat;
  now : Z
}.

(** *** The collaborators

    [db_fails n]: the n-th query issued is rejected.  The archiver, the
    mail transport and Node's crypto module answer as the environment says. *)

Inductive PublicKey := PublicKeyObject (pem : jsstring).

Record Env := {
  db_fails : nat -> bool;
  createUnencryptedZip : list MessageRow -> Z -> Result bytes;
  sendMail : jsstring -> Result unit;
  createPublicKey : jsstring -> Result PublicKey;
  buffer_from_base64 : jsstring -> bytes;
  verify_ieee_p1363 : PublicKey -> jsstring -> bytes -> Result bool;
  verify_der : PublicKey -> jsstring -> bytes -> Result bool
}.

(** *** Effects: state and exceptions *)

Definition M (A : Type) : Type := World -> Result A * World.

Definition ret {A} (a : A) : M A := fun w => (Ok a, w).

Definition throw {A} (e : Exn) : M A := fun w => (Throw e, w).

Definition bind {A B} (m : M A) (k : A -> M B) : M B :=
  fun w =>
    match m w with
    | (Ok a, w') => k a w'
    | (Throw e, w') => (Throw e, w')
    end.

(** [try { m } catch (e) { h e }] *)
Definition try_catch {A} (m : M A) (h : Exn -> M A) : M A :=
  fun w =>
    match m w with
    | (Ok a, w') => (Ok a, w')
    | (Throw e, w') => h e w'
    end.

Definition get : M World := fun w => (Ok w, w).

Definition modify (f : World -> World) : M unit := fun w => (Ok tt, f w).

Definition lift {A} (r : Result A) : M A := fun w => (r, w).

End Server.
Export Server.

Declare Scope server_scope.
Delimit Scope server_scope with server.
Notation "x <- m ;; k" := (Server.bind m (fun x => k))
  (at level 100, m at next level, right associativity) : server_scope.
Notation "m ;; k" := (Server.bind m (fun _ => k))
  (at level 100, right associativity) : server_scope.

(** ** The store: SQL statements as functions on the world *)

Module Store.

Definition set_sessions (s : gmap Z SessionRow) (w : World) : World :=
  {| sessions := s; next_session_id := next_session_id w;
     uss_messages := uss_messages w; next_message_id := next_message_id w;
     security_events := security_events w; users := users w;
     console := console w; outbox := outbox w; emitted := emitted w;
     queries := queries w; now := now w |}.

Definition set_next_session_id (n : Z) (w : World) : World :=
  {| sessions := sessions w; next_session_id := n;
     uss_messages := uss_messages w; next_message_id := next_message_id w;
     security_events := security_events w; users := users w;
     console := console w; outbox := outbox w; emitted := emitted w;
     queries := queries w; now := now w |}.

Definition set_uss_messages (m : list MessageRow) (w : World) : World :=
  {| sessions := sessions w; next_session_id := next_session_id w;
     uss_messages := m; next_message_id := next_message_id w;
     security_events := security_events w; users := users w;
     console := console w; outbox := outbox w; emitted := emitted w;
     queries := queries w; now := now w |}.

Definition set_next_message_id (n : Z) (w : World) : World :=
  {| sessions := sessions w; next_session_id := next_session_id w;
     uss_messages := uss_messages w; next_message_id := n;
     security_events := security_events w; users := users w;
     console := console w; outbox := outbox w; emitted := emitted w;
     queries := queries w; now := now w |}.

Definition set_security_events (e : list SecurityEvent) (w : World) : World :=
  {| sessions := sessions w; next_session_id := next_session_id w;
     uss_messages := uss_messages w; next_message_id := next_message_id w;
     security_events := e; users := users w;
     console := console w; outbox := outbox w; emitted := emitted w;
     queries := queries w; now := now w |}.

Definition set_console (c : list LogLine) (w : World) : World :=
  {| sessions := sessions w; next_session_id := next_session_id w;
     uss_messages := uss_messages w; next_message_id := next_message_id w;
     security_events := security_events w; users := users w;
     console := c; outbox := outbox w; emitted := emitted w;
     queries := queries w; now := now w |}.

Definition set_outbox (o : list Mail) (w : World) : World :=
  {| sessions := sessions w; next_session_id := next_session_id w;
     uss_messages := uss_messages w; next_message_id := next_message_id w;
     security_events := security_events w; users := users w;
     console := console w; outbox := o; emitted := emitted w;
     queries := queries w; now := now w |}.

Definition set_emitted (e : list (jsstring * MessageObj)) (w : World) : World :=
  {| sessions := sessions w; next_session_id := next_session_id w;
     uss_messages := uss_messages w; next_message_id := next_message_id w;
     security_events := security_events w; users := users w;
     console := console w; outbox := outbox w; emitted := e;
     queries := queries w; now := now w |}.

Definition set_queries (n : nat) (w : World) : World :=
  {| sessions := sessions w; next_session_id := next_session_id w;
     uss_messages := uss_messages w; next_message_id := next_message_id w;
     security_events := security_events w; users := users w;
     console := console w; outbox := outbox w; emitted := emitted w;
     queries := n; now := now w |}.

(** Row updates of [ultra_secure_sessions]. *)

Definition set_wrong_attempts (n : Z) (r : SessionRow) : SessionRow :=
  {| session_id := session_id r; user_a := user_a r; user_b := user_b r;
     user_a_email := user_a_email r; user_b_email := user_b_email r;
     double_encrypted_key_a := double_encrypted_key_a r;
     double_encrypted_key_b := double_encrypted_key_b r;
     passphrase_hash := passphrase_hash r; salt := salt r;
     iv_a := iv_a r; iv_b := iv_b r;
     wrong_attempts := n; max_attempts := max_attempts r;
     status := status r; created_at := created_at r;
     last_access := last_access r; locked_at := locked_at r |}.

Definition set_last_access (t : Z) (r : SessionRow) : SessionRow :=
  {| session_id := session_id r; user_a := user_a r; user_b := user_b r;
     user_a_email := user_a_email r; user_b_email := user_b_email r;
     double_encrypted_key_a := double_encrypted_key_a r;
     double_encrypted_key_b := double_encrypted_key_b r;
     passphrase_hash := passphrase_hash r; salt := salt r;
     iv_a := iv_a r; iv_b := iv_b r;
     wrong_attempts := wrong_attempts r; max_attempts := max_attempts r;
     status := status r; created_at := created_at r;
     last_access := Some t; locked_at := locked_at r |}.

Definition set_status_locked (t : Z) (r : SessionRow) : SessionRow :=
  {| session_id := session_id r; user_a := user_a r; user_b := user_b r;
     user_a_email := user_a_email r; user_b_email := user_b_email r;
     double_encrypted_key_a := double_encrypted_key_a r;
     double_encrypted_key_b := double_encrypted_key_b r;
     passphrase_hash := passphrase_hash r; salt := salt r;
     iv_a := iv_a r; iv_b := iv_b r;
     wrong_attempts := wrong_attempts r; max_attempts := max_attempts r;
     status := LOCKED; created_at := created_at r;
     last_access := last_access r; locked_at := Some t |}.

(** [SELECT ... FROM ultra_secure_sessions WHERE session_id = ?] *)
Definition select_session (sessionId : Z) (w : World) : option SessionRow * World :=
  (sessions w !! sessionId, w).

(** [UPDATE ultra_secure_sessions SET ... WHERE session_id = ?] *)
Definition update_session (sessionId : Z) (f : SessionRow -> SessionRow)
    (w : World) : unit * World :=
  (tt, set_sessions (alter f sessionId (sessions w)) w).

(** [INSERT INTO ultra_secure_sessions ... VALUES (..., 'ACTIVE')]: the
    defaults of the table fill the other columns. *)
Definition insert_session (mk : Z -> Z -> SessionRow) (w : World) : Z * World :=
  let insertId := next_session_id w in
  (insertId,
   set_next_session_id (insertId + 1)
     (set_sessions (<[insertId := mk insertId (now w)]> (sessions w)) w)).

(** [INSERT INTO security_events ...] *)
Definition insert_event (e : SecurityEvent) (w : World) : unit * World :=
  (tt, set_security_events (security_events w ++ [e]) w).

(** [ORDER BY timestamp ASC] *)
Fixpoint insert_by_timestamp (m : MessageRow) (l : list MessageRow) : list MessageRow :=
  match l with
  | [] => [m]
  | x :: l' =>
      if (timestamp m <? timestamp x)%Z then m :: l
      else x :: insert_by_timestamp m l'
  end.

Definition order_by_timestamp (l : list MessageRow) : list MessageRow :=
  fold_left (fun acc m => insert_by_timestamp m acc) l [].

Definition of_session (sessionId : Z) (m : MessageRow) : bool :=
  (uss_session_id m =? sessionId)%Z.

(** [SELECT ... FROM uss_messages WHERE uss_session_id = ? ORDER BY timestamp ASC] *)
Definition select_messages (sessionId : Z) (w : World) : list MessageRow * World :=
  (order_by_timestamp (List.filter (of_session sessionId) (uss_messages w)), w).

(** [DELETE FROM uss_messages WHERE uss_session_id = ?]: the number of
    deleted rows is the result's [affectedRows]. *)
Definition delete_messages (sessionId : Z) (w : World) : nat * World :=
  (length (List.filter (of_session sessionId) (uss_messages w)),
   set_uss_messages
     (List.filter (fun m => negb (of_session sessionId m)) (uss_messages w)) w).

(** [INSERT INTO uss_messages ... VALUES (..., NOW())] *)
Definition insert_message (mk : Z -> Z -> MessageRow) (w : World) : Z * World :=
  let insertId := next_message_id w in
  (insertId,
   set_next_message_id (insertId + 1)
     (set_uss_messages (uss_messages w ++ [mk insertId (now w)]) w)).

(** [SELECT signature_key_public FROM users WHERE username = ?] *)
Definition select_signature_key (username : jsstring) (w : World)
    : option UserRow * World :=
  (users w !! username, w).

End Store.
Export Store.

(** ** server/services/ussService.js, emailService.js and the USS routes *)

Module USS.

(** A truthy string is a non-empty one. *)
Definition truthy (s : jsstring) : bool := negb (length s =? 0)%nat.

(** The object [getUSSSession] returns. *)
Record SessionView := {
  sessionId : Z;
  userA : jsstring;
  userB : jsstring;
  doubleEncryptedKey : jsstring;
  passphraseHash : jsstring;
  view_salt : jsstring;
  iv : jsstring;
  wrongAttempts : Z;
  view_status : Status;
  createdAt : Z;
  lastAccess : option Z
}.

(** The argument of [createUSSSession]. *)
Record SessionData := {
  sd_userA : jsstring;
  sd_userB : jsstring;
  sd_userAEmail : jsstring;
  sd_userBEmail : jsstring;
  sd_doubleEncryptedKeyA : jsstring;
  sd_doubleEncryptedKeyB : jsstring;
  sd_passphraseHash : jsstring;
  sd_salt : jsstring;
  sd_ivA : jsstring;
  sd_ivB : jsstring
}.

(** Responses of the routes: the HTTP status and the JSON body. *)
Inductive Body :=
  | AccessGranted (attemptsRemaining : Z)
  | SessionLocked (attemptsRemaining : Z)      (* success: false, locked: true *)
  | IncorrectPassphrase (attemptsRemaining : Z)
  | VerificationFailed
  | RequestingUserRequired
  | SessionNotFoundBody
  | LockedStatus
  | DeletedStatus
  | FetchFailed
  | SessionJson (s : SessionView).

Record Response := {
  http_status : Z;
  body : Body
}.

Section WithEnv.

Context (env : Env).
Local Open Scope server_scope.
Local Open Scope Z_scope.

(** [await db.query(...)]: the query is counted, and rejected when the
    environment says so. *)
Definition db_query {A} (q : World -> A * World) : M A :=
  fun w =>
    let w1 := set_queries (S (queries w)) w in
    if db_fails env (queries w) then (Throw DbError, w1)
    else let '(a, w2) := q w1 in (Ok a, w2).

Definition console_log (l : LogLine) : M unit :=
  modify (fun w => set_console (console w ++ [l]) w).

(** [new Date()] / [NOW()] *)
Definition current_time : M Z := fun w => (Ok (now w), w).

Definition logSecurityEvent (e : SecurityEvent) : M unit :=
  try_catch
    (db_query (insert_event e))
    (fun error => console_log (LogFailedToLogSecurityEvent error)).

Definition new_session (d : SessionData) (insertId created : Z) : SessionRow :=
  {| session_id := insertId;
     user_a := sd_userA d; user_b := sd_userB d;
     user_a_email := sd_userAEmail d; user_b_email := sd_userBEmail d;
     double_encrypted_key_a := sd_doubleEncryptedKeyA d;
     double_encrypted_key_b := sd_doubleEncryptedKeyB d;
     passphrase_hash := sd_passphraseHash d; salt := sd_salt d;
     iv_a := sd_ivA d; iv_b := sd_ivB d;
     wrong_attempts := 0; max_attempts := 3; status := ACTIVE;
     created_at := created; last_access := None; locked_at := None |}.

Definition createUSSSession (sessionData : SessionData) : M Z :=
  insertId <- db_query (insert_session (new_session sessionData)) ;;
  t <- current_time ;;
  logSecurityEvent
    {| event_type := USS_CREATED; event_session := insertId;
       user_involved := Some (sd_userA sessionData);
       details := DCreated (sd_userA sessionData) (sd_userB sessionData) t |} ;;
  ret insertId.

Definition getUSSSession (sessionId : Z) (requestingUser : jsstring)
    : M (option SessionView) :=
  rows <- db_query (select_session sessionId) ;;
  match rows with
  | None => ret None
  | Some session =>
      (* Return appropriate encrypted key based on requesting user *)
      let isUserA := bool_decide (requestingUser = user_a session) in
      let doubleEncryptedKey :=
        if isUserA then double_encrypted_key_a session
        else double_encrypted_key_b session in
      let iv := if isUserA then iv_a session else iv_b session in
      (* Update last access time *)
      t <- current_time ;;
      db_query (update_session sessionId (set_last_access t)) ;;
      ret (Some
        {| sessionId := session_id session;
           userA := user_a session;
           userB := user_b session;
           doubleEncryptedKey := doubleEncryptedKey;
           passphraseHash := passphrase_hash session;
           view_salt := salt session;
           iv := iv;
           wrongAttempts := wrong_attempts session;
           view_status := status session;
           createdAt := created_at session;
           lastAccess := last_access session |})
  end.

Definition exportMessages (sessionId : Z) : M (list MessageRow) :=
  db_query (select_messages sessionId).

(** emailService.sendSecurityEmail: the result's [success] field, or the
    transport's error thrown again. *)
Definition sendSecurityEmail (recipientEmail recipientName : jsstring)
    (zipBuffer : bytes) (sessionId : Z) (userA userB : jsstring) : M bool :=
  try_catch
    (lift (sendMail env recipientEmail) ;;
     modify (fun w => set_outbox (outbox w ++
       [{| mail_to := recipientEmail; mail_session := sessionId;
           mail_attachment := zipBuffer |}]) w) ;;
     console_log (LogEmailSent recipientEmail) ;;
     ret true)
    (fun error =>
       console_log (LogEmailSendFailed recipientEmail error) ;;
       throw error).

(** One entry of [emailPromises]: the send with its [.catch]. *)
Definition emailPromise (email user : jsstring)
    (zipBuffer : bytes) (sessionId : Z) (userA userB : jsstring) : M (list bool) :=
  if truthy email then
    r <- try_catch
           (sendSecurityEmail email user zipBuffer sessionId userA userB)
           (fun err => console_log (LogFailedToEmail user err) ;; ret false) ;;
    ret [r]
  else ret [].

Definition activateLockdown (sessionId : Z) : M unit :=
  try_catch
    (console_log (LogActivatingLockdown sessionId) ;;
     (* 1. Fetch session details *)
     session <- db_query (select_session sessionId) ;;
     match session with
     | None => console_log LogSessionNotFoundForLockdown
     | Some sessionData =>
         (* 2. Export messages for this session *)
         console_log LogExportingMessages ;;
         messages <- exportMessages sessionId ;;
         console_log (LogExported (length messages)) ;;
         (* 3. Create the ZIP (the passphrase is not available: unencrypted) *)
         console_log LogCreatingZip ;;
         zipBuffer <- lift (createUnencryptedZip env messages sessionId) ;;
         console_log (LogZipCreated (length zipBuffer)) ;;
         (* 4. Email backup to both users *)
         console_log LogSendingEmails ;;
         ra <- emailPromise (user_a_email sessionData) (user_a sessionData)
                 zipBuffer sessionId (user_a sessionData) (user_b sessionData) ;;
         rb <- emailPromise (user_b_email sessionData) (user_b sessionData)
                 zipBuffer sessionId (user_a sessionData) (user_b sessionData) ;;
         let emailResults := ra ++ rb in
         let successfulEmails := length (List.filter (fun r => r) emailResults) in
         console_log (LogSentEmails successfulEmails (length emailResults)) ;;
         (* Log email results *)
         t <- current_time ;;
         logSecurityEvent
           {| event_type := if (0 <? successfulEmails)%nat then BACKUP_SENT else BACKUP_FAILED;
              event_session := sessionId; user_involved := None;
              details := DBackup successfulEmails (length emailResults) t |} ;;
         (* 5. Wipe messages from database *)
         console_log LogWipingMessages ;;
         affectedRows <- db_query (delete_messages sessionId) ;;
         console_log (LogDeleted affectedRows) ;;
         t <- current_time ;;
         logSecurityEvent
           {| event_type := DATA_WIPED; event_session := sessionId;
              user_involved := None; details := DWiped affectedRows t |} ;;
         (* 6. Update session status to LOCKED *)
         t <- current_time ;;
         db_query (update_session sessionId (set_status_locked t)) ;;
         (* 7. Log lockdown event *)
         t <- current_time ;;
         logSecurityEvent
           {| event_type := USS_LOCKDOWN; event_session := sessionId;
              user_involved := None;
              details := DLockdown (user_a sessionData) (user_b sessionData)
                           (length messages) successfulEmails t |} ;;
         console_log (LogLockdownCompleted sessionId)
     end)
    (fun error =>
       console_log (LogLockdownActivationFailed error) ;;
       t <- current_time ;;
       logSecurityEvent
         {| event_type := USS_LOCKDOWN; event_session := sessionId;
            user_involved := None; details := DLockdownFailed error t |}).

Definition incrementWrongAttempts (sessionId : Z) : M Z :=
  session <- db_query (select_session sessionId) ;;
  match session with
  | None => throw SessionNotFound
  | Some row =>
      let newAttempts := wrong_attempts row + 1 in
      db_query (update_session sessionId (set_wrong_attempts newAttempts)) ;;
      (* Log security event *)
      t <- current_time ;;
      logSecurityEvent
        {| event_type := USS_ACCESS_DENIED; event_session := sessionId;
           user_involved := None; details := DAttempts newAttempts t |} ;;
      (* If 3 attempts reached, trigger lockdown *)
      (if 3 <=? newAttempts then activateLockdown sessionId else ret tt) ;;
      ret newAttempts
  end.

Definition resetWrongAttempts (sessionId : Z) : M unit :=
  t <- current_time ;;
  db_query (update_session sessionId
              (fun r => set_last_access t (set_wrong_attempts 0 r))) ;;
  (* Log successful access *)
  t <- current_time ;;
  logSecurityEvent
    {| event_type := USS_ACCESSED; event_session := sessionId;
       user_involved := None; details := DAccessed t |}.

(** *** routes/ussRoutes.js *)

(** [POST /api/uss/:sessionId/verify] with body [{ success }]. *)
Definition post_verify (sessionId : Z) (success : bool) : M Response :=
  try_catch
    (if success then
       (* Reset wrong attempts on successful verification *)
       resetWrongAttempts sessionId ;;
       ret {| http_status := 200; body := AccessGranted 3 |}
     else
       (* Increment wrong attempts *)
       newAttempts <- incrementWrongAttempts sessionId ;;
       let attemptsRemaining := Z.max 0 (3 - newAttempts) in
       if 3 <=? newAttempts then
         ret {| http_status := 403; body := SessionLocked 0 |}
       else
         ret {| http_status := 200; body := IncorrectPassphrase attemptsRemaining |})
    (fun error =>
       console_log (LogVerificationError error) ;;
       ret {| http_status := 500; body := VerificationFailed |}).

(** [GET /api/uss/:sessionId?requestingUser=...] *)
Definition get_session (sessionId : Z) (requestingUser : option jsstring) : M Response :=
  try_catch
    (match requestingUser with
     | None => ret {| http_status := 400; body := RequestingUserRequired |}
     | Some user =>
         if negb (truthy user) then
           ret {| http_status := 400; body := RequestingUserRequired |}
         else
           session <- getUSSSession sessionId user ;;
           match session with
           | None => ret {| http_status := 404; body := SessionNotFoundBody |}
           | Some s =>
               match view_status s with
               | LOCKED => ret {| http_status := 403; body := LockedStatus |}
               | DELETED => ret {| http_status := 410; body := DeletedStatus |}
               | ACTIVE => ret {| http_status := 200; body := SessionJson s |}
               end
           end
     end)
    (fun error =>
       console_log (LogFetchError error) ;;
       ret {| http_status := 500; body := FetchFailed |}).

End WithEnv.

End USS.
Export USS.

(** ** server/services/signatureService.js and routes/ussMessageRoutes.js *)

Module Signature.

(** The body of [POST /api/uss-messages]. *)
Record SendRequest := {
  req_ussSessionId : option Z;
  req_sender : option jsstring;
  req_receiver : option jsstring;
  req_message : option jsstring;
  req_msgNo : option Z;
  req_signature : option jsstring
}.

Inductive SendResponse :=
  | MissingRequiredFields            (* 400 *)
  | Created (message : MessageObj)   (* 201 *)
  | InternalServerError.             (* 500 *)

(** Truthiness of an optional string and of an optional number. *)
Definition truthy_string (s : option jsstring) : option jsstring :=
  match s with
  | Some v => if truthy v then Some v else None
  | None => None
  end.

Definition truthy_number (n : option Z) : option Z :=
  match n with
  | Some v => if (v =? 0)%Z then None else Some v
  | None => None
  end.

Section WithEnv.

Context (env : Env).
Local Open Scope server_scope.

(** [rows[0]?.signature_key_public || null] *)
Definition getSigningKey (username : jsstring) : M (option jsstring) :=
  rows <- db_query env (select_signature_key username) ;;
  ret (match rows with
       | Some row => truthy_string (signature_key_public row)
       | None => None
       end).

Definition verifyMessageSignature
    (senderUsername message signatureBase64 : jsstring) : M bool :=
  try_catch
    ((* Get sender's public key *)
     publicKeyPem <- getSigningKey senderUsername ;;
     match publicKeyPem with
     | None =>
         console_log (LogNoSigningKey senderUsername) ;;
         ret false
     | Some pem =>
         (* Import public key *)
         publicKey <- lift (createPublicKey env pem) ;;
         (* Convert base64 signature to buffer *)
         let signatureBuffer := buffer_from_base64 env signatureBase64 in
         (* Try verification - this might fail due to format mismatch *)
         isValid <-
           try_catch
             (lift (verify_ieee_p1363 env publicKey message signatureBuffer))
             (fun err =>
                (* If ieee-p1363 fails, signature might be in DER format *)
                console_log LogTryingDER ;;
                lift (verify_der env publicKey message signatureBuffer)) ;;
         ret isValid
     end)
    (fun error =>
       console_log (LogSignatureVerificationError error) ;;
       ret false).

(** [POST /api/uss-messages] *)
Definition post_message (req : SendRequest) : M SendResponse :=
  try_catch
    (match truthy_number (req_ussSessionId req), truthy_string (req_sender req),
           truthy_string (req_receiver req), truthy_string (req_message req) with
     | Some ussSessionId, Some sender, Some receiver, Some message =>
         (* Verify signature if provided *)
         verified <-
           match truthy_string (req_signature req) with
           | Some signature =>
               v <- verifyMessageSignature sender message signature ;;
               console_log (LogUssMessageSignature v) ;;
               ret v
           | None => ret false
           end ;;
         (* Insert into uss_messages table *)
         insertId <- db_query env (insert_message (fun insertId t =>
           {| id := insertId; uss_session_id := ussSessionId;
              sender := sender; receiver := receiver; content := message;
              msg_no := truthy_number (req_msgNo req);
              signature := truthy_string (req_signature req);
              verified := verified; timestamp := t |})) ;;
         (* Emit to receiver if online *)
         t <- current_time ;;
         let messageObj :=
           {| mo_id := insertId; mo_uss_session_id := ussSessionId;
              mo_sender := sender; mo_receiver := receiver;
              mo_content := message; mo_msgNo := req_msgNo req;
              mo_signature := req_signature req;
              mo_verified := verified; mo_timestamp := t |} in
         modify (fun w => set_emitted (emitted w ++ [(receiver, messageObj)]) w) ;;
         ret (Created messageObj)
     | _, _, _, _ => ret MissingRequiredFields
     end)
    (fun err =>
       console_log (LogFailedToSendUssMessage err) ;;
       ret InternalServerError).

End WithEnv.

End Signature.
Export Signature.

(** ** Concrete collaborators and worlds

    A working environment, faulty variants of it, a stand-in Web Crypto
    provider and a small store, on which the definitions are evaluated. *)

Module Fixtures.

Local Open Scope Z_scope.

(** A provider that computes: digests and MACs are 32 bytes cut from the
    input, the cipher prefixes the plaintext with a one-byte tag taken from
    the key and rejects any other tag. *)
Definition pad_to (n : nat) (b : bytes) : bytes := firstn n (b ++ repeat Byte.x00 n).

Definition toy_encrypt (key iv data : bytes) : bytes := hd Byte.x00 key :: data.

Definition toy_decrypt (key iv data : bytes) : option bytes :=
  match data with
  | tag :: plain => if Byte.eqb tag (hd Byte.x00 key) then Some plain else None
  | [] => None
  end.

Definition toy_subtle : WebCrypto :=
  {| sha256 := fun data => pad_to 32 data;
     hmac_sha256 := fun key data => pad_to 32 (data ++ key);
     aes_gcm_encrypt := toy_encrypt;
     aes_gcm_decrypt := toy_decrypt;
     pbkdf2_sha512 := fun password salt _ bits =>
       pad_to (N.to_nat (bits / 8)) (password ++ salt) |}.

Definition zero_entropy : nat -> byte := fun _ => Byte.x00.

Definition key32 : bytes := repeat Byte.x2a 32.

(** The store: one active session between alice and bob with two messages. *)
Definition alice_bob : SessionRow :=
  {| session_id := 1;
     user_a := js "alice"; user_b := js "bob";
     user_a_email := js "alice@example.org"; user_b_email := js "bob@example.org";
     double_encrypted_key_a := js "S0VZQQ=="; double_encrypted_key_b := js "S0VZQg==";
     passphrase_hash := js "SEFTSA=="; salt := js "U0FMVA==";
     iv_a := js "SVZB"; iv_b := js "SVZC";
     wrong_attempts := 0; max_attempts := 3; status := ACTIVE;
     created_at := 1000; last_access := None; locked_at := None |}.

Definition message (n : Z) (from to : jsstring) : MessageRow :=
  {| id := n; uss_session_id := 1; sender := from; receiver := to;
     content := js "Y2lwaGVy"; msg_no := Some n; signature := None;
     verified := false; timestamp := 1000 + n |}.

Definition world0 : World :=
  {| sessions := {[ 1 := alice_bob ]};
     next_session_id := 2;
     uss_messages := [message 1 (js "alice") (js "bob"); message 2 (js "bob") (js "alice")];
     next_message_id := 3;
     security_events := [];
     users := {[ js "alice" := {| signature_key_public := Some (js "PEM-alice") |} ]};
     console := [];
     outbox := [];
     emitted := [];
     queries := 0;
     now := 2000 |}.

(** Everything works: the verifier accepts the signature [c2ln] of alice. *)
Definition healthy : Env :=
  {| db_fails := fun _ => false;
     createUnencryptedZip := fun messages _ => Ok (repeat Byte.x50 (length messages));
     sendMail := fun _ => Ok tt;
     createPublicKey := fun pem => Ok (PublicKeyObject pem);
     buffer_from_base64 := fun s => map byte_of_N s;
     verify_ieee_p1363 := fun _ _ sig => Ok (bool_decide (sig = map byte_of_N (js "c2ln")));
     verify_der := fun _ _ _ => Ok false |}.

(** The first encoding is rejected with an exception, the second accepts. *)
Definition der_signer : Env :=
  {| db_fails := db_fails healthy;
     createUnencryptedZip := createUnencryptedZip healthy;
     sendMail := sendMail healthy;
     createPublicKey := createPublicKey healthy;
     buffer_from_base64 := buffer_from_base64 healthy;
     verify_ieee_p1363 := fun _ _ _ => Throw NodeCryptoError;
     verify_der := fun _ _ _ => Ok true |}.

(** The mail to alice is rejected by the transport, the one to bob is sent. *)
Definition alice_unreachable : Env :=
  {| db_fails := db_fails healthy;
     createUnencryptedZip := createUnencryptedZip healthy;
     sendMail := fun recipient =>
       if bool_decide (recipient = js "alice@example.org") then Throw SmtpError else Ok tt;
     createPublicKey := createPublicKey healthy;
     buffer_from_base64 := buffer_from_base64 healthy;
     verify_ieee_p1363 := verify_ieee_p1363 healthy;
     verify_der := verify_der healthy |}.

(** The archiver fails. *)
Definition archiver_broken : Env :=
  {| db_fails := db_fails healthy;
     createUnencryptedZip := fun _ _ => Throw ArchiverError;
     sendMail := sendMail healthy;
     createPublicKey := createPublicKey healthy;
     buffer_from_base64 := buffer_from_base64 healthy;
     verify_ieee_p1363 := verify_ieee_p1363 healthy;
     verify_der := verify_der healthy |}.

(** The store rejects every query. *)
Definition store_down : Env :=
  {| db_fails := fun _ => true;
     createUnencryptedZip := createUnencryptedZip healthy;
     sendMail := sendMail healthy;
     createPublicKey := createPublicKey healthy;
     buffer_from_base64 := buffer_from_base64 healthy;
     verify_ieee_p1363 := verify_ieee_p1363 healthy;
     verify_der := verify_der healthy |}.

(** Run a sequence of verify requests against one session. *)
Fixpoint verify_requests (env : Env) (sessionId : Z) (attempts : list bool)
    (w : World) : list Response * World :=
  match attempts with
  | [] => ([], w)
  | success :: rest =>
      let '(r, w1) := post_verify env sessionId success w in
      let '(rs, w2) := verify_requests env sessionId rest w1 in
      (match r with Ok resp => [resp] | Throw _ => [] end ++ rs, w2)
  end.

(** A store without sessions, and what alice sends to create one. *)
Definition empty_world : World :=
  {| sessions := ∅;
     next_session_id := 1;
     uss_messages := [];
     next_message_id := 1;
     security_events := [];
     users := ∅;
     console := [];
     outbox := [];
     emitted := [];
     queries := 0;
     now := 1000 |}.

Definition alice_bob_data : SessionData :=
  {| sd_userA := js "alice"; sd_userB := js "bob";
     sd_userAEmail := js "alice@example.org";
     sd_userBEmail := js "bob@example.org";
     sd_doubleEncryptedKeyA := js "S0VZQQ==";
     sd_doubleEncryptedKeyB := js "S0VZQg==";
     sd_passphraseHash := js "SEFTSA=="; sd_salt := js "U0FMVA==";
     sd_ivA := js "SVZB"; sd_ivB := js "SVZC" |}.




(** The store after three failed attempts on the session of alice and bob. *)
Definition world_locked : World :=
  snd (verify_requests healthy 1 [false; false; false] world0).

End Fixtures.
Export Fixtures.

(** ** What is observed of a run *)

Module Observations.

Local Open Scope Z_scope.

(** No query is rejected. *)
Definition db_ok (env : Env) : Prop := forall n, db_fails env n = false.

(** The number of times [activateLockdown] was entered: it announces
    itself on the console before anything else. *)
Definition is_activation (l : LogLine) : bool :=
  match l with
  | LogActivatingLockdown _ => true
  | _ => false
  end.

Definition lockdowns (w : World) : nat :=
  length (List.filter is_activation (console w)).

(** The messages [exportMessages] reads. *)
Definition exported (sessionId : Z) (w : World) : list MessageRow :=
  order_by_timestamp (List.filter (of_session sessionId) (uss_messages w)).

(** The messages that survive the wipe of a session. *)
Definition remaining (sessionId : Z) (w : World) : list MessageRow :=
  List.filter (fun m => negb (of_session sessionId m)) (uss_messages w).

(** The outcome of the mail to one address: nothing is sent to an empty
    address, otherwise the transport accepts or rejects. *)
Definition email_results (env : Env) (email : jsstring) : list bool :=
  if truthy email then
    [match sendMail env email with Ok _ => true | Throw _ => false end]
  else [].

Definition lockdown_emails (env : Env) (row : SessionRow) : list bool :=
  email_results env (user_a_email row) ++ email_results env (user_b_email row).

Definition successful (results : list bool) : nat :=
  length (List.filter (fun r => r) results).

Definition event_types (w : World) : list EventType :=
  map event_type (security_events w).

(** The archiver never fails. *)
Definition zip_ok (env : Env) : Prop :=
  forall messages sessionId, exists zip,
    createUnencryptedZip env messages sessionId = Ok zip.

(** The store, the clock and the number of lockdowns agree. *)
Definition same_store (w w' : World) : Prop :=
  sessions w' = sessions w /\ uss_messages w' = uss_messages w /\
  security_events w' = security_events w /\ queries w' = queries w /\
  now w' = now w /\ lockdowns w' = lockdowns w.

(** The session is stored and locked. *)
Definition locked (sessionId : Z) (w : World) : Prop :=
  exists row, sessions w !! sessionId = Some row /\ status row = LOCKED.

(** An effect keeps a property of the world, however it ends. *)
Definition preserves {A} (P : World -> Prop) (m : M A) : Prop :=
  forall w, P w -> P (snd (m w)).

(** Statements that leave the sessions alone, and updates that keep a
    locked row locked. *)
Definition keeps_sessions (f : World -> World) : Prop :=
  forall w, sessions (f w) = sessions w.

Definition keeps_locked (f : SessionRow -> SessionRow) : Prop :=
  forall row, status row = LOCKED -> status (f row) = LOCKED.

(** The answer of the verify route to a failed attempt that brings the
    counter to [n]. *)
Definition failure_response (n : Z) : Response :=
  if 3 <=? n then {| http_status := 403; body := SessionLocked 0 |}
  else {| http_status := 200; body := IncorrectPassphrase (Z.max 0 (3 - n)) |}.

(** The events a completed lockdown appends. *)
Definition lockdown_events (env : Env) (sessionId : Z) (row : SessionRow)
    (w : World) : list SecurityEvent :=
  [ {| event_type :=
         if (0 <? successful (lockdown_emails env row))%nat
         then BACKUP_SENT else BACKUP_FAILED;
       event_session := sessionId; user_involved := None;
       details := DBackup (successful (lockdown_emails env row))
                    (length (lockdown_emails env row)) (now w) |};
    {| event_type := DATA_WIPED; event_session := sessionId;
       user_involved := None;
       details := DWiped (length (List.filter (of_session sessionId) (uss_messages w)))
                    (now w) |};
    {| event_type := USS_LOCKDOWN; event_session := sessionId;
       user_involved := None;
       details := DLockdown (user_a row) (user_b row)
                    (length (exported sessionId w))
                    (successful (lockdown_emails env row)) (now w) |} ].

(** The event an aborted lockdown appends. *)
Definition lockdown_failure_event (sessionId : Z) (e : Exn) (w : World)
    : SecurityEvent :=
  {| event_type := USS_LOCKDOWN; event_session := sessionId;
     user_involved := None; details := DLockdownFailed e (now w) |}.

End Observations.
Export Observations.

(** ** The sentences of the specification that the code does not satisfy,
       as predicates on a run *)

Module Stated.

Local Open Scope Z_scope.

(** "Reaching maxAttempts invokes the Lockdown Procedure exactly once; no
    later recordAttempt call invokes it a second time": after three
    failed attempts, whatever requests follow, one lockdown has run. *)
Definition lockdown_invoked_exactly_once (env : Env) (id : Z) (w : World) : Prop :=
  forall later : list bool,
    lockdowns (snd (verify_requests env id ([false; false; false] ++ later) w))
    = S (lockdowns w).

(** "Once Locked, recordAttempt always appends SessionAccessDenied and
    returns locked, regardless of the success argument", without resetting
    the counter and without leaving the Locked state. *)
Definition locked_session_denies (env : Env) (id : Z) (success : bool) (w : World)
    : Prop :=
  forall row, sessions w !! id = Some row -> status row = LOCKED ->
    exists resp w' row' later,
      post_verify env id success w = (Ok resp, w') /\
      body resp = SessionLocked 0 /\
      event_types w' = event_types w ++ USS_ACCESS_DENIED :: later /\
      sessions w' !! id = Some row' /\
      status row' = LOCKED /\
      wrong_attempts row <= wrong_attempts row'.

(** "An implementation MUST NOT silently try multiple encodings as a
    fallback": the second encoding is never tried. *)
Definition checks_one_encoding (env : Env) (sender message sig : jsstring) (w : World)
    : Prop :=
  ~ In LogTryingDER (console (snd (verifyMessageSignature env sender message sig w))).




(** "Each step, including each delivery failure, is logged as a Security
    Event": a rejected mail leaves a failure event. *)
Definition delivery_failure_is_logged (env : Env) (id : Z) (w : World) : Prop :=
  forall row email e,
    sessions w !! id = Some row ->
    email = user_a_email row \/ email = user_b_email row ->
    truthy email = true ->
    sendMail env email = Throw e ->
    In BACKUP_FAILED (event_types (snd (activateLockdown env id w))).

(** "Steps ... continuing even if a later step fails": whatever fails,
    the procedure reaches the wipe and the lock. *)
Definition steps_continue (env : Env) (id : Z) (w : World) : Prop :=
  uss_messages (snd (activateLockdown env id w)) = remaining id w /\
  locked id (snd (activateLockdown env id w)).

(** "decrypt(k, n, encrypt(k, n, m)) == m". *)
Definition round_trips (subtle : WebCrypto) (entropy : nat -> byte)
    (k : bytes) (n : N) (m : jsstring) : Prop :=
  exists blob,
    encryptMessage subtle entropy k n m = Ok blob /\
    decryptMessage subtle k n blob = Ok m.

End Stated.
Export Stated.

(** ** The other functions of ussService.js and the other USS routes *)

Module Routes.

(** [getConversationId]: [[userA, userB].sort().join(':')]. *)
Definition getConversationId (userA userB : jsstring) : jsstring :=
  join (js ":") (sort [userA; userB]).

(** The JSON bodies the routes send. *)
Inductive Json :=
  | JError (error : jsstring)
  | JErrorStatus (error : jsstring) (status : Status)
  | JSession (session : SessionView)
  | JStatus (sessionId : Z) (status : Status) (wrongAttempts attemptsRemaining : Z)
            (createdAt : Z) (lastAccess : option Z)
  | JCreated (sessionId : Z) (message : jsstring)
  | JMessages (messages : list MessageRow)
  | JSigningKey (username publicKey : jsstring)
  | JSuccess (message : jsstring).

Inductive RouteLog :=
  | LogUssCreationError (e : Exn)
  | LogUssFetchError (e : Exn)
  | LogUssStatusError (e : Exn)
  | LogFailedToLoadUssMessages (e : Exn)
  | LogErrorFetchingSigningKey (e : Exn)
  | LogErrorUpdatingSigningKey (e : Exn).

(** What a handler does with a request: the status and the body it
    sends, and the lines it writes with [console.error]. *)
Record Reply := {
  code : Z;
  json : Json;
  logged : list RouteLog
}.

Definition send (c : Z) (j : Json) : M Reply :=
  ret {| code := c; json := j; logged := [] |}.

Definition send_error (l : RouteLog) (c : Z) (j : Json) : M Reply :=
  ret {| code := c; json := j; logged := [l] |}.

(** The body of [POST /api/uss/create]; [userAEmail] and [userBEmail] of
    the body are not read. *)
Record CreateRequest := {
  cr_userA : option jsstring;
  cr_userB : option jsstring;
  cr_doubleEncryptedKeyA : option jsstring;
  cr_doubleEncryptedKeyB : option jsstring;
  cr_passphraseHash : option jsstring;
  cr_salt : option jsstring;
  cr_ivA : option jsstring;
  cr_ivB : option jsstring
}.

(** The body the client sends for the data of a session. *)
Definition request_of (d : SessionData) : CreateRequest :=
  {| cr_userA := Some (sd_userA d);
     cr_userB := Some (sd_userB d);
     cr_doubleEncryptedKeyA := Some (sd_doubleEncryptedKeyA d);
     cr_doubleEncryptedKeyB := Some (sd_doubleEncryptedKeyB d);
     cr_passphraseHash := Some (sd_passphraseHash d);
     cr_salt := Some (sd_salt d);
     cr_ivA := Some (sd_ivA d);
     cr_ivB := Some (sd_ivB d) |}.

(** No field the route checks is empty. *)
Definition complete (d : SessionData) : bool :=
  truthy (sd_userA d) && truthy (sd_userB d)
  && truthy (sd_doubleEncryptedKeyA d) && truthy (sd_doubleEncryptedKeyB d)
  && truthy (sd_passphraseHash d) && truthy (sd_salt d)
  && truthy (sd_ivA d) && truthy (sd_ivB d).

Definition active (r : SessionRow) : bool :=
  match status r with ACTIVE => true | _ => false end.

(** [ORDER BY created_at DESC LIMIT 1]: the row created last; of two rows
    created at the same time the store may return either, the one with the
    smaller id is taken. *)
Definition created_after (r best : SessionRow) : bool :=
  ((created_at best <? created_at r)
   || ((created_at best =? created_at r) && (session_id r <? session_id best)))%Z.

Fixpoint latest (rows : list SessionRow) : option SessionRow :=
  match rows with
  | [] => None
  | r :: rows' =>
      match latest rows' with
      | Some best => if created_after r best then Some r else Some best
      | None => Some r
      end
  end.

Definition set_users (u : gmap jsstring UserRow) (w : World) : World :=
  {| sessions := sessions w; next_session_id := next_session_id w;
     uss_messages := uss_messages w; next_message_id := next_message_id w;
     security_events := security_events w; users := u;
     console := console w; outbox := outbox w; emitted := emitted w;
     queries := queries w; now := now w |}.

(** [UPDATE users SET signature_key_public = ? WHERE username = ?] *)
Definition update_signature_key (username publicKeyPem : jsstring) (w : World)
    : unit * World :=
  (tt, set_users
         (alter (fun _ => {| signature_key_public := Some publicKeyPem |})
                username (users w)) w).

Section WithEnv.

Context (env : Env).

(** The store compares user names by the collation of the table
    ([same_name]); the [email] column of [users] is only read here. *)
Context (same_name : jsstring -> jsstring -> bool).
Context (emails : gmap jsstring jsstring).

Local Open Scope server_scope.
Local Open Scope Z_scope.

(** [WHERE ((user_a = ? AND user_b = ?) OR (user_a = ? AND user_b = ?))
    AND status = 'ACTIVE'] *)
Definition of_users (userA userB : jsstring) (r : SessionRow) : bool :=
  (same_name (user_a r) userA && same_name (user_b r) userB)
  || (same_name (user_a r) userB && same_name (user_b r) userA).

Definition between_users (userA userB : jsstring) (r : SessionRow) : bool :=
  of_users userA userB r && active r.

Definition select_active_session (userA userB : jsstring) (w : World)
    : option SessionRow * World :=
  (latest (List.filter (between_users userA userB)
             (map snd (map_to_list (sessions w)))), w).

(** [SELECT email FROM users WHERE username = ?] *)
Definition select_email (username : jsstring) (w : World) : option jsstring * World :=
  (emails !! username, w).

Definition getUSSSessionByUsers (userA userB requestingUser : jsstring)
    : M (option SessionView) :=
  rows <- db_query env (select_active_session userA userB) ;;
  match rows with
  | None => ret None
  | Some session =>
      let isUserA := bool_decide (requestingUser = user_a session) in
      let doubleEncryptedKey :=
        if isUserA then double_encrypted_key_a session
        else double_encrypted_key_b session in
      let iv := if isUserA then iv_a session else iv_b session in
      ret (Some
        {| sessionId := session_id session;
           userA := user_a session;
           userB := user_b session;
           doubleEncryptedKey := doubleEncryptedKey;
           passphraseHash := passphrase_hash session;
           view_salt := salt session;
           iv := iv;
           wrongAttempts := wrong_attempts session;
           view_status := status session;
           createdAt := created_at session;
           lastAccess := last_access session |})
  end.

(** [POST /api/uss/create] *)
Definition post_create (req : CreateRequest) : M Reply :=
  try_catch
    (match truthy_string (cr_userA req), truthy_string (cr_userB req) with
     | Some userA, Some userB =>
         match truthy_string (cr_doubleEncryptedKeyA req),
               truthy_string (cr_doubleEncryptedKeyB req),
               truthy_string (cr_passphraseHash req),
               truthy_string (cr_salt req),
               truthy_string (cr_ivA req),
               truthy_string (cr_ivB req) with
         | Some keyA, Some keyB, Some hash, Some salt, Some ivA, Some ivB =>
             (* Fetch user emails from database *)
             userAData <- db_query env (select_email userA) ;;
             userBData <- db_query env (select_email userB) ;;
             match userAData, userBData with
             | Some userAEmail, Some userBEmail =>
                 sessionId <- createUSSSession env
                   {| sd_userA := userA; sd_userB := userB;
                      sd_userAEmail := userAEmail; sd_userBEmail := userBEmail;
                      sd_doubleEncryptedKeyA := keyA;
                      sd_doubleEncryptedKeyB := keyB;
                      sd_passphraseHash := hash; sd_salt := salt;
                      sd_ivA := ivA; sd_ivB := ivB |} ;;
                 send 201 (JCreated sessionId
                             (js "Ultra Secure Session created successfully"))
             | _, _ => send 404 (JError (js "One or both users not found"))
             end
         | _, _, _, _, _, _ =>
             send 400 (JError (js "Missing required encryption data"))
         end
     | _, _ => send 400 (JError (js "Missing required user information"))
     end)
    (fun error =>
       send_error (LogUssCreationError error)
         500 (JError (js "Failed to create Ultra Secure Session"))).

(** [GET /api/uss/users/:userA/:userB?requestingUser=...] *)
Definition get_session_by_users (userA userB : jsstring)
    (requestingUser : option jsstring) : M Reply :=
  try_catch
    (match truthy_string requestingUser with
     | None => send 400 (JError (js "requestingUser query parameter required"))
     | Some user =>
         session <- getUSSSessionByUsers userA userB user ;;
         match session with
         | None => send 404 (JError (js "No active session found"))
         | Some s =>
             match view_status s with
             | LOCKED =>
                 send 403 (JErrorStatus (js "Session locked due to security concerns")
                             LOCKED)
             | _ => send 200 (JSession s)
             end
         end
     end)
    (fun error =>
       send_error (LogUssFetchError error) 500 (JError (js "Failed to fetch session"))).

(** [GET /api/uss/:sessionId/status?requestingUser=...] *)
Definition get_status (sessionId : Z) (requestingUser : option jsstring) : M Reply :=
  try_catch
    (match truthy_string requestingUser with
     | None => send 400 (JError (js "requestingUser required"))
     | Some user =>
         session <- getUSSSession env sessionId user ;;
         match session with
         | None => send 404 (JError (js "Session not found"))
         | Some s =>
             send 200 (JStatus (USS.sessionId s) (view_status s) (wrongAttempts s)
                         (Z.max 0 (3 - wrongAttempts s))
                         (createdAt s) (lastAccess s))
         end
     end)
    (fun error =>
       send_error (LogUssStatusError error) 500 (JError (js "Failed to fetch status"))).

(** [GET /api/uss/messages/session/:sessionId] *)
Definition get_messages (sessionId : Z) : M Reply :=
  try_catch
    (rows <- db_query env (select_messages sessionId) ;;
     send 200 (JMessages rows))
    (fun err =>
       send_error (LogFailedToLoadUssMessages err)
         500 (JError (js "Internal server error"))).

(** signatureService.storeSigningKey *)
Definition storeSigningKey (username publicKeyPem : jsstring) : M unit :=
  db_query env (update_signature_key username publicKeyPem).

(** [GET /api/signatures/:username] *)
Definition get_signing_key (username : jsstring) : M Reply :=
  try_catch
    (publicKey <- getSigningKey env username ;;
     match publicKey with
     | None => send 404 (JError (js "Signing key not found"))
     | Some key => send 200 (JSigningKey username key)
     end)
    (fun err =>
       send_error (LogErrorFetchingSigningKey err)
         500 (JError (js "Internal server error"))).

(** [PUT /api/signatures/:username] with body [{ publicKey }] *)
Definition put_signing_key (username : jsstring) (publicKey : option jsstring)
    : M Reply :=
  try_catch
    (match truthy_string publicKey with
     | None => send 400 (JError (js "Public key is required"))
     | Some key =>
         storeSigningKey username key ;;
         send 200 (JSuccess (js "Signing key updated"))
     end)
    (fun err =>
       send_error (LogErrorUpdatingSigningKey err)
         500 (JError (js "Internal server error"))).

End WithEnv.

End Routes.

Export Routes.

(** ** What is observed of the routes *)

Module RouteObservations.

Local Open Scope Z_scope.

(** The answer of [GET /api/uss/:sessionId] by the status of the row. *)
Definition fetch_response (user : jsstring) (row : SessionRow) : Response :=
  match status row with
  | ACTIVE =>
      {| http_status := 200;
         body := SessionJson
           {| sessionId := session_id row; userA := user_a row; userB := user_b row;
              doubleEncryptedKey :=
                if bool_decide (user = user_a row) then double_encrypted_key_a row
                else double_encrypted_key_b row;
              passphraseHash := passphrase_hash row; view_salt := salt row;
              iv := if bool_decide (user = user_a row) then iv_a row else iv_b row;
              wrongAttempts := wrong_attempts row; view_status := ACTIVE;
              createdAt := created_at row; lastAccess := last_access row |} |}
  | LOCKED => {| http_status := 403; body := LockedStatus |}
  | DELETED => {| http_status := 410; body := DeletedStatus |}
  end.

(** The data of a session with the addresses the store has for the two
    users. *)
Definition with_emails (emailA emailB : jsstring) (d : SessionData) : SessionData :=
  {| sd_userA := sd_userA d; sd_userB := sd_userB d;
     sd_userAEmail := emailA; sd_userBEmail := emailB;
     sd_doubleEncryptedKeyA := sd_doubleEncryptedKeyA d;
     sd_doubleEncryptedKeyB := sd_doubleEncryptedKeyB d;
     sd_passphraseHash := sd_passphraseHash d; sd_salt := sd_salt d;
     sd_ivA := sd_ivA d; sd_ivB := sd_ivB d |}.

(** Messages in the order of their timestamps. *)
Definition chronological (l : list MessageRow) : Prop :=
  StronglySorted (fun a b => timestamp a <= timestamp b) l.

(** An effect that neither reads nor writes the sessions: it runs the
    same whatever the table holds, and leaves it as it was. *)
Definition ignores_sessions {A} (m : M A) : Prop :=
  forall s w, m (set_sessions s w) = (fst (m w), set_sessions s (snd (m w))).

End RouteObservations.
Export RouteObservations.

(** ** crypto.js: PEM, key pairs, signatures and the wrapped session key *)

Module Keys.

(** *** Strings *)

(** The line terminators, which [.] does not match, and the white space of
    [\s] and of [trim]. *)
Definition is_line_terminator (c : N) : bool :=
  (c =? 10) || (c =? 13) || (c =? 0x2028) || (c =? 0x2029).

Definition is_white_space (c : N) : bool :=
  between 9 13 c || (c =? 32) || (c =? 0xA0) || (c =? 0x1680)
  || between 0x2000 0x200A c || (c =? 0x2028) || (c =? 0x2029)
  || (c =? 0x202F) || (c =? 0x205F) || (c =? 0x3000) || (c =? 0xFEFF).

Definition nonempty (s : jsstring) : list jsstring :=
  match s with [] => [] | _ => [s] end.

(** [s.match(/.{1,64}/g)]: the matches are the longest runs of at most 64
    characters without a line terminator, from left to right; [cur] is the
    match being read.  The result is [null] when there is no match. *)
Fixpoint chunks_from (cur s : jsstring) : list jsstring :=
  match s with
  | [] => nonempty cur
  | c :: s' =>
      if is_line_terminator c then nonempty cur ++ chunks_from [] s'
      else if (length cur =? 64)%nat then cur :: chunks_from [c] s'
      else chunks_from (cur ++ [c]) s'
  end.

Definition match_chunks (s : jsstring) : option (list jsstring) :=
  match chunks_from [] s with
  | [] => None
  | chunks => Some chunks
  end.

Fixpoint starts_with (p s : jsstring) : bool :=
  match p, s with
  | [], _ => true
  | _ :: _, [] => false
  | x :: p', y :: s' => (x =? y) && starts_with p' s'
  end.

(** [s.replace(p, '')] for a string [p]: the first occurrence is removed. *)
Fixpoint replace_first (p s : jsstring) : jsstring :=
  if starts_with p s then skipn (length p) s
  else match s with
       | [] => []
       | c :: s' => c :: replace_first p s'
       end.

(** [s.replace(/\s+/g, '')] *)
Definition remove_white_space (s : jsstring) : jsstring :=
  List.filter (fun c => negb (is_white_space c)) s.

Fixpoint trim_start (s : jsstring) : jsstring :=
  match s with
  | c :: s' => if is_white_space c then trim_start s' else s
  | [] => []
  end.

Definition trim (s : jsstring) : jsstring :=
  rev (trim_start (rev (trim_start s))).

(** *** PEM *)

Definition pem_header : jsstring := js "-----BEGIN PUBLIC KEY-----".
Definition pem_footer : jsstring := js "-----END PUBLIC KEY-----".

Definition spkiToPem (spkiBytes : bytes) : Result jsstring :=
  (b64 <- btoa (map Byte.to_N spkiBytes) ;;
   match match_chunks b64 with
   | None => Throw TypeError       (* null.join *)
   | Some chunks =>
       let wrapped := join [10] chunks in
       Ok (pem_header ++ [10] ++ wrapped ++ [10] ++ pem_footer)
   end)%result.

(** The first two statements of [importPublicKeyFromPem] and of
    [importSigningPublicKey]: the DER bytes between the two markers. *)
Definition pem_to_der (pem : jsstring) : Result bytes :=
  let b64 := remove_white_space
               (replace_first pem_footer (replace_first pem_header pem)) in
  (binary <- atob b64 ;;
   Ok (map byte_of_N binary))%result.

(** *** The asymmetric part of the Web Crypto provider *)

Inductive AsymAlgorithm := RSA_OAEP | ECDSA_P256.

Record Asymmetric := {
  public_key : Type;
  private_key : Type;
  jwk : Type;
  (** [importKey('spki', der, alg, true, ...)] *)
  importKey_spki : AsymAlgorithm -> bytes -> Result public_key;
  (** [importKey('jwk', jwk, alg, false, ...)] *)
  importKey_jwk : AsymAlgorithm -> jwk -> Result private_key;
  (** [exportKey('spki', key)] and [exportKey('jwk', key)] *)
  exportKey_spki : public_key -> Result bytes;
  exportKey_jwk : private_key -> Result jwk;
  (** [encrypt({name: 'RSA-OAEP'}, key, data)], [decrypt(...)] *)
  rsa_oaep_encrypt : public_key -> bytes -> Result bytes;
  rsa_oaep_decrypt : private_key -> bytes -> Result bytes;
  (** [sign({name: 'ECDSA', hash: 'SHA-256'}, key, data)] and
      [verify(..., key, signature, data)] *)
  ecdsa_sign : private_key -> bytes -> Result bytes;
  ecdsa_verify : public_key -> bytes -> bytes -> Result bool
}.

(** What is assumed of two keys that form a pair: what is encrypted for
    the public key is decrypted by the private key; a signature made with
    the private key is not empty and verifies under the public key. *)
Definition rsa_pair (asym : Asymmetric)
    (pub : public_key asym) (priv : private_key asym) : Prop :=
  forall data encrypted,
    rsa_oaep_encrypt asym pub data = Ok encrypted ->
    rsa_oaep_decrypt asym priv encrypted = Ok data.

Definition signing_pair (asym : Asymmetric)
    (pub : public_key asym) (priv : private_key asym) : Prop :=
  forall data signature,
    ecdsa_sign asym priv data = Ok signature ->
    signature <> [] /\ ecdsa_verify asym pub signature data = Ok true.

(** What is assumed of the sizes: PBKDF2 returns the 256 bits asked for,
    and an AES-GCM ciphertext, which carries the tag, is not empty. *)
Record sized (subtle : WebCrypto) : Prop := {
  kdf_length : forall password salt count,
    length (pbkdf2_sha512 subtle password salt count 256) = 32%nat;
  ciphertext_not_empty : forall key iv data,
    aes_gcm_encrypt subtle key iv data <> []
}.

(** What the console shows of [verifySignature]. *)
Inductive ClientLog :=
  | WarnMissingParameters
  | WarnInvalidSignatureBytes
  | ErrorSignatureVerification (e : Exn).

Section WithProvider.

Context (subtle : WebCrypto) (asym : Asymmetric).
Local Open Scope result_scope.

Definition importPublicKeyFromPem (pem : jsstring) : Result (public_key asym) :=
  der <- pem_to_der pem ;;
  importKey_spki asym RSA_OAEP der.

Definition importPrivateKeyFromJwk (j : jwk asym) : Result (private_key asym) :=
  importKey_jwk asym RSA_OAEP j.

Definition exportSigningPublicKey (publicKey : public_key asym) : Result jsstring :=
  spki <- exportKey_spki asym publicKey ;;
  spkiToPem spki.

Definition exportSigningPrivateKey (privateKey : private_key asym)
    : Result (jwk asym) :=
  exportKey_jwk asym privateKey.

Definition importSigningPublicKey (pem : jsstring) : Result (public_key asym) :=
  der <- pem_to_der pem ;;
  importKey_spki asym ECDSA_P256 der.

Definition importSigningPrivateKey (j : jwk asym) : Result (private_key asym) :=
  importKey_jwk asym ECDSA_P256 j.

Definition signMessage (privateKey : private_key asym) (message : jsstring)
    : Result jsstring :=
  let messageBytes := TEXT_ENCODER_encode message in
  signatureBuffer <- ecdsa_sign asym privateKey messageBytes ;;
  arrayBufferToBase64 signatureBuffer.

(** [verifySignature] never rejects: it returns a boolean, and writes a
    line on the console when it gives up. *)
Definition verifySignature (publicKey : option (public_key asym))
    (message signatureBase64 : option jsstring) : bool * list ClientLog :=
  match truthy_string signatureBase64, truthy_string message, publicKey with
  | Some signature, Some message, Some key =>
      let attempt : Result (bool * list ClientLog) :=
        let messageBytes := TEXT_ENCODER_encode message in
        signatureBytes <- base64ToUint8Array signature ;;
        if (length signatureBytes =? 0)%nat then
          Ok (false, [WarnInvalidSignatureBytes])
        else
          isValid <- ecdsa_verify asym key signatureBytes messageBytes ;;
          Ok (isValid, []) in
      match attempt with
      | Ok r => r
      | Throw error => (false, [ErrorSignatureVerification error])
      end
  | _, _, _ => (false, [WarnMissingParameters])
  end.

Definition generateRandomSessionKey (entropy : nat -> byte) : bytes :=
  getRandomValues entropy 32.

Definition encryptSessionKeyWithRSA (sessionKey : bytes) (publicKeyPem : jsstring)
    : Result jsstring :=
  publicKey <- importPublicKeyFromPem publicKeyPem ;;
  encrypted <- rsa_oaep_encrypt asym publicKey sessionKey ;;
  arrayBufferToBase64 encrypted.

Definition decryptSessionKeyWithRSA (encryptedKeyBase64 : jsstring)
    (privateKeyJwk : jwk asym) : Result bytes :=
  privateKey <- importPrivateKeyFromJwk privateKeyJwk ;;
  encrypted <- base64ToUint8Array encryptedKeyBase64 ;;
  rsa_oaep_decrypt asym privateKey encrypted.

End WithProvider.

End Keys.
Export Keys.

(** ** The components that create and open a hardened session
       (CreateUSSModal.jsx, PassphraseEntry.jsx) *)

Module Client.

(** The state of the creation form. *)
Record CreateForm := {
  selectedUser : jsstring;
  passphrase : jsstring;
  confirmPassphrase : jsstring;
  form_strength : option StrengthReport
}.

Inductive ClientError :=
  | OwnRsaKeyNotFound         (* 'Your RSA key not found. ...' *)
  | RecipientRsaKeyNotFound   (* 'Recipient RSA public key not found. ...' *)
  | Thrown (e : Exn).

(** What [handleCreateSession] ends with: a warning of the validation, the
    request it posts to [/api/uss/create], or the error it shows. *)
Inductive CreateOutcome :=
  | Warning (title message : jsstring)
  | Posts (body : SessionData)
  | CreationFailed (e : ClientError).

(** What [handleVerify] ends with: the request for a passphrase, the
    session key handed to [onAccessGranted] (after it has reported the
    success to the server), or the failure it reports to the server. *)
Inductive VerifyOutcome :=
  | InputRequired
  | AccessGrantedWith (sessionKey : bytes)
  | ReportsFailure (e : Exn).

Section WithProvider.

Context (subtle : WebCrypto) (asym : Asymmetric).

(** [entropy n] is what the n-th call of [crypto.getRandomValues] reads. *)
Context (entropy : nat -> nat -> byte).

Definition example_com (user : jsstring) : jsstring := user ++ js "@example.com".

(** The [try] block of [handleCreateSession]. *)
Definition create_session_body (currentUser : jsstring)
    (currentUserRsaKey recipientRsaKey : option jsstring)
    (form : CreateForm) : Result SessionData + ClientError :=
  (* 1. Generate random 256-bit session key *)
  let sessionKey := generateRandomSessionKey (entropy 0) in
  (* 2. Get both users' RSA public keys *)
  match truthy_string currentUserRsaKey with
  | None => inr OwnRsaKeyNotFound
  | Some ownKey =>
      match truthy_string recipientRsaKey with
      | None => inr RecipientRsaKeyNotFound
      | Some recipientKey =>
          inl ((* 3. Encrypt session key with both RSA public keys *)
               rsaEncryptedKeyA <- encryptSessionKeyWithRSA asym sessionKey ownKey ;;
               rsaEncryptedKeyB <- encryptSessionKeyWithRSA asym sessionKey recipientKey ;;
               (* 4. Generate salt for passphrase derivation *)
               let salt := getRandomValues (entropy 1) 32 in
               (* 5. Encrypt RSA-encrypted keys with passphrase *)
               bytesA <- base64ToUint8Array rsaEncryptedKeyA ;;
               a <- encryptWithPassphrase subtle (entropy 2) bytesA
                      (passphrase form) salt ;;
               bytesB <- base64ToUint8Array rsaEncryptedKeyB ;;
               b <- encryptWithPassphrase subtle (entropy 3) bytesB
                      (passphrase form) salt ;;
               (* 6. Hash passphrase for server verification *)
               passphraseHash <- hashPassphrase subtle (passphrase form) salt ;;
               salt64 <- arrayBufferToBase64 salt ;;
               Ok {| sd_userA := currentUser;
                     sd_userB := selectedUser form;
                     sd_userAEmail := example_com currentUser;
                     sd_userBEmail := example_com (selectedUser form);
                     sd_doubleEncryptedKeyA := fst a;
                     sd_doubleEncryptedKeyB := fst b;
                     sd_passphraseHash := passphraseHash;
                     sd_salt := salt64;
                     sd_ivA := snd a;
                     sd_ivB := snd b |})%result
      end
  end.

Definition handleCreateSession (currentUser : jsstring)
    (currentUserRsaKey recipientRsaKey : option jsstring)
    (form : CreateForm) : CreateOutcome :=
  if negb (truthy (selectedUser form)) then
    Warning (js "Validation Error") (js "Please select a user")
  else if negb (truthy (passphrase form)) || negb (truthy (confirmPassphrase form)) then
    Warning (js "Validation Error") (js "Please enter and confirm your passphrase")
  else if negb (bool_decide (passphrase form = confirmPassphrase form)) then
    Warning (js "Validation Error") (js "Passphrases do not match")
  else if match form_strength form with
          | Some s => negb (valid s)
          | None => true
          end then
    Warning (js "Weak Passphrase") (js "Please create a stronger passphrase")
  else
    match create_session_body currentUser currentUserRsaKey recipientRsaKey form with
    | inl (Ok body) => Posts body
    | inl (Throw e) => CreationFailed (Thrown e)
    | inr e => CreationFailed e
    end.

(** [handleVerify] of the passphrase entry, for the session the server
    served and the private key kept in the local storage. *)
Definition handleVerify (session : SessionView) (passphrase : jsstring)
    (privateKeyJwk : option (jwk asym)) : VerifyOutcome :=
  if negb (truthy passphrase) then InputRequired
  else
    let attempt : Result bytes :=
      ((* 1. Try to decrypt the double-encrypted session key *)
       salt <- base64ToUint8Array (view_salt session) ;;
       let iv := iv session in
       let doubleEncryptedKey := doubleEncryptedKey session in
       (* 2. Decrypt with passphrase *)
       rsaEncryptedKeyBytes <-
         decryptWithPassphrase subtle doubleEncryptedKey iv passphrase salt ;;
       (* 3. Convert to base64 for RSA decryption *)
       rsaEncryptedKey <- arrayBufferToBase64 rsaEncryptedKeyBytes ;;
       (* 4. Decrypt with RSA private key *)
       match privateKeyJwk with
       | None => Throw TypeError
       | Some j => decryptSessionKeyWithRSA asym rsaEncryptedKey j
       end)%result in
    match attempt with
    | Ok sessionKey => AccessGrantedWith sessionKey
    | Throw error => ReportsFailure error
    end.

(** *** USSChatView.jsx *)

(** [String(msg.msgNo)] for what the store returns in [msg_no]: [null] or
    an integer (one that a double holds exactly). *)
Definition String_of_msgNo (msgNo : option Z) : jsstring :=
  match msgNo with
  | None => js "null"
  | Some n =>
      if (n <? 0)%Z then js "-" ++ String_of (Z.to_N (- n)) else String_of (Z.to_N n)
  end.

(** [decryptMessage(sessionKey, msg.msgNo, msg.content)] for a stored
    message: [deriveMessageKey] and [decryptMessage] of crypto.js, the
    message number being what the store returned. *)
Definition decryptStored (sessionKeyRaw : bytes) (msgNo : option Z)
    (base64Cipher : jsstring) : Result jsstring :=
  (let msgNoBytes := TEXT_ENCODER_encode (String_of_msgNo msgNo) in
   hmacKey <- importKey HMAC sessionKeyRaw ;;
   let signature := hmac_sha256 subtle (raw hmacKey) msgNoBytes in
   aesKey <- importKey AES_GCM (slice_to 32 signature) ;;
   combined <- base64ToUint8Array base64Cipher ;;
   let iv := slice_to 12 combined in
   let cipher := slice_from 12 combined in
   plainBuf <- subtle_decrypt subtle aesKey iv cipher ;;
   Ok (TEXT_DECODER_decode plainBuf))%result.

(** What [handleSend] ends with: nothing, the request it posts to
    [/api/uss/messages], or the error it shows. *)
Inductive SendOutcome :=
  | NothingSent
  | PostsMessage (request : SendRequest)
  | SendFailed (e : Exn).

(** [handleSend], up to the request: [msgNo] is [Date.now()]. *)
Definition handleSend (sessionKey : bytes) (sessionId : Z)
    (currentUser otherUser newMessage : jsstring)
    (signingPrivateKey : option (private_key asym)) (socket : bool)
    (msgNo : N) : SendOutcome :=
  match signingPrivateKey with
  | Some signingKey =>
      if negb (truthy (trim newMessage)) || negb socket then NothingSent
      else
        let messageText := trim newMessage in
        let attempt : Result SendRequest :=
          ((* Encrypt with USS session key *)
           encrypted <- encryptMessage subtle (entropy 0) sessionKey msgNo messageText ;;
           (* Sign *)
           signature <- signMessage asym signingKey encrypted ;;
           Ok {| req_ussSessionId := Some sessionId;
                 req_sender := Some currentUser;
                 req_receiver := Some otherUser;
                 req_message := Some encrypted;
                 req_msgNo := Some (Z.of_N msgNo);
                 req_signature := Some signature |})%result in
        match attempt with
        | Ok request => PostsMessage request
        | Throw err => SendFailed err
        end
  | None => NothingSent
  end.

(** What is shown of a message. *)
Record Shown := {
  decryptedContent : jsstring;
  shown_verified : bool
}.

(** The function [loadMessages] maps over the messages of the session:
    [senderKey] is the [publicKey] field of the answer of
    [/api/signatures/:sender]. *)
Definition show_message (sessionKey : bytes) (senderKey : option jsstring)
    (msg : MessageRow) : Shown :=
  let attempt : Result Shown :=
    (plaintext <- decryptStored sessionKey (msg_no msg) (content msg) ;;
     (* Verify signature *)
     verified <-
       match truthy_string (signature msg), truthy_string senderKey with
       | Some _, Some publicKey =>
           senderPublicKey <- importSigningPublicKey asym publicKey ;;
           Ok (fst (verifySignature asym (Some senderPublicKey)
                      (Some (content msg)) (signature msg)))
       | _, _ => Ok false
       end ;;
     Ok {| decryptedContent := plaintext; shown_verified := verified |})%result in
  match attempt with
  | Ok shown => shown
  | Throw err =>
      {| decryptedContent := js "[Decryption failed]"; shown_verified := false |}
  end.

End WithProvider.

End Client.
Export Client.

(** ** What is observed of the client *)

Module ClientObservations.

(** A character that is neither white space nor a hyphen. *)
Definition plain (c : N) : bool := negb (is_white_space c) && negb (c =? 45).

(** The request the creation form posts, given what RSA-OAEP returned
    for the session key under the two public keys. *)
Definition created_request (subtle : WebCrypto) (entropy : nat -> nat -> byte)
    (currentUser : jsstring) (form : CreateForm) (encryptedA encryptedB : bytes)
    : SessionData :=
  let salt := getRandomValues (entropy 1%nat) 32 in
  let key :=
    pbkdf2_sha512 subtle (TEXT_ENCODER_encode (passphrase form)) salt iterations 256 in
  {| sd_userA := currentUser;
     sd_userB := selectedUser form;
     sd_userAEmail := example_com currentUser;
     sd_userBEmail := example_com (selectedUser form);
     sd_doubleEncryptedKeyA :=
       b64_encode (map Byte.to_N
         (aes_gcm_encrypt subtle key (getRandomValues (entropy 2%nat) 12) encryptedA));
     sd_doubleEncryptedKeyB :=
       b64_encode (map Byte.to_N
         (aes_gcm_encrypt subtle key (getRandomValues (entropy 3%nat) 12) encryptedB));
     sd_passphraseHash := b64_encode (map Byte.to_N key);
     sd_salt := b64_encode (map Byte.to_N salt);
     sd_ivA := b64_encode (map Byte.to_N (getRandomValues (entropy 2%nat) 12));
     sd_ivB := b64_encode (map Byte.to_N (getRandomValues (entropy 3%nat) 12)) |}.

End ClientObservations.
Export ClientObservations.

(** ** A stand-in for the asymmetric primitives

    The two keys of a pair are the same bytes: encryption and signature
    prefix the data with the key, decryption and verification check the
    prefix. *)

Module ToyKeys.

Definition sealed (key data : bytes) : bytes := key ++ data.

Definition unseal (key sealed : bytes) : Result bytes :=
  if bool_decide (firstn (length key) sealed = key)
  then Ok (skipn (length key) sealed)
  else Throw OperationError.

Definition toy_asym : Asymmetric :=
  {| public_key := bytes;
     private_key := bytes;
     jwk := bytes;
     importKey_spki := fun _ der => if (length der =? 0)%nat then Throw DataError else Ok der;
     importKey_jwk := fun _ j => Ok j;
     exportKey_spki := fun key => Ok key;
     exportKey_jwk := fun key => Ok key;
     rsa_oaep_encrypt := fun key data => Ok (sealed key data);
     rsa_oaep_decrypt := unseal;
     ecdsa_sign := fun key data => Ok (sealed key data);
     ecdsa_verify := fun key signature data =>
       Ok (bool_decide (signature = sealed key data)) |}.

Definition alice_key : bytes := repeat Byte.x41 70.
Definition bob_key : bytes := repeat Byte.x42 70.

(** The n-th call of [getRandomValues] reads the byte n. *)
Definition counting_entropy (n : nat) : nat -> byte :=
  fun _ => byte_of_N (N.of_nat n).

Definition pem_of (der : bytes) : jsstring :=
  match spkiToPem der with
  | Ok pem => pem
  | Throw _ => []
  end.

Definition directory : gmap jsstring jsstring :=
  {[ js "alice" := js "alice@example.org"; js "bob" := js "bob@example.org" ]}.

Definition snow_leopard : CreateForm :=
  {| selectedUser := js "bob";
     passphrase := js "Sn0wLeopard!2024";
     confirmPassphrase := js "Sn0wLeopard!2024";
     form_strength := Some (validatePassphraseStrength (js "Sn0wLeopard!2024")) |}.

End ToyKeys.
Export ToyKeys.

(** ** The chat server: its state, its collaborators and its effects *)

Module ChatServer.

(** The message object: what a client sends over the socket, what the
    message route builds, and what [saveMessageToDb] returns.  A field
    that is absent is [None]. *)
Record Message := {
  msg_id : option Z;
  msg_sender : option jsstring;
  msg_receiver : option jsstring;
  msg_content : option jsstring;
  msg_msgNo : option Z;
  msg_signature : option jsstring;
  msg_verified : bool;
  msg_type : option jsstring;
  msg_delivered : bool
}.

(** A row of [messages]. *)
Record ChatRow := {
  row_id : Z;
  row_sender : jsstring;
  row_receiver : jsstring;
  row_content : option jsstring;
  row_msg_no : option Z;
  row_signature : option jsstring;
  row_verified : bool;
  row_type : option jsstring;
  row_delivered : bool;
  row_timestamp : Z
}.

(** A row of [users], by the columns the login reads. *)
Record Account := {
  password_hash : jsstring;
  email : jsstring
}.

(** What is emitted over socket.io. *)
Inductive Payload :=
  | MessageEvent (m : Message)               (* 'message', a message object *)
  | StoredMessageEvent (row : ChatRow)       (* 'message', a stored row *)
  | MessageSaved (m : Message)               (* 'message-saved' *)
  | ActiveUsers (users : list jsstring)      (* 'activeUsers' *)
  | UssMessage (m : MessageObj)              (* 'uss_message' *)
  | UssMessageSent (success : bool) (id : option Z).   (* 'uss_message_sent' *)

Inductive Emitted :=
  | ToSocket (socketId : jsstring) (payload : Payload)
  | ToAll (payload : Payload).

Inductive ChatLog :=
  | LogUserConnected (username : jsstring)
  | LogUserDisconnected (username : jsstring)
  | LogDelivered (receiver : jsstring)
  | LogReceiverOffline (receiver : option jsstring)
  | LogDeliveryError (e : Exn)
  | LogMessageSignature (valid : bool)
  | LogFailedToSendMessage (e : Exn)
  | LogFailedToLoadConversation (e : Exn)
  | LogRegisterError (e : Exn)
  | LogChatError (e : Exn)
  | LogUssReceived (m : MessageObj)
  | LogUssDelivered (receiver : jsstring)
  | LogUssReceiverOffline (receiver : jsstring)
  | LogUssError (e : Exn)
  | LogSocketDisconnected (socketId : jsstring)
  | LogLoginError (e : Exn)
  | LogLogout (username : jsstring).

(** [userSockets]: a [Map] from user names to [Set]s of socket ids, both
    in insertion order. *)
Abbreviation SocketMap := (list (jsstring * list jsstring)).

(** The state of the chat server: the state of the hardened sessions, the
    map of the connected users, the [messages] and [users] tables, the
    name each socket registered under, and what was emitted and logged. *)
Record ChatState := {
  base : World;
  userSockets : SocketMap;
  messages : list ChatRow;
  next_chat_id : Z;
  accounts : list (jsstring * Account);
  socket_data : list (jsstring * jsstring);
  sent : list Emitted;
  chat_log : list ChatLog
}.

(** The collaborators: those of the hardened sessions, socket.io (an
    emit to [socketId] throws when [emit_throws socketId]) and bcrypt. *)
Record ChatEnv := {
  server_env : Env;
  emit_throws : jsstring -> bool;
  bcrypt_compare : jsstring -> jsstring -> Result bool
}.

Definition C (A : Type) : Type := ChatState -> Result A * ChatState.

Definition cret {A} (a : A) : C A := fun c => (Ok a, c).

Definition cthrow {A} (e : Exn) : C A := fun c => (Throw e, c).

Definition cbind {A B} (m : C A) (k : A -> C B) : C B :=
  fun c =>
    match m c with
    | (Ok a, c') => k a c'
    | (Throw e, c') => (Throw e, c')
    end.

Definition ctry {A} (m : C A) (h : Exn -> C A) : C A :=
  fun c =>
    match m c with
    | (Ok a, c') => (Ok a, c')
    | (Throw e, c') => h e c'
    end.

(** *** State updates *)

Definition set_base (w : World) (c : ChatState) : ChatState :=
  {| base := w; userSockets := userSockets c; messages := messages c;
     next_chat_id := next_chat_id c; accounts := accounts c;
     socket_data := socket_data c; sent := sent c; chat_log := chat_log c |}.

Definition set_userSockets (m : SocketMap) (c : ChatState) : ChatState :=
  {| base := base c; userSockets := m; messages := messages c;
     next_chat_id := next_chat_id c; accounts := accounts c;
     socket_data := socket_data c; sent := sent c; chat_log := chat_log c |}.

Definition set_messages (rows : list ChatRow) (c : ChatState) : ChatState :=
  {| base := base c; userSockets := userSockets c; messages := rows;
     next_chat_id := next_chat_id c; accounts := accounts c;
     socket_data := socket_data c; sent := sent c; chat_log := chat_log c |}.

Definition set_next_chat_id (n : Z) (c : ChatState) : ChatState :=
  {| base := base c; userSockets := userSockets c; messages := messages c;
     next_chat_id := n; accounts := accounts c;
     socket_data := socket_data c; sent := sent c; chat_log := chat_log c |}.

Definition set_socket_data (d : list (jsstring * jsstring)) (c : ChatState)
    : ChatState :=
  {| base := base c; userSockets := userSockets c; messages := messages c;
     next_chat_id := next_chat_id c; accounts := accounts c;
     socket_data := d; sent := sent c; chat_log := chat_log c |}.

Definition set_sent (e : list Emitted) (c : ChatState) : ChatState :=
  {| base := base c; userSockets := userSockets c; messages := messages c;
     next_chat_id := next_chat_id c; accounts := accounts c;
     socket_data := socket_data c; sent := e; chat_log := chat_log c |}.

Definition set_chat_log (l : list ChatLog) (c : ChatState) : ChatState :=
  {| base := base c; userSockets := userSockets c; messages := messages c;
     next_chat_id := next_chat_id c; accounts := accounts c;
     socket_data := socket_data c; sent := sent c; chat_log := l |}.

End ChatServer.
Export ChatServer.

Declare Scope chat_scope.
Delimit Scope chat_scope with chat.
Notation "x <- m ;; k" := (ChatServer.cbind m (fun x => k))
  (at level 100, m at next level, right associativity) : chat_scope.
Notation "m ;; k" := (ChatServer.cbind m (fun _ => k))
  (at level 100, right associativity) : chat_scope.

(** ** activeUserManager.js, messageService.js, chatSocket.js,
       messageRoutes.js and the login of authRoutes.js *)

Module Messaging.

(** *** [Map] and [Set] *)

Fixpoint map_get {V} (key : jsstring) (m : list (jsstring * V)) : option V :=
  match m with
  | [] => None
  | (k, v) :: m' => if bool_decide (k = key) then Some v else map_get key m'
  end.

Definition map_has {V} (key : jsstring) (m : list (jsstring * V)) : bool :=
  match map_get key m with Some _ => true | None => false end.

(** [map.set(key, v)]: in place for a key of the map, at the end for a
    new one. *)
Fixpoint map_set {V} (key : jsstring) (v : V) (m : list (jsstring * V))
    : list (jsstring * V) :=
  match m with
  | [] => [(key, v)]
  | (k, v') :: m' =>
      if bool_decide (k = key) then (k, v) :: m' else (k, v') :: map_set key v m'
  end.

Fixpoint map_delete {V} (key : jsstring) (m : list (jsstring * V))
    : list (jsstring * V) :=
  match m with
  | [] => []
  | (k, v) :: m' =>
      if bool_decide (k = key) then m' else (k, v) :: map_delete key m'
  end.

Definition set_has (x : jsstring) (s : list jsstring) : bool :=
  existsb (fun y => bool_decide (y = x)) s.

Definition set_add (x : jsstring) (s : list jsstring) : list jsstring :=
  if set_has x s then s else s ++ [x].

Definition set_delete (x : jsstring) (s : list jsstring) : list jsstring :=
  List.filter (fun y => negb (bool_decide (y = x))) s.

Section WithEnv.

Context (env : ChatEnv).

(** The store compares names by the collation of the table. *)
Context (same_name : jsstring -> jsstring -> bool).

Local Open Scope chat_scope.
Local Open Scope Z_scope.

Definition clog (l : ChatLog) : C unit :=
  fun c => (Ok tt, set_chat_log (chat_log c ++ [l]) c).

(** An effect on the state of the hardened sessions. *)
Definition on_base {A} (m : M A) : C A :=
  fun c => let '(r, w) := m (base c) in (r, set_base w c).

(** [await db.query(...)] on the tables of the chat: counted and rejected
    like every other query. *)
Definition chat_query {A} (q : ChatState -> Result A * ChatState) : C A :=
  fun c =>
    let c1 := set_base (set_queries (S (queries (base c))) (base c)) c in
    if db_fails (server_env env) (queries (base c)) then (Throw DbError, c1)
    else q c1.

(** [io.to(socketId).emit(...)], [socket.emit(...)] *)
Definition emit (socketId : jsstring) (p : Payload) : C unit :=
  fun c =>
    if emit_throws env socketId then (Throw TypeError, c)
    else (Ok tt, set_sent (sent c ++ [ToSocket socketId p]) c).

(** [io.emit(...)] *)
Definition emit_all (p : Payload) : C unit :=
  fun c => (Ok tt, set_sent (sent c ++ [ToAll p]) c).

Fixpoint for_each {A} (f : A -> C unit) (l : list A) : C unit :=
  match l with
  | [] => cret tt
  | x :: l' => f x ;; for_each f l'
  end.

(** *** services/activeUserManager.js *)

Definition userConnected (username : option jsstring) (socketId : jsstring) : C unit :=
  match truthy_string username with
  | None => cret tt
  | Some username =>
      fun c =>
        let m := userSockets c in
        let m := if map_has username m then m else map_set username [] m in
        let m :=
          match map_get username m with
          | Some set => map_set username (set_add socketId set) m
          | None => m
          end in
        clog (LogUserConnected username) (set_userSockets m c)
  end.

Definition userDisconnected (username : option jsstring) (socketId : jsstring)
    : C unit :=
  match truthy_string username with
  | None => cret tt
  | Some username =>
      fun c =>
        match map_get username (userSockets c) with
        | None => (Ok tt, c)
        | Some set =>
            let set := set_delete socketId set in
            let m := map_set username set (userSockets c) in
            let m := if (length set =? 0)%nat then map_delete username m else m in
            clog (LogUserDisconnected username) (set_userSockets m c)
        end
  end.

Definition isUserActive (username : option jsstring) (c : ChatState) : bool :=
  match username with
  | Some username => map_has username (userSockets c)
  | None => false
  end.

Definition getActiveUsers (c : ChatState) : list jsstring :=
  map fst (userSockets c).

Definition getSockets (username : option jsstring) (c : ChatState) : list jsstring :=
  match username with
  | Some username =>
      match map_get username (userSockets c) with
      | Some set => set
      | None => []
      end
  | None => []
  end.

(** *** services/messageService.js *)

(** [INSERT INTO messages (...) VALUES (..., NOW())]: [sender] and
    [receiver] must not be NULL. *)
Definition insert_chat_message (m : Message) (c : ChatState)
    : Result Z * ChatState :=
  match msg_sender m, msg_receiver m with
  | Some sender, Some receiver =>
      let insertId := next_chat_id c in
      (Ok insertId,
       set_next_chat_id (insertId + 1)
         (set_messages
            (messages c ++
             [{| row_id := insertId; row_sender := sender; row_receiver := receiver;
                 row_content := msg_content m;
                 row_msg_no := truthy_number (msg_msgNo m);
                 row_signature := truthy_string (msg_signature m);
                 row_verified := msg_verified m;
                 row_type := truthy_string (msg_type m);
                 row_delivered := msg_delivered m;
                 row_timestamp := now (base c) |}]) c))
  | _, _ => (Throw DbError, c)
  end.

(** [{ id: res.insertId, ...messageObj }]: an [id] of the object itself
    comes last and wins. *)
Definition with_id (insertId : Z) (m : Message) : Message :=
  {| msg_id := match msg_id m with Some i => Some i | None => Some insertId end;
     msg_sender := msg_sender m; msg_receiver := msg_receiver m;
     msg_content := msg_content m; msg_msgNo := msg_msgNo m;
     msg_signature := msg_signature m; msg_verified := msg_verified m;
     msg_type := msg_type m; msg_delivered := msg_delivered m |}.

Definition saveMessageToDb (messageObj : Message) : C Message :=
  insertId <- chat_query (insert_chat_message messageObj) ;;
  cret (with_id insertId messageObj).

(** [ORDER BY timestamp ASC] *)
Fixpoint insert_by_time (r : ChatRow) (l : list ChatRow) : list ChatRow :=
  match l with
  | [] => [r]
  | x :: l' =>
      if row_timestamp r <? row_timestamp x then r :: l
      else x :: insert_by_time r l'
  end.

Definition order_by_time (l : list ChatRow) : list ChatRow :=
  fold_left (fun acc r => insert_by_time r acc) l [].

(** [SELECT * FROM messages WHERE receiver = ? AND delivered = FALSE
    ORDER BY timestamp ASC] *)
Definition undelivered_for (receiver : jsstring) (r : ChatRow) : bool :=
  same_name (row_receiver r) receiver && negb (row_delivered r).

Definition getUndeliveredMessages (receiver : jsstring) : C (list ChatRow) :=
  chat_query (fun c =>
    (Ok (order_by_time (List.filter (undelivered_for receiver) (messages c))), c)).

Definition mark_delivered (r : ChatRow) : ChatRow :=
  {| row_id := row_id r; row_sender := row_sender r; row_receiver := row_receiver r;
     row_content := row_content r; row_msg_no := row_msg_no r;
     row_signature := row_signature r; row_verified := row_verified r;
     row_type := row_type r; row_delivered := true;
     row_timestamp := row_timestamp r |}.

(** [UPDATE messages SET delivered = TRUE WHERE id IN (...)] *)
Definition update_delivered (ids : list Z) (c : ChatState) : Result unit * ChatState :=
  (Ok tt,
   set_messages
     (map (fun r => if existsb (Z.eqb (row_id r)) ids then mark_delivered r else r)
        (messages c)) c).

Definition markAsDelivered (rows : list ChatRow) : C unit :=
  if (length rows =? 0)%nat then cret tt
  else
    (* messages.map(m => m.id).filter(Boolean) *)
    let ids := List.filter (fun i => negb (i =? 0)) (map row_id rows) in
    if (length ids =? 0)%nat then cret tt
    else chat_query (update_delivered ids).

Definition set_delivered (d : bool) (m : Message) : Message :=
  {| msg_id := msg_id m; msg_sender := msg_sender m; msg_receiver := msg_receiver m;
     msg_content := msg_content m; msg_msgNo := msg_msgNo m;
     msg_signature := msg_signature m; msg_verified := msg_verified m;
     msg_type := msg_type m; msg_delivered := d |}.

(** [sendOrStoreMessage]: the object is emitted as it is when the emit
    runs, and marked afterwards. *)
Definition sendOrStoreMessage (messageObj : Message) : C Message :=
  delivered <-
    ctry
      (let receiver := msg_receiver messageObj in
       active <- (fun c => (Ok (isUserActive (truthy_string receiver) c), c)) ;;
       if active then
         sockets <- (fun c => (Ok (getSockets receiver c), c)) ;;
         for_each (fun sid => emit sid (MessageEvent messageObj)) sockets ;;
         clog (LogDelivered (default [] receiver)) ;;
         cret true
       else
         clog (LogReceiverOffline receiver) ;;
         cret false)
      (fun err =>
         clog (LogDeliveryError err) ;;
         cret false) ;;
  saveMessageToDb (set_delivered delivered messageObj).

(** *** sockets/chatSocket.js *)

(** [socket.on('register', payload)]: [username] is
    [payload && payload.username]. *)
Definition on_register (socketId : jsstring) (username : option jsstring) : C unit :=
  ctry
    (match truthy_string username with
     | None => cret tt
     | Some username =>
         (* store username on socket *)
         (fun c => (Ok tt, set_socket_data
                             (map_set socketId username (socket_data c)) c)) ;;
         userConnected (Some username) socketId ;;
         (* deliver any undelivered messages *)
         undelivered <- getUndeliveredMessages username ;;
         (if negb (length undelivered =? 0)%nat then
            for_each (fun m => emit socketId (StoredMessageEvent m)) undelivered ;;
            markAsDelivered undelivered
          else cret tt) ;;
         (* broadcast updated active users list *)
         users <- (fun c => (Ok (getActiveUsers c), c)) ;;
         emit_all (ActiveUsers users)
     end)
    (fun err => clog (LogRegisterError err)).

(** [socket.on('chat', messageObj)] *)
Definition on_chat (socketId : jsstring) (messageObj : Message) : C unit :=
  ctry
    (saved <- sendOrStoreMessage messageObj ;;
     emit socketId (MessageSaved saved))
    (fun err => clog (LogChatError err)).

(** [socket.on('uss_message', messageObj)] *)
Definition on_uss_message (socketId : jsstring) (messageObj : MessageObj) : C unit :=
  ctry
    (clog (LogUssReceived messageObj) ;;
     (* Emit to receiver immediately *)
     receiverSockets <- (fun c => (Ok (getSockets (Some (mo_receiver messageObj)) c), c)) ;;
     (if negb (length receiverSockets =? 0)%nat then
        for_each (fun sid => emit sid (UssMessage messageObj)) receiverSockets ;;
        clog (LogUssDelivered (mo_receiver messageObj))
      else clog (LogUssReceiverOffline (mo_receiver messageObj))) ;;
     (* Acknowledge to sender *)
     emit socketId (UssMessageSent true (Some (mo_id messageObj))))
    (fun err =>
       clog (LogUssError err) ;;
       emit socketId (UssMessageSent false None)).

(** [socket.on('disconnect')] *)
Definition on_disconnect (socketId : jsstring) : C unit :=
  username <- (fun c => (Ok (map_get socketId (socket_data c)), c)) ;;
  (match truthy_string username with
   | Some username =>
       userDisconnected (Some username) socketId ;;
       users <- (fun c => (Ok (getActiveUsers c), c)) ;;
       emit_all (ActiveUsers users)
   | None => cret tt
   end) ;;
  clog (LogSocketDisconnected socketId).

(** *** routes/messageRoutes.js *)

Record PostRequest := {
  chat_sender : option jsstring;
  chat_receiver : option jsstring;
  chat_message : option jsstring;
  chat_msgNo : option Z;
  chat_signature : option jsstring
}.

Inductive PostReply :=
  | BadRequest            (* 400, 'sender, receiver and message are required' *)
  | Stored (saved : Message)   (* 201 *)
  | ServerError.          (* 500, 'Internal server error' *)

(** [POST /api/messages] *)
Definition post_chat_message (req : PostRequest) : C PostReply :=
  match truthy_string (chat_sender req), truthy_string (chat_receiver req),
        truthy_string (chat_message req) with
  | Some sender, Some receiver, Some message =>
      ctry
        ((* Verify signature if provided *)
         verified <-
           match truthy_string (chat_signature req) with
           | Some signature =>
               v <- on_base (verifyMessageSignature (server_env env)
                               sender message signature) ;;
               clog (LogMessageSignature v) ;;
               cret v
           | None => cret false
           end ;;
         let messageObj :=
           {| msg_id := None;
              msg_sender := Some sender;
              msg_receiver := Some receiver;
              msg_content := Some (trim message);
              msg_msgNo := chat_msgNo req;
              msg_signature := truthy_string (chat_signature req);
              msg_verified := verified;
              msg_type := Some (js "text");
              msg_delivered := false |} in
         savedMessage <- sendOrStoreMessage messageObj ;;
         cret (Stored savedMessage))
        (fun err =>
           clog (LogFailedToSendMessage err) ;;
           cret ServerError)
  | _, _, _ => cret BadRequest
  end.

(** *** routes/authRoutes.js *)

Inductive LoginReply :=
  | CredentialsRequired     (* 400 *)
  | InvalidCredentials      (* 401 *)
  | LoginSuccessful (username email : jsstring) (offlineMessages : list ChatRow)
  | LoginError.             (* 500 *)

(** The socket id the login connects the user with:
    [`http-login-${Date.now()}`]. *)
Definition login_socket (time : Z) : jsstring :=
  js "http-login-" ++ String_of (Z.to_N time).

(** [POST /api/auth/login] *)
Definition post_login (username password : option jsstring) : C LoginReply :=
  ctry
    (match truthy_string username, truthy_string password with
     | Some username, Some password =>
         rows <- chat_query (fun c =>
                   (Ok (List.filter (fun a => same_name (fst a) username) (accounts c)),
                    c)) ;;
         match rows with
         | [] => cret InvalidCredentials
         | (_, user) :: _ =>
             match_ <- (fun c => (bcrypt_compare env password (password_hash user), c)) ;;
             if negb match_ then cret InvalidCredentials
             else
               (* Mark user as connected in memory *)
               time <- (fun c => (Ok (now (base c)), c)) ;;
               userConnected (Some username) (login_socket time) ;;
               (* Fetch undelivered messages and mark delivered *)
               undelivered <- getUndeliveredMessages username ;;
               markAsDelivered undelivered ;;
               cret (LoginSuccessful username (email user) undelivered)
         end
     | _, _ => cret CredentialsRequired
     end)
    (fun err =>
       clog (LogLoginError err) ;;
       cret LoginError).

Inductive LogoutReply :=
  | UsernameRequired     (* 400 *)
  | LogoutSuccessful.    (* 200 *)

(** [POST /api/auth/logout]: the user stays in the map of the connected
    users. *)
Definition post_logout (username : option jsstring) : C LogoutReply :=
  match truthy_string username with
  | None => cret UsernameRequired
  | Some username =>
      clog (LogLogout username) ;;
      cret LogoutSuccessful
  end.

End WithEnv.

End Messaging.
Export Messaging.

(** ** What is observed of the chat server *)

Module ChatObservations.

(** No query is rejected and no emit throws. *)
Definition chat_ok (env : ChatEnv) : Prop :=
  db_ok (server_env env) /\ forall socketId, emit_throws env socketId = false.

(** The map of the connected users has no name twice and no name without
    a socket. *)
Definition tidy (m : SocketMap) : Prop :=
  NoDup (map fst m) /\ Forall (fun entry => snd entry <> []) m.

(** The calls of the manager. *)
Inductive ManagerCall :=
  | Connect (username : option jsstring) (socketId : jsstring)
  | Disconnect (username : option jsstring) (socketId : jsstring).

Definition manager_call (call : ManagerCall) (c : ChatState) : ChatState :=
  match call with
  | Connect username socketId => snd (userConnected username socketId c)
  | Disconnect username socketId => snd (userDisconnected username socketId c)
  end.

Definition manager_calls (calls : list ManagerCall) (c : ChatState) : ChatState :=
  fold_left (fun c call => manager_call call c) calls c.

(** The socket connected under the name and was not disconnected under
    it since. *)
Definition still_connected (calls : list ManagerCall) (username socketId : jsstring)
    : Prop :=
  exists before after,
    calls = before ++ Connect (Some username) socketId :: after /\
    ~ In (Disconnect (Some username) socketId) after.

(** What reaches the server: the events of a socket and the requests of
    the routes. *)
Inductive ChatEvent :=
  | EvRegister (socketId : jsstring) (username : option jsstring)
  | EvChat (socketId : jsstring) (messageObj : Message)
  | EvUssMessage (socketId : jsstring) (messageObj : MessageObj)
  | EvDisconnect (socketId : jsstring)
  | EvPostMessage (req : PostRequest)
  | EvLogin (username password : option jsstring)
  | EvLogout (username : option jsstring).

Definition handle (env : ChatEnv) (same_name : jsstring -> jsstring -> bool)
    (ev : ChatEvent) (c : ChatState) : ChatState :=
  match ev with
  | EvRegister socketId username => snd (on_register env same_name socketId username c)
  | EvChat socketId messageObj => snd (on_chat env socketId messageObj c)
  | EvUssMessage socketId messageObj => snd (on_uss_message env socketId messageObj c)
  | EvDisconnect socketId => snd (on_disconnect socketId c)
  | EvPostMessage req => snd (post_chat_message env req c)
  | EvLogin username password => snd (post_login env same_name username password c)
  | EvLogout username => snd (post_logout username c)
  end.

Definition handle_all (env : ChatEnv) (same_name : jsstring -> jsstring -> bool)
    (events : list ChatEvent) (c : ChatState) : ChatState :=
  fold_left (fun c ev => handle env same_name ev c) events c.

(** An effect keeps a property of the chat server, however it ends. *)
Definition chat_keeps {A} (P : ChatState -> Prop) (m : C A) : Prop :=
  forall c, P c -> P (snd (m c)).

(** The socket of a login stays listed for the user. *)
Definition login_listed (username : jsstring) (time : Z) (c : ChatState) : Prop :=
  tidy (userSockets c) /\ In (login_socket time) (getSockets (Some username) c).

(** An effect that leaves the map of the connected users alone. *)
Definition leaves_sockets {A} (m : C A) : Prop :=
  forall c, userSockets (snd (m c)) = userSockets c.

(** The rows of [messages] have the ids of an AUTO_INCREMENT key. *)
Definition keyed (rows : list ChatRow) : Prop :=
  NoDup (map row_id rows) /\ Forall (fun r => row_id r <> 0%Z) rows.

(** The rows are in the order of their timestamps. *)
Definition in_order_of_time (rows : list ChatRow) : Prop :=
  StronglySorted (fun a b => (row_timestamp a <= row_timestamp b)%Z) rows.

(** The server before anyone connected. *)
Definition started (w : World) : ChatState :=
  {| base := w; userSockets := []; messages := []; next_chat_id := 1;
     accounts := []; socket_data := []; sent := []; chat_log := [] |}.

End ChatObservations.
Export ChatObservations.

(** ** The conversation of two users: [GET /api/messages/:userA/:userB] *)

Module Conversation.

(** A row as the route selects it: [content AS message], [msg_no AS
    msgNo], without [type] and [delivered]. *)
Record ConversationRow := {
  cv_id : Z;
  cv_sender : jsstring;
  cv_receiver : jsstring;
  cv_message : option jsstring;
  cv_msgNo : option Z;
  cv_signature : option jsstring;
  cv_verified : bool;
  cv_timestamp : Z
}.

Definition selected (r : ChatRow) : ConversationRow :=
  {| cv_id := row_id r; cv_sender := row_sender r; cv_receiver := row_receiver r;
     cv_message := row_content r; cv_msgNo := row_msg_no r;
     cv_signature := row_signature r; cv_verified := row_verified r;
     cv_timestamp := row_timestamp r |}.

Inductive ConversationReply :=
  | BothUsersRequired                          (* 400 *)
  | ConversationOf (rows : list ConversationRow)   (* 200 *)
  | ConversationError.                         (* 500 *)

Section WithEnv.

Context (env : ChatEnv).
Context (same_name : jsstring -> jsstring -> bool).

Local Open Scope chat_scope.

(** [WHERE (sender = ? AND receiver = ?) OR (sender = ? AND receiver = ?)]
    with [userA, userB, userB, userA]. *)
Definition between_the_two (userA userB : jsstring) (r : ChatRow) : bool :=
  (same_name (row_sender r) userA && same_name (row_receiver r) userB) ||
  (same_name (row_sender r) userB && same_name (row_receiver r) userA).

Definition get_conversation (userA userB : jsstring) : C ConversationReply :=
  if negb (truthy userA) || negb (truthy userB) then cret BothUsersRequired
  else
    ctry
      (rows <- chat_query env (fun c =>
                 (Ok (order_by_time
                        (List.filter (between_the_two userA userB) (messages c))), c)) ;;
       cret (ConversationOf (map selected rows)))
      (fun err =>
         clog (LogFailedToLoadConversation err) ;;
         cret ConversationError).

End WithEnv.

End Conversation.
Export Conversation.

(** ** A chat server to run *)

Module ToyChat.

Local Open Scope Z_scope.

(** The store answers, no emit throws, and a password matches the hash
    that is equal to it. *)
Definition quiet : ChatEnv :=
  {| server_env := healthy;
     emit_throws := fun _ => false;
     bcrypt_compare := fun password hash => Ok (bool_decide (password = hash)) |}.

(** A collation that tells all names apart. *)
Definition exact_name (a b : jsstring) : bool := bool_decide (a = b).

(** bob has an account and two messages of alice waiting; carol has one
    that was delivered. *)
Definition waiting : ChatState :=
  {| base := empty_world;
     userSockets := [];
     messages :=
       [ {| row_id := 1; row_sender := js "alice"; row_receiver := js "bob";
            row_content := Some (js "second"); row_msg_no := None;
            row_signature := None; row_verified := false;
            row_type := Some (js "text"); row_delivered := false;
            row_timestamp := 900 |};
         {| row_id := 2; row_sender := js "alice"; row_receiver := js "carol";
            row_content := Some (js "other"); row_msg_no := None;
            row_signature := None; row_verified := false;
            row_type := Some (js "text"); row_delivered := true;
            row_timestamp := 850 |};
         {| row_id := 3; row_sender := js "alice"; row_receiver := js "bob";
            row_content := Some (js "first"); row_msg_no := None;
            row_signature := None; row_verified := false;
            row_type := Some (js "text"); row_delivered := false;
            row_timestamp := 800 |} ];
     next_chat_id := 4;
     accounts := [(js "bob", {| password_hash := js "hunter2";
                                email := js "bob@example.org" |})];
     socket_data := [];
     sent := [];
     chat_log := [] |}.

Definition hello : Message :=
  {| msg_id := None; msg_sender := Some (js "alice"); msg_receiver := Some (js "bob");
     msg_content := Some (js "hello"); msg_msgNo := None; msg_signature := None;
     msg_verified := false; msg_type := Some (js "text"); msg_delivered := false |}.

(** The same message as a client sends it that numbers its messages
    itself. *)
Definition hello_numbered : Message :=
  {| msg_id := Some 77; msg_sender := Some (js "alice");
     msg_receiver := Some (js "bob");
     msg_content := Some (js "hello"); msg_msgNo := None; msg_signature := None;
     msg_verified := false; msg_type := Some (js "text"); msg_delivered := false |}.

Definition hello_request : PostRequest :=
  {| chat_sender := Some (js "alice"); chat_receiver := Some (js "bob");
     chat_message := Some (js " hello "); chat_msgNo := None;
     chat_signature := None |}.

End ToyChat.
Export ToyChat.

(** ** Text hidden in the pixels of an image

    [hideTextInImage] and [extractTextFromImage], on the array
    [getImageData] returns: four bytes for every pixel. *)

Module Steganography.

Local Open Scope Z_scope.

Inductive StegoError :=
  | ImageTooSmall                  (* 'Image too small to hide text' *)
  | InvalidSteganographyData       (* 'Invalid steganography data' *)
  | InvalidTextLength              (* 'Invalid text length' *)
  | IncompleteSteganographyData.   (* 'Incomplete steganography data' *)

(** How the promise is settled. *)
Inductive Settled (A : Type) :=
  | Resolved (a : A)
  | Rejected (e : StegoError).
Arguments Resolved {A} a.
Arguments Rejected {A} e.

(** *** The bitwise operators, on 32-bit integers *)

Definition to_int32 (z : Z) : Z :=
  let m := z mod 2 ^ 32 in
  if 2 ^ 31 <=? m then m - 2 ^ 32 else m.

(** [a >> n], [a << n], [a & b], [a | b] *)
Definition sar (a n : Z) : Z := Z.shiftr (to_int32 a) (n mod 32).
Definition shl (a n : Z) : Z := to_int32 (Z.shiftl (to_int32 a) (n mod 32)).
Definition band (a b : Z) : Z := Z.land (to_int32 a) (to_int32 b).
Definition bor (a b : Z) : Z := Z.lor (to_int32 a) (to_int32 b).

(** Storing a number into a [Uint8ClampedArray]. *)
Definition clamp (v : Z) : Z := Z.max 0 (Z.min 255 v).

(** Reading an element of a [Uint8Array], and storing a number into it. *)
Definition number (b : byte) : Z := Z.of_N (Byte.to_N b).
Definition uint8 (v : Z) : byte := byte_of_N (Z.to_N (v mod 256)).

(** *** [hideTextInImage] *)

(** The loop over the bits of one byte; it is left when the array ends. *)
Fixpoint hide_bits (byte : Z) (bits : list Z) (byteIndex : nat) (data : list Z)
    : nat * list Z :=
  match bits with
  | [] => (byteIndex, data)
  | bit :: bits' =>
      let pixelIndex := (byteIndex * 4)%nat in
      match data !! pixelIndex with
      | None => (byteIndex, data)
      | Some old =>
          let bitValue := band (sar byte (7 - bit)) 1 in
          hide_bits byte bits' (S byteIndex)
            (<[pixelIndex := clamp (bor (band old 0xFE) bitValue)]> data)
      end
  end.

Definition hide_bytes (bs : bytes) (st : nat * list Z) : nat * list Z :=
  fold_left (fun st b => hide_bits (number b) (seqZ 0 8) (fst st) (snd st)) bs st.

Definition hideTextInImage (data : list Z) (encryptedText : jsstring)
    : Settled (list Z) :=
  let textBytes := TEXT_ENCODER_encode encryptedText in
  let length_ := Z.of_nat (length textBytes) in
  let lengthBytes :=
    [uint8 (band (sar length_ 24) 0xFF); uint8 (band (sar length_ 16) 0xFF);
     uint8 (band (sar length_ 8) 0xFF); uint8 (band length_ 0xFF)] in
  let totalBytes := 4 + length_ in
  if totalBytes * 4 >? Z.of_nat (length data) then Rejected ImageTooSmall
  else Resolved (snd (hide_bytes textBytes (hide_bytes lengthBytes (0%nat, data)))).

(** *** [extractTextFromImage] *)

(** The loop over the bits of one byte; [None] when the array ends. *)
Fixpoint read_bits (bits : list Z) (byte : Z) (byteIndex : nat) (data : list Z)
    : option (Z * nat) :=
  match bits with
  | [] => Some (byte, byteIndex)
  | _ :: bits' =>
      match data !! (byteIndex * 4)%nat with
      | None => None
      | Some v => read_bits bits' (bor (shl byte 1) (band v 1)) (S byteIndex) data
      end
  end.

Fixpoint read_bytes (n : nat) (byteIndex : nat) (data : list Z)
    : option (bytes * nat) :=
  match n with
  | O => Some ([], byteIndex)
  | S n' =>
      match read_bits (seqZ 0 8) 0 byteIndex data with
      | None => None
      | Some (byte, byteIndex') =>
          match read_bytes n' byteIndex' data with
          | None => None
          | Some (rest, byteIndex'') => Some (uint8 byte :: rest, byteIndex'')
          end
      end
  end.

Definition extractTextFromImage (data : list Z) : Settled jsstring :=
  match read_bytes 4 0 data with
  | None => Rejected InvalidSteganographyData
  | Some (lengthBytes, byteIndex) =>
      let at_ i := number (nth i lengthBytes Byte.x00) in
      let textLength :=
        bor (bor (bor (shl (at_ 0%nat) 24) (shl (at_ 1%nat) 16)) (shl (at_ 2%nat) 8))
          (at_ 3%nat) in
      if (textLength <=? 0) || (textLength >? 200000) then Rejected InvalidTextLength
      else
        match read_bytes (Z.to_nat textLength) byteIndex data with
        | None => Rejected IncompleteSteganographyData
        | Some (textBytes, _) => Resolved (TEXT_DECODER_decode textBytes)
        end
  end.

End Steganography.
Export Steganography.

(** ** What is observed of an image *)

Module ImageObservations.

Local Open Scope Z_scope.

(** The array of an image of [pixels] pixels: four bytes for each. *)
Definition image_data (pixels : nat) (data : list Z) : Prop :=
  length data = (4 * pixels)%nat /\ Forall (fun v => 0 <= v < 256) data.

(** The bits of a byte, from the highest, and of a sequence of bytes. *)
Definition bits_of (byte : Z) : list Z :=
  map (fun bit => band (sar byte (7 - bit)) 1) (seqZ 0 8).

Definition stream (bs : bytes) : list Z := flat_map (fun b => bits_of (number b)) bs.

(** A byte of the array with its lowest bit replaced. *)
Definition mark (old bit : Z) : Z := clamp (bor (band old 0xFE) bit).

(** The array with the bits written into the first byte of the pixels
    from [first] on, one bit a pixel, as far as the array goes. *)
Definition embedded (first : nat) (bits : list Z) (data : list Z) : list Z :=
  imap (fun p old =>
          if (p mod 4 =? 0)%nat && (first <=? p / 4)%nat then
            match bits !! (p / 4 - first)%nat with
            | Some bit => mark old bit
            | None => old
            end
          else old) data.

(** What the two loops of [hideTextInImage] do to the array: the bits
    are written one after the other, and nothing is written once the
    array has ended. *)
Fixpoint written (bits : list Z) (byteIndex : nat) (data : list Z) : nat * list Z :=
  match bits with
  | [] => (byteIndex, data)
  | bit :: bits' =>
      match data !! (byteIndex * 4)%nat with
      | None => (byteIndex, data)
      | Some old =>
          written bits' (S byteIndex) (<[(byteIndex * 4)%nat := mark old bit]> data)
      end
  end.

(** The pixels from [first] on carry the bits in the lowest bit of their
    first byte. *)
Definition low_bits_at (data : list Z) (first : nat) (bits : list Z) : Prop :=
  forall k bit, bits !! k = Some bit ->
    exists v, data !! ((first + k) * 4)%nat = Some v /\ band v 1 = bit.

(** The four bytes of a length, and the length read from them. *)
Definition length_bytes (n : Z) : bytes :=
  [uint8 (band (sar n 24) 0xFF); uint8 (band (sar n 16) 0xFF);
   uint8 (band (sar n 8) 0xFF); uint8 (band n 0xFF)].

Definition length_read (lengthBytes : bytes) : Z :=
  let at_ i := number (nth i lengthBytes Byte.x00) in
  bor (bor (bor (shl (at_ 0%nat) 24) (shl (at_ 1%nat) 16)) (shl (at_ 2%nat) 8))
    (at_ 3%nat).

(** The length of the text as UTF-8. *)
Definition text_length (text : jsstring) : Z :=
  Z.of_nat (length (TEXT_ENCODER_encode text)).

End ImageObservations.
Export ImageObservations.

(** ** Morse code: [toMorse], [fromMorse] and [looksLikeMorse] *)

Module Morse.

(** The entries of the object literal.  No key is written twice. *)
Definition charToMorse : list (jsstring * jsstring) :=
  [ (js "a", js ".-"); (js "b", js "-..."); (js "c", js "-.-."); (js "d", js "-..");
    (js "e", js ".");
    (js "f", js "..-."); (js "g", js "--."); (js "h", js "...."); (js "i", js "..");
    (js "j", js ".---");
    (js "k", js "-.-"); (js "l", js ".-.."); (js "m", js "--"); (js "n", js "-.");
    (js "o", js "---");
    (js "p", js ".--."); (js "q", js "--.-"); (js "r", js ".-."); (js "s", js "...");
    (js "t", js "-");
    (js "u", js "..-"); (js "v", js "...-"); (js "w", js ".--"); (js "x", js "-..-");
    (js "y", js "-.--");
    (js "z", js "--..");
    (js "0", js "-----"); (js "1", js ".----"); (js "2", js "..---");
    (js "3", js "...--"); (js "4", js "....-");
    (js "5", js "....."); (js "6", js "-...."); (js "7", js "--...");
    (js "8", js "---.."); (js "9", js "----.");
    (js ".", js ".-.-.-"); (js ",", js "--..--"); (js "?", js "..--..");
    (js "'", js ".----."); (js "!", js "-.-.--");
    (js "/", js "-..-."); (js "(", js "-.--."); (js ")", js "-.--.-");
    (js "&", js ".-..."); (js ":", js "---...");
    (js ";", js "-.-.-."); (js "=", js "-...-"); (js "+", js ".-.-.");
    (js "-", js "-....-"); (js "_", js "..--.-");
    ([34], js ".-..-."); (js "$", js "...-..-"); (js "@", js ".--.-.");
    (js " ", js "/") ].

(** [Object.fromEntries(Object.entries(charToMorse).map(([c, m]) => [m, c]))]:
    an entry that comes later replaces one with the same key. *)
Definition morseToChar : list (jsstring * jsstring) :=
  map (fun entry => (snd entry, fst entry)) charToMorse.

(** The properties every object inherits from [Object.prototype]. *)
Definition object_prototype : list jsstring :=
  [ js "constructor"; js "__defineGetter__"; js "__defineSetter__";
    js "hasOwnProperty"; js "__lookupGetter__"; js "__lookupSetter__";
    js "isPrototypeOf"; js "propertyIsEnumerable"; js "toString"; js "valueOf";
    js "__proto__"; js "toLocaleString" ].

(** [object[key]]: a property of the object itself, an inherited one (a
    function or an object, whose text is not defined by the language), or
    [undefined]. *)
Inductive Property :=
  | Own (value : jsstring)
  | Inherited
  | Absent.

Definition own (key : jsstring) (entries : list (jsstring * jsstring))
    : option jsstring :=
  fold_left (fun found entry =>
               if bool_decide (fst entry = key) then Some (snd entry) else found)
    entries None.

Definition property_of (entries : list (jsstring * jsstring)) (key : jsstring) : Property :=
  match own key entries with
  | Some value => Own value
  | None =>
      if existsb (fun name => bool_decide (name = key)) object_prototype
      then Inherited else Absent
  end.

(** [array.map(f)] where [f] may give a value that is not modelled. *)
Fixpoint collect {A B} (f : A -> option B) (l : list A) : option (list B) :=
  match l with
  | [] => Some []
  | x :: l' =>
      match f x, collect f l' with
      | Some y, Some ys => Some (y :: ys)
      | _, _ => None
      end
  end.

(** [s.split(/\s+/)]: [cur] is the piece being read, [in_sep] tells that
    the last character read was white space. *)
Fixpoint split_white_space (in_sep : bool) (cur s : jsstring) : list jsstring :=
  match s with
  | [] => [cur]
  | c :: s' =>
      if is_white_space c then
        if in_sep then split_white_space true cur s'
        else cur :: split_white_space true [] s'
      else split_white_space false (cur ++ [c]) s'
  end.

Section WithPlatform.

(** [String.prototype.toLowerCase], of the platform. *)
Context (toLowerCase : jsstring -> jsstring).

(** [charToMorse[ch.toLowerCase()] ?? ch] *)
Definition encode_char (ch : N) : option jsstring :=
  match property_of charToMorse (toLowerCase [ch]) with
  | Own code => Some code
  | Absent => Some [ch]
  | Inherited => None
  end.

Definition toMorse (input : jsstring) : option jsstring :=
  match collect encode_char input with
  | Some pieces => Some (join (js " ") pieces)
  | None => None
  end.

(** [morseToChar[tok] ?? tok] *)
Definition decode_token (tok : jsstring) : option jsstring :=
  match property_of morseToChar tok with
  | Own ch => Some ch
  | Absent => Some tok
  | Inherited => None
  end.

Definition fromMorse (morse : jsstring) : option jsstring :=
  match collect decode_token (split_white_space false [] (trim morse)) with
  | Some pieces => Some (concat pieces)
  | None => None
  end.

End WithPlatform.

(** [/^[.\-\s/]+$/.test(text)] *)
Definition looksLikeMorse (text : jsstring) : bool :=
  negb (length text =? 0)%nat &&
  forallb (fun c => (c =? 46) || (c =? 45) || is_white_space c || (c =? 47)) text.

End Morse.
Export Morse.

(** ** What is assumed and observed of Morse *)

Module MorseObservations.

(** What is assumed of [toLowerCase]: it leaves the keys of the table as
    they are, and makes at most three code units of one. *)
Record lower_case (toLowerCase : jsstring -> jsstring) : Prop := {
  keeps_keys : forall key code, In (key, code) charToMorse -> toLowerCase key = key;
  short : forall ch, (length (toLowerCase [ch]) <= 3)%nat
}.

(** What comes back of a character: the key it was found under, or the
    character itself. *)
Definition echo (toLowerCase : jsstring -> jsstring) (ch : N) : jsstring :=
  match property_of charToMorse (toLowerCase [ch]) with
  | Own _ => toLowerCase [ch]
  | _ => [ch]
  end.

(** [toLowerCase] on the letters A to Z; other characters are left. *)
Definition ascii_lower (s : jsstring) : jsstring :=
  map (fun c => if between 65 90 c then c + 32 else c) s.

End MorseObservations.
Export MorseObservations.

(** ** The key pairs kept in the browser: [ensureKeyPair] and
       [ensureSigningKeyPair] *)

Module KeyStore.

(** How a call fails: an exception of the provider or of [spkiToPem], a
    text that [JSON.parse] rejects, a store that is full. *)
Inductive Failure :=
  | Exception (e : Exn)
  | SyntaxError
  | QuotaExceededError.

Inductive Outcome (A : Type) :=
  | Returned (a : A)
  | Failed (f : Failure).
Arguments Returned {A} a.
Arguments Failed {A} f.

(** The browser: [crypto.subtle.generateKey], whose n-th call gives the
    n-th pair, [JSON], and the quota of [localStorage]. *)
Record Browser (asym : Asymmetric) := {
  generateKey : AsymAlgorithm -> nat -> Result (public_key asym * private_key asym);
  JSON_stringify : jwk asym -> jsstring;
  JSON_parse : jsstring -> option (jwk asym);
  quota_exceeded : gmap jsstring jsstring -> jsstring -> jsstring -> bool
}.
Arguments generateKey {asym} _ _ _.
Arguments JSON_stringify {asym} _ _.
Arguments JSON_parse {asym} _ _.
Arguments quota_exceeded {asym} _ _ _ _.

(** [localStorage], and the number of key pairs generated so far. *)
Record Tab := {
  localStorage : gmap jsstring jsstring;
  generated : nat
}.

Record StoredPair (asym : Asymmetric) := {
  publicKeyPem : jsstring;
  privateKeyJwk : jwk asym
}.
Arguments publicKeyPem {asym} _.
Arguments privateKeyJwk {asym} _.

Definition getItem (key : jsstring) (tab : Tab) : option jsstring :=
  localStorage tab !! key.

Section WithBrowser.

Context {asym : Asymmetric} (browser : Browser asym).

Definition setItem (key value : jsstring) (tab : Tab) : Outcome unit * Tab :=
  if quota_exceeded browser (localStorage tab) key value
  then (Failed QuotaExceededError, tab)
  else (Returned tt,
        {| localStorage := <[key := value]> (localStorage tab);
           generated := generated tab |}).

Definition generate (alg : AsymAlgorithm) (tab : Tab)
    : Result (public_key asym * private_key asym) * Tab :=
  (generateKey browser alg (generated tab),
   {| localStorage := localStorage tab; generated := S (generated tab) |}).

Definition ensureKeyPair (tab : Tab) : Outcome (StoredPair asym) * Tab :=
  (* Check if keys are already stored in localStorage. *)
  let storedPub := getItem (js "chatapp_public_key_pem") tab in
  let storedPriv := getItem (js "chatapp_private_key_jwk") tab in
  match truthy_string storedPub, truthy_string storedPriv with
  | Some storedPub, Some storedPriv =>
      match JSON_parse browser storedPriv with
      | Some parsed =>
          (Returned {| publicKeyPem := storedPub; privateKeyJwk := parsed |}, tab)
      | None => (Failed SyntaxError, tab)
      end
  | _, _ =>
      (* Generate a fresh RSA-OAEP key pair. *)
      match generate RSA_OAEP tab with
      | (Throw e, tab) => (Failed (Exception e), tab)
      | (Ok (publicKey, privateKey), tab) =>
          (* Export public key as PEM for sending to the server. *)
          match exportKey_spki asym publicKey with
          | Throw e => (Failed (Exception e), tab)
          | Ok spki =>
              match spkiToPem spki with
              | Throw e => (Failed (Exception e), tab)
              | Ok publicPem =>
                  (* Export private key as JWK for local storage. *)
                  match exportKey_jwk asym privateKey with
                  | Throw e => (Failed (Exception e), tab)
                  | Ok privateJwk =>
                      match setItem (js "chatapp_public_key_pem") publicPem tab with
                      | (Failed f, tab) => (Failed f, tab)
                      | (Returned _, tab) =>
                          match setItem (js "chatapp_private_key_jwk")
                                  (JSON_stringify browser privateJwk) tab with
                          | (Failed f, tab) => (Failed f, tab)
                          | (Returned _, tab) =>
                              (Returned {| publicKeyPem := publicPem;
                                           privateKeyJwk := privateJwk |}, tab)
                          end
                      end
                  end
              end
          end
      end
  end.

Definition generateSigningKeyPair (tab : Tab)
    : Result (public_key asym * private_key asym) * Tab :=
  generate ECDSA_P256 tab.

Definition ensureSigningKeyPair (tab : Tab) : Outcome (StoredPair asym) * Tab :=
  let storedPub := getItem (js "chatapp_signing_public_key_pem") tab in
  let storedPriv := getItem (js "chatapp_signing_private_key_jwk") tab in
  match truthy_string storedPub, truthy_string storedPriv with
  | Some storedPub, Some storedPriv =>
      match JSON_parse browser storedPriv with
      | Some parsed =>
          (Returned {| publicKeyPem := storedPub; privateKeyJwk := parsed |}, tab)
      | None => (Failed SyntaxError, tab)
      end
  | _, _ =>
      (* Generate new signing key pair *)
      match generateSigningKeyPair tab with
      | (Throw e, tab) => (Failed (Exception e), tab)
      | (Ok (publicKey, privateKey), tab) =>
          match exportSigningPublicKey asym publicKey with
          | Throw e => (Failed (Exception e), tab)
          | Ok publicPem =>
              match exportSigningPrivateKey asym privateKey with
              | Throw e => (Failed (Exception e), tab)
              | Ok privateJwk =>
                  match setItem (js "chatapp_signing_public_key_pem") publicPem tab with
                  | (Failed f, tab) => (Failed f, tab)
                  | (Returned _, tab) =>
                      match setItem (js "chatapp_signing_private_key_jwk")
                              (JSON_stringify browser privateJwk) tab with
                      | (Failed f, tab) => (Failed f, tab)
                      | (Returned _, tab) =>
                          (Returned {| publicKeyPem := publicPem;
                                       privateKeyJwk := privateJwk |}, tab)
                      end
                  end
              end
          end
      end
  end.

End WithBrowser.

End KeyStore.
Export KeyStore.

(** ** What is assumed of the browser *)

Module KeyStoreObservations.

(** [JSON.parse] returns what [JSON.stringify] was given, and the text of
    an object is not empty. *)
Record json_law {asym : Asymmetric} (browser : Browser asym) : Prop := {
  parse_stringify : forall j, JSON_parse browser (JSON_stringify browser j) = Some j;
  stringify_not_empty : forall j, truthy (JSON_stringify browser j) = true
}.

(** A browser to run: the n-th pair of keys is made of the byte n, the
    text of a key is its base64, and the store is never full. *)
Definition toy_browser : Browser toy_asym :=
  Build_Browser toy_asym
    (fun _ n =>
       Ok (repeat (byte_of_N (N.of_nat n)) 70, repeat (byte_of_N (N.of_nat n)) 70))
    (fun j => 123 :: b64_encode (map Byte.to_N j) ++ [125])
    (fun text =>
       match text with
       | 123 :: inner =>
           match atob (removelast inner) with
           | Ok binary => Some (map byte_of_N binary)
           | Throw _ => None
           end
       | _ => None
       end)
    (fun _ _ _ => false).

Definition empty_tab : Tab := {| localStorage := ∅; generated := 0 |}.

End KeyStoreObservations.
Export KeyStoreObservations.

(** * Properties *)

(** ** Passphrase strength *)

Module PassphraseFacts.

(** C10. Every score is at most 100, and a passphrase that passes all five
    checks scores at least 70, so its strength is medium or strong. *)
Theorem accepted_passphrase_is_not_weak (passphrase : jsstring) :
  score (validatePassphraseStrength passphrase) <= 100 /\
  (valid (validatePassphraseStrength passphrase) = true ->
   70 <= score (validatePassphraseStrength passphrase) /\
   strength (validatePassphraseStrength passphrase) <> weak).
Proof.
  unfold validatePassphraseStrength.
  destruct (length_of passphrase <? 10) eqn:Hlen;
    destruct (15 <=? length_of passphrase), (20 <=? length_of passphrase),
      (test is_digit passphrase), (test is_special passphrase),
      (test is_upper passphrase), (test is_lower passphrase);
    cbn; (split; [lia | intros Hv; first [discriminate Hv | split; [lia | discriminate]]]).
Qed.

Lemma accepted_passphrase_is_not_weak_witness :
  valid (validatePassphraseStrength (js "Sn0wLeopard!2024")) = true /\
  70 <= score (validatePassphraseStrength (js "Sn0wLeopard!2024")) /\
  strength (validatePassphraseStrength (js "Sn0wLeopard!2024")) <> weak.
Proof.
  split; [reflexivity |].
  apply (accepted_passphrase_is_not_weak (js "Sn0wLeopard!2024")); reflexivity.
Defined.

End PassphraseFacts.

(** ** Session key derivation *)

Module SessionKeyFacts.

Lemma str_lt_asym (a b : jsstring) : str_lt a b = true -> str_lt b a = false.
Proof.
  revert b; induction a as [|x a IH]; intros [|y b]; cbn; try congruence.
  destruct (x <? y) eqn:Hxy, (y <? x) eqn:Hyx; try congruence.
  - apply N.ltb_lt in Hxy, Hyx. lia.
  - apply IH.
Qed.

Lemma str_lt_total (a b : jsstring) :
  str_lt a b = false -> str_lt b a = false -> a = b.
Proof.
  revert b; induction a as [|x a IH]; intros [|y b]; cbn; try congruence.
  destruct (x <? y) eqn:Hxy, (y <? x) eqn:Hyx; try congruence.
  intros Ha Hb. apply N.ltb_ge in Hxy, Hyx.
  f_equal; [lia | auto].
Qed.

Lemma sort_pair (a b : jsstring) :
  sort [a; b] = if str_lt b a then [b; a] else [a; b].
Proof. reflexivity. Qed.

Lemma sort_pair_comm (a b : jsstring) : sort [a; b] = sort [b; a].
Proof.
  rewrite !sort_pair.
  destruct (str_lt b a) eqn:Hba.
  - now rewrite (str_lt_asym _ _ Hba).
  - destruct (str_lt a b) eqn:Hab; [reflexivity |].
    now rewrite (str_lt_total _ _ Hab Hba).
Qed.

(** C8. The session key does not depend on the order of the two
    identities, and it is the SHA-256 digest of the two identities sorted
    and joined by the separator. *)
Theorem session_key_order_independent (subtle : WebCrypto) (userA userB : jsstring) :
  getSessionKey subtle userA userB = getSessionKey subtle userB userA /\
  getSessionKey subtle userA userB = deriveSessionKey_spec subtle userA userB.
Proof.
  split.
  - unfold getSessionKey. now rewrite sort_pair_comm.
  - unfold getSessionKey, deriveSessionKey_spec. rewrite sort_pair.
    now destruct (str_lt userB userA).
Qed.

End SessionKeyFacts.

(** ** The store and the effect monad *)

Module ServerFacts.

Local Open Scope Z_scope.

Lemma run_db_query {A} (env : Env) (q : World -> A * World) (w : World) :
  db_ok env ->
  db_query env q w =
  (Ok (fst (q (set_queries (S (queries w)) w))),
   snd (q (set_queries (S (queries w)) w))).
Proof. intros Hdb. unfold db_query. rewrite Hdb. now destruct (q _). Qed.

Lemma alter_present (f : SessionRow -> SessionRow) (id : Z) (row : SessionRow)
    (m : gmap Z SessionRow) :
  m !! id = Some row -> alter f id m = <[id := f row]> m.
Proof.
  intros Hrow. apply map_eq. intros k.
  destruct (decide (id = k)) as [<- | Hne].
  - now rewrite lookup_alter_eq, lookup_insert_eq, Hrow.
  - now rewrite lookup_alter_ne, lookup_insert_ne.
Qed.

Lemma healthy_db_ok : db_ok healthy.
Proof. intros n. reflexivity. Qed.

(** [logSecurityEvent] swallows the rejection of its insert. *)
Lemma logSecurityEvent_returns (env : Env) (e : SecurityEvent) (w : World) :
  exists w', logSecurityEvent env e w = (Ok tt, w').
Proof.
  unfold logSecurityEvent, try_catch, db_query.
  destruct (db_fails env (queries w)); cbn; eauto.
Qed.

Lemma run_logSecurityEvent (env : Env) (e : SecurityEvent) (w : World) :
  db_ok env ->
  logSecurityEvent env e w =
  (Ok tt, set_security_events (security_events w ++ [e]) (set_queries (S (queries w)) w)).
Proof.
  intros Hdb. unfold logSecurityEvent, try_catch.
  now rewrite run_db_query.
Qed.

(** Running one statement of a sequence. *)

Lemma bind_ok {A B} (m : M A) (k : A -> M B) (w w' : World) (a : A) :
  m w = (Ok a, w') -> Server.bind m k w = k a w'.
Proof. unfold Server.bind. now intros ->. Qed.

Lemma bind_throw {A B} (m : M A) (k : A -> M B) (w w' : World) (e : Exn) :
  m w = (Throw e, w') -> Server.bind m k w = (Throw e, w').
Proof. unfold Server.bind. now intros ->. Qed.

Lemma run_log {B} (l : LogLine) (k : unit -> M B) (w : World) :
  Server.bind (console_log l) k w = k tt (set_console (console w ++ [l]) w).
Proof. reflexivity. Qed.

Lemma run_time {B} (k : Z -> M B) (w : World) :
  Server.bind current_time k w = k (now w) w.
Proof. reflexivity. Qed.

Lemma run_query {A B} (env : Env) (q : World -> A * World) (k : A -> M B) (w : World) :
  db_ok env ->
  Server.bind (db_query env q) k w =
  k (fst (q (set_queries (S (queries w)) w)))
    (snd (q (set_queries (S (queries w)) w))).
Proof. intros Hdb. apply bind_ok. now apply run_db_query. Qed.

Lemma run_event {B} (env : Env) (e : SecurityEvent) (k : unit -> M B) (w : World) :
  db_ok env ->
  Server.bind (logSecurityEvent env e) k w =
  k tt (set_security_events (security_events w ++ [e])
          (set_queries (S (queries w)) w)).
Proof. intros Hdb. apply bind_ok. now apply run_logSecurityEvent. Qed.

Lemma lockdowns_app (c : list LogLine) (l : LogLine) :
  length (List.filter is_activation (c ++ [l])) =
  (length (List.filter is_activation c) + (if is_activation l then 1 else 0))%nat.
Proof.
  rewrite List.filter_app, length_app. cbn.
  now destruct (is_activation l).
Qed.

End ServerFacts.
Export ServerFacts.

(** Projections of an updated world, and the statements of the store. *)
Ltac norm :=
  cbn [set_sessions set_next_session_id set_uss_messages set_next_message_id
       set_security_events set_console set_outbox set_emitted set_queries
       sessions next_session_id uss_messages next_message_id security_events
       users console outbox emitted queries now
       select_session update_session insert_event select_messages
       delete_messages select_signature_key insert_message fst snd].

Ltac norm_in H :=
  cbn [set_sessions set_next_session_id set_uss_messages set_next_message_id
       set_security_events set_console set_outbox set_emitted set_queries
       sessions next_session_id uss_messages next_message_id security_events
       users console outbox emitted queries now
       select_session update_session insert_event select_messages
       delete_messages select_signature_key insert_message fst snd] in H.

(** Run the first statement of a sequence against a working store. *)
Ltac step :=
  first [ rewrite run_log | rewrite run_time
        | rewrite run_query by assumption
        | rewrite run_event by assumption
        | rewrite run_logSecurityEvent by assumption
        | rewrite run_db_query by assumption ];
  cbv beta; norm.

Ltac count_lockdowns :=
  unfold lockdowns in *; norm;
  repeat match goal with H : context [console] |- _ => progress norm_in H end;
  rewrite ?lockdowns_app in *; cbn [is_activation] in *; lia.

(** ** Fetching a session *)

Module SessionFetchFacts.

Local Open Scope Z_scope.

(** C9. Whoever asks for a stored session under a name other than
    [user_a] is served the record with participant B's wrapped key and IV,
    the passphrase hash and the salt; the requester is compared with no
    participant beyond that. *)
Theorem session_served_to_any_requester
    (env : Env) (w : World) (id : Z) (row : SessionRow) (requestingUser : jsstring) :
  db_ok env ->
  sessions w !! id = Some row ->
  requestingUser <> user_a row ->
  getUSSSession env id requestingUser w =
  (Ok (Some {| sessionId := session_id row;
               userA := user_a row;
               userB := user_b row;
               doubleEncryptedKey := double_encrypted_key_b row;
               passphraseHash := passphrase_hash row;
               view_salt := salt row;
               iv := iv_b row;
               wrongAttempts := wrong_attempts row;
               view_status := status row;
               createdAt := created_at row;
               lastAccess := last_access row |}),
   set_queries (S (S (queries w)))
     (set_sessions (<[id := set_last_access (now w) row]> (sessions w)) w)).
Proof.
  intros Hdb Hrow Hne.
  unfold getUSSSession, Server.bind.
  rewrite run_db_query by assumption. cbn.
  rewrite Hrow. cbn.
  rewrite run_db_query by assumption. cbn.
  rewrite bool_decide_eq_false_2 by assumption.
  unfold ret. repeat f_equal.
  unfold set_sessions, set_queries; cbn. f_equal.
  now apply alter_present.
Qed.

(** mallory is no participant of the session of alice and bob. *)
Lemma session_served_to_any_requester_witness :
  db_ok healthy /\
  sessions world0 !! 1 = Some alice_bob /\
  js "mallory" <> user_a alice_bob /\
  getUSSSession healthy 1 (js "mallory") world0 =
  (Ok (Some {| sessionId := 1;
               userA := js "alice";
               userB := js "bob";
               doubleEncryptedKey := js "S0VZQg==";
               passphraseHash := js "SEFTSA==";
               view_salt := js "U0FMVA==";
               iv := js "SVZC";
               wrongAttempts := 0;
               view_status := ACTIVE;
               createdAt := 1000;
               lastAccess := None |}),
   set_queries 2
     (set_sessions (<[1 := set_last_access 2000 alice_bob]> (sessions world0)) world0)).
Proof.
  split; [exact healthy_db_ok |].
  split; [reflexivity |].
  split; [discriminate |].
  apply (session_served_to_any_requester healthy world0 1 alice_bob (js "mallory")).
  - exact healthy_db_ok.
  - reflexivity.
  - discriminate.
Defined.

End SessionFetchFacts.

(** ** The lockdown procedure *)

Module LockdownFacts.

Local Open Scope Z_scope.

(** One mail of the lockdown: it never throws, and it touches neither the
    store nor the clock. *)
Lemma run_emailPromise (env : Env) (email user : jsstring) (zip : bytes)
    (id : Z) (ua ub : jsstring) (w : World) :
  exists w',
    emailPromise env email user zip id ua ub w = (Ok (email_results env email), w')
    /\ same_store w w'.
Proof.
  unfold emailPromise, email_results, same_store.
  destruct (truthy email); cbn.
  - unfold Server.bind, try_catch, sendSecurityEmail, try_catch, Server.bind, lift.
    destruct (sendMail env email) as [[]|e]; cbn;
      (eexists; split; [reflexivity |]); cbn;
      repeat split; try reflexivity; count_lockdowns.
  - eexists; split; [reflexivity |]. repeat split; reflexivity.
Qed.

(** The whole procedure against a working store. *)
Lemma run_activateLockdown (env : Env) (w : World) (id : Z) (row : SessionRow) :
  db_ok env ->
  sessions w !! id = Some row ->
  exists w',
    activateLockdown env id w = (Ok tt, w') /\
    lockdowns w' = S (lockdowns w) /\
    now w' = now w /\
    match createUnencryptedZip env (exported id w) id with
    | Ok zip =>
        uss_messages w' = remaining id w /\
        sessions w' = <[id := set_status_locked (now w) row]> (sessions w) /\
        security_events w' = security_events w ++ lockdown_events env id row w
    | Throw e =>
        uss_messages w' = uss_messages w /\
        sessions w' = sessions w /\
        security_events w' = security_events w ++ [lockdown_failure_event id e w]
    end.
Proof.
  intros Hdb Hrow.
  unfold activateLockdown, try_catch.
  step. step. rewrite Hrow.
  step. unfold exportMessages. step. step. step.
  fold (exported id w).
  destruct (createUnencryptedZip env (exported id w) id) as [zip|e] eqn:Hzip.
  - erewrite bind_ok by (unfold lift; reflexivity).
    step. step.
    match goal with
    | |- context [Server.bind (emailPromise ?e ?a ?b ?c ?d ?f ?g) ?k ?w0] =>
        destruct (run_emailPromise e a b c d f g w0) as (w1 & E1 & S1);
        rewrite (bind_ok _ _ _ _ _ E1)
    end.
    match goal with
    | |- context [Server.bind (emailPromise ?e ?a ?b ?c ?d ?f ?g) ?k ?w0] =>
        destruct (run_emailPromise e a b c d f g w0) as (w2 & E2 & S2);
        rewrite (bind_ok _ _ _ _ _ E2)
    end.
    unfold same_store in S1, S2. norm_in S1. norm_in S2.
    destruct S1 as (S1a & S1b & S1c & S1d & S1e & S1f).
    destruct S2 as (S2a & S2b & S2c & S2d & S2e & S2f).
    repeat step.
    unfold console_log, modify.
    eexists; split; [reflexivity |]. norm.
    rewrite S2a, S2b, S2c, S2e, S1a, S1b, S1c, S1e.
    split; [count_lockdowns |]. split; [reflexivity |].
    split; [reflexivity |]. split; [now apply alter_present |].
    unfold lockdown_events, lockdown_emails, successful.
    rewrite <- !app_assoc. reflexivity.
  - erewrite bind_throw by (unfold lift; reflexivity).
    repeat step. eexists; split; [reflexivity |]. norm.
    split; [count_lockdowns |]. split; [reflexivity |].
    repeat split; reflexivity.
Qed.

(** C6, as the code has it.  Against a working store, whatever the mail
    transport does: when the archive is created, every message of the
    session is deleted, the session is marked locked with the lockdown
    time, and exactly three events are appended (one backup event, sent
    when at least one mail went out and failed when none did, the wipe,
    the lockdown); when the archive step fails, nothing is deleted, the
    status is left as it was and one lockdown event carries the error. *)
Theorem lockdown_does_not_wait_for_mail
    (env : Env) (w : World) (id : Z) (row : SessionRow) :
  db_ok env ->
  sessions w !! id = Some row ->
  exists w',
    activateLockdown env id w = (Ok tt, w') /\
    match createUnencryptedZip env (exported id w) id with
    | Ok zip =>
        uss_messages w' = remaining id w /\
        sessions w' = <[id := set_status_locked (now w) row]> (sessions w) /\
        security_events w' = security_events w ++ lockdown_events env id row w
    | Throw e =>
        uss_messages w' = uss_messages w /\
        sessions w' = sessions w /\
        security_events w' = security_events w ++ [lockdown_failure_event id e w]
    end.
Proof.
  intros Hdb Hrow.
  destruct (run_activateLockdown env w id row Hdb Hrow) as (w' & Hrun & _ & _ & H).
  now exists w'.
Qed.

(** The mail to alice is rejected: bob's copy goes out, the session is
    wiped and locked all the same. *)
Lemma lockdown_does_not_wait_for_mail_witness :
  db_ok alice_unreachable /\
  sessions world0 !! 1 = Some alice_bob /\
  exists w',
    activateLockdown alice_unreachable 1 world0 = (Ok tt, w') /\
    uss_messages w' = [] /\
    sessions w' = <[1 := set_status_locked 2000 alice_bob]> (sessions world0) /\
    event_types w' = [BACKUP_SENT; DATA_WIPED; USS_LOCKDOWN].
Proof.
  split; [intros n; reflexivity |].
  split; [reflexivity |].
  destruct (lockdown_does_not_wait_for_mail alice_unreachable world0 1 alice_bob)
    as (w' & Hrun & Hmsgs & Hsess & Hev);
    [intros n; reflexivity | reflexivity |].
  exists w'. split; [exact Hrun |].
  split; [exact Hmsgs |]. split; [exact Hsess |].
  unfold event_types. rewrite Hev. reflexivity.
Defined.

(** With a failing archiver the third failed attempt enters the lockdown
    and leaves it at the archive step: both messages are still stored,
    the session is still active, and the only lockdown event carries the
    error. *)
Example broken_archiver_aborts_the_lockdown :
  event_types (snd (verify_requests archiver_broken 1 [false; false; false] world0))
    = [USS_ACCESS_DENIED; USS_ACCESS_DENIED; USS_ACCESS_DENIED; USS_LOCKDOWN] /\
  length (uss_messages
            (snd (verify_requests archiver_broken 1 [false; false; false] world0)))
    = 2%nat /\
  status <$> (sessions
                (snd (verify_requests archiver_broken 1 [false; false; false] world0))
              !! 1) = Some ACTIVE.
Proof. repeat split; vm_compute; reflexivity. Qed.

(** With the store down the verify route answers 500 and changes nothing
    but the console. *)
Example store_down_verification_failed :
  fst (post_verify store_down 1 false world0) =
    Ok {| http_status := 500; body := VerificationFailed |} /\
  sessions (snd (post_verify store_down 1 false world0)) !! 1 = Some alice_bob /\
  security_events (snd (post_verify store_down 1 false world0)) = [].
Proof. repeat split; vm_compute; reflexivity. Qed.

(** The mail to alice is rejected and the one to bob goes out: the only
    backup event is [BACKUP_SENT], no event records the failed delivery.
    And when the archiver fails, the procedure stops before the wipe and
    the lock. *)
Lemma rejected_mail_leaves_no_failure_event :
  ~ delivery_failure_is_logged alice_unreachable 1 world0 /\
  ~ steps_continue archiver_broken 1 world0.
Proof.
  split.
  2: { intros [Hwipe _].
       assert (Hkept : length (uss_messages (snd (activateLockdown archiver_broken 1 world0)))
                       = 2%nat) by (vm_compute; reflexivity).
       assert (Hgone : length (remaining 1 world0) = 0%nat) by (vm_compute; reflexivity).
       rewrite Hwipe, Hgone in Hkept. discriminate Hkept. }
  intros H.
  assert (Hrow : sessions world0 !! 1 = Some alice_bob) by (vm_compute; reflexivity).
  assert (Hfail : sendMail alice_unreachable (js "alice@example.org") = Throw SmtpError)
    by (vm_compute; reflexivity).
  assert (Hevents : event_types (snd (activateLockdown alice_unreachable 1 world0))
                    = [BACKUP_SENT; DATA_WIPED; USS_LOCKDOWN])
    by (vm_compute; reflexivity).
  specialize (H alice_bob (js "alice@example.org") SmtpError
                Hrow (or_introl eq_refl) eq_refl Hfail).
  rewrite Hevents in H. cbn in H.
  repeat destruct H as [H | H]; try discriminate H; exact H.
Qed.

End LockdownFacts.
(** ** Recording unlock attempts *)

Module AttemptFacts.

Import LockdownFacts.
Local Open Scope Z_scope.

Section Preservation.

Context (env : Env) (id0 : Z).
Local Open Scope server_scope.

Lemma preserves_ret {A} (P : World -> Prop) (a : A) : preserves P (ret a).
Proof. now intros w. Qed.

Lemma preserves_throw {A} (P : World -> Prop) (e : Exn) : preserves P (@throw A e).
Proof. now intros w. Qed.

Lemma preserves_lift {A} (P : World -> Prop) (r : Result A) : preserves P (lift r).
Proof. now intros w. Qed.

Lemma preserves_time (P : World -> Prop) : preserves P current_time.
Proof. now intros w. Qed.

Lemma preserves_bind {A B} (P : World -> Prop) (m : M A) (k : A -> M B) :
  preserves P m -> (forall a, preserves P (k a)) -> preserves P (Server.bind m k).
Proof.
  intros Hm Hk w Hw. unfold Server.bind.
  specialize (Hm w Hw). destruct (m w) as [[a|e] w']; cbn in *; [now apply Hk | assumption].
Qed.

Lemma preserves_try_catch {A} (P : World -> Prop) (m : M A) (h : Exn -> M A) :
  preserves P m -> (forall e, preserves P (h e)) -> preserves P (try_catch m h).
Proof.
  intros Hm Hh w Hw. unfold try_catch.
  specialize (Hm w Hw). destruct (m w) as [[a|e] w']; cbn in *; [assumption | now apply Hh].
Qed.

Lemma locked_same_sessions (w w' : World) :
  sessions w' = sessions w -> locked id0 w -> locked id0 w'.
Proof. unfold locked. now intros ->. Qed.

Lemma preserves_modify (f : World -> World) :
  keeps_sessions f -> preserves (locked id0) (modify f).
Proof. intros Hf w Hw. cbn. eapply locked_same_sessions; [apply Hf | assumption]. Qed.

Lemma preserves_log (l : LogLine) : preserves (locked id0) (console_log l).
Proof. apply preserves_modify. now intros w. Qed.

Lemma preserves_query {A} (q : World -> A * World) :
  (forall w, locked id0 w -> locked id0 (snd (q w))) ->
  preserves (locked id0) (db_query env q).
Proof.
  intros Hq w Hw. unfold db_query.
  assert (Hw1 : locked id0 (set_queries (S (queries w)) w))
    by (eapply locked_same_sessions; [|exact Hw]; reflexivity).
  destruct (db_fails env (queries w)); cbn; [assumption |].
  specialize (Hq _ Hw1). now destruct (q _).
Qed.

Lemma locked_update (id : Z) (f : SessionRow -> SessionRow) (w : World) :
  keeps_locked f -> locked id0 w -> locked id0 (snd (update_session id f w)).
Proof.
  intros Hf (row & Hrow & Hst). unfold locked. norm.
  destruct (decide (id = id0)) as [-> | Hne].
  - exists (f row). rewrite lookup_alter_eq, Hrow. split; [reflexivity | now apply Hf].
  - exists row. now rewrite lookup_alter_ne.
Qed.

Lemma preserves_event (e : SecurityEvent) :
  preserves (locked id0) (logSecurityEvent env e).
Proof.
  apply preserves_try_catch; [| intros; apply preserves_log].
  apply preserves_query. intros w Hw. exact Hw.
Qed.

Lemma preserves_email (email user : jsstring) (zip : bytes) (id : Z) (ua ub : jsstring) :
  preserves (locked id0) (emailPromise env email user zip id ua ub).
Proof.
  unfold emailPromise. destruct (truthy email); [| apply preserves_ret].
  apply preserves_bind; [| intros; apply preserves_ret].
  apply preserves_try_catch;
    [| intros; apply preserves_bind; [apply preserves_log | intros; apply preserves_ret]].
  unfold sendSecurityEmail.
  apply preserves_try_catch.
  - apply preserves_bind; [apply preserves_lift | intros _].
    apply preserves_bind; [apply preserves_modify; now intros w | intros _].
    apply preserves_bind; [apply preserves_log | intros; apply preserves_ret].
  - intros e. apply preserves_bind; [apply preserves_log | intros; apply preserves_throw].
Qed.

End Preservation.

Ltac preserve :=
  repeat first
    [ apply preserves_ret | apply preserves_throw | apply preserves_lift
    | apply preserves_time | apply preserves_log | apply preserves_event
    | apply preserves_email
    | apply preserves_bind; [| intros ?]
    | apply preserves_try_catch; [| intros ?]
    | apply preserves_query; intros ? ?
    | match goal with
      | |- preserves _ (match ?x with _ => _ end) => destruct x
      | |- preserves _ (if ?x then _ else _) => destruct x
      end ].

Ltac keep_locked :=
  try assumption;
  try (apply locked_update; [intros ? ?; cbn; first [reflexivity | assumption] | assumption]).

Lemma preserves_lockdown env id0 id : preserves (locked id0) (activateLockdown env id).
Proof. unfold activateLockdown, exportMessages. preserve; keep_locked. Qed.

Lemma preserves_increment env id0 id : preserves (locked id0) (incrementWrongAttempts env id).
Proof.
  unfold incrementWrongAttempts. preserve; keep_locked; apply preserves_lockdown.
Qed.

Lemma preserves_reset env id0 id : preserves (locked id0) (resetWrongAttempts env id).
Proof. unfold resetWrongAttempts. preserve; keep_locked. Qed.

Lemma preserves_post_verify env id0 id success :
  preserves (locked id0) (post_verify env id success).
Proof.
  unfold post_verify.
  apply preserves_try_catch; [| intros; preserve].
  destruct success.
  - apply preserves_bind; [apply preserves_reset | intros; preserve].
  - apply preserves_bind; [apply preserves_increment | intros; preserve].
Qed.

Lemma run_increment env w id row :
  db_ok env -> sessions w !! id = Some row ->
  exists w' row',
    incrementWrongAttempts env id w = (Ok (wrong_attempts row + 1), w') /\
    sessions w' !! id = Some row' /\
    wrong_attempts row' = wrong_attempts row + 1 /\
    lockdowns w' = (lockdowns w + (if (3 <=? wrong_attempts row + 1)%Z then 1 else 0))%nat /\
    (exists later, event_types w' = event_types w ++ USS_ACCESS_DENIED :: later) /\
    (status row' = status row \/ status row' = LOCKED) /\
    (wrong_attempts row + 1 < 3 -> status row' = status row /\ uss_messages w' = uss_messages w) /\
    (3 <= wrong_attempts row + 1 -> zip_ok env ->
       status row' = LOCKED /\ uss_messages w' = remaining id w).
Proof.
  intros Hdb Hrow.
  unfold incrementWrongAttempts.
  step. rewrite Hrow. step. step. step.
  rewrite (alter_present _ _ _ _ Hrow).
  destruct (3 <=? wrong_attempts row + 1) eqn:Hn.
  - apply Z.leb_le in Hn.
    match goal with
    | |- context [Server.bind (activateLockdown ?e ?i) ?k ?w0] =>
        destruct (run_activateLockdown e w0 i (set_wrong_attempts (wrong_attempts row + 1) row))
          as (w1 & E1 & Hl & Hnow & Hz); [assumption | norm; apply lookup_insert_eq |];
        rewrite (bind_ok _ _ _ _ _ E1)
    end.
    norm_in Hz. norm_in Hl. norm_in Hnow.
    unfold ret.
    destruct (createUnencryptedZip _ _ _) as [zip|e] eqn:Hzip in Hz.
    + destruct Hz as (Hm & Hs & He).
      exists w1, (set_status_locked (now w) (set_wrong_attempts (wrong_attempts row + 1) row)).
      split; [reflexivity|]. rewrite Hs, lookup_insert_eq. split; [reflexivity|].
      split; [reflexivity|]. split; [count_lockdowns|].
      split. { eexists. unfold event_types. rewrite He. norm. rewrite !map_app, <- app_assoc. reflexivity. }
      split; [now right|]. split; [lia|]. intros _ _. split; [reflexivity|]. exact Hm.
    + destruct Hz as (Hm & Hs & He).
      exists w1, (set_wrong_attempts (wrong_attempts row + 1) row).
      split; [reflexivity|]. rewrite Hs, lookup_insert_eq. split; [reflexivity|].
      split; [reflexivity|]. split; [count_lockdowns|].
      split. { eexists. unfold event_types. rewrite He. norm. rewrite !map_app, <- app_assoc. reflexivity. }
      split; [now left|]. split; [lia|]. intros _ Hzok.
      exfalso. unfold exported in Hzip. norm_in Hzip.
      destruct (Hzok (order_by_timestamp (List.filter (of_session id) (uss_messages w))) id) as (z & Hz').
      unfold exported in Hzip. congruence.
  - apply Z.leb_gt in Hn. unfold ret, Server.bind.
    eexists _, (set_wrong_attempts (wrong_attempts row + 1) row).
    split; [reflexivity|]. norm. rewrite lookup_insert_eq. split; [reflexivity|].
    split; [reflexivity|]. split; [count_lockdowns|].
    split. { exists []. unfold event_types. norm. now rewrite map_app. }
    split; [now left|]. split; [intros _; split; reflexivity|]. lia.
Qed.

Lemma run_failed_attempt env w id row :
  db_ok env -> sessions w !! id = Some row ->
  exists w' row',
    post_verify env id false w = (Ok (failure_response (wrong_attempts row + 1)), w') /\
    sessions w' !! id = Some row' /\
    wrong_attempts row' = wrong_attempts row + 1 /\
    lockdowns w' = (lockdowns w + (if (3 <=? wrong_attempts row + 1)%Z then 1 else 0))%nat /\
    (exists later, event_types w' = event_types w ++ USS_ACCESS_DENIED :: later) /\
    (status row' = status row \/ status row' = LOCKED) /\
    (wrong_attempts row + 1 < 3 -> status row' = status row /\ uss_messages w' = uss_messages w) /\
    (3 <= wrong_attempts row + 1 -> zip_ok env ->
       status row' = LOCKED /\ uss_messages w' = remaining id w).
Proof.
  intros Hdb Hrow.
  destruct (run_increment env w id row Hdb Hrow) as (w' & row' & Hrun & H).
  exists w', row'. split; [| exact H].
  unfold post_verify, try_catch. cbv iota.
  rewrite (bind_ok _ _ _ _ _ Hrun). unfold failure_response.
  now destruct (3 <=? wrong_attempts row + 1).
Qed.

Lemma run_successful_attempt env w id row :
  db_ok env -> sessions w !! id = Some row ->
  post_verify env id true w =
  (Ok {| http_status := 200; body := AccessGranted 3 |},
   set_security_events
     (security_events w ++
        [{| event_type := USS_ACCESSED; event_session := id; user_involved := None;
            details := DAccessed (now w) |}])
     (set_queries (S (S (queries w)))
        (set_sessions
           (<[id := set_last_access (now w) (set_wrong_attempts 0 row)]> (sessions w)) w))).
Proof.
  intros Hdb Hrow.
  unfold post_verify, try_catch. cbv iota.
  unfold resetWrongAttempts.
  assert (E : forall w0,
    (t <- current_time ;;
     db_query env (update_session id (fun r => set_last_access t (set_wrong_attempts 0 r))) ;;
     t0 <- current_time ;;
     logSecurityEvent env {| event_type := USS_ACCESSED; event_session := id;
        user_involved := None; details := DAccessed t0 |})%server w0 =
    (Ok tt, set_security_events
     (security_events w0 ++
        [{| event_type := USS_ACCESSED; event_session := id; user_involved := None;
            details := DAccessed (now w0) |}])
     (set_queries (S (S (queries w0)))
        (set_sessions
           (alter (fun r => set_last_access (now w0) (set_wrong_attempts 0 r)) id (sessions w0)) w0)))).
  { intros w0. repeat step. reflexivity. }
  rewrite (bind_ok _ _ _ _ _ (E w)). unfold ret.
  now rewrite (alter_present _ _ _ _ Hrow).
Qed.

Lemma verify_requests_cons (env : Env) (id : Z) (success : bool)
    (rest : list bool) (w : World) :
  snd (verify_requests env id (success :: rest) w) =
  snd (verify_requests env id rest (snd (post_verify env id success w))).
Proof.
  cbn [verify_requests].
  destruct (post_verify env id success w) as [r w1]. cbn [snd].
  now destruct (verify_requests env id rest w1).
Qed.

(** From two recorded failures on, every further failure runs the lockdown. *)
Lemma failures_at_threshold (env : Env) (id : Z) :
  db_ok env -> zip_ok env ->
  forall (n : nat) (w : World) (row : SessionRow),
    sessions w !! id = Some row ->
    2 <= wrong_attempts row ->
    exists row',
      sessions (snd (verify_requests env id (repeat false (S n)) w)) !! id = Some row' /\
      wrong_attempts row' = wrong_attempts row + Z.of_nat (S n) /\
      status row' = LOCKED /\
      lockdowns (snd (verify_requests env id (repeat false (S n)) w))
      = (lockdowns w + S n)%nat.
Proof.
  intros Hdb Hzip n. induction n as [|n IH]; intros w row Hrow Ha.
  - cbn [repeat]. rewrite verify_requests_cons. cbn [verify_requests snd].
    destruct (run_failed_attempt env w id row Hdb Hrow)
      as (w' & row' & Hrun & Hrow' & Hn & Hl & _ & _ & _ & Hlock).
    rewrite Hrun. cbn [snd].
    destruct Hlock as [Hst _]; [lia | assumption |].
    exists row'. repeat split; try assumption; try lia.
    rewrite Hl. destruct (3 <=? wrong_attempts row + 1) eqn:E; [lia | apply Z.leb_gt in E; lia].
  - change (repeat false (S (S n))) with (false :: repeat false (S n)).
    rewrite verify_requests_cons.
    destruct (run_failed_attempt env w id row Hdb Hrow)
      as (w' & row' & Hrun & Hrow' & Hn & Hl & _ & _ & _ & _).
    rewrite Hrun. cbn [snd].
    destruct (IH w' row' Hrow') as (row'' & Hrow'' & Hn'' & Hst'' & Hl''); [lia |].
    exists row''. repeat split; try assumption; try lia.
    rewrite Hl'', Hl. destruct (3 <=? wrong_attempts row + 1) eqn:E; [lia | apply Z.leb_gt in E; lia].
Qed.

(** X1. Against a working store and archiver, a failed attempt on an
    active session adds one to the counter; the call that brings the
    counter to three or more runs the lockdown once and leaves the session
    locked.  Three failures from zero lock the session with one lockdown,
    and each failed attempt after that runs the lockdown once more. *)
Theorem failed_attempts_lock_the_session
    (env : Env) (w : World) (id : Z) (row : SessionRow) :
  db_ok env -> zip_ok env ->
  sessions w !! id = Some row ->
  status row = ACTIVE ->
  (exists w' row',
     post_verify env id false w = (Ok (failure_response (wrong_attempts row + 1)), w') /\
     sessions w' !! id = Some row' /\
     wrong_attempts row' = wrong_attempts row + 1 /\
     status row' = (if 3 <=? wrong_attempts row + 1 then LOCKED else ACTIVE) /\
     lockdowns w' = (lockdowns w + (if (3 <=? wrong_attempts row + 1)%Z then 1 else 0))%nat)
  /\
  (wrong_attempts row = 0 ->
   forall later : nat,
   exists row',
     sessions (snd (verify_requests env id (repeat false (3 + later)) w)) !! id = Some row' /\
     status row' = LOCKED /\
     wrong_attempts row' = 3 + Z.of_nat later /\
     lockdowns (snd (verify_requests env id (repeat false (3 + later)) w))
     = (lockdowns w + 1 + later)%nat).
Proof.
  intros Hdb Hzip Hrow Hact. split.
  - destruct (run_failed_attempt env w id row Hdb Hrow)
      as (w' & row' & Hrun & Hrow' & Hn & Hl & _ & _ & Hlow & Hhigh).
    exists w', row'.
    split; [exact Hrun |]. split; [exact Hrow' |]. split; [exact Hn |].
    split; [| exact Hl].
    destruct (3 <=? wrong_attempts row + 1) eqn:E.
    + apply Z.leb_le in E. now destruct (Hhigh E Hzip).
    + apply Z.leb_gt in E. destruct (Hlow E) as [-> _]. exact Hact.
  - intros Hzero later.
    change (repeat false (3 + later)) with (false :: false :: repeat false (S later)).
    rewrite !verify_requests_cons.
    destruct (run_failed_attempt env w id row Hdb Hrow)
      as (w1 & row1 & Hrun1 & Hrow1 & Hn1 & Hl1 & _ & _ & _ & _).
    rewrite Hrun1. cbn [snd].
    destruct (run_failed_attempt env w1 id row1 Hdb Hrow1)
      as (w2 & row2 & Hrun2 & Hrow2 & Hn2 & Hl2 & _ & _ & _ & _).
    rewrite Hrun2. cbn [snd].
    destruct (failures_at_threshold env id Hdb Hzip later w2 row2 Hrow2)
      as (row' & Hrow' & Hn' & Hst' & Hl'); [lia |].
    exists row'. repeat split; try assumption; try lia.
    rewrite Hl', Hl2, Hl1, Hn1, Hzero.
    change (3 <=? 0 + 1) with false. change (3 <=? 0 + 1 + 1) with false. cbv iota. lia.
Qed.

Lemma healthy_zip_ok : zip_ok healthy.
Proof. intros messages sessionId. eexists. reflexivity. Qed.

(** alice and bob: the third failure locks the session, with one lockdown. *)
Lemma failed_attempts_lock_the_session_witness :
  db_ok healthy /\ zip_ok healthy /\
  sessions world0 !! 1 = Some alice_bob /\
  status alice_bob = ACTIVE /\
  exists row',
    sessions world_locked !! 1 = Some row' /\
    status row' = LOCKED /\
    wrong_attempts row' = 3 /\
    lockdowns world_locked = 1%nat.
Proof.
  split; [exact healthy_db_ok |]. split; [exact healthy_zip_ok |].
  split; [reflexivity |]. split; [reflexivity |].
  destruct (failed_attempts_lock_the_session healthy world0 1 alice_bob
              healthy_db_ok healthy_zip_ok eq_refl eq_refl) as [_ H].
  destruct (H eq_refl 0%nat) as (row' & Hrow' & Hst & Hn & Hl).
  exists row'. repeat split; assumption.
Defined.

(** C1 on the session of alice and bob.  The third failed attempt locks
    the session and runs the lockdown; the fourth failed attempt runs it
    a second time, and two more mails leave: the lockdown is not invoked
    exactly once. *)
Theorem fourth_failure_runs_the_lockdown_again :
  lockdowns world_locked = 1%nat /\
  length (outbox world_locked) = 2%nat /\
  lockdowns (snd (post_verify healthy 1 false world_locked)) = 2%nat /\
  length (outbox (snd (post_verify healthy 1 false world_locked))) = 4%nat /\
  ~ lockdown_invoked_exactly_once healthy 1 world0.
Proof.
  split; [vm_compute; reflexivity |].
  split; [vm_compute; reflexivity |].
  split; [vm_compute; reflexivity |].
  split; [vm_compute; reflexivity |].
  intros H. specialize (H [false]).
  assert (Htwice : lockdowns (snd (verify_requests healthy 1
                      ([false; false; false] ++ [false]) world0)) = 2%nat)
    by (vm_compute; reflexivity).
  rewrite Htwice in H. discriminate H.
Qed.

(** X2. A locked session stays locked through every verify request,
    whatever the collaborators do.  Against a working store, a request
    with [success = true] is granted: it resets the counter to zero and
    appends an accessed event; a request with [success = false] adds one
    to the counter, appends an access-denied event and is answered as
    locked exactly when the new count is at least three. *)
Theorem locked_session_stays_locked
    (env : Env) (w : World) (id : Z) (row : SessionRow) :
  sessions w !! id = Some row ->
  status row = LOCKED ->
  (forall success, locked id (snd (post_verify env id success w))) /\
  (db_ok env ->
   (exists w',
      post_verify env id true w =
        (Ok {| http_status := 200; body := AccessGranted 3 |}, w') /\
      sessions w' !! id = Some (set_last_access (now w) (set_wrong_attempts 0 row)) /\
      event_types w' = event_types w ++ [USS_ACCESSED]) /\
   (exists w' row' later,
      post_verify env id false w =
        (Ok (failure_response (wrong_attempts row + 1)), w') /\
      sessions w' !! id = Some row' /\
      wrong_attempts row' = wrong_attempts row + 1 /\
      status row' = LOCKED /\
      event_types w' = event_types w ++ USS_ACCESS_DENIED :: later)).
Proof.
  intros Hrow Hst. split.
  - intros success. apply preserves_post_verify. now exists row.
  - intros Hdb. split.
    + eexists. split; [exact (run_successful_attempt env w id row Hdb Hrow) |].
      norm. rewrite lookup_insert_eq. split; [reflexivity |].
      unfold event_types. norm. now rewrite map_app.
    + destruct (run_failed_attempt env w id row Hdb Hrow)
        as (w' & row' & Hrun & Hrow' & Hn & _ & (later & Hev) & Hstatus & _ & _).
      exists w', row', later. repeat split; try assumption.
      destruct Hstatus as [-> | ->]; [assumption | reflexivity].
Qed.

(** The locked session of alice and bob: a request with [success = true]
    is granted and clears the counter. *)
Lemma locked_session_stays_locked_witness :
  (exists row, sessions world_locked !! 1 = Some row /\ status row = LOCKED /\
               wrong_attempts row = 3) /\
  exists w',
    post_verify healthy 1 true world_locked =
      (Ok {| http_status := 200; body := AccessGranted 3 |}, w') /\
    (exists row', sessions w' !! 1 = Some row' /\
                  wrong_attempts row' = 0 /\ status row' = LOCKED).
Proof.
  assert (Hrow : sessions world_locked !! 1 =
                 Some (set_status_locked 2000 (set_wrong_attempts 3 alice_bob)))
    by reflexivity.
  split; [eexists; split; [exact Hrow | split; reflexivity] |].
  destruct (locked_session_stays_locked healthy world_locked 1 _ Hrow eq_refl)
    as [_ H].
  destruct (H healthy_db_ok) as [(w' & Hrun & Hrow' & _) _].
  exists w'. split; [exact Hrun |].
  eexists. split; [exact Hrow' |]. split; reflexivity.
Defined.

(** C2 on the locked session of alice and bob.  A request that reports
    success is answered with access granted, clears the counter and is
    logged as an access: the locked session does not deny it. *)
Theorem locked_session_grants_reported_success :
  fst (post_verify healthy 1 true world_locked) =
    Ok {| http_status := 200; body := AccessGranted 3 |} /\
  sessions (snd (post_verify healthy 1 true world_locked)) !! 1 =
    Some (set_last_access 2000
            (set_wrong_attempts 0
               (set_status_locked 2000 (set_wrong_attempts 3 alice_bob)))) /\
  last (event_types (snd (post_verify healthy 1 true world_locked)))
    = Some USS_ACCESSED /\
  ~ locked_session_denies healthy 1 true world_locked.
Proof.
  split; [vm_compute; reflexivity |].
  split; [vm_compute; reflexivity |].
  split; [vm_compute; reflexivity |].
  intros H.
  assert (Hrow : sessions world_locked !! 1 =
                 Some (set_status_locked 2000 (set_wrong_attempts 3 alice_bob)))
    by (vm_compute; reflexivity).
  assert (Hgranted : fst (post_verify healthy 1 true world_locked) =
                     Ok {| http_status := 200; body := AccessGranted 3 |})
    by (vm_compute; reflexivity).
  destruct (H _ Hrow eq_refl) as (resp & w' & row' & later & Hrun & Hbody & _).
  rewrite Hrun in Hgranted. cbn [fst] in Hgranted.
  injection Hgranted as ->. discriminate Hbody.
Qed.

(** The scenario of the specification: alice creates the session, bob
    enters three wrong passphrases; the third answer says locked and the
    session is then reported as locked. *)
Example three_wrong_passphrases_scenario :
  fst (createUSSSession healthy alice_bob_data empty_world) = Ok 1 /\
  fst (verify_requests healthy 1 [false; false; false]
         (snd (createUSSSession healthy alice_bob_data empty_world))) =
    [ {| http_status := 200; body := IncorrectPassphrase 2 |};
      {| http_status := 200; body := IncorrectPassphrase 1 |};
      {| http_status := 403; body := SessionLocked 0 |} ] /\
  fst (get_session healthy 1 (Some (js "bob"))
         (snd (verify_requests healthy 1 [false; false; false]
                 (snd (createUSSSession healthy alice_bob_data empty_world))))) =
    Ok {| http_status := 403; body := LockedStatus |}.
Proof. repeat split; vm_compute; reflexivity. Qed.

End AttemptFacts.

(** ** Signature verification *)

Module SignatureFacts.

Local Open Scope Z_scope.

Lemma run_getSigningKey {B} (env : Env) (username : jsstring)
    (k : option jsstring -> M B) (w : World) :
  db_ok env ->
  Server.bind (getSigningKey env username) k w =
  k (match users w !! username with
     | Some row => truthy_string (signature_key_public row)
     | None => None
     end)
    (set_queries (S (queries w)) w).
Proof.
  intros Hdb. unfold getSigningKey.
  apply bind_ok. now step.
Qed.




(** C3, as the code has it.  With the sender's key stored and
    importable, the raw (IEEE P1363) encoding is checked first; its
    verdict, when it gives one, is the result and nothing else is tried.
    When that check throws, the verifier says so on the console and
    checks the same bytes as ASN.1/DER: the result is the DER verdict,
    and false when the DER check throws as well. *)
Theorem der_is_tried_when_p1363_throws (env : Env) (w : World)
    (sender message sig pem : jsstring) (row : UserRow) (publicKey : PublicKey) :
  db_ok env ->
  users w !! sender = Some row ->
  truthy_string (signature_key_public row) = Some pem ->
  createPublicKey env pem = Ok publicKey ->
  verifyMessageSignature env sender message sig w =
  match verify_ieee_p1363 env publicKey message (buffer_from_base64 env sig) with
  | Ok isValid => (Ok isValid, set_queries (S (queries w)) w)
  | Throw _ =>
      match verify_der env publicKey message (buffer_from_base64 env sig) with
      | Ok isValid =>
          (Ok isValid,
           set_console (console w ++ [LogTryingDER]) (set_queries (S (queries w)) w))
      | Throw e =>
          (Ok false,
           set_console
             ((console w ++ [LogTryingDER]) ++ [LogSignatureVerificationError e])
             (set_queries (S (queries w)) w))
      end
  end.
Proof.
  intros Hdb Hrow Hpem Hkey.
  unfold verifyMessageSignature, try_catch.
  rewrite run_getSigningKey by assumption. rewrite Hrow, Hpem.
  unfold lift, Server.bind at 1. rewrite Hkey.
  unfold Server.bind, try_catch.
  destruct (verify_ieee_p1363 env publicKey message (buffer_from_base64 env sig))
    as [isValid|e1]; [reflexivity |].
  cbn.
  destruct (verify_der env publicKey message (buffer_from_base64 env sig))
    as [isValid|e2]; reflexivity.
Qed.

(** The signature of alice is rejected as P1363 with an exception and
    accepted as DER. *)
Lemma der_is_tried_when_p1363_throws_witness :
  db_ok der_signer /\
  users world0 !! js "alice" = Some {| signature_key_public := Some (js "PEM-alice") |} /\
  createPublicKey der_signer (js "PEM-alice") = Ok (PublicKeyObject (js "PEM-alice")) /\
  verifyMessageSignature der_signer (js "alice") (js "Y2lwaGVy") (js "c2ln") world0 =
  (Ok true, set_console [LogTryingDER] (set_queries 1 world0)).
Proof.
  split; [intros n; reflexivity |].
  split; [vm_compute; reflexivity |].
  split; [reflexivity |].
  apply (der_is_tried_when_p1363_throws der_signer world0
           (js "alice") (js "Y2lwaGVy") (js "c2ln") (js "PEM-alice")
           {| signature_key_public := Some (js "PEM-alice") |}
           (PublicKeyObject (js "PEM-alice"))).
  - intros n; reflexivity.
  - vm_compute; reflexivity.
  - reflexivity.
  - reflexivity.
Defined.

(** After the exception of the first encoding the second one is tried. *)
Lemma second_encoding_is_tried :
  ~ checks_one_encoding der_signer (js "alice") (js "Y2lwaGVy") (js "c2ln") world0.
Proof.
  intros H. apply H.
  assert (Hconsole :
    console (snd (verifyMessageSignature der_signer (js "alice")
                    (js "Y2lwaGVy") (js "c2ln") world0)) = [LogTryingDER])
    by (vm_compute; reflexivity).
  rewrite Hconsole. now left.
Qed.









End SignatureFacts.

(** ** base64 *)

Module Base64Facts.

Local Open Scope N_scope.

(** Division and remainder by constants, for [lia]. *)
Ltac arith := zify; Z.to_euclidean_division_equations; lia.

(** Induction over a list three elements at a time. *)
Lemma list_ind3 {A} (P : list A -> Prop) :
  P [] -> (forall a, P [a]) -> (forall a b, P [a; b]) ->
  (forall a b c l, P l -> P (a :: b :: c :: l)) ->
  forall l, P l.
Proof.
  intros H0 H1 H2 H3.
  fix IH 1.
  intros [|a [|b [|c l]]]; [apply H0 | apply H1 | apply H2 | apply H3; apply IH].
Qed.

Lemma b64char_not_pad (v : N) : b64char v <> pad.
Proof.
  unfold b64char, pad.
  destruct (v <? 26) eqn:E1; [lia |].
  destruct (v <? 52) eqn:E2; [lia |].
  destruct (v <? 62) eqn:E3; [apply N.ltb_lt in E3; apply N.ltb_ge in E2; lia |].
  destruct (v =? 62); lia.
Qed.

Lemma b64char_not_space (v : N) : negb (is_ascii_whitespace (b64char v)) = true.
Proof.
  unfold is_ascii_whitespace, b64char.
  destruct (v <? 26) eqn:E1;
    [| destruct (v <? 52) eqn:E2;
       [| destruct (v <? 62) eqn:E3; [| destruct (v =? 62)]]];
    repeat match goal with
    | |- context [?x =? ?y] =>
        replace (x =? y) with false by (symmetry; apply N.eqb_neq; lia)
    end; reflexivity.
Qed.

Lemma b64val_b64char (v : N) : v < 64 -> b64val (b64char v) = Some v.
Proof.
  intros Hv. unfold b64char, b64val, between.
  destruct (v <? 26) eqn:E1.
  { apply N.ltb_lt in E1.
    replace (65 <=? 65 + v) with true by (symmetry; apply N.leb_le; lia).
    replace (65 + v <=? 90) with true by (symmetry; apply N.leb_le; lia).
    cbn. f_equal. lia. }
  apply N.ltb_ge in E1.
  destruct (v <? 52) eqn:E2.
  { apply N.ltb_lt in E2.
    replace (97 + (v - 26) <=? 90) with false by (symmetry; apply N.leb_gt; lia).
    rewrite andb_false_r.
    replace (97 <=? 97 + (v - 26)) with true by (symmetry; apply N.leb_le; lia).
    replace (97 + (v - 26) <=? 122) with true by (symmetry; apply N.leb_le; lia).
    cbn. f_equal. lia. }
  apply N.ltb_ge in E2.
  destruct (v <? 62) eqn:E3.
  { apply N.ltb_lt in E3.
    replace (65 <=? 48 + (v - 52)) with false by (symmetry; apply N.leb_gt; lia).
    replace (97 <=? 48 + (v - 52)) with false by (symmetry; apply N.leb_gt; lia).
    replace (48 <=? 48 + (v - 52)) with true by (symmetry; apply N.leb_le; lia).
    replace (48 + (v - 52) <=? 57) with true by (symmetry; apply N.leb_le; lia).
    cbn. f_equal. lia. }
  apply N.ltb_ge in E3.
  destruct (v =? 62) eqn:E4.
  { apply N.eqb_eq in E4. subst. reflexivity. }
  apply N.eqb_neq in E4. assert (v = 63) as -> by lia. reflexivity.
Qed.

Lemma sextets_bounded (l : list N) :
  Forall (fun b => b < 256) l -> Forall (fun v => v < 64) (sextets l).
Proof.
  induction l as [| a | a b | a b c l IH] using list_ind3; intros H; cbn [sextets].
  - constructor.
  - inversion_clear H. repeat constructor; arith.
  - inversion_clear H as [|? ? Ha H']. inversion_clear H' as [|? ? Hb _].
    repeat constructor; arith.
  - inversion_clear H as [|? ? Ha H']. inversion_clear H' as [|? ? Hb H''].
    inversion_clear H'' as [|? ? Hc Hl].
    repeat (constructor; [arith |]). now apply IH.
Qed.

Lemma remove_padding_cons (c : N) (s : jsstring) :
  c <> pad -> remove_padding (c :: s) = c :: remove_padding s.
Proof.
  intros Hc. cbn [remove_padding].
  apply N.eqb_neq in Hc.
  destruct s as [|d [|e s']]; rewrite ?Hc; reflexivity.
Qed.

Lemma remove_padding_encode (l : list N) :
  remove_padding (b64_encode l) = map b64char (sextets l).
Proof.
  induction l as [| a | a b | a b c l IH] using list_ind3;
    cbn [b64_encode sextets map].
  - reflexivity.
  - rewrite !remove_padding_cons by apply b64char_not_pad. reflexivity.
  - rewrite !remove_padding_cons by apply b64char_not_pad. reflexivity.
  - rewrite !remove_padding_cons by apply b64char_not_pad. now rewrite IH.
Qed.

Lemma b64_values_chars (vs : list N) :
  Forall (fun v => v < 64) vs -> b64_values (map b64char vs) = Some vs.
Proof.
  induction 1 as [|v vs Hv _ IH]; cbn [map b64_values]; [reflexivity |].
  now rewrite b64val_b64char, IH.
Qed.

Lemma decode_sextets (l : list N) :
  Forall (fun b => b < 256) l -> b64_decode_values (sextets l) = l.
Proof.
  induction l as [| a | a b | a b c l IH] using list_ind3; intros H;
    cbn [sextets b64_decode_values].
  - reflexivity.
  - inversion_clear H. f_equal. arith.
  - inversion_clear H as [|? ? Ha H']. inversion_clear H' as [|? ? Hb _].
    f_equal; [arith |]. f_equal. arith.
  - inversion_clear H as [|? ? Ha H']. inversion_clear H' as [|? ? Hb H''].
    inversion_clear H'' as [|? ? Hc Hl].
    rewrite IH by assumption.
    f_equal; [arith |]. f_equal; [arith |]. f_equal. arith.
Qed.

Lemma encode_length (l : list N) : N.of_nat (length (b64_encode l)) mod 4 = 0.
Proof.
  induction l as [| a | a b | a b c l IH] using list_ind3;
    cbn [b64_encode length]; try reflexivity.
  all: arith.
Qed.

Lemma sextets_length (l : list N) : N.of_nat (length (sextets l)) mod 4 <> 1.
Proof.
  induction l as [| a | a b | a b c l IH] using list_ind3;
    cbn [sextets length]; try (cbn; lia).
  all: arith.
Qed.

Lemma encode_no_whitespace (l : list N) :
  List.filter (fun c => negb (is_ascii_whitespace c)) (b64_encode l) = b64_encode l.
Proof.
  induction l as [| a | a b | a b c l IH] using list_ind3;
    cbn [b64_encode List.filter];
    rewrite ?b64char_not_space; cbn; try reflexivity.
  now rewrite IH.
Qed.

(** [atob] undoes [btoa] on binary strings. *)
Lemma atob_encode (l : list N) :
  Forall (fun b => b < 256) l -> atob (b64_encode l) = Ok l.
Proof.
  intros Hl. unfold atob.
  rewrite encode_no_whitespace, encode_length. cbn [N.eqb].
  rewrite remove_padding_encode, length_map.
  destruct (N.of_nat (length (sextets l)) mod 4 =? 1) eqn:E.
  { apply N.eqb_eq in E. now apply sextets_length in E. }
  rewrite b64_values_chars by now apply sextets_bounded.
  now rewrite decode_sextets.
Qed.

Lemma byte_bounded (b : bytes) : Forall (fun n => n < 256) (map Byte.to_N b).
Proof.
  induction b as [|x b IH]; constructor; [| exact IH].
  pose proof (Byte.to_N_bounded x). lia.
Qed.

Lemma byte_of_to_N (x : byte) : byte_of_N (Byte.to_N x) = x.
Proof.
  unfold byte_of_N.
  rewrite N.mod_small by (pose proof (Byte.to_N_bounded x); lia).
  now rewrite Byte.of_to_N.
Qed.

Lemma bytes_of_to_N (b : bytes) : map byte_of_N (map Byte.to_N b) = b.
Proof.
  induction b as [|x b IH]; cbn [map]; [reflexivity |].
  now rewrite byte_of_to_N, IH.
Qed.

Lemma arrayBufferToBase64_total (buf : bytes) :
  arrayBufferToBase64 buf = Ok (b64_encode (map Byte.to_N buf)).
Proof.
  unfold arrayBufferToBase64, btoa.
  replace (forallb (fun c => c <=? 255) (map Byte.to_N buf)) with true; [reflexivity |].
  symmetry. apply forallb_forall. intros c Hc.
  apply in_map_iff in Hc as (x & <- & _).
  apply N.leb_le, Byte.to_N_bounded.
Qed.

(** The transport encoding loses nothing. *)
Lemma base64_round_trip (buf : bytes) :
  exists text,
    arrayBufferToBase64 buf = Ok text /\ base64ToUint8Array text = Ok buf.
Proof.
  exists (b64_encode (map Byte.to_N buf)).
  split; [apply arrayBufferToBase64_total |].
  unfold base64ToUint8Array.
  rewrite atob_encode by apply byte_bounded.
  cbn [rbind]. now rewrite bytes_of_to_N.
Qed.

End Base64Facts.

(** ** The text codec *)

Module TextFacts.

Import Base64Facts.
Local Open Scope N_scope.

(** Bit operations on the ranges that occur, as arithmetic. *)

Lemma lor_disjoint (hi lo n : N) : lo < 2 ^ n -> N.lor (hi * 2 ^ n) lo = hi * 2 ^ n + lo.
Proof.
  intros Hlo.
  rewrite <- N.lxor_lor, <- N.add_nocarry_lxor; try reflexivity.
  - apply N.bits_inj_0. intros i. rewrite N.land_spec.
    destruct (N.lt_ge_cases i n) as [Hi | Hi].
    + now rewrite N.mul_pow2_bits_low.
    + rewrite andb_comm.
      destruct (N.eq_dec lo 0) as [-> | Hne]; [now rewrite N.bits_0 |].
      rewrite N.bits_above_log2; [reflexivity |].
      apply N.log2_lt_pow2 in Hlo; lia.
  - apply N.bits_inj_0. intros i. rewrite N.land_spec.
    destruct (N.lt_ge_cases i n) as [Hi | Hi].
    + now rewrite N.mul_pow2_bits_low.
    + rewrite andb_comm.
      destruct (N.eq_dec lo 0) as [-> | Hne]; [now rewrite N.bits_0 |].
      rewrite N.bits_above_log2; [reflexivity |].
      apply N.log2_lt_pow2 in Hlo; lia.
Qed.

Lemma land_low (a n : N) : N.land a (N.ones n) = a mod 2 ^ n.
Proof. apply N.land_ones. Qed.

Lemma shiftr_div (a n : N) : N.shiftr a n = a / 2 ^ n.
Proof. apply N.shiftr_div_pow2. Qed.

Lemma shiftl_mul (a n : N) : N.shiftl a n = a * 2 ^ n.
Proof. apply N.shiftl_mul_pow2. Qed.

Lemma cont_byte (x : N) : x < 64 -> N.lor 0x80 x = 0x80 + x.
Proof. intros H. change 0x80 with (2 * 2 ^ 6). now apply lor_disjoint. Qed.

Lemma lead2_byte (x : N) : x < 32 -> N.lor 0xC0 x = 0xC0 + x.
Proof. intros H. change 0xC0 with (6 * 2 ^ 5). now apply lor_disjoint. Qed.

Lemma lead3_byte (x : N) : x < 16 -> N.lor 0xE0 x = 0xE0 + x.
Proof. intros H. change 0xE0 with (14 * 2 ^ 4). now apply lor_disjoint. Qed.

Lemma lead4_byte (x : N) : x < 8 -> N.lor 0xF0 x = 0xF0 + x.
Proof. intros H. change 0xF0 with (30 * 2 ^ 3). now apply lor_disjoint. Qed.

Lemma low6 (a : N) : N.land a 0x3F = a mod 64.
Proof. change 0x3F with (N.ones 6). apply land_low. Qed.
Lemma low5 (a : N) : N.land a 0x1F = a mod 32.
Proof. change 0x1F with (N.ones 5). apply land_low. Qed.
Lemma low4 (a : N) : N.land a 0xF = a mod 16.
Proof. change 0xF with (N.ones 4). apply land_low. Qed.
Lemma low3 (a : N) : N.land a 0x7 = a mod 8.
Proof. change 0x7 with (N.ones 3). apply land_low. Qed.

Lemma push6 (cp b : N) : N.lor (N.shiftl cp 6) (N.land b 0x3F) = cp * 64 + b mod 64.
Proof.
  rewrite low6, shiftl_mul. change (2 ^ 6) with 64.
  change 64 with (2 ^ 6) at 1. rewrite lor_disjoint; [reflexivity |].
  change (2 ^ 6) with 64. arith.
Qed.

(** The encoder in arithmetic. *)
Lemma encode_arith (c : N) :
  c <= 0x10FFFF ->
  utf8_encode_code_point c =
  if c <=? 0x7F then [c]
  else if c <=? 0x7FF then [0xC0 + c / 64; 0x80 + c mod 64]
  else if c <=? 0xFFFF then
    [0xE0 + c / 4096; 0x80 + (c / 64) mod 64; 0x80 + c mod 64]
  else
    [0xF0 + c / 262144; 0x80 + (c / 4096) mod 64; 0x80 + (c / 64) mod 64;
     0x80 + c mod 64].
Proof.
  intros Hc. unfold utf8_encode_code_point.
  rewrite !low6, !shiftr_div.
  change (2 ^ 6) with 64. change (2 ^ 12) with 4096. change (2 ^ 18) with 262144.
  destruct (c <=? 0x7F) eqn:E1; [reflexivity |].
  destruct (c <=? 0x7FF) eqn:E2.
  { apply N.leb_le in E2. rewrite lead2_byte, cont_byte by arith. reflexivity. }
  destruct (c <=? 0xFFFF) eqn:E3.
  { apply N.leb_le in E3. rewrite lead3_byte, !cont_byte by arith. reflexivity. }
  rewrite lead4_byte, !cont_byte by arith. reflexivity.
Qed.

Ltac decide_tests :=
  repeat match goal with
  | |- context [?x <=? ?y] =>
      first [ replace (x <=? y) with true by (symmetry; apply N.leb_le; arith)
            | replace (x <=? y) with false by (symmetry; apply N.leb_gt; arith) ]
  | |- context [?x =? ?y] =>
      first [ replace (x =? y) with true by (symmetry; apply N.eqb_eq; arith)
            | replace (x =? y) with false by (symmetry; apply N.eqb_neq; arith) ]
  end.

(** The decoder, one byte at a time. *)

Lemma step_ascii (b : N) (rest : list N) :
  b <= 0x7F ->
  utf8_decode utf8_initial (b :: rest) = b :: utf8_decode utf8_initial rest.
Proof.
  intros Hb. cbn [utf8_decode utf8_handler utf8_initial bytes_needed N.eqb].
  unfold utf8_lead. decide_tests. reflexivity.
Qed.

Lemma step_lead2 (b : N) (rest : list N) :
  0xC2 <= b <= 0xDF ->
  utf8_decode utf8_initial (b :: rest) =
  utf8_decode {| code_point := b mod 32; bytes_seen := 0; bytes_needed := 1;
                 lower_boundary := 0x80; upper_boundary := 0xBF |} rest.
Proof.
  intros Hb. cbn [utf8_decode utf8_handler utf8_initial bytes_needed N.eqb].
  unfold utf8_lead, between. decide_tests. cbn [andb app]. now rewrite low5.
Qed.

Lemma step_lead3 (b : N) (rest : list N) :
  0xE0 <= b <= 0xEF ->
  utf8_decode utf8_initial (b :: rest) =
  utf8_decode {| code_point := b mod 16; bytes_seen := 0; bytes_needed := 2;
                 lower_boundary := if b =? 0xE0 then 0xA0 else 0x80;
                 upper_boundary := if b =? 0xED then 0x9F else 0xBF |} rest.
Proof.
  intros Hb. cbn [utf8_decode utf8_handler utf8_initial bytes_needed N.eqb].
  unfold utf8_lead, between.
  replace (b <=? 0x7F) with false by (symmetry; apply N.leb_gt; lia).
  replace (b <=? 0xDF) with false by (symmetry; apply N.leb_gt; lia).
  replace (0xE0 <=? b) with true by (symmetry; apply N.leb_le; lia).
  replace (b <=? 0xEF) with true by (symmetry; apply N.leb_le; lia).
  rewrite andb_false_r. cbn [andb app]. now rewrite low4.
Qed.

Lemma step_lead4 (b : N) (rest : list N) :
  0xF0 <= b <= 0xF4 ->
  utf8_decode utf8_initial (b :: rest) =
  utf8_decode {| code_point := b mod 8; bytes_seen := 0; bytes_needed := 3;
                 lower_boundary := if b =? 0xF0 then 0x90 else 0x80;
                 upper_boundary := if b =? 0xF4 then 0x8F else 0xBF |} rest.
Proof.
  intros Hb. cbn [utf8_decode utf8_handler utf8_initial bytes_needed N.eqb].
  unfold utf8_lead, between.
  replace (b <=? 0x7F) with false by (symmetry; apply N.leb_gt; lia).
  replace (b <=? 0xDF) with false by (symmetry; apply N.leb_gt; lia).
  replace (b <=? 0xEF) with false by (symmetry; apply N.leb_gt; lia).
  replace (0xF0 <=? b) with true by (symmetry; apply N.leb_le; lia).
  replace (b <=? 0xF4) with true by (symmetry; apply N.leb_le; lia).
  rewrite !andb_false_r. cbn [andb app]. now rewrite low3.
Qed.

Lemma step_last (st : utf8_decoder) (b : N) (rest : list N) :
  bytes_needed st <> 0 ->
  lower_boundary st <= b <= upper_boundary st ->
  bytes_seen st + 1 = bytes_needed st ->
  utf8_decode st (b :: rest) =
  (code_point st * 64 + b mod 64) :: utf8_decode utf8_initial rest.
Proof.
  intros Hn Hb Hs. cbn [utf8_decode]. unfold utf8_handler, between.
  replace (bytes_needed st =? 0) with false by (symmetry; now apply N.eqb_neq).
  replace (lower_boundary st <=? b) with true by (symmetry; apply N.leb_le; lia).
  replace (b <=? upper_boundary st) with true by (symmetry; apply N.leb_le; lia).
  cbn [andb negb].
  replace (bytes_seen st + 1 =? bytes_needed st) with true by (symmetry; now apply N.eqb_eq).
  now rewrite push6.
Qed.

Lemma step_more (st : utf8_decoder) (b : N) (rest : list N) :
  bytes_needed st <> 0 ->
  lower_boundary st <= b <= upper_boundary st ->
  bytes_seen st + 1 <> bytes_needed st ->
  utf8_decode st (b :: rest) =
  utf8_decode {| code_point := code_point st * 64 + b mod 64;
                 bytes_seen := bytes_seen st + 1;
                 bytes_needed := bytes_needed st;
                 lower_boundary := 0x80; upper_boundary := 0xBF |} rest.
Proof.
  intros Hn Hb Hs. cbn [utf8_decode]. unfold utf8_handler, between.
  replace (bytes_needed st =? 0) with false by (symmetry; now apply N.eqb_neq).
  replace (lower_boundary st <=? b) with true by (symmetry; apply N.leb_le; lia).
  replace (b <=? upper_boundary st) with true by (symmetry; apply N.leb_le; lia).
  cbn [andb negb].
  replace (bytes_seen st + 1 =? bytes_needed st) with false by (symmetry; now apply N.eqb_neq).
  now rewrite push6.
Qed.

Ltac fields :=
  cbn [code_point bytes_seen bytes_needed lower_boundary upper_boundary].

(** One code point through the decoder. *)
Lemma decode_code_point (c : N) (rest : list N) :
  is_scalar c ->
  utf8_decode utf8_initial (utf8_encode_code_point c ++ rest)
  = c :: utf8_decode utf8_initial rest.
Proof.
  intros [Hmax Hsur].
  rewrite encode_arith by assumption.
  destruct (c <=? 0x7F) eqn:E1.
  { apply N.leb_le in E1. cbn [app]. now apply step_ascii. }
  apply N.leb_gt in E1.
  destruct (c <=? 0x7FF) eqn:E2.
  { apply N.leb_le in E2. cbn [app].
    rewrite step_lead2 by arith.
    rewrite step_last by (fields; arith).
    fields. f_equal. arith. }
  apply N.leb_gt in E2.
  destruct (c <=? 0xFFFF) eqn:E3.
  { apply N.leb_le in E3. cbn [app].
    rewrite step_lead3 by arith.
    rewrite step_more.
    2: { fields. lia. }
    3: { fields. lia. }
    2: { fields.
         destruct (N.eqb_spec (0xE0 + c / 4096) 0xE0) as [Ea | Ea];
           destruct (N.eqb_spec (0xE0 + c / 4096) 0xED) as [Eb | Eb]; arith. }
    rewrite step_last by (fields; arith).
    fields. f_equal. arith. }
  apply N.leb_gt in E3. cbn [app].
  rewrite step_lead4 by arith.
  rewrite step_more.
  2: { fields. lia. }
  3: { fields. lia. }
  2: { fields.
       destruct (N.eqb_spec (0xF0 + c / 262144) 0xF0) as [Ea | Ea];
         destruct (N.eqb_spec (0xF0 + c / 262144) 0xF4) as [Eb | Eb]; arith. }
  rewrite step_more by (fields; arith).
  rewrite step_last by (fields; arith).
  fields. f_equal. arith.
Qed.

Lemma encode_bytes_bounded (c : N) :
  c <= 0x10FFFF -> Forall (fun b => b < 256) (utf8_encode_code_point c).
Proof.
  intros Hc. rewrite encode_arith by assumption.
  destruct (N.leb_spec c 0x7F); [repeat constructor; lia |].
  destruct (N.leb_spec c 0x7FF); [repeat constructor; arith |].
  destruct (N.leb_spec c 0xFFFF); repeat constructor; arith.
Qed.

Lemma to_N_byte_of_N (n : N) : n < 256 -> Byte.to_N (byte_of_N n) = n.
Proof.
  intros Hn. unfold byte_of_N. rewrite N.mod_small by assumption.
  destruct (Byte.of_N n) as [b|] eqn:E.
  - now apply Byte.to_of_N.
  - apply Byte.of_N_None_iff in E. lia.
Qed.

Lemma to_N_bytes_of_N (l : list N) :
  Forall (fun b => b < 256) l -> map Byte.to_N (map byte_of_N l) = l.
Proof.
  induction 1 as [|n l Hn _ IH]; cbn [map]; [reflexivity |].
  now rewrite to_N_byte_of_N, IH.
Qed.

Lemma utf8_round_trip (cps : list N) :
  Forall is_scalar cps ->
  utf8_decode utf8_initial
    (map Byte.to_N (map byte_of_N (flat_map utf8_encode_code_point cps))) = cps.
Proof.
  intros Hcps.
  rewrite to_N_bytes_of_N.
  - induction Hcps as [|c cps Hc _ IH]; cbn [flat_map]; [reflexivity |].
    now rewrite decode_code_point, IH.
  - induction Hcps as [|c cps Hc _ IH]; cbn [flat_map]; [constructor |].
    apply Forall_app. split; [| exact IH].
    apply encode_bytes_bounded, Hc.
Qed.

(** UTF-16: a well-formed string is the spelling of its scalar values. *)
Lemma utf16_round_trip (n : nat) :
  forall s, (length s <= n)%nat -> well_formed s = true ->
    Forall is_scalar (to_scalar_values s) /\
    flat_map code_point_to_utf16 (to_scalar_values s) = s.
Proof.
  induction n as [|n IH]; intros s Hlen Hwf.
  { destruct s; [split; [constructor | reflexivity] | cbn in Hlen; lia]. }
  destruct s as [|c rest]; [split; [constructor | reflexivity] |].
  cbn [well_formed to_scalar_values] in *.
  unfold is_high_surrogate, is_low_surrogate, between in *.
  destruct (N.leb_spec 0xD800 c) as [H1 | H1];
    destruct (N.leb_spec c 0xDBFF) as [H2 | H2]; cbn [andb] in *.
  - destruct rest as [|d rest']; [discriminate |].
    apply andb_true_iff in Hwf as [Hd Hwf].
    apply andb_true_iff in Hd as [Hd1 Hd2].
    rewrite Hd1, Hd2. cbn [andb].
    apply N.leb_le in Hd1, Hd2.
    destruct (IH rest') as [Hs Hr]; [cbn in Hlen; lia | assumption |].
    split.
    + constructor; [| exact Hs]. unfold is_scalar. lia.
    + cbn [flat_map]. rewrite Hr. unfold code_point_to_utf16.
      replace (_ <=? 0xFFFF) with false by (symmetry; apply N.leb_gt; lia).
      cbn [app]. f_equal; [arith |]. f_equal. arith.
  - apply andb_true_iff in Hwf as [Hc Hwf].
    apply andb_true_iff in Hc as [Hc1 Hc2].
    apply negb_true_iff in Hc1. rewrite Hc1.
    apply N.leb_le in Hc2.
    destruct (IH rest) as [Hs Hr]; [cbn in Hlen; lia | assumption |].
    assert (Hns : ~ (0xD800 <= c <= 0xDFFF)).
    { destruct (N.leb_spec 0xDC00 c), (N.leb_spec c 0xDFFF); cbn in Hc1; try discriminate; lia. }
    split.
    + constructor; [| exact Hs]. unfold is_scalar. lia.
    + cbn [flat_map]. rewrite Hr. unfold code_point_to_utf16.
      replace (c <=? 0xFFFF) with true by (symmetry; apply N.leb_le; lia).
      reflexivity.
  - apply andb_true_iff in Hwf as [Hc Hwf].
    apply andb_true_iff in Hc as [Hc1 Hc2].
    apply negb_true_iff in Hc1. rewrite Hc1.
    apply N.leb_le in Hc2.
    destruct (IH rest) as [Hs Hr]; [cbn in Hlen; lia | assumption |].
    split.
    + constructor; [| exact Hs]. unfold is_scalar. lia.
    + cbn [flat_map]. rewrite Hr. unfold code_point_to_utf16.
      replace (c <=? 0xFFFF) with true by (symmetry; apply N.leb_le; lia).
      reflexivity.
  - lia.
Qed.

Lemma no_bom_scalars (s : jsstring) :
  well_formed s = true -> no_leading_bom s = true ->
  strip_bom (to_scalar_values s) = to_scalar_values s.
Proof.
  destruct s as [|c rest]; [reflexivity |].
  cbn [well_formed no_leading_bom to_scalar_values].
  unfold is_high_surrogate, is_low_surrogate, between.
  intros Hwf Hbom. apply negb_true_iff, N.eqb_neq in Hbom.
  destruct (N.leb_spec 0xD800 c) as [H1 | H1];
    destruct (N.leb_spec c 0xDBFF) as [H2 | H2]; cbn [andb] in *; try lia.
  - destruct rest as [|d rest']; [discriminate |].
    apply andb_true_iff in Hwf as [Hd Hwf].
    apply andb_true_iff in Hd as [Hd1 Hd2].
    rewrite Hd1, Hd2. cbn [andb strip_bom].
    apply N.leb_le in Hd1, Hd2.
    replace (_ =? 0xFEFF) with false by (symmetry; apply N.eqb_neq; lia).
    reflexivity.
  - apply andb_true_iff in Hwf as [Hc Hwf].
    apply andb_true_iff in Hc as [Hc1 Hc2].
    apply negb_true_iff in Hc1. rewrite Hc1. cbn [strip_bom].
    now replace (c =? 0xFEFF) with false by (symmetry; now apply N.eqb_neq).
  - apply andb_true_iff in Hwf as [Hc Hwf].
    apply andb_true_iff in Hc as [Hc1 Hc2].
    apply negb_true_iff in Hc1. rewrite Hc1. cbn [strip_bom].
    now replace (c =? 0xFEFF) with false by (symmetry; now apply N.eqb_neq).
Qed.

(** The text codec returns a well-formed string without byte order mark. *)
Lemma text_round_trip (s : jsstring) :
  well_formed s = true -> no_leading_bom s = true ->
  TEXT_DECODER_decode (TEXT_ENCODER_encode s) = s.
Proof.
  intros Hwf Hbom.
  destruct (utf16_round_trip (length s) s (le_n _) Hwf) as [Hs Hr].
  unfold TEXT_DECODER_decode, TEXT_ENCODER_encode.
  rewrite utf8_round_trip by assumption.
  now rewrite no_bom_scalars.
Qed.

End TextFacts.

(** ** Message encryption and the passphrase layer *)

Module CryptoFacts.

Import Base64Facts TextFacts.
Local Open Scope N_scope.

Lemma rbind_ret {A} (m : Result A) : rbind m (fun a => Ok a) = m.
Proof. now destruct m. Qed.

Lemma iv_length (entropy : nat -> byte) (n : nat) :
  length (getRandomValues entropy n) = n.
Proof. unfold getRandomValues. now rewrite length_map, length_seq. Qed.

Lemma slices (n : nat) (a b : bytes) :
  length a = n -> slice_to n (a ++ b) = a /\ slice_from n (a ++ b) = b.
Proof.
  intros <-. unfold slice_to, slice_from.
  split; [apply take_app_length | apply drop_app_length].
Qed.

Lemma base64ToUint8Array_encode (buf : bytes) :
  base64ToUint8Array (b64_encode (map Byte.to_N buf)) = Ok buf.
Proof.
  unfold base64ToUint8Array.
  rewrite atob_encode by apply byte_bounded.
  cbn [rbind]. now rewrite bytes_of_to_N.
Qed.

Section WithProvider.

Context (subtle : WebCrypto).

Lemma run_deriveMessageKey (sessionKeyRaw : bytes) (msgNo : N) :
  lawful subtle ->
  length sessionKeyRaw = 32%nat ->
  deriveMessageKey subtle sessionKeyRaw msgNo =
  Ok {| algorithm := AES_GCM;
        raw := hmac_sha256 subtle sessionKeyRaw
                 (TEXT_ENCODER_encode (String_of msgNo)) |}.
Proof.
  intros [Hmac _] Hk. unfold deriveMessageKey, importKey.
  rewrite Hk. cbn [Nat.eqb rbind raw].
  unfold slice_to. rewrite firstn_all2 by (rewrite Hmac; lia).
  rewrite Hmac. reflexivity.
Qed.

(** Decryption of an encrypted message returns the plaintext as the text
    codec hands it back. *)
Lemma decrypt_after_encrypt (entropy : nat -> byte)
    (k : bytes) (n : N) (m : jsstring) :
  lawful subtle ->
  length k = 32%nat ->
  exists blob,
    encryptMessage subtle entropy k n m = Ok blob /\
    decryptMessage subtle k n blob =
      Ok (TEXT_DECODER_decode (TEXT_ENCODER_encode m)).
Proof.
  intros Hlaw Hk.
  unfold encryptMessage, decryptMessage.
  rewrite run_deriveMessageKey by assumption. cbn [rbind raw].
  rewrite arrayBufferToBase64_total. eexists. split; [reflexivity |].
  rewrite base64ToUint8Array_encode. cbn [rbind].
  destruct (slices 12 (getRandomValues entropy 12)
              (aes_gcm_encrypt subtle
                 (hmac_sha256 subtle k (TEXT_ENCODER_encode (String_of n)))
                 (getRandomValues entropy 12) (TEXT_ENCODER_encode m))
              (iv_length entropy 12)) as [-> ->].
  unfold subtle_decrypt. cbn [raw].
  destruct Hlaw as [_ Haes]. now rewrite Haes.
Qed.

Lemma hashPassphrase_total (passphrase : jsstring) (salt : bytes) :
  hashPassphrase subtle passphrase salt =
  Ok (b64_encode (map Byte.to_N
        (pbkdf2_sha512 subtle (TEXT_ENCODER_encode passphrase) salt iterations 256))).
Proof.
  unfold hashPassphrase, importKey. cbn [rbind raw].
  apply arrayBufferToBase64_total.
Qed.

End WithProvider.

(** C5, as the code runs.  The verifier is the base64 text of the very
    bytes that [derivePassphraseKey] imports as the AES-GCM key: whoever
    holds the verifier decodes it, imports it, and decrypts whatever the
    passphrase decrypts, without the passphrase. *)
Theorem stored_verifier_is_the_passphrase_key
    (subtle : WebCrypto) (passphrase : jsstring) (salt : bytes) :
  exists verifier,
    hashPassphrase subtle passphrase salt = Ok verifier /\
    derivePassphraseKey subtle passphrase salt =
      rbind (base64ToUint8Array verifier) (importKey AES_GCM) /\
    forall encryptedBase64 ivBase64,
      decryptWithVerifier subtle encryptedBase64 ivBase64 verifier =
      decryptWithPassphrase subtle encryptedBase64 ivBase64 passphrase salt.
Proof.
  eexists. split; [apply hashPassphrase_total |].
  split.
  - rewrite base64ToUint8Array_encode. cbn [rbind].
    unfold derivePassphraseKey, importKey at 1. cbn [rbind raw].
    apply rbind_ret.
  - intros enc iv.
    unfold decryptWithVerifier, decryptWithPassphrase.
    rewrite base64ToUint8Array_encode. cbn [rbind].
    unfold derivePassphraseKey, importKey at 2. cbn [rbind raw].
    rewrite rbind_ret.
    destruct (importKey AES_GCM _) as [key|e]; cbn [rbind]; [| reflexivity].
    destruct (base64ToUint8Array enc) as [encrypted|e]; cbn [rbind]; [| reflexivity].
    destruct (base64ToUint8Array iv) as [ivb|e]; cbn [rbind]; [| reflexivity].
    now rewrite rbind_ret.
Qed.

(** The wrapped key of a session protected by the passphrase of the
    specification's scenario, opened with the verifier alone. *)
Example verifier_opens_the_wrapped_key :
  exists encrypted iv verifier,
    encryptWithPassphrase toy_subtle zero_entropy key32
      (js "Sn0wLeopard!2024") (repeat Byte.x07 32) = Ok (encrypted, iv) /\
    hashPassphrase toy_subtle (js "Sn0wLeopard!2024") (repeat Byte.x07 32)
      = Ok verifier /\
    decryptWithVerifier toy_subtle encrypted iv verifier = Ok key32.
Proof.
  do 3 eexists. split; [vm_compute; reflexivity |].
  split; vm_compute; reflexivity.
Qed.

Lemma toy_subtle_lawful : lawful toy_subtle.
Proof.
  split.
  - intros key data. cbn [toy_subtle hmac_sha256]. unfold pad_to.
    rewrite firstn_length_le; [reflexivity |].
    rewrite !length_app, repeat_length. lia.
  - intros key iv data. cbn [toy_subtle aes_gcm_encrypt aes_gcm_decrypt].
    unfold toy_encrypt, toy_decrypt.
    now rewrite Byte.byte_dec_lb.
Qed.

(** C7, as the code has it.  With a provider whose HMAC tags have 32
    bytes and whose AES-GCM decryption inverts its encryption, a 256-bit
    session key, any sequence number and any IV, a plaintext that is a
    well-formed string and does not begin with U+FEFF is returned by
    decrypting what encrypting it produced. *)
Theorem message_round_trip (subtle : WebCrypto) (entropy : nat -> byte)
    (k : bytes) (n : N) (m : jsstring) :
  lawful subtle ->
  length k = 32%nat ->
  well_formed m = true ->
  no_leading_bom m = true ->
  round_trips subtle entropy k n m.
Proof.
  intros Hlaw Hk Hwf Hbom.
  destruct (decrypt_after_encrypt subtle entropy k n m Hlaw Hk) as (blob & He & Hd).
  exists blob. split; [exact He |].
  now rewrite Hd, text_round_trip.
Qed.

(** alice sends "hello" with sequence number 1000. *)
Lemma message_round_trip_witness :
  lawful toy_subtle /\
  length key32 = 32%nat /\
  well_formed (js "hello") = true /\
  no_leading_bom (js "hello") = true /\
  round_trips toy_subtle zero_entropy key32 1000 (js "hello").
Proof.
  split; [exact toy_subtle_lawful |].
  split; [reflexivity |]. split; [reflexivity |]. split; [reflexivity |].
  apply (message_round_trip toy_subtle zero_entropy key32 1000 (js "hello")).
  - exact toy_subtle_lawful.
  - reflexivity.
  - reflexivity.
  - reflexivity.
Defined.

(** A plaintext that begins with U+FEFF comes back without it. *)
Lemma leading_bom_is_lost :
  ~ round_trips toy_subtle zero_entropy key32 1000 (0xFEFF :: js "hi").
Proof.
  intros (blob & He & Hd).
  destruct (decrypt_after_encrypt toy_subtle zero_entropy key32 1000
              (0xFEFF :: js "hi") toy_subtle_lawful eq_refl)
    as (blob' & He' & Hd').
  rewrite He in He'. injection He' as <-.
  rewrite Hd in Hd'.
  assert (Hcodec : TEXT_DECODER_decode (TEXT_ENCODER_encode (0xFEFF :: js "hi")) = js "hi")
    by (vm_compute; reflexivity).
  rewrite Hcodec in Hd'. discriminate Hd'.
Qed.

End CryptoFacts.

(** ** The other routes of the hardened sessions *)

Module RoutesFacts.

Local Open Scope Z_scope.

Lemma bind_assoc {A B C} (m : M A) (k1 : A -> M B) (k2 : B -> M C) (w : World) :
  Server.bind (Server.bind m k1) k2 w =
  Server.bind m (fun a => Server.bind (k1 a) k2) w.
Proof. unfold Server.bind. now destruct (m w) as [[a|e] w']. Qed.

Lemma bind_ret {A B} (a : A) (k : A -> M B) (w : World) :
  Server.bind (ret a) k w = k a w.
Proof. reflexivity. Qed.

Lemma latest_in (rows : list SessionRow) (r : SessionRow) :
  latest rows = Some r -> In r rows.
Proof.
  revert r; induction rows as [|x rows IH]; cbn; [discriminate |].
  intros r. destruct (latest rows) as [best|].
  - destruct (created_after x best); intros [= <-]; auto.
  - intros [= <-]. now left.
Qed.

Lemma latest_nil (rows : list SessionRow) : latest rows = None -> rows = [].
Proof.
  destruct rows as [|x rows]; cbn; [reflexivity |].
  destruct (latest rows) as [best|]; [destruct (created_after x best) |]; discriminate.
Qed.

(** The conversation id does not depend on the order of the two names. *)
Theorem conversation_id_order_independent (userA userB : jsstring) :
  getConversationId userA userB = getConversationId userB userA.
Proof. unfold getConversationId. now rewrite SessionKeyFacts.sort_pair_comm. Qed.

(** The lookup of a session by its two users never answers 403: it serves
    active sessions only and writes nothing to the sessions. *)
Theorem pair_lookup_serves_active_sessions_only
    (env : Env) (same_name : jsstring -> jsstring -> bool)
    (userA userB : jsstring) (requestingUser : option jsstring) (w : World) :
  exists reply w',
    get_session_by_users env same_name userA userB requestingUser w = (Ok reply, w') /\
    code reply <> 403 /\
    (forall s, json reply = JSession s -> view_status s = ACTIVE) /\
    sessions w' = sessions w.
Proof.
  unfold get_session_by_users, try_catch, send, send_error, ret.
  destruct (truthy_string requestingUser) as [user|].
  2: { do 2 eexists; split; [reflexivity |]. cbn. repeat split; try discriminate. }
  unfold getUSSSessionByUsers, Server.bind, db_query.
  destruct (db_fails env (queries w)); cbn.
  { do 2 eexists; split; [reflexivity |]. cbn. repeat split; discriminate. }
  destruct (latest _) as [row|] eqn:Hrow; cbn.
  2: { do 2 eexists; split; [reflexivity |]. cbn. repeat split; discriminate. }
  apply latest_in, List.filter_In in Hrow. destruct Hrow as [_ Hrow].
  unfold between_users, active in Hrow. apply andb_true_iff in Hrow.
  destruct Hrow as [_ Hrow].
  destruct (status row) eqn:Hst; try discriminate Hrow.
  cbn. do 2 eexists; split; [reflexivity |]. cbn.
  repeat split; try discriminate.
  intros s [= <-]. reflexivity.
Qed.

Lemma filter_none {A} (f : A -> bool) (l : list A) :
  (forall x, In x l -> f x = false) -> List.filter f l = [].
Proof.
  induction l as [|x l IH]; cbn; [reflexivity |].
  intros H. rewrite (H x) by now left. apply IH. intros y Hy. apply H. now right.
Qed.

Lemma stored_rows (w : World) (row : SessionRow) :
  In row (map snd (map_to_list (sessions w))) ->
  exists id, sessions w !! id = Some row.
Proof.
  intros Hin. apply in_map_iff in Hin. destruct Hin as ([id r] & <- & Hin).
  exists id. apply elem_of_map_to_list. now apply list_elem_of_In.
Qed.

(** When every session of the two users is locked or deleted, the lookup
    by users answers 404, no active session, and not 403. *)
Theorem pair_of_a_locked_session_is_not_found
    (env : Env) (same_name : jsstring -> jsstring -> bool)
    (userA userB user : jsstring) (w : World) :
  db_ok env ->
  truthy user = true ->
  (forall id row, sessions w !! id = Some row ->
     of_users same_name userA userB row = true -> status row <> ACTIVE) ->
  fst (get_session_by_users env same_name userA userB (Some user) w) =
  Ok {| code := 404; json := JError (js "No active session found"); logged := [] |}.
Proof.
  intros Hdb Huser Hnone.
  unfold get_session_by_users, try_catch, truthy_string. rewrite Huser.
  unfold getUSSSessionByUsers. rewrite bind_assoc. step.
  unfold select_active_session. norm.
  rewrite filter_none; [reflexivity |].
  intros row Hin. apply stored_rows in Hin. destruct Hin as (id & Hrow).
  norm_in Hrow.
  unfold between_users, active.
  destruct (of_users same_name userA userB row) eqn:Hof; [| reflexivity].
  specialize (Hnone id row Hrow Hof). now destruct (status row).
Qed.

Lemma pair_of_a_locked_session_is_not_found_witness :
  fst (get_session_by_users healthy (fun a b => bool_decide (a = b))
         (js "alice") (js "bob") (Some (js "bob")) world_locked) =
  Ok {| code := 404; json := JError (js "No active session found"); logged := [] |}.
Proof.
  apply (pair_of_a_locked_session_is_not_found healthy _ _ _ _ world_locked).
  - exact healthy_db_ok.
  - reflexivity.
  - assert (E : sessions world_locked =
                {[ 1 := set_status_locked 2000 (set_wrong_attempts 3 alice_bob) ]})
      by (vm_compute; reflexivity).
    rewrite E. intros id row Hrow _.
    apply lookup_singleton_Some in Hrow. destruct Hrow as [_ <-]. discriminate.
Defined.

(** [getUSSSession] on a stored session, against a working store. *)
Lemma run_getUSSSession {B} (env : Env) (w : World) (id : Z) (row : SessionRow)
    (user : jsstring) (k : option SessionView -> M B) :
  db_ok env ->
  sessions w !! id = Some row ->
  Server.bind (getUSSSession env id user) k w =
  k (Some {| sessionId := session_id row; userA := user_a row; userB := user_b row;
             doubleEncryptedKey :=
               if bool_decide (user = user_a row) then double_encrypted_key_a row
               else double_encrypted_key_b row;
             passphraseHash := passphrase_hash row; view_salt := salt row;
             iv := if bool_decide (user = user_a row) then iv_a row else iv_b row;
             wrongAttempts := wrong_attempts row; view_status := status row;
             createdAt := created_at row; lastAccess := last_access row |})
    (set_sessions (<[id := set_last_access (now w) row]> (sessions w))
       (set_queries (S (S (queries w))) w)).
Proof.
  intros Hdb Hrow.
  unfold getUSSSession. rewrite bind_assoc. step. rewrite Hrow.
  rewrite !bind_assoc. step. rewrite bind_assoc. step. rewrite bind_ret.
  now rewrite (alter_present _ _ _ _ Hrow).
Qed.

(** The status route answers for every stored session, locked and deleted
    ones included, with the attempts left; asking counts as an access, the
    reply shows the access time before it. *)
Theorem status_is_served_for_every_stored_session
    (env : Env) (w : World) (id : Z) (row : SessionRow) (user : jsstring) :
  db_ok env ->
  sessions w !! id = Some row ->
  truthy user = true ->
  exists w',
    get_status env id (Some user) w =
    (Ok {| code := 200;
           json := JStatus (session_id row) (status row) (wrong_attempts row)
                     (Z.max 0 (3 - wrong_attempts row))
                     (created_at row) (last_access row);
           logged := [] |}, w') /\
    sessions w' = <[id := set_last_access (now w) row]> (sessions w).
Proof.
  intros Hdb Hrow Huser.
  unfold get_status, try_catch, truthy_string. rewrite Huser.
  rewrite (run_getUSSSession env w id row) by assumption.
  unfold send, ret. eexists; split; [reflexivity |]. reflexivity.
Qed.

Lemma status_is_served_for_every_stored_session_witness :
  exists w',
    get_status healthy 1 (Some (js "mallory")) world_locked =
    (Ok {| code := 200; json := JStatus 1 LOCKED 3 0 1000 None; logged := [] |}, w').
Proof.
  destruct (status_is_served_for_every_stored_session healthy world_locked 1
              (set_status_locked 2000 (set_wrong_attempts 3 alice_bob)) (js "mallory"))
    as (w' & Hrun & _).
  - exact healthy_db_ok.
  - vm_compute; reflexivity.
  - reflexivity.
  - exists w'. exact Hrun.
Defined.

(** Fetching a stored session stamps its access time whatever the answer
    is: 200 with the record for an active session, 403 for a locked and
    410 for a deleted one. *)
Theorem fetch_stamps_the_access_time
    (env : Env) (w : World) (id : Z) (row : SessionRow) (user : jsstring) :
  db_ok env ->
  sessions w !! id = Some row ->
  truthy user = true ->
  exists w',
    get_session env id (Some user) w = (Ok (fetch_response user row), w') /\
    sessions w' = <[id := set_last_access (now w) row]> (sessions w).
Proof.
  intros Hdb Hrow Huser.
  unfold get_session, try_catch. rewrite Huser. cbn [negb].
  rewrite (run_getUSSSession env w id row) by assumption.
  unfold fetch_response, ret. cbn [view_status].
  destruct (status row) eqn:Hst; (eexists; split; [reflexivity |]); reflexivity.
Qed.

Lemma fetch_stamps_the_access_time_witness :
  exists w',
    get_session healthy 1 (Some (js "alice")) world_locked =
      (Ok {| http_status := 403; body := LockedStatus |}, w') /\
    last_access <$> (sessions w' !! 1) = Some (Some 2000).
Proof.
  destruct (fetch_stamps_the_access_time healthy world_locked 1
              (set_status_locked 2000 (set_wrong_attempts 3 alice_bob)) (js "alice"))
    as (w' & Hrun & Hs).
  - exact healthy_db_ok.
  - vm_compute; reflexivity.
  - reflexivity.
  - exists w'. split; [exact Hrun |]. rewrite Hs, lookup_insert_eq. reflexivity.
Defined.

Lemma truthy_some (s : jsstring) : truthy s = true -> truthy_string (Some s) = Some s.
Proof. cbn. now intros ->. Qed.

(** [POST /api/uss/create] for a complete request of two registered
    users, against a working store. *)
Lemma run_post_create
    (env : Env) (emails : gmap jsstring jsstring) (d : SessionData)
    (emailA emailB : jsstring) (w : World) :
  db_ok env ->
  complete d = true ->
  emails !! sd_userA d = Some emailA ->
  emails !! sd_userB d = Some emailB ->
  exists w1,
    post_create env emails (request_of d) w =
      (Ok {| code := 201;
             json := JCreated (next_session_id w)
                       (js "Ultra Secure Session created successfully");
             logged := [] |}, w1) /\
    sessions w1 =
      <[next_session_id w :=
          new_session (with_emails emailA emailB d) (next_session_id w) (now w)]>
        (sessions w) /\
    event_types w1 = event_types w ++ [USS_CREATED] /\
    now w1 = now w.
Proof.
  intros Hdb Hc Ha Hb.
  unfold complete in Hc. repeat (apply andb_true_iff in Hc; destruct Hc as [Hc ?]).
  unfold post_create, try_catch, request_of.
  cbn [cr_userA cr_userB cr_doubleEncryptedKeyA cr_doubleEncryptedKeyB
       cr_passphraseHash cr_salt cr_ivA cr_ivB].
  rewrite !truthy_some by assumption.
  unfold select_email. step. rewrite Ha. step. rewrite Hb.
  unfold createUSSSession. rewrite !bind_assoc. step.
  unfold insert_session. norm. rewrite bind_assoc. step. rewrite bind_assoc. step.
  rewrite bind_ret. unfold send, ret.
  eexists. split; [reflexivity |]. norm.
  split; [reflexivity |].
  split; [unfold event_types; norm; now rewrite map_app | reflexivity].
Qed.

(** A complete request of two registered users creates an active session
    with no failed attempt, under the next id and with the addresses the
    store has for the two users; the session is then served to user A with
    the key and the IV wrapped for A. *)
Theorem created_session_is_served
    (env : Env) (emails : gmap jsstring jsstring) (d : SessionData) (w : World) :
  db_ok env ->
  complete d = true ->
  emails !! sd_userA d = Some (sd_userAEmail d) ->
  emails !! sd_userB d = Some (sd_userBEmail d) ->
  exists w1 w2,
    post_create env emails (request_of d) w =
      (Ok {| code := 201;
             json := JCreated (next_session_id w)
                       (js "Ultra Secure Session created successfully");
             logged := [] |}, w1) /\
    sessions w1 =
      <[next_session_id w := new_session d (next_session_id w) (now w)]> (sessions w) /\
    event_types w1 = event_types w ++ [USS_CREATED] /\
    get_session env (next_session_id w) (Some (sd_userA d)) w1 =
      (Ok {| http_status := 200;
             body := SessionJson
               {| sessionId := next_session_id w;
                  userA := sd_userA d; userB := sd_userB d;
                  doubleEncryptedKey := sd_doubleEncryptedKeyA d;
                  passphraseHash := sd_passphraseHash d;
                  view_salt := sd_salt d;
                  iv := sd_ivA d;
                  wrongAttempts := 0; view_status := ACTIVE;
                  createdAt := now w; lastAccess := None |} |}, w2).
Proof.
  intros Hdb Hc Ha Hb.
  destruct (run_post_create env emails d _ _ w Hdb Hc Ha Hb)
    as (w1 & Hrun & Hs & He & _).
  replace (with_emails (sd_userAEmail d) (sd_userBEmail d) d) with d in Hs
    by now destruct d.
  assert (Hrow : sessions w1 !! next_session_id w
                 = Some (new_session d (next_session_id w) (now w)))
    by (rewrite Hs; apply lookup_insert_eq).
  exists w1. eexists. repeat split; try assumption.
  assert (Ht : truthy (sd_userA d) = true).
  { unfold complete in Hc. repeat (apply andb_true_iff in Hc; destruct Hc as [Hc ?]).
    exact Hc. }
  unfold get_session, try_catch. rewrite Ht. cbn [negb].
  rewrite (run_getUSSSession env w1 _ _ _ _ Hdb Hrow).
  cbn. rewrite bool_decide_eq_true_2 by reflexivity. reflexivity.
Qed.

Lemma created_session_is_served_witness :
  exists w1,
    post_create healthy {[ js "alice" := js "alice@example.org";
                           js "bob" := js "bob@example.org" ]}
      (request_of alice_bob_data) empty_world =
    (Ok {| code := 201;
           json := JCreated 1 (js "Ultra Secure Session created successfully");
           logged := [] |}, w1).
Proof.
  destruct (created_session_is_served healthy
              {[ js "alice" := js "alice@example.org";
                 js "bob" := js "bob@example.org" ]}
              alice_bob_data empty_world) as (w1 & w2 & Hrun & _).
  - exact healthy_db_ok.
  - reflexivity.
  - vm_compute; reflexivity.
  - vm_compute; reflexivity.
  - exists w1. exact Hrun.
Defined.

(** An attempt reported for a session that is not stored: a failure is
    answered 500 and leaves the store as it was, a success is answered
    200, access granted, although there is no session. *)
Theorem attempt_on_an_unknown_session (env : Env) (w : World) (id : Z) :
  db_ok env ->
  sessions w !! id = None ->
  (exists w',
     post_verify env id false w =
       (Ok {| http_status := 500; body := VerificationFailed |}, w') /\
     sessions w' = sessions w /\
     uss_messages w' = uss_messages w /\
     security_events w' = security_events w) /\
  (exists w',
     post_verify env id true w =
       (Ok {| http_status := 200; body := AccessGranted 3 |}, w') /\
     sessions w' = sessions w /\
     uss_messages w' = uss_messages w).
Proof.
  intros Hdb Hnone. split.
  - unfold post_verify, try_catch, incrementWrongAttempts.
    rewrite !bind_assoc. step. rewrite Hnone.
    unfold Server.bind, throw, console_log, modify, ret. cbn.
    eexists; split; [reflexivity |]. norm. repeat split; reflexivity.
  - unfold post_verify, try_catch, resetWrongAttempts.
    rewrite !bind_assoc. step. rewrite bind_assoc. step.
    rewrite bind_assoc. step. step. unfold ret.
    eexists; split; [reflexivity |]. norm. split; [| reflexivity].
    apply map_eq. intros k. destruct (decide (id = k)) as [<- | Hne].
    + now rewrite lookup_alter_eq, Hnone.
    + now rewrite lookup_alter_ne.
Qed.

Lemma attempt_on_an_unknown_session_witness :
  exists w',
    post_verify healthy 7 true world0 =
      (Ok {| http_status := 200; body := AccessGranted 3 |}, w').
Proof.
  destruct (attempt_on_an_unknown_session healthy world0 7) as [_ (w' & Hrun & _)].
  - exact healthy_db_ok.
  - reflexivity.
  - exists w'. exact Hrun.
Defined.

(** *** The export of a session *)

Lemma insert_by_timestamp_perm (m : MessageRow) (l : list MessageRow) :
  Permutation (insert_by_timestamp m l) (m :: l).
Proof.
  induction l as [|x l IH]; cbn; [reflexivity |].
  destruct (timestamp m <? timestamp x); [reflexivity |].
  rewrite IH. apply Permutation_swap.
Qed.

Lemma insert_by_timestamp_sorted (m : MessageRow) (l : list MessageRow) :
  chronological l -> chronological (insert_by_timestamp m l).
Proof.
  unfold chronological.
  induction l as [|x l IH]; cbn; intros Hs.
  - repeat constructor.
  - apply StronglySorted_inv in Hs. destruct Hs as [Hs Hx].
    destruct (timestamp m <? timestamp x) eqn:Hlt.
    + apply Z.ltb_lt in Hlt. constructor.
      * now constructor.
      * constructor; [lia |].
        eapply List.Forall_impl; [| exact Hx]. cbn. intros y Hy. lia.
    + apply Z.ltb_ge in Hlt. constructor; [now apply IH |].
      rewrite (insert_by_timestamp_perm m l). now constructor.
Qed.

Lemma fold_insert_perm (l acc : list MessageRow) :
  Permutation (fold_left (fun acc m => insert_by_timestamp m acc) l acc) (l ++ acc).
Proof.
  revert acc; induction l as [|m l IH]; intros acc; cbn; [reflexivity |].
  rewrite IH, insert_by_timestamp_perm. symmetry. apply Permutation_middle.
Qed.

Lemma fold_insert_sorted (l acc : list MessageRow) :
  chronological acc ->
  chronological (fold_left (fun acc m => insert_by_timestamp m acc) l acc).
Proof.
  revert acc; induction l as [|m l IH]; intros acc Hacc; cbn; [assumption |].
  apply IH. now apply insert_by_timestamp_sorted.
Qed.

(** What is exported of a session is every stored message of that
    session, each once, in the order of the timestamps, and nothing of
    another session. *)
Theorem export_is_complete_and_chronological (env : Env) (w : World) (id : Z) :
  db_ok env ->
  exists messages w',
    exportMessages env id w = (Ok messages, w') /\
    Permutation messages (List.filter (of_session id) (uss_messages w)) /\
    chronological messages /\
    Forall (fun m => uss_session_id m = id) messages.
Proof.
  intros Hdb. unfold exportMessages. rewrite run_db_query by assumption. norm.
  do 2 eexists; split; [reflexivity |].
  assert (Hperm : Permutation
            (order_by_timestamp (List.filter (of_session id) (uss_messages w)))
            (List.filter (of_session id) (uss_messages w))).
  { unfold order_by_timestamp. rewrite fold_insert_perm. now rewrite app_nil_r. }
  split; [exact Hperm |]. split.
  - apply fold_insert_sorted. constructor.
  - rewrite Hperm. apply List.Forall_forall. intros m Hm.
    apply List.filter_In in Hm. destruct Hm as [_ Hm].
    unfold of_session in Hm. now apply Z.eqb_eq in Hm.
Qed.

Lemma export_is_complete_and_chronological_witness :
  exists messages w',
    exportMessages healthy 1 world0 = (Ok messages, w') /\
    Permutation messages (List.filter (of_session 1) (uss_messages world0)).
Proof.
  destruct (export_is_complete_and_chronological healthy world0 1 healthy_db_ok)
    as (messages & w' & Hrun & Hperm & _).
  now exists messages, w'.
Defined.

(** *** Reading the messages of a session *)

Lemma filter_filter_implied {A} (f g : A -> bool) (l : list A) :
  (forall x, f x = true -> g x = true) ->
  List.filter f (List.filter g l) = List.filter f l.
Proof.
  intros H. induction l as [|x l IH]; cbn; [reflexivity |].
  destruct (g x) eqn:Hg; cbn.
  - now rewrite IH.
  - destruct (f x) eqn:Hf; [| exact IH]. rewrite (H x Hf) in Hg. discriminate.
Qed.

Lemma run_get_messages (env : Env) (id : Z) (w : World) :
  db_ok env ->
  fst (get_messages env id w) =
  Ok {| code := 200; json := JMessages (exported id w); logged := [] |}.
Proof.
  intros Hdb. unfold get_messages, try_catch. now step.
Qed.

(** After a completed lockdown the message route returns nothing for the
    session, and for every other session what it returned before. *)
Theorem wiped_session_has_no_messages
    (env : Env) (w : World) (id : Z) (row : SessionRow) :
  db_ok env ->
  zip_ok env ->
  sessions w !! id = Some row ->
  fst (get_messages env id (snd (activateLockdown env id w))) =
    Ok {| code := 200; json := JMessages []; logged := [] |} /\
  forall other, other <> id ->
    fst (get_messages env other (snd (activateLockdown env id w))) =
    fst (get_messages env other w).
Proof.
  intros Hdb Hzip Hrow.
  destruct (LockdownFacts.run_activateLockdown env w id row Hdb Hrow) as (w' & Hrun & _ & _ & H).
  destruct (Hzip (exported id w) id) as (zip & Ezip). rewrite Ezip in H.
  destruct H as (Hm & _). rewrite Hrun. cbn [snd].
  split; [| intros other Hne];
    rewrite !run_get_messages by assumption; unfold exported; rewrite Hm;
    unfold remaining.
  - rewrite filter_none; [reflexivity |].
    intros m Hin. apply List.filter_In in Hin. destruct Hin as [_ Hin].
    now destruct (of_session id m).
  - rewrite filter_filter_implied; [reflexivity |].
    intros m Hm'. unfold of_session in *. apply Z.eqb_eq in Hm'.
    apply negb_true_iff, Z.eqb_neq. congruence.
Qed.

Lemma wiped_session_has_no_messages_witness :
  fst (get_messages healthy 1 (snd (activateLockdown healthy 1 world0))) =
  Ok {| code := 200; json := JMessages []; logged := [] |}.
Proof.
  apply (wiped_session_has_no_messages healthy world0 1 alice_bob).
  - exact healthy_db_ok.
  - exact AttemptFacts.healthy_zip_ok.
  - reflexivity.
Defined.

(** *** Effects that neither read nor write the sessions *)

Lemma ignores_ret {A} (a : A) : ignores_sessions (ret a).
Proof. now intros s w. Qed.

Lemma ignores_throw {A} (e : Exn) : ignores_sessions (@throw A e).
Proof. now intros s w. Qed.

Lemma ignores_lift {A} (r : Result A) : ignores_sessions (lift r).
Proof. now intros s w. Qed.

Lemma ignores_time : ignores_sessions current_time.
Proof. now intros s w. Qed.

Lemma ignores_log (l : LogLine) : ignores_sessions (console_log l).
Proof. now intros s w. Qed.

Lemma ignores_bind {A B} (m : M A) (k : A -> M B) :
  ignores_sessions m -> (forall a, ignores_sessions (k a)) ->
  ignores_sessions (Server.bind m k).
Proof.
  intros Hm Hk s w. unfold Server.bind. rewrite Hm.
  destruct (m w) as [[a|e] w']; cbn; [apply Hk | reflexivity].
Qed.

Lemma ignores_try_catch {A} (m : M A) (h : Exn -> M A) :
  ignores_sessions m -> (forall e, ignores_sessions (h e)) ->
  ignores_sessions (try_catch m h).
Proof.
  intros Hm Hh s w. unfold try_catch. rewrite Hm.
  destruct (m w) as [[a|e] w']; cbn; [reflexivity | apply Hh].
Qed.

Lemma ignores_query {A} (env : Env) (q : World -> A * World) :
  (forall s w, q (set_sessions s w) = (fst (q w), set_sessions s (snd (q w)))) ->
  ignores_sessions (db_query env q).
Proof.
  intros Hq s w. unfold db_query. norm.
  destruct (db_fails env (queries w)); [reflexivity |].
  change (set_queries (S (queries w)) (set_sessions s w))
    with (set_sessions s (set_queries (S (queries w)) w)).
  rewrite Hq. now destruct (q _).
Qed.

Lemma ignores_verify (env : Env) (sender message sig : jsstring) :
  ignores_sessions (verifyMessageSignature env sender message sig).
Proof.
  unfold verifyMessageSignature, getSigningKey.
  apply ignores_try_catch; [| intros e; apply ignores_bind;
                               [apply ignores_log | intros; apply ignores_ret]].
  apply ignores_bind.
  - apply ignores_bind; [| intros; apply ignores_ret].
    apply ignores_query. now intros s w.
  - intros [pem|].
    + apply ignores_bind; [apply ignores_lift |]. intros key.
      apply ignores_bind; [| intros; apply ignores_ret].
      apply ignores_try_catch; [apply ignores_lift |]. intros e.
      apply ignores_bind; [apply ignores_log | intros; apply ignores_lift].
    + apply ignores_bind; [apply ignores_log | intros; apply ignores_ret].
Qed.

(** The message route neither reads nor writes the sessions: what it
    answers, stores and emits is the same whether the session of the
    message is active, locked, deleted or not stored at all. *)
Theorem messages_are_accepted_whatever_the_session
    (env : Env) (req : SendRequest) (s : gmap Z SessionRow) (w : World) :
  post_message env req (set_sessions s w) =
  (fst (post_message env req w), set_sessions s (snd (post_message env req w))).
Proof.
  revert s w. change (ignores_sessions (post_message env req)).
  unfold post_message.
  apply ignores_try_catch; [| intros e; apply ignores_bind;
                               [apply ignores_log | intros; apply ignores_ret]].
  destruct (truthy_number (req_ussSessionId req)) as [id|]; [| apply ignores_ret].
  destruct (truthy_string (req_sender req)) as [sender|]; [| apply ignores_ret].
  destruct (truthy_string (req_receiver req)) as [receiver|]; [| apply ignores_ret].
  destruct (truthy_string (req_message req)) as [message|]; [| apply ignores_ret].
  apply ignores_bind.
  - destruct (truthy_string (req_signature req)) as [sig|]; [| apply ignores_ret].
    apply ignores_bind; [apply ignores_verify |]. intros v.
    apply ignores_bind; [apply ignores_log | intros; apply ignores_ret].
  - intros verified. apply ignores_bind; [apply ignores_query; now intros s w |].
    intros insertId. apply ignores_bind; [apply ignores_time |]. intros t.
    apply ignores_bind; [now intros s w | intros; apply ignores_ret].
Qed.

(** *** Signing keys *)

(** Storing a signing key always answers that the key was updated.  For a
    registered user the key is then the one served; for a name that is not
    registered nothing was stored and the key is still not found. *)
Theorem stored_signing_key_is_served
    (env : Env) (w : World) (username key : jsstring) :
  db_ok env ->
  truthy key = true ->
  exists w1,
    put_signing_key env username (Some key) w =
      (Ok {| code := 200; json := JSuccess (js "Signing key updated"); logged := [] |},
       w1) /\
    fst (get_signing_key env username w1) =
      Ok (match users w !! username with
          | Some _ => {| code := 200; json := JSigningKey username key; logged := [] |}
          | None => {| code := 404; json := JError (js "Signing key not found");
                       logged := [] |}
          end).
Proof.
  intros Hdb Hkey.
  unfold put_signing_key, try_catch, storeSigningKey.
  rewrite truthy_some by assumption. step.
  unfold update_signature_key, send, ret. norm.
  eexists; split; [reflexivity |].
  unfold get_signing_key, try_catch.
  rewrite SignatureFacts.run_getSigningKey by assumption.
  cbn [users set_users set_queries].
  destruct (users w !! username) as [row|] eqn:Hrow.
  - rewrite lookup_alter_eq, Hrow. cbn [fmap option_fmap option_map signature_key_public].
    rewrite truthy_some by assumption. reflexivity.
  - rewrite lookup_alter_eq, Hrow. reflexivity.
Qed.

Lemma stored_signing_key_is_served_witness :
  exists w1,
    put_signing_key healthy (js "alice") (Some (js "PEM-2")) world0 =
      (Ok {| code := 200; json := JSuccess (js "Signing key updated"); logged := [] |},
       w1) /\
    fst (get_signing_key healthy (js "alice") w1) =
      Ok {| code := 200; json := JSigningKey (js "alice") (js "PEM-2"); logged := [] |}.
Proof.
  destruct (stored_signing_key_is_served healthy world0 (js "alice") (js "PEM-2"))
    as (w1 & Hput & Hget).
  - exact healthy_db_ok.
  - reflexivity.
  - exists w1. split; [exact Hput |]. rewrite Hget.
    assert (E : users world0 !! js "alice"
                = Some {| signature_key_public := Some (js "PEM-alice") |})
      by (vm_compute; reflexivity).
    now rewrite E.
Defined.

End RoutesFacts.

(** ** Keys, signatures and the passphrase layer *)

Module KeysFacts.

Import Base64Facts CryptoFacts.
Local Open Scope N_scope.
Local Open Scope nat_scope.
Local Open Scope N_scope.

Lemma printable_plain (c : N) : 33 <= c <= 126 -> c <> 45 -> plain c = true.
Proof.
  intros Hc Hne. unfold plain, is_white_space, between.
  repeat match goal with
         | |- context [?a <=? ?b] => destruct (N.leb_spec a b); try lia
         | |- context [?a =? ?b] => destruct (N.eqb_spec a b); try lia
         end; reflexivity.
Qed.

Lemma b64char_plain (v : N) : plain (b64char v) = true.
Proof.
  unfold b64char.
  repeat match goal with
         | |- context [?a <? ?b] => destruct (N.ltb_spec a b)
         | |- context [?a =? ?b] => destruct (N.eqb_spec a b)
         end; apply printable_plain; lia.
Qed.

Lemma b64_encode_plain (l : list N) : forallb plain (b64_encode l) = true.
Proof.
  induction l as [| | |a b c l IH] using list_ind3; cbn [b64_encode forallb];
    rewrite ?b64char_plain, ?IH; reflexivity.
Qed.

Lemma plain_not_terminator (c : N) : plain c = true -> is_line_terminator c = false.
Proof.
  unfold plain, is_white_space, is_line_terminator, between.
  repeat match goal with
         | |- context [?a <=? ?b] => destruct (N.leb_spec a b); try lia
         | |- context [?a =? ?b] => destruct (N.eqb_spec a b); try lia
         end; cbn; congruence.
Qed.

Lemma chunks_concat (s cur : jsstring) :
  forallb plain s = true -> concat (chunks_from cur s) = cur ++ s.
Proof.
  revert cur; induction s as [|c s IH]; intros cur Hs; cbn.
  - destruct cur; cbn; now rewrite ?app_nil_r.
  - cbn in Hs. apply andb_true_iff in Hs. destruct Hs as [Hc Hs].
    rewrite (plain_not_terminator c Hc).
    destruct (length cur =? 64)%nat; cbn.
    + now rewrite IH.
    + rewrite IH by assumption. now rewrite <- app_assoc.
Qed.

Lemma chunks_plain (s cur : jsstring) :
  forallb plain s = true -> forallb plain cur = true ->
  Forall (fun chunk => forallb plain chunk = true) (chunks_from cur s).
Proof.
  revert cur; induction s as [|c s IH]; intros cur Hs Hcur; cbn.
  - destruct cur; cbn; [constructor | repeat constructor; exact Hcur].
  - cbn in Hs. apply andb_true_iff in Hs. destruct Hs as [Hc Hs].
    rewrite (plain_not_terminator c Hc).
    destruct (length cur =? 64)%nat.
    + constructor; [exact Hcur |]. apply IH; [assumption |]. cbn. now rewrite Hc.
    + apply IH; [assumption |]. rewrite forallb_app, Hcur. cbn. now rewrite Hc.
Qed.

(** The lines joined by line feeds: no hyphen in them, and what is left
    without the white space is the lines one after the other. *)
Lemma join_lines (chunks : list jsstring) :
  Forall (fun chunk => forallb plain chunk = true) chunks ->
  forallb (fun c => negb (c =? 45)) (join [10] chunks) = true /\
  remove_white_space (join [10] chunks) = concat chunks.
Proof.
  assert (Hchunk : forall chunk, forallb plain chunk = true ->
            forallb (fun c => negb (c =? 45)) chunk = true /\
            remove_white_space chunk = chunk).
  { induction chunk as [|c chunk IH]; cbn; [now split |].
    intros H. apply andb_true_iff in H. destruct H as [Hc H].
    destruct (IH H) as [IH1 IH2]. unfold plain in Hc.
    apply andb_true_iff in Hc. destruct Hc as [Hw Hh].
    rewrite Hh, Hw, IH1. cbn. split; [reflexivity |]. f_equal. exact IH2. }
  induction 1 as [|chunk chunks Hc Hcs IH]; [now split |].
  destruct (Hchunk chunk Hc) as [H1 H2]. destruct IH as [IH1 IH2].
  destruct chunks as [|next chunks].
  - cbn [join concat]. now rewrite app_nil_r.
  - change (join [10] (chunk :: next :: chunks))
      with (chunk ++ [10] ++ join [10] (next :: chunks)).
    rewrite !forallb_app, H1, IH1. split; [reflexivity |].
    change (concat (chunk :: next :: chunks))
      with (chunk ++ concat (next :: chunks)).
    unfold remove_white_space in *. rewrite !List.filter_app, H2, IH2. reflexivity.
Qed.

Lemma replace_first_prefix (p rest : jsstring) : replace_first p (p ++ rest) = rest.
Proof.
  assert (H : starts_with p (p ++ rest) = true).
  { induction p as [|x p IH]; cbn; [reflexivity |]. now rewrite N.eqb_refl. }
  destruct (p ++ rest) eqn:E; cbn [replace_first]; rewrite H;
    rewrite <- E; apply drop_app_length.
Qed.

Lemma replace_first_suffix (before : jsstring) :
  forallb (fun c => negb (c =? 45)) before = true ->
  replace_first pem_footer (before ++ pem_footer) = before.
Proof.
  induction before as [|c before IH]; intros H.
  - vm_compute. reflexivity.
  - cbn in H. apply andb_true_iff in H. destruct H as [Hc H].
    change ((c :: before) ++ pem_footer) with (c :: (before ++ pem_footer)).
    cbn [replace_first].
    assert (Hs : starts_with pem_footer (c :: before ++ pem_footer) = false).
    { change pem_footer with (45 :: tl pem_footer) at 1. cbn [starts_with].
      rewrite N.eqb_sym. apply negb_true_iff in Hc. now rewrite Hc. }
    rewrite Hs. f_equal. now apply IH.
Qed.

(** What [spkiToPem] produces for a key that is not empty. *)
Lemma run_spkiToPem (der : bytes) :
  der <> [] ->
  exists chunks,
    spkiToPem der =
      Ok (pem_header ++ [10] ++ join [10] chunks ++ [10] ++ pem_footer) /\
    Forall (fun chunk => forallb plain chunk = true) chunks /\
    concat chunks = b64_encode (map Byte.to_N der).
Proof.
  intros Hne. unfold spkiToPem.
  pose proof (arrayBufferToBase64_total der) as Hb. unfold arrayBufferToBase64 in Hb.
  rewrite Hb. cbn [rbind]. unfold match_chunks.
  pose proof (chunks_concat (b64_encode (map Byte.to_N der)) []
                (b64_encode_plain _)) as Hc.
  pose proof (chunks_plain (b64_encode (map Byte.to_N der)) []
                (b64_encode_plain _) eq_refl) as Hp.
  destruct (chunks_from [] (b64_encode (map Byte.to_N der))) as [|chunk chunks] eqn:E.
  - exfalso. cbn in Hc. destruct der as [|x [|y [|z der]]]; try congruence;
      cbn in Hc; discriminate Hc.
  - exists (chunk :: chunks). repeat split; assumption.
Qed.

Lemma pem_decodes (der : bytes) :
  der <> [] ->
  exists pem, spkiToPem der = Ok pem /\ pem_to_der pem = Ok der.
Proof.
  intros Hne. destruct (run_spkiToPem der Hne) as (chunks & Hpem & Hplain & Hcat).
  eexists; split; [exact Hpem |].
  destruct (join_lines chunks Hplain) as [Hhyphen Hjoin].
  unfold pem_to_der. rewrite replace_first_prefix.
  replace ([10] ++ join [10] chunks ++ [10] ++ pem_footer)
    with (([10] ++ join [10] chunks ++ [10]) ++ pem_footer)
    by now rewrite <- !app_assoc.
  rewrite replace_first_suffix
    by (rewrite !forallb_app, Hhyphen; reflexivity).
  unfold remove_white_space in *. rewrite !List.filter_app, Hjoin, Hcat. cbn [List.filter].
  change (negb (is_white_space 10)) with false. cbn [app]. rewrite app_nil_r.
  apply base64ToUint8Array_encode.
Qed.

(** The PEM text of a key decodes to the bytes of the key; a key of no
    bytes has no PEM text, the conversion throws. *)
Theorem pem_round_trip (der : bytes) :
  match der with
  | [] => spkiToPem der = Throw TypeError
  | _ => exists pem, spkiToPem der = Ok pem /\ pem_to_der pem = Ok der
  end.
Proof.
  destruct der as [|x der]; [reflexivity |].
  now apply pem_decodes.
Qed.

Lemma b64_encode_truthy (l : list N) : l <> [] -> truthy (b64_encode l) = true.
Proof. destruct l as [|a [|b [|c l]]]; [congruence | reflexivity ..]. Qed.

Lemma bytes_truthy (buf : bytes) :
  buf <> [] -> truthy (b64_encode (map Byte.to_N buf)) = true.
Proof. intros H. apply b64_encode_truthy. now destruct buf. Qed.

(** A message signed with the private key of a pair verifies under the
    public key of the pair, without a line on the console. *)
Theorem signature_round_trip (asym : Asymmetric)
    (pub : public_key asym) (priv : private_key asym)
    (message signature : jsstring) :
  signing_pair asym pub priv ->
  truthy message = true ->
  signMessage asym priv message = Ok signature ->
  verifySignature asym (Some pub) (Some message) (Some signature) = (true, []).
Proof.
  intros Hpair Hm. unfold signMessage.
  destruct (ecdsa_sign asym priv (TEXT_ENCODER_encode message)) as [sig|e] eqn:Hsig;
    cbn [rbind]; [| discriminate].
  rewrite arrayBufferToBase64_total. intros [= <-].
  destruct (Hpair _ _ Hsig) as [Hne Hv].
  unfold verifySignature, truthy_string.
  rewrite (bytes_truthy sig Hne), Hm.
  rewrite base64ToUint8Array_encode. cbn [rbind].
  destruct sig as [|x sig]; [congruence |]. cbn [length Nat.eqb].
  now rewrite Hv.
Qed.

Lemma signature_round_trip_witness :
  exists signature,
    signMessage toy_asym alice_key (js "Y2lwaGVy") = Ok signature /\
    verifySignature toy_asym (Some alice_key) (Some (js "Y2lwaGVy")) (Some signature)
    = (true, []).
Proof.
  eexists. split; [reflexivity |].
  apply (signature_round_trip toy_asym alice_key alice_key).
  - intros data signature [= <-]. split.
    + discriminate.
    + cbn. now rewrite bool_decide_eq_true_2.
  - reflexivity.
  - reflexivity.
Defined.

(** *** The passphrase layer *)

Section WithProvider.

Context (subtle : WebCrypto).

Lemma run_derivePassphraseKey (passphrase : jsstring) (salt : bytes) :
  sized subtle ->
  derivePassphraseKey subtle passphrase salt =
  Ok {| algorithm := AES_GCM;
        raw := pbkdf2_sha512 subtle (TEXT_ENCODER_encode passphrase) salt iterations 256 |}.
Proof.
  intros [Hkdf _]. unfold derivePassphraseKey, importKey. cbn [rbind raw].
  now rewrite Hkdf.
Qed.

Lemma run_encryptWithPassphrase (entropy : nat -> byte) (data : bytes)
    (passphrase : jsstring) (salt : bytes) :
  sized subtle ->
  encryptWithPassphrase subtle entropy data passphrase salt =
  Ok (b64_encode (map Byte.to_N
        (aes_gcm_encrypt subtle
           (pbkdf2_sha512 subtle (TEXT_ENCODER_encode passphrase) salt iterations 256)
           (getRandomValues entropy 12) data)),
      b64_encode (map Byte.to_N (getRandomValues entropy 12))).
Proof.
  intros Hs. unfold encryptWithPassphrase.
  rewrite run_derivePassphraseKey by assumption. cbn [rbind raw].
  now rewrite !arrayBufferToBase64_total.
Qed.

Lemma run_decryptWithPassphrase (key iv data : bytes)
    (passphrase : jsstring) (salt : bytes) :
  lawful subtle ->
  sized subtle ->
  key = pbkdf2_sha512 subtle (TEXT_ENCODER_encode passphrase) salt iterations 256 ->
  decryptWithPassphrase subtle
    (b64_encode (map Byte.to_N (aes_gcm_encrypt subtle key iv data)))
    (b64_encode (map Byte.to_N iv)) passphrase salt = Ok data.
Proof.
  intros [_ Haes] Hs ->. unfold decryptWithPassphrase.
  rewrite run_derivePassphraseKey by assumption. cbn [rbind].
  rewrite !base64ToUint8Array_encode. cbn [rbind].
  unfold subtle_decrypt. cbn [raw]. now rewrite Haes.
Qed.

End WithProvider.

(** What is encrypted under a passphrase and a salt is decrypted by the
    same passphrase and salt, through the base64 texts of the ciphertext
    and of the IV. *)
Theorem passphrase_wrap_round_trip (subtle : WebCrypto) (entropy : nat -> byte)
    (data : bytes) (passphrase : jsstring) (salt : bytes) :
  lawful subtle ->
  sized subtle ->
  exists encrypted iv,
    encryptWithPassphrase subtle entropy data passphrase salt = Ok (encrypted, iv) /\
    decryptWithPassphrase subtle encrypted iv passphrase salt = Ok data.
Proof.
  intros Hlaw Hs. do 2 eexists.
  split; [now apply run_encryptWithPassphrase |].
  now apply run_decryptWithPassphrase.
Qed.

Lemma toy_subtle_sized : sized toy_subtle.
Proof.
  split.
  - intros password salt count. cbn. unfold pad_to.
    rewrite length_firstn, length_app, repeat_length.
    change (N.to_nat (256 / 8)) with 32%nat. lia.
  - intros key iv data. discriminate.
Qed.

Lemma passphrase_wrap_round_trip_witness :
  exists encrypted iv,
    encryptWithPassphrase toy_subtle zero_entropy key32
      (js "Sn0wLeopard!2024") (repeat Byte.x07 32) = Ok (encrypted, iv) /\
    decryptWithPassphrase toy_subtle encrypted iv
      (js "Sn0wLeopard!2024") (repeat Byte.x07 32) = Ok key32.
Proof.
  apply (passphrase_wrap_round_trip toy_subtle zero_entropy key32).
  - exact toy_subtle_lawful.
  - exact toy_subtle_sized.
Defined.

(** *** The strength of a passphrase *)

(** A passphrase of fewer than ten characters is rejected and rated weak
    whatever it contains; an accepted passphrase scores exactly 70, 90 or
    100 by its length alone: it is rated strong from fifteen characters on
    and medium below. *)
Theorem strength_is_decided_by_the_length (passphrase : jsstring) :
  (length_of passphrase < 10 ->
   valid (validatePassphraseStrength passphrase) = false /\
   strength (validatePassphraseStrength passphrase) = weak) /\
  (valid (validatePassphraseStrength passphrase) = true ->
   10 <= length_of passphrase /\
   score (validatePassphraseStrength passphrase) =
     (if 20 <=? length_of passphrase then 100
      else if 15 <=? length_of passphrase then 90 else 70) /\
   strength (validatePassphraseStrength passphrase) =
     (if 15 <=? length_of passphrase then strong else medium)).
Proof.
  unfold validatePassphraseStrength.
  destruct (N.ltb_spec (length_of passphrase) 10) as [Hlen|Hlen];
    destruct (N.leb_spec 15 (length_of passphrase));
    destruct (N.leb_spec 20 (length_of passphrase)); try lia;
    destruct (test is_digit passphrase), (test is_special passphrase),
      (test is_upper passphrase), (test is_lower passphrase);
    cbn; (split; [intros ?; first [lia | now split] |
                  intros Hv; first [discriminate Hv | repeat split; lia]]).
Qed.

Lemma strength_is_decided_by_the_length_witness :
  valid (validatePassphraseStrength (js "Sn0wLeopard!2024")) = true /\
  score (validatePassphraseStrength (js "Sn0wLeopard!2024")) = 90 /\
  strength (validatePassphraseStrength (js "Sn0wLeopard!2024")) = strong.
Proof.
  split; [reflexivity |].
  apply (strength_is_decided_by_the_length (js "Sn0wLeopard!2024")). reflexivity.
Defined.

End KeysFacts.

(** ** Creating a hardened session and opening it *)

Module KeyTransportFacts.

Import Base64Facts CryptoFacts KeysFacts RoutesFacts.
Local Open Scope N_scope.

Lemma run_encryptSessionKeyWithRSA (asym : Asymmetric)
    (sessionKey der encrypted : bytes) (pem : jsstring) (pub : public_key asym) :
  pem_to_der pem = Ok der ->
  importKey_spki asym RSA_OAEP der = Ok pub ->
  rsa_oaep_encrypt asym pub sessionKey = Ok encrypted ->
  encryptSessionKeyWithRSA asym sessionKey pem
  = Ok (b64_encode (map Byte.to_N encrypted)).
Proof.
  intros Hpem Hpub Henc. unfold encryptSessionKeyWithRSA, importPublicKeyFromPem.
  rewrite Hpem. cbn [rbind]. rewrite Hpub. cbn [rbind]. rewrite Henc. cbn [rbind].
  apply arrayBufferToBase64_total.
Qed.

Lemma random_not_empty (entropy : nat -> byte) (n : nat) :
  n <> 0%nat -> getRandomValues entropy n <> [].
Proof.
  intros Hn E. apply (f_equal (@length _)) in E. rewrite iv_length in E. now cbn in E.
Qed.

Section Transport.

Context (subtle : WebCrypto) (asym : Asymmetric) (entropy : nat -> nat -> byte).
Context (env : Env) (emails : gmap jsstring jsstring).
Context (currentUser emailA emailB pemA pemB : jsstring) (form : CreateForm).
Context (derA derB encryptedA encryptedB : bytes).
Context (pubA pubB : public_key asym) (jwkB : jwk asym) (privB : private_key asym).

Let sessionKey : bytes := generateRandomSessionKey (entropy 0%nat).
Let posted : SessionData :=
  created_request subtle entropy currentUser form encryptedA encryptedB.

Lemma run_create_session_body :
  sized subtle ->
  truthy pemA = true -> truthy pemB = true ->
  pem_to_der pemA = Ok derA -> importKey_spki asym RSA_OAEP derA = Ok pubA ->
  rsa_oaep_encrypt asym pubA sessionKey = Ok encryptedA ->
  pem_to_der pemB = Ok derB -> importKey_spki asym RSA_OAEP derB = Ok pubB ->
  rsa_oaep_encrypt asym pubB sessionKey = Ok encryptedB ->
  create_session_body subtle asym entropy currentUser (Some pemA) (Some pemB) form
  = inl (Ok posted).
Proof.
  intros Hs HtA HtB HdA HpA HeA HdB HpB HeB.
  unfold create_session_body. rewrite !truthy_some by assumption.
  fold sessionKey.
  rewrite (run_encryptSessionKeyWithRSA asym sessionKey derA encryptedA pemA pubA)
    by assumption.
  cbn [rbind].
  rewrite (run_encryptSessionKeyWithRSA asym sessionKey derB encryptedB pemB pubB)
    by assumption.
  cbn [rbind]. rewrite !base64ToUint8Array_encode. cbn [rbind].
  rewrite !run_encryptWithPassphrase by assumption. cbn [rbind fst snd].
  rewrite hashPassphrase_total. cbn [rbind].
  rewrite arrayBufferToBase64_total. reflexivity.
Qed.

Lemma posted_complete :
  sized subtle ->
  truthy currentUser = true -> truthy (selectedUser form) = true ->
  complete posted = true.
Proof.
  intros [Hkdf Hgcm] Hu Hv. unfold complete, posted, created_request.
  cbn [sd_userA sd_userB sd_doubleEncryptedKeyA sd_doubleEncryptedKeyB
       sd_passphraseHash sd_salt sd_ivA sd_ivB].
  rewrite Hu, Hv.
  rewrite !bytes_truthy; [reflexivity | ..];
    try (apply random_not_empty; discriminate); try apply Hgcm.
  intros E. apply (f_equal (@length _)) in E. rewrite Hkdf in E.
  discriminate E.
Qed.

(** A session created by one user with an accepted passphrase is opened by
    the other one: with the RSA keys of both users registered as PEM texts
    of their SPKI bytes, the creator's form posts a request that the create
    route accepts; the session it stores is served to the other user, and
    the passphrase together with that user's private key returns the
    session key the creator generated. *)
Theorem created_session_is_opened_by_the_recipient (w : World) :
  lawful subtle -> sized subtle -> db_ok env ->
  truthy currentUser = true ->
  truthy (selectedUser form) = true ->
  selectedUser form <> currentUser ->
  truthy (passphrase form) = true ->
  confirmPassphrase form = passphrase form ->
  form_strength form = Some (validatePassphraseStrength (passphrase form)) ->
  valid (validatePassphraseStrength (passphrase form)) = true ->
  emails !! currentUser = Some emailA ->
  emails !! selectedUser form = Some emailB ->
  spkiToPem derA = Ok pemA -> importKey_spki asym RSA_OAEP derA = Ok pubA ->
  rsa_oaep_encrypt asym pubA sessionKey = Ok encryptedA ->
  spkiToPem derB = Ok pemB -> importKey_spki asym RSA_OAEP derB = Ok pubB ->
  rsa_oaep_encrypt asym pubB sessionKey = Ok encryptedB ->
  importKey_jwk asym RSA_OAEP jwkB = Ok privB ->
  rsa_pair asym pubB privB ->
  exists request w1 view w2,
    handleCreateSession subtle asym entropy currentUser (Some pemA) (Some pemB) form
      = Posts request /\
    post_create env emails (request_of request) w =
      (Ok {| code := 201;
             json := JCreated (next_session_id w)
                       (js "Ultra Secure Session created successfully");
             logged := [] |}, w1) /\
    get_session env (next_session_id w) (Some (selectedUser form)) w1 =
      (Ok {| http_status := 200; body := SessionJson view |}, w2) /\
    handleVerify subtle asym view (passphrase form) (Some jwkB)
      = AccessGrantedWith sessionKey.
Proof.
  intros Hlaw Hs Hdb Hu Hv Hne Hp Hconf Hst Hvalid HeA HeB
         HpemA HpubA HencA HpemB HpubB HencB HprivB Hpair.
  assert (HdA : derA <> []) by (intros ->; discriminate HpemA).
  assert (HdB : derB <> []) by (intros ->; discriminate HpemB).
  destruct (pem_decodes derA HdA) as (pemA' & EA & HderA).
  destruct (pem_decodes derB HdB) as (pemB' & EB & HderB).
  rewrite HpemA in EA. injection EA as <-. rewrite HpemB in EB. injection EB as <-.
  assert (HtA : truthy pemA = true).
  { destruct (run_spkiToPem derA HdA) as (chunks & E & _).
    rewrite HpemA in E. injection E as ->. reflexivity. }
  assert (HtB : truthy pemB = true).
  { destruct (run_spkiToPem derB HdB) as (chunks & E & _).
    rewrite HpemB in E. injection E as ->. reflexivity. }
  pose proof (run_create_session_body Hs HtA HtB HderA HpubA HencA HderB HpubB HencB)
    as Hbody.
  pose proof (posted_complete Hs Hu Hv) as Hcomplete.
  destruct (run_post_create env emails posted emailA emailB w Hdb Hcomplete HeA HeB)
    as (w1 & Hpost & Hsessions & _ & _).
  assert (Hrow : sessions w1 !! next_session_id w
                 = Some (new_session (with_emails emailA emailB posted)
                           (next_session_id w) (now w)))
    by (rewrite Hsessions; apply lookup_insert_eq).
  exists posted, w1. do 2 eexists.
  split.
  { unfold handleCreateSession. rewrite Hv, Hp, Hconf, Hp, Hst, Hvalid.
    rewrite bool_decide_eq_true_2 by reflexivity. cbn [negb orb].
    now rewrite Hbody. }
  split; [exact Hpost |].
  split.
  { unfold get_session, try_catch. rewrite Hv. cbn [negb].
    rewrite (run_getUSSSession env w1 _ _ _ _ Hdb Hrow).
    cbn [view_status new_session Server.status user_a with_emails sd_userA].
    unfold posted at 1 2. cbn [sd_userA].
    rewrite !bool_decide_eq_false_2 by assumption. reflexivity. }
  unfold handleVerify. rewrite Hp. unfold new_session, with_emails, posted, created_request.
  cbn [negb view_salt iv doubleEncryptedKey Server.salt iv_b double_encrypted_key_b
       sd_doubleEncryptedKeyB sd_salt sd_ivB].
  rewrite base64ToUint8Array_encode. cbn [rbind].
  rewrite (run_decryptWithPassphrase subtle) by (assumption || reflexivity).
  cbn [rbind]. rewrite arrayBufferToBase64_total. cbn [rbind].
  unfold decryptSessionKeyWithRSA, importPrivateKeyFromJwk.
  rewrite HprivB. cbn [rbind]. rewrite base64ToUint8Array_encode. cbn [rbind].
  now rewrite (Hpair _ _ HencB).
Qed.

End Transport.

Lemma toy_pair (key : bytes) : rsa_pair toy_asym key key.
Proof.
  intros data encrypted [= <-]. cbn. unfold unseal, sealed.
  rewrite take_app_length, bool_decide_eq_true_2 by reflexivity.
  now rewrite drop_app_length.
Qed.

(** alice creates a session with bob, who opens it. *)
Lemma created_session_is_opened_by_the_recipient_witness :
  exists request w1 view w2,
    handleCreateSession toy_subtle toy_asym counting_entropy (js "alice")
      (Some (pem_of alice_key)) (Some (pem_of bob_key)) snow_leopard
      = Posts request /\
    post_create healthy directory (request_of request) empty_world =
      (Ok {| code := 201;
             json := JCreated 1 (js "Ultra Secure Session created successfully");
             logged := [] |}, w1) /\
    get_session healthy 1 (Some (js "bob")) w1 =
      (Ok {| http_status := 200; body := SessionJson view |}, w2) /\
    handleVerify toy_subtle toy_asym view (js "Sn0wLeopard!2024") (Some bob_key)
      = AccessGrantedWith (repeat Byte.x00 32).
Proof.
  apply (created_session_is_opened_by_the_recipient toy_subtle toy_asym
           counting_entropy healthy directory (js "alice")
           (js "alice@example.org") (js "bob@example.org")
           (pem_of alice_key) (pem_of bob_key) snow_leopard
           alice_key bob_key
           (sealed alice_key (repeat Byte.x00 32))
           (sealed bob_key (repeat Byte.x00 32))
           alice_key bob_key bob_key bob_key empty_world).
  - exact toy_subtle_lawful.
  - exact toy_subtle_sized.
  - exact healthy_db_ok.
  - reflexivity.
  - reflexivity.
  - discriminate.
  - reflexivity.
  - reflexivity.
  - reflexivity.
  - reflexivity.
  - vm_compute; reflexivity.
  - vm_compute; reflexivity.
  - vm_compute; reflexivity.
  - reflexivity.
  - reflexivity.
  - vm_compute; reflexivity.
  - reflexivity.
  - reflexivity.
  - reflexivity.
  - apply toy_pair.
Defined.

End KeyTransportFacts.

(** ** Sending a message in a hardened session and reading it *)

Module ChatFacts.

Import Base64Facts TextFacts CryptoFacts KeysFacts RoutesFacts.
Local Open Scope N_scope.

(** *** [trim] *)

Lemma trim_start_suffix (s : jsstring) : exists spaces, s = spaces ++ trim_start s.
Proof.
  induction s as [|c s [spaces IH]]; [now exists [] |]. cbn.
  destruct (is_white_space c).
  - exists (c :: spaces). cbn. now f_equal.
  - now exists [].
Qed.

Lemma trim_start_head (s : jsstring) :
  match trim_start s with
  | c :: _ => is_white_space c = false
  | [] => True
  end.
Proof.
  induction s as [|c s IH]; cbn; [exact I |].
  destruct (is_white_space c) eqn:E; [exact IH | exact E].
Qed.

(** What is left of a message starts with no white space, and so with no
    byte order mark. *)
Lemma trim_no_bom (s : jsstring) : no_leading_bom (trim s) = true.
Proof.
  unfold trim.
  destruct (trim_start_suffix (rev (trim_start s))) as [spaces E].
  apply (f_equal (@rev _)) in E. rewrite rev_involutive, rev_app_distr in E.
  pose proof (trim_start_head s) as Hhead.
  destruct (rev (trim_start (rev (trim_start s)))) as [|c rest]; [reflexivity |].
  rewrite E in Hhead. cbn in Hhead. cbn.
  destruct (N.eqb_spec c 0xFEFF) as [-> |]; [discriminate Hhead | reflexivity].
Qed.

Section Chat.

Context (subtle : WebCrypto) (asym : Asymmetric) (entropy : nat -> nat -> byte).

Lemma String_of_stored (n : N) : String_of_msgNo (Some (Z.of_N n)) = String_of n.
Proof.
  unfold String_of_msgNo.
  destruct (Z.ltb_spec (Z.of_N n) 0) as [H|_]; [lia |]. now rewrite N2Z.id.
Qed.

(** A stored message number that is a natural number is decrypted as
    [decryptMessage] does. *)
Lemma decryptStored_natural (k : bytes) (n : N) (c : jsstring) :
  decryptStored subtle k (Some (Z.of_N n)) c = decryptMessage subtle k n c.
Proof.
  unfold decryptStored, decryptMessage, deriveMessageKey.
  rewrite String_of_stored.
  destruct (importKey HMAC k) as [hmacKey|e]; cbn [rbind]; [| reflexivity].
  destruct (importKey AES_GCM _) as [aesKey|e]; reflexivity.
Qed.

Lemma run_encryptMessage (source : nat -> byte) (k : bytes) (n : N) (m : jsstring) :
  lawful subtle ->
  length k = 32%nat ->
  exists blob,
    encryptMessage subtle source k n m = Ok blob /\
    truthy blob = true /\
    decryptMessage subtle k n blob = Ok (TEXT_DECODER_decode (TEXT_ENCODER_encode m)).
Proof.
  intros Hlaw Hk.
  destruct (decrypt_after_encrypt subtle source k n m Hlaw Hk) as (blob & He & Hd).
  exists blob. repeat split; try assumption.
  unfold encryptMessage in He. rewrite run_deriveMessageKey in He by assumption.
  cbn [rbind raw] in He. rewrite arrayBufferToBase64_total in He.
  match type of He with Ok (b64_encode (map Byte.to_N ?buf)) = _ =>
    replace blob with (b64_encode (map Byte.to_N buf)) by congruence;
    apply bytes_truthy; intros E; apply (f_equal (@length _)) in E;
    rewrite length_app, iv_length in E; discriminate E
  end.
Qed.

End Chat.

(** The verifier touches the console and the query counter only. *)
Lemma verify_keeps_the_messages (env : Env) (sender message sig : jsstring) (w : World) :
  exists b w',
    verifyMessageSignature env sender message sig w = (Ok b, w') /\
    uss_messages w' = uss_messages w /\
    next_message_id w' = next_message_id w /\
    now w' = now w.
Proof.
  unfold verifyMessageSignature, getSigningKey, try_catch, Server.bind, db_query,
    console_log, modify, ret, lift.
  destruct (db_fails env (queries w)); cbn; [do 2 eexists; repeat split |].
  destruct (users w !! sender) as [row|]; cbn; [| do 2 eexists; repeat split].
  destruct (truthy_string (signature_key_public row)) as [pem|]; cbn;
    [| do 2 eexists; repeat split].
  destruct (createPublicKey env pem) as [key|e]; cbn; [| do 2 eexists; repeat split].
  destruct (verify_ieee_p1363 env key message _) as [b|e]; cbn;
    [do 2 eexists; repeat split |].
  destruct (verify_der env key message _) as [b|e2]; cbn; do 2 eexists; repeat split.
Qed.

(** The message route for a request with all its fields, against a
    working store: the row it appends. *)
Lemma run_post_message (env : Env) (w : World)
    (sessionId msgNo : Z) (sender receiver message sig : jsstring) :
  db_ok env ->
  sessionId <> 0%Z -> msgNo <> 0%Z ->
  truthy sender = true -> truthy receiver = true ->
  truthy message = true -> truthy sig = true ->
  exists m w1 v,
    post_message env
      {| req_ussSessionId := Some sessionId; req_sender := Some sender;
         req_receiver := Some receiver; req_message := Some message;
         req_msgNo := Some msgNo; req_signature := Some sig |} w
    = (Ok (Created m), w1) /\
    uss_messages w1 = uss_messages w ++
      [{| id := mo_id m; uss_session_id := sessionId; sender := sender;
          receiver := receiver; content := message; msg_no := Some msgNo;
          signature := Some sig; verified := v; timestamp := now w |}].
Proof.
  intros Hdb Hid Hno Hs Hr Hm Hsig.
  unfold post_message, try_catch.
  cbn [req_ussSessionId req_sender req_receiver req_message req_msgNo req_signature].
  rewrite !truthy_some by assumption. unfold truthy_number.
  destruct (Z.eqb_spec sessionId 0) as [|_]; [contradiction |].
  destruct (Z.eqb_spec msgNo 0) as [|_]; [contradiction |].
  destruct (verify_keeps_the_messages env sender message sig w)
    as (b & w' & Hv & Hmsgs & Hnext & Hnow).
  rewrite !bind_assoc. rewrite (bind_ok _ _ _ _ _ Hv).
  rewrite bind_assoc. step. rewrite bind_ret. step. step.
  unfold Server.bind, modify, ret. cbn.
  do 3 eexists. split; [reflexivity |]. norm.
  rewrite Hmsgs, Hnext, Hnow. reflexivity.
Qed.

(** A message sent in a hardened session is read by the peer.  With a
    256-bit session key, a text that is well formed once trimmed and not
    empty, and a signing key that signs: the sender's view posts a request
    the message route accepts; the stored row is among the messages the
    route then returns for the session; and the peer's view shows for it
    the trimmed text, marked verified when the sender's registered public
    key forms a pair with the key that signed. *)
Theorem sent_message_is_read_by_the_peer
    (subtle : WebCrypto) (asym : Asymmetric) (entropy : nat -> nat -> byte)
    (env : Env) (w : World)
    (sessionKey : bytes) (sessionId : Z) (msgNo : N)
    (currentUser otherUser newMessage senderPem : jsstring)
    (signingKey : private_key asym) (senderKey : public_key asym) :
  lawful subtle -> db_ok env ->
  length sessionKey = 32%nat ->
  sessionId <> 0%Z -> msgNo <> 0 ->
  truthy currentUser = true -> truthy otherUser = true ->
  truthy (trim newMessage) = true ->
  well_formed (trim newMessage) = true ->
  (forall data, exists sig, ecdsa_sign asym signingKey data = Ok sig) ->
  truthy senderPem = true ->
  importSigningPublicKey asym senderPem = Ok senderKey ->
  signing_pair asym senderKey signingKey ->
  exists request m w1 rows w2 row,
    handleSend subtle asym entropy sessionKey sessionId currentUser otherUser
      newMessage (Some signingKey) true msgNo = PostsMessage request /\
    post_message env request w = (Ok (Created m), w1) /\
    get_messages env sessionId w1 =
      (Ok {| code := 200; json := JMessages rows; logged := [] |}, w2) /\
    In row rows /\ id row = mo_id m /\
    show_message subtle asym sessionKey (Some senderPem) row =
      {| decryptedContent := trim newMessage; shown_verified := true |}.
Proof.
  intros Hlaw Hdb Hk Hid Hno Hu Hv Ht Hwf Hsigns Hpem Himport Hpair.
  destruct (run_encryptMessage subtle (entropy 0%nat) sessionKey msgNo
              (trim newMessage) Hlaw Hk) as (blob & Henc & Hblob & Hdec).
  rewrite text_round_trip in Hdec by (assumption || apply trim_no_bom).
  destruct (Hsigns (TEXT_ENCODER_encode blob)) as (sig & Hsig).
  destruct (Hpair _ _ Hsig) as [Hne Hverify].
  pose proof (bytes_truthy sig Hne) as Hsig64.
  assert (Hsend : handleSend subtle asym entropy sessionKey sessionId currentUser
                    otherUser newMessage (Some signingKey) true msgNo
                  = PostsMessage
                      {| req_ussSessionId := Some sessionId;
                         req_sender := Some currentUser;
                         req_receiver := Some otherUser;
                         req_message := Some blob;
                         req_msgNo := Some (Z.of_N msgNo);
                         req_signature := Some (b64_encode (map Byte.to_N sig)) |}).
  { unfold handleSend. rewrite Ht. cbn [negb orb]. rewrite Henc. cbn [rbind].
    unfold signMessage. rewrite Hsig. cbn [rbind].
    now rewrite arrayBufferToBase64_total. }
  destruct (run_post_message env w sessionId (Z.of_N msgNo) currentUser otherUser
              blob (b64_encode (map Byte.to_N sig)))
    as (m & w1 & v & Hpost & Hrows); try assumption; [lia |].
  set (row := {| id := mo_id m; uss_session_id := sessionId; sender := currentUser;
                 receiver := otherUser; content := blob;
                 msg_no := Some (Z.of_N msgNo);
                 signature := Some (b64_encode (map Byte.to_N sig));
                 verified := v; timestamp := now w |}) in *.
  eexists. exists m, w1, (exported sessionId w1). eexists. exists row.
  split; [exact Hsend |]. split; [exact Hpost |].
  split.
  { unfold get_messages, try_catch. step. reflexivity. }
  split.
  { unfold exported, order_by_timestamp.
    eapply Permutation_in; [symmetry; apply fold_insert_perm |].
    rewrite app_nil_r. apply List.filter_In. split.
    - rewrite Hrows. apply in_or_app. right. now left.
    - unfold of_session, row. cbn. apply Z.eqb_refl. }
  split; [reflexivity |].
  unfold show_message, row.
  cbn [msg_no content signature].
  rewrite decryptStored_natural, Hdec. cbn [rbind].
  rewrite !truthy_some by assumption. rewrite Himport. cbn [rbind].
  unfold verifySignature. rewrite !truthy_some by assumption.
  rewrite base64ToUint8Array_encode. cbn [rbind].
  destruct sig as [|x sig]; [congruence |]. cbn [length Nat.eqb].
  now rewrite Hverify.
Qed.

Lemma toy_signing_pair (key : bytes) : key <> [] -> signing_pair toy_asym key key.
Proof.
  intros Hkey data signature [= <-]. split.
  - destruct key; [congruence | discriminate].
  - cbn. now rewrite bool_decide_eq_true_2.
Qed.

(** alice sends " hello " to bob in session 1. *)
Lemma sent_message_is_read_by_the_peer_witness :
  exists request m w1 rows w2 row,
    handleSend toy_subtle toy_asym counting_entropy key32 1 (js "alice") (js "bob")
      (js " hello ") (Some alice_key) true 1700000000000 = PostsMessage request /\
    post_message healthy request world0 = (Ok (Created m), w1) /\
    get_messages healthy 1 w1 =
      (Ok {| code := 200; json := JMessages rows; logged := [] |}, w2) /\
    In row rows /\ id row = mo_id m /\
    show_message toy_subtle toy_asym key32 (Some (pem_of alice_key)) row =
      {| decryptedContent := js "hello"; shown_verified := true |}.
Proof.
  apply (sent_message_is_read_by_the_peer toy_subtle toy_asym counting_entropy
           healthy world0 key32 1 1700000000000 (js "alice") (js "bob")
           (js " hello ") (pem_of alice_key) alice_key alice_key).
  - exact toy_subtle_lawful.
  - exact healthy_db_ok.
  - reflexivity.
  - discriminate.
  - discriminate.
  - reflexivity.
  - reflexivity.
  - reflexivity.
  - reflexivity.
  - intros data. eexists. reflexivity.
  - reflexivity.
  - vm_compute; reflexivity.
  - apply toy_signing_pair. discriminate.
Defined.

End ChatFacts.

(** ** The chat server *)

Module ActiveUserFacts.

Import RoutesFacts.
Local Open Scope Z_scope.

(** *** [Map] and [Set] *)

Lemma map_get_set_eq {V} (k : jsstring) (v : V) (m : list (jsstring * V)) :
  map_get k (map_set k v m) = Some v.
Proof.
  induction m as [|[k' v'] m IH]; cbn.
  - now rewrite bool_decide_eq_true_2.
  - destruct (bool_decide (k' = k)) eqn:E; cbn; rewrite E; [reflexivity | exact IH].
Qed.

Lemma map_get_set_ne {V} (k k' : jsstring) (v : V) (m : list (jsstring * V)) :
  k <> k' -> map_get k' (map_set k v m) = map_get k' m.
Proof.
  intros Hne. induction m as [|[k0 v0] m IH]; cbn.
  - now rewrite bool_decide_eq_false_2.
  - destruct (bool_decide (k0 = k)) eqn:E; cbn.
    + apply bool_decide_eq_true in E. subst k0.
      now rewrite !bool_decide_eq_false_2.
    + destruct (bool_decide (k0 = k')); [reflexivity | exact IH].
Qed.

Lemma map_get_none {V} (k : jsstring) (m : list (jsstring * V)) :
  map_get k m = None <-> ~ In k (map fst m).
Proof.
  induction m as [|[k0 v0] m IH]; cbn; [tauto |].
  destruct (bool_decide (k0 = k)) eqn:E.
  - apply bool_decide_eq_true in E. split; [discriminate | tauto].
  - apply bool_decide_eq_false in E. rewrite IH. tauto.
Qed.

Lemma map_get_in {V} (k : jsstring) (v : V) (m : list (jsstring * V)) :
  map_get k m = Some v -> In (k, v) m.
Proof.
  induction m as [|[k0 v0] m IH]; cbn; [discriminate |].
  destruct (bool_decide (k0 = k)) eqn:E.
  - apply bool_decide_eq_true in E. intros [= <-]. left. now subst.
  - intros H. right. now apply IH.
Qed.

Lemma map_get_delete_ne {V} (k k' : jsstring) (m : list (jsstring * V)) :
  k <> k' -> map_get k' (map_delete k m) = map_get k' m.
Proof.
  intros Hne. induction m as [|[k0 v0] m IH]; cbn; [reflexivity |].
  destruct (bool_decide (k0 = k)) eqn:E; cbn.
  - apply bool_decide_eq_true in E. subst k0.
    now rewrite bool_decide_eq_false_2.
  - destruct (bool_decide (k0 = k')); [reflexivity | exact IH].
Qed.

Lemma map_get_delete_eq {V} (k : jsstring) (m : list (jsstring * V)) :
  NoDup (map fst m) -> map_get k (map_delete k m) = None.
Proof.
  induction m as [|[k0 v0] m IH]; cbn; [reflexivity |].
  intros Hnd. apply NoDup_cons in Hnd. destruct Hnd as [Hk0 Hnd].
  destruct (bool_decide (k0 = k)) eqn:E; cbn.
  - apply bool_decide_eq_true in E. subst k0. apply map_get_none.
    intros Hin. apply Hk0. now apply list_elem_of_In.
  - rewrite E. now apply IH.
Qed.

Lemma keys_set {V} (k : jsstring) (v : V) (m : list (jsstring * V)) :
  map fst (map_set k v m) =
  if map_has k m then map fst m else map fst m ++ [k].
Proof.
  unfold map_has. induction m as [|[k0 v0] m IH]; cbn; [reflexivity |].
  destruct (bool_decide (k0 = k)) eqn:E; cbn; [reflexivity |].
  rewrite IH. now destruct (map_get k m).
Qed.

Lemma in_set_add (x y : jsstring) (s : list jsstring) :
  In x (set_add y s) <-> x = y \/ In x s.
Proof.
  unfold set_add. destruct (set_has y s) eqn:E.
  - split; [tauto |]. intros [-> | H]; [| exact H].
    unfold set_has in E. apply existsb_exists in E. destruct E as (z & Hz & E).
    apply bool_decide_eq_true in E. now subst.
  - rewrite in_app_iff. cbn.
    split; [intros [H | [-> | []]]; auto | intros [-> | H]; auto].
Qed.

Lemma in_set_delete (x y : jsstring) (s : list jsstring) :
  In x (set_delete y s) <-> x <> y /\ In x s.
Proof.
  unfold set_delete. rewrite List.filter_In, negb_true_iff.
  split; intros [H1 H2]; split; try assumption.
  - now apply bool_decide_eq_false in H2.
  - now apply bool_decide_eq_false.
Qed.

Lemma set_add_not_empty (x : jsstring) (s : list jsstring) : set_add x s <> [].
Proof.
  unfold set_add. destruct (set_has x s) eqn:E.
  - destruct s; [discriminate E | discriminate].
  - now destruct s.
Qed.

(** *** One call of the manager *)

Lemma sockets_after_connect (username socketId user : jsstring) (c : ChatState) :
  truthy username = true ->
  getSockets (Some user) (snd (userConnected (Some username) socketId c)) =
  if bool_decide (username = user)
  then set_add socketId (getSockets (Some user) c)
  else getSockets (Some user) c.
Proof.
  intros Ht. unfold userConnected. rewrite truthy_some by assumption.
  unfold clog, getSockets, map_has. cbn.
  destruct (map_get username (userSockets c)) as [set|] eqn:Hget.
  - rewrite Hget.
    destruct (bool_decide (username = user)) eqn:E.
    + apply bool_decide_eq_true in E. subst user.
      now rewrite map_get_set_eq, Hget.
    + apply bool_decide_eq_false in E. now rewrite map_get_set_ne.
  - rewrite map_get_set_eq.
    destruct (bool_decide (username = user)) eqn:E.
    + apply bool_decide_eq_true in E. subst user.
      now rewrite map_get_set_eq, Hget.
    + apply bool_decide_eq_false in E. now rewrite !map_get_set_ne.
Qed.

Lemma tidy_after_connect (username : option jsstring) (socketId : jsstring)
    (c : ChatState) :
  tidy (userSockets c) -> tidy (userSockets (snd (userConnected username socketId c))).
Proof.
  intros [Hnd Hne]. unfold userConnected.
  destruct (truthy_string username) as [u|]; [| now split].
  unfold clog, map_has. cbn.
  destruct (map_get u (userSockets c)) as [set|] eqn:Hget.
  - rewrite Hget. split.
    + rewrite keys_set. unfold map_has. now rewrite Hget.
    + clear Hnd. revert Hne Hget. generalize (userSockets c).
      induction l as [|[k v] l IH]; cbn; [discriminate |].
      intros Hne. apply Forall_cons in Hne. destruct Hne as [Hv Hne].
      destruct (bool_decide (k = u)); intros Hget.
      * constructor; [apply set_add_not_empty | exact Hne].
      * constructor; [exact Hv | now apply IH].
  - rewrite map_get_set_eq. split.
    + rewrite !keys_set. unfold map_has. rewrite Hget, map_get_set_eq.
      apply NoDup_app. repeat split; try assumption.
      * intros x Hx Hx'. apply list_elem_of_In in Hx, Hx'.
        destruct Hx' as [<- | []]. now apply map_get_none in Hget.
      * apply NoDup_singleton.
    + clear Hnd. revert Hne Hget. generalize (userSockets c).
      induction l as [|[k v] l IH]; cbn.
      * intros _ _. rewrite bool_decide_eq_true_2 by reflexivity.
        constructor; [discriminate | constructor].
      * intros Hne. apply Forall_cons in Hne. destruct Hne as [Hv Hne].
        destruct (bool_decide (k = u)) eqn:E; [discriminate |]. intros Hget.
        cbn [map_set]. rewrite E.
        constructor; [exact Hv | now apply IH].
Qed.

Lemma sockets_after_disconnect (username socketId user : jsstring) (c : ChatState) :
  truthy username = true ->
  tidy (userSockets c) ->
  getSockets (Some user) (snd (userDisconnected (Some username) socketId c)) =
  if bool_decide (username = user)
  then set_delete socketId (getSockets (Some user) c)
  else getSockets (Some user) c.
Proof.
  intros Ht [Hnd Hne]. unfold userDisconnected. rewrite truthy_some by assumption.
  unfold clog, getSockets. cbn.
  destruct (map_get username (userSockets c)) as [set|] eqn:Hget; cbn.
  - destruct (bool_decide (username = user)) eqn:E.
    + apply bool_decide_eq_true in E. subst user. rewrite Hget.
      destruct (length (set_delete socketId set) =? 0)%nat eqn:Hlen.
      * rewrite map_get_delete_eq.
        -- apply Nat.eqb_eq in Hlen. now destruct (set_delete socketId set).
        -- rewrite keys_set. unfold map_has. now rewrite Hget.
      * now rewrite map_get_set_eq.
    + apply bool_decide_eq_false in E.
      destruct (length (set_delete socketId set) =? 0)%nat.
      * now rewrite map_get_delete_ne, map_get_set_ne.
      * now rewrite map_get_set_ne.
  - destruct (bool_decide (username = user)) eqn:E; [| reflexivity].
    apply bool_decide_eq_true in E. subst user. now rewrite Hget.
Qed.

Lemma forall_set {V} (P : jsstring * V -> Prop) (k : jsstring) (v : V)
    (m : list (jsstring * V)) :
  Forall P m -> P (k, v) -> (forall k0 v0, k0 = k -> P (k0, v0) -> P (k0, v)) ->
  Forall P (map_set k v m).
Proof.
  intros Hm Hv Hk. induction Hm as [|[k0 v0] m H0 Hm IH]; cbn.
  - now constructor.
  - destruct (bool_decide (k0 = k)) eqn:E.
    + apply bool_decide_eq_true in E. constructor; [eapply Hk; eauto | exact Hm].
    + constructor; [exact H0 | exact IH].
Qed.

Lemma forall_delete {V} (P : jsstring * V -> Prop) (k : jsstring)
    (m : list (jsstring * V)) :
  Forall P m -> Forall P (map_delete k m).
Proof.
  induction 1 as [|[k0 v0] m H0 Hm IH]; cbn; [constructor |].
  destruct (bool_decide (k0 = k)); [exact Hm | now constructor].
Qed.

Lemma keys_delete {V} (k : jsstring) (m : list (jsstring * V)) :
  NoDup (map fst m) -> NoDup (map fst (map_delete k m)).
Proof.
  induction m as [|[k0 v0] m IH]; cbn; [constructor |].
  intros Hnd. apply NoDup_cons in Hnd. destruct Hnd as [Hk0 Hnd].
  destruct (bool_decide (k0 = k)); [exact Hnd |].
  cbn. apply NoDup_cons. split; [| now apply IH].
  intros Hin. apply Hk0. apply list_elem_of_In in Hin. apply list_elem_of_In.
  clear -Hin. induction m as [|[k1 v1] m IH]; cbn in *; [contradiction |].
  destruct (bool_decide (k1 = k)); cbn in *; tauto.
Qed.

Lemma forall_delete_key {V} (P : jsstring * V -> Prop) (k : jsstring) (v : V)
    (m : list (jsstring * V)) :
  Forall P m -> Forall P (map_delete k (map_set k v m)).
Proof.
  induction 1 as [|[k0 v0] m H0 Hm IH]; cbn.
  - rewrite bool_decide_eq_true_2 by reflexivity. constructor.
  - destruct (bool_decide (k0 = k)) eqn:E; cbn; rewrite E; [exact Hm |].
    now constructor.
Qed.

Lemma tidy_after_disconnect (username : option jsstring) (socketId : jsstring)
    (c : ChatState) :
  tidy (userSockets c) ->
  tidy (userSockets (snd (userDisconnected username socketId c))).
Proof.
  intros [Hnd Hne]. unfold userDisconnected.
  destruct (truthy_string username) as [u|]; [| now split].
  destruct (map_get u (userSockets c)) as [set|] eqn:Hget; [| now split].
  unfold clog. cbn.
  destruct (length (set_delete socketId set) =? 0)%nat eqn:Hlen.
  - split.
    + apply keys_delete. rewrite keys_set. unfold map_has. now rewrite Hget.
    + now apply forall_delete_key.
  - split.
    + rewrite keys_set. unfold map_has. now rewrite Hget.
    + apply forall_set; [exact Hne | |].
      * cbn. intros E. rewrite E in Hlen. discriminate Hlen.
      * cbn. intros k0 v0 _ _ E. rewrite E in Hlen. discriminate Hlen.
Qed.

Lemma tidy_after_call (call : ManagerCall) (c : ChatState) :
  tidy (userSockets c) -> tidy (userSockets (manager_call call c)).
Proof.
  destruct call; [apply tidy_after_connect | apply tidy_after_disconnect].
Qed.

Lemma active_has_sockets (user : jsstring) (c : ChatState) :
  tidy (userSockets c) ->
  isUserActive (Some user) c = true <-> getSockets (Some user) c <> [].
Proof.
  intros [_ Hne]. unfold isUserActive, getSockets, map_has.
  destruct (map_get user (userSockets c)) as [set|] eqn:Hget.
  - split; [intros _ | reflexivity].
    apply map_get_in in Hget.
    apply (proj1 (List.Forall_forall _ _) Hne) in Hget. exact Hget.
  - split; [discriminate | congruence].
Qed.

(** A call under an empty name changes nothing. *)
Lemma call_without_name (call : ManagerCall) (c : ChatState) :
  match call with
  | Connect username _ | Disconnect username _ => truthy_string username = None
  end -> manager_call call c = c.
Proof.
  destruct call as [u s|u s]; cbn; unfold userConnected, userDisconnected;
    now intros ->.
Qed.

Lemma sockets_after_call (call : ManagerCall) (user socketId : jsstring)
    (c : ChatState) :
  truthy user = true ->
  tidy (userSockets c) ->
  In socketId (getSockets (Some user) (manager_call call c)) <->
  call = Connect (Some user) socketId \/
  (In socketId (getSockets (Some user) c) /\ call <> Disconnect (Some user) socketId).
Proof.
  intros Hu Ht.
  destruct call as [[name|] s|[name|] s]; cbn [manager_call];
    try (unfold userConnected, userDisconnected; cbn;
         split; [intros H; right; split; [exact H | discriminate]
                | intros [H | [H _]]; [discriminate H | exact H]]).
  - destruct (truthy name) eqn:Hn.
    + rewrite sockets_after_connect by assumption.
      destruct (bool_decide (name = user)) eqn:E.
      * apply bool_decide_eq_true in E. subst name. rewrite in_set_add.
        split.
        -- intros [-> | H]; [now left | right; split; [exact H | discriminate]].
        -- intros [[= ->] | [H _]]; [now left | now right].
      * apply bool_decide_eq_false in E.
        split; [intros H; right; split; [exact H | discriminate] |].
        intros [[= ->] | [H _]]; [congruence | exact H].
    + unfold userConnected. cbn. rewrite Hn. cbn.
      split; [intros H; right; split; [exact H | discriminate] |].
      intros [[= -> _] | [H _]]; [congruence | exact H].
  - destruct (truthy name) eqn:Hn.
    + rewrite sockets_after_disconnect by assumption.
      destruct (bool_decide (name = user)) eqn:E.
      * apply bool_decide_eq_true in E. subst name. rewrite in_set_delete.
        split.
        -- intros [Hne H]. right. split; [exact H | congruence].
        -- intros [H | [H Hne]]; [discriminate H |]. split; [congruence | exact H].
      * apply bool_decide_eq_false in E.
        split; [intros H; right; split; [exact H | congruence] |].
        intros [H | [H _]]; [discriminate H | exact H].
    + unfold userDisconnected. cbn. rewrite Hn. cbn.
      split; [intros H; right; split; [exact H | congruence] |].
      intros [H | [H _]]; [discriminate H | exact H].
Qed.

(** *** A sequence of calls *)

Lemma tidy_after_calls (calls : list ManagerCall) (c : ChatState) :
  tidy (userSockets c) -> tidy (userSockets (manager_calls calls c)).
Proof.
  revert c; induction calls as [|call calls IH]; intros c Ht; [exact Ht |].
  apply IH. now apply tidy_after_call.
Qed.

Lemma sockets_after_calls (calls : list ManagerCall) (user socketId : jsstring)
    (c : ChatState) :
  truthy user = true ->
  tidy (userSockets c) ->
  In socketId (getSockets (Some user) (manager_calls calls c)) <->
  still_connected calls user socketId \/
  (In socketId (getSockets (Some user) c) /\
   ~ In (Disconnect (Some user) socketId) calls).
Proof.
  intros Hu. revert c; induction calls as [|call calls IH]; intros c Ht.
  - cbn. split; [intros H; right; tauto |].
    intros [(before & after & E & _) | [H _]]; [| exact H].
    now destruct before.
  - change (manager_calls (call :: calls) c)
      with (manager_calls calls (manager_call call c)).
    rewrite IH by now apply tidy_after_call.
    rewrite sockets_after_call by assumption.
    unfold still_connected. split.
    + intros [(before & after & -> & Hafter) | [[-> | [Hin Hne]] Hnot]].
      * left. exists (call :: before), after. now split.
      * left. exists [], calls. now split.
      * right. split; [exact Hin |]. intros [-> | H]; [now apply Hne | now apply Hnot].
    + intros [(before & after & E & Hafter) | [Hin Hnot]].
      * destruct before as [|x before]; cbn in E; injection E as -> ->.
        -- right. split; [now left | exact Hafter].
        -- left. now exists before, after.
      * right. split.
        -- right. split; [exact Hin |]. intros ->. apply Hnot. now left.
        -- intros H. apply Hnot. now right.
Qed.

(** From a server on which nobody is connected, after any sequence of
    connections and disconnections: a socket is listed for a user exactly
    when it connected under that name and did not disconnect under it
    since, and the user is active exactly when there is such a socket. *)
Theorem user_is_active_while_a_socket_remains
    (calls : list ManagerCall) (w : World) (user : jsstring) :
  truthy user = true ->
  (forall socketId,
     In socketId (getSockets (Some user) (manager_calls calls (started w))) <->
     still_connected calls user socketId) /\
  (isUserActive (Some user) (manager_calls calls (started w)) = true <->
   exists socketId, still_connected calls user socketId).
Proof.
  intros Hu.
  assert (Ht : tidy (userSockets (started w))) by (split; constructor).
  assert (Hs : forall socketId,
             In socketId (getSockets (Some user) (manager_calls calls (started w))) <->
             still_connected calls user socketId).
  { intros s. rewrite sockets_after_calls by assumption. cbn. tauto. }
  split; [exact Hs |].
  rewrite active_has_sockets by now apply tidy_after_calls.
  split.
  - intros Hne. destruct (getSockets _ _) as [|s rest] eqn:E; [congruence |].
    exists s. apply Hs. now left.
  - intros (s & H) E. apply Hs in H. rewrite E in H. exact H.
Qed.

Lemma user_is_active_while_a_socket_remains_witness :
  let calls := [Connect (Some (js "bob")) (js "s1");
                Connect (Some (js "bob")) (js "s2");
                Disconnect (Some (js "bob")) (js "s1")] in
  (forall socketId,
     In socketId (getSockets (Some (js "bob")) (manager_calls calls (started empty_world)))
     <-> still_connected calls (js "bob") socketId) /\
  (isUserActive (Some (js "bob")) (manager_calls calls (started empty_world)) = true <->
   exists socketId, still_connected calls (js "bob") socketId).
Proof.
  intros calls.
  apply (user_is_active_while_a_socket_remains calls empty_world (js "bob")).
  reflexivity.
Defined.

End ActiveUserFacts.

Module DeliveryFacts.

Import RoutesFacts ActiveUserFacts.
Local Open Scope Z_scope.

Lemma set_sent_same (c : ChatState) : set_sent (sent c) c = c.
Proof. now destruct c. Qed.

Lemma run_chat_query {A} (env : ChatEnv) (q : ChatState -> Result A * ChatState)
    (c : ChatState) :
  db_ok (server_env env) ->
  chat_query env q c = q (set_base (set_queries (S (queries (base c))) (base c)) c).
Proof. intros H. unfold chat_query. now rewrite H. Qed.

(** A loop of emits reaches the elements before the first one whose emit
    throws, and all of them when it returns. *)
Lemma for_each_emit {A} (env : ChatEnv) (to : A -> jsstring) (pay : A -> Payload)
    (l : list A) (c : ChatState) :
  exists reached rest,
    l = reached ++ rest /\
    snd (for_each (fun x => emit env (to x) (pay x)) l c) =
      set_sent (sent c ++ map (fun x => ToSocket (to x) (pay x)) reached) c /\
    match fst (for_each (fun x => emit env (to x) (pay x)) l c) with
    | Ok _ => rest = []
    | Throw _ => exists x rest', rest = x :: rest' /\ emit_throws env (to x) = true
    end.
Proof.
  revert c; induction l as [|x l IH]; intros c.
  - exists [], []. cbn. rewrite app_nil_r, set_sent_same. auto.
  - assert (E : for_each (fun x => emit env (to x) (pay x)) (x :: l) c =
                 if emit_throws env (to x) then (Throw TypeError, c)
                 else for_each (fun x => emit env (to x) (pay x)) l
                        (set_sent (sent c ++ [ToSocket (to x) (pay x)]) c)).
    { cbn [for_each]. unfold cbind at 1. unfold emit at 1.
      now destruct (emit_throws env (to x)). }
    rewrite E. clear E.
    destruct (emit_throws env (to x)) eqn:Hx.
    + exists [], (x :: l). cbn. rewrite app_nil_r, set_sent_same.
      split; [reflexivity |]. split; [reflexivity |]. now exists x, l.
    + destruct (IH (set_sent (sent c ++ [ToSocket (to x) (pay x)]) c))
        as (reached & rest & -> & Hs & Hr).
      exists (x :: reached), rest. split; [reflexivity |]. split; [| exact Hr].
      rewrite Hs. cbn. now rewrite <- app_assoc.
Qed.

Lemma insert_by_time_perm (r : ChatRow) (l : list ChatRow) :
  Permutation (insert_by_time r l) (r :: l).
Proof.
  induction l as [|x l IH]; cbn; [reflexivity |].
  destruct (row_timestamp r <? row_timestamp x); [reflexivity |].
  rewrite IH. apply Permutation_swap.
Qed.

Lemma insert_by_time_sorted (r : ChatRow) (l : list ChatRow) :
  in_order_of_time l -> in_order_of_time (insert_by_time r l).
Proof.
  unfold in_order_of_time.
  induction l as [|x l IH]; cbn; intros Hs.
  - repeat constructor.
  - apply StronglySorted_inv in Hs. destruct Hs as [Hs Hx].
    destruct (row_timestamp r <? row_timestamp x) eqn:Hlt.
    + apply Z.ltb_lt in Hlt. constructor.
      * now constructor.
      * constructor; [lia |].
        eapply List.Forall_impl; [| exact Hx]. cbn. intros y Hy. lia.
    + apply Z.ltb_ge in Hlt. constructor; [now apply IH |].
      rewrite (insert_by_time_perm r l). now constructor.
Qed.

Lemma order_by_time_perm (l : list ChatRow) : Permutation (order_by_time l) l.
Proof.
  unfold order_by_time.
  enough (H : forall acc,
             Permutation (fold_left (fun acc r => insert_by_time r acc) l acc) (l ++ acc)).
  { rewrite H. now rewrite app_nil_r. }
  induction l as [|r l IH]; intros acc; cbn; [reflexivity |].
  rewrite IH, insert_by_time_perm. symmetry. apply Permutation_middle.
Qed.

Lemma order_by_time_sorted (l : list ChatRow) : in_order_of_time (order_by_time l).
Proof.
  unfold order_by_time.
  enough (H : forall acc, in_order_of_time acc ->
             in_order_of_time (fold_left (fun acc r => insert_by_time r acc) l acc)).
  { apply H. constructor. }
  induction l as [|r l IH]; intros acc Hacc; cbn; [assumption |].
  apply IH. now apply insert_by_time_sorted.
Qed.

(** *** [sendOrStoreMessage] *)

(** While the store answers, a message with a sender and a receiver is
    stored, once, whatever happens to its delivery.  The row gets the
    next id of the table.  What is returned is the message with its
    delivered flag set; its id is the id of the new row when the message
    came without an id, and the id the message came with otherwise, which
    is then not the id of the row.  The message is stored as delivered
    only when the receiver was connected and every socket of the receiver
    got it; when no emit throws, it is stored as delivered exactly when
    the receiver was connected. *)
Theorem message_is_stored_whatever_the_delivery
    (env : ChatEnv) (m : Message) (sender receiver : jsstring) (c : ChatState) :
  db_ok (server_env env) ->
  msg_sender m = Some sender ->
  msg_receiver m = Some receiver ->
  exists delivered saved c',
    sendOrStoreMessage env m c = (Ok saved, c') /\
    saved = with_id (next_chat_id c) (set_delivered delivered m) /\
    msg_id saved =
      match msg_id m with
      | Some own => Some own
      | None => Some (next_chat_id c)
      end /\
    messages c' =
      messages c ++
      [{| row_id := next_chat_id c; row_sender := sender; row_receiver := receiver;
          row_content := msg_content m;
          row_msg_no := truthy_number (msg_msgNo m);
          row_signature := truthy_string (msg_signature m);
          row_verified := msg_verified m;
          row_type := truthy_string (msg_type m);
          row_delivered := delivered;
          row_timestamp := now (base c) |}] /\
    next_chat_id c' = next_chat_id c + 1 /\
    userSockets c' = userSockets c /\
    (delivered = true ->
     isUserActive (Some receiver) c = true /\
     forall sid, In sid (getSockets (Some receiver) c) ->
                 In (ToSocket sid (MessageEvent m)) (sent c')) /\
    ((forall sid, emit_throws env sid = false) ->
     delivered = isUserActive (truthy_string (Some receiver)) c).
Proof.
  intros Hdb Hs Hr. unfold sendOrStoreMessage. rewrite Hr.
  unfold cbind at 1. unfold ctry at 1. unfold cbind at 1.
  destruct (isUserActive (truthy_string (Some receiver)) c) eqn:Ha.
  - unfold cbind at 1. unfold cbind at 1.
    destruct (for_each_emit env (fun sid => sid) (fun _ => MessageEvent m)
                (getSockets (Some receiver) c) c)
      as (reached & rest & El & Est & Eres).
    cbv beta in Est, Eres.
    destruct (for_each (fun sid => emit env sid (MessageEvent m))
                (getSockets (Some receiver) c) c) as [[[]|e] c1] eqn:Ef;
      cbn [fst snd] in Est, Eres; subst c1.
    + subst rest. rewrite app_nil_r in El. subst reached.
      unfold cbind, clog, cret, saveMessageToDb. unfold cbind.
      rewrite run_chat_query by assumption.
      unfold insert_chat_message. cbn. rewrite Hs, Hr.
      exists true. do 2 eexists. split; [reflexivity |].
      split; [reflexivity |]. split; [reflexivity |]. cbn.
      repeat split.
      * cbn in Ha. destruct (truthy receiver); [exact Ha | discriminate Ha].
      * intros sid Hsid. apply in_or_app. right. apply in_map_iff.
        now exists sid.
    + unfold cbind, clog, cret, saveMessageToDb. unfold cbind.
      rewrite run_chat_query by assumption.
      unfold insert_chat_message. cbn. rewrite Hs, Hr.
      exists false. do 2 eexists. split; [reflexivity |].
      split; [reflexivity |]. split; [reflexivity |]. cbn.
      repeat split; try discriminate.
      intros Hemit. destruct Eres as (x & rest' & _ & Hx).
      rewrite Hemit in Hx. discriminate Hx.
  - unfold cbind, clog, cret, saveMessageToDb. unfold cbind.
    rewrite run_chat_query by assumption.
    unfold insert_chat_message. cbn. rewrite Hs, Hr.
    exists false. do 2 eexists. split; [reflexivity |].
      split; [reflexivity |]. split; [reflexivity |]. cbn.
    repeat split; try discriminate.
Qed.

Lemma quiet_ok : chat_ok quiet.
Proof. split; [intros n; reflexivity | intros sid; reflexivity]. Qed.

Lemma message_is_stored_whatever_the_delivery_witness :
  (exists delivered saved c',
     sendOrStoreMessage quiet hello waiting = (Ok saved, c') /\
     saved = with_id 4 (set_delivered delivered hello) /\
     msg_id saved = Some 4 /\
     map row_id (messages c') = [1; 2; 3; 4]) /\
  (exists delivered saved c',
     sendOrStoreMessage quiet hello_numbered waiting = (Ok saved, c') /\
     saved = with_id 4 (set_delivered delivered hello_numbered) /\
     msg_id saved = Some 77 /\
     map row_id (messages c') = [1; 2; 3; 4]).
Proof.
  split.
  - destruct (message_is_stored_whatever_the_delivery quiet hello
                (js "alice") (js "bob") waiting)
      as (delivered & saved & c' & E & Hsaved & Hid & Hm & _).
    + intros n. reflexivity.
    + reflexivity.
    + reflexivity.
    + exists delivered, saved, c'. split; [exact E |]. split; [exact Hsaved |].
      split; [exact Hid |]. rewrite Hm. reflexivity.
  - destruct (message_is_stored_whatever_the_delivery quiet hello_numbered
                (js "alice") (js "bob") waiting)
      as (delivered & saved & c' & E & Hsaved & Hid & Hm & _).
    + intros n. reflexivity.
    + reflexivity.
    + reflexivity.
    + exists delivered, saved, c'. split; [exact E |]. split; [exact Hsaved |].
      split; [exact Hid |]. rewrite Hm. reflexivity.
Defined.

(** *** [register] *)

Lemma for_each_emit_ok {A} (env : ChatEnv) (to : A -> jsstring) (pay : A -> Payload)
    (l : list A) (c : ChatState) :
  (forall sid, emit_throws env sid = false) ->
  for_each (fun x => emit env (to x) (pay x)) l c =
  (Ok tt, set_sent (sent c ++ map (fun x => ToSocket (to x) (pay x)) l) c).
Proof.
  intros Hemit.
  destruct (for_each_emit env to pay l c) as (reached & rest & -> & Hs & Hr).
  destruct (for_each _ _ c) as [[[]|e] c1]; cbn [fst snd] in *.
  - subst. now rewrite app_nil_r.
  - destruct Hr as (x & rest' & _ & Hx). rewrite Hemit in Hx. discriminate Hx.
Qed.

Lemma run_userConnected (username socketId : jsstring) (c : ChatState) :
  truthy username = true ->
  userConnected (Some username) socketId c =
  (Ok tt,
   set_chat_log (chat_log c ++ [LogUserConnected username])
     (set_userSockets
        (userSockets (snd (userConnected (Some username) socketId c))) c)).
Proof.
  intros Hu. unfold userConnected. cbn. rewrite Hu. reflexivity.
Qed.

(** The rows the update marks. *)
Lemma run_markAsDelivered (env : ChatEnv) (rows : list ChatRow) (c : ChatState) :
  db_ok (server_env env) ->
  exists c',
    markAsDelivered env rows c = (Ok tt, c') /\
    messages c' =
      map (fun r => if existsb (Z.eqb (row_id r))
                         (List.filter (fun i => negb (i =? 0)) (map row_id rows))
                    then mark_delivered r else r) (messages c) /\
    sent c' = sent c /\ userSockets c' = userSockets c.
Proof.
  intros Hdb. unfold markAsDelivered.
  assert (Hnone : forall l : list ChatRow,
            map (fun r => if existsb (Z.eqb (row_id r)) [] then mark_delivered r else r) l
            = l).
  { intros l. cbn. apply map_id. }
  destruct rows as [|r rows].
  - exists c. cbn. now rewrite map_id.
  - cbn [length Nat.eqb].
    destruct (List.filter _ (map row_id (r :: rows))) as [|i ids] eqn:E.
    + exists c. cbn [length Nat.eqb]. now rewrite Hnone.
    + cbn [length Nat.eqb]. rewrite run_chat_query by assumption.
      unfold update_delivered. eexists. split; [reflexivity |]. now cbn.
Qed.

Lemma same_id_same_row (rows : list ChatRow) (a b : ChatRow) :
  NoDup (map row_id rows) -> In a rows -> In b rows -> row_id a = row_id b -> a = b.
Proof.
  induction rows as [|x rows IH]; cbn; [contradiction |].
  intros Hnd. apply NoDup_cons in Hnd. destruct Hnd as [Hx Hnd].
  assert (Hin : forall r, In r rows -> row_id r <> row_id x).
  { intros r Hr E. apply Hx. apply list_elem_of_In. rewrite <- E.
    now apply in_map. }
  intros [<- | Ha] [<- | Hb] E; auto.
  - symmetry in E. now apply Hin in E.
  - now apply Hin in E.
Qed.

(** With the ids of a key, the update marks exactly the rows the query
    returned. *)
Lemma marked_rows (due_of : ChatRow -> bool) (rows due : list ChatRow) :
  keyed rows ->
  Permutation due (List.filter due_of rows) ->
  map (fun r => if existsb (Z.eqb (row_id r))
                     (List.filter (fun i => negb (i =? 0)) (map row_id due))
                then mark_delivered r else r) rows =
  map (fun r => if due_of r then mark_delivered r else r) rows.
Proof.
  intros [Hnd Hnz] Hperm. apply map_ext_in. intros r Hr.
  assert (Hdue : forall x, In x due <-> In x rows /\ due_of x = true).
  { intros x. rewrite <- List.filter_In. split; intros H.
    - eapply Permutation_in; [exact Hperm | exact H].
    - eapply Permutation_in; [symmetry; exact Hperm | exact H]. }
  destruct (due_of r) eqn:Er.
  - replace (existsb _ _) with true; [reflexivity |].
    symmetry. apply existsb_exists. exists (row_id r). split; [| apply Z.eqb_refl].
    apply List.filter_In. split.
    + apply in_map. apply Hdue. now split.
    + apply negb_true_iff. apply Z.eqb_neq.
      exact (proj1 (List.Forall_forall _ _) Hnz r Hr).
  - replace (existsb _ _) with false; [reflexivity |].
    symmetry. apply not_true_is_false. intros H.
    apply existsb_exists in H. destruct H as (i & Hi & Ei).
    apply Z.eqb_eq in Ei. subst i.
    apply List.filter_In in Hi. destruct Hi as [Hi _].
    apply in_map_iff in Hi. destruct Hi as (x & Ex & Hx).
    apply Hdue in Hx. destruct Hx as [Hx Hxdue].
    assert (x = r) by (eapply same_id_same_row; eauto). subst x. congruence.
Qed.

Lemma nothing_left (same_name : jsstring -> jsstring -> bool) (receiver : jsstring)
    (rows : list ChatRow) :
  List.filter (undelivered_for same_name receiver)
    (map (fun r => if undelivered_for same_name receiver r
                   then mark_delivered r else r) rows) = [].
Proof.
  induction rows as [|r rows IH]; cbn; [reflexivity |].
  destruct (undelivered_for same_name receiver r) eqn:E.
  - unfold undelivered_for at 1. cbn. rewrite andb_false_r. exact IH.
  - rewrite E. exact IH.
Qed.

(** When a user registers a socket, while the store answers and no emit
    throws: every stored message for the user that was not delivered is
    emitted to that socket, in the order of the timestamps and before the
    list of the active users, and is marked delivered; no other row
    changes, nothing is left undelivered for the user, and the socket
    is listed for the user. *)
Theorem register_delivers_what_was_stored
    (env : ChatEnv) (same_name : jsstring -> jsstring -> bool)
    (socketId username : jsstring) (c : ChatState) :
  chat_ok env ->
  truthy username = true ->
  keyed (messages c) ->
  exists due c',
    on_register env same_name socketId (Some username) c = (Ok tt, c') /\
    Permutation due (List.filter (undelivered_for same_name username) (messages c)) /\
    in_order_of_time due /\
    sent c' =
      sent c ++ map (fun r => ToSocket socketId (StoredMessageEvent r)) due ++
      [ToAll (ActiveUsers (getActiveUsers c'))] /\
    messages c' =
      map (fun r => if undelivered_for same_name username r
                    then mark_delivered r else r) (messages c) /\
    List.filter (undelivered_for same_name username) (messages c') = [] /\
    In socketId (getSockets (Some username) c').
Proof.
  intros [Hdb Hemit] Hu Hkey.
  remember (order_by_time
              (List.filter (undelivered_for same_name username) (messages c)))
    as due eqn:Edue.
  assert (Hperm : Permutation due
            (List.filter (undelivered_for same_name username) (messages c)))
    by (subst due; apply order_by_time_perm).
  assert (Hsorted : in_order_of_time due)
    by (subst due; apply order_by_time_sorted).
  assert (Hmarked := marked_rows _ _ _ Hkey Hperm).
  exists due.
  unfold on_register. cbn [truthy_string]. rewrite Hu.
  unfold ctry, cbind at 1.
  set (c1 := set_socket_data (map_set socketId username (socket_data c)) c).
  unfold cbind at 1. rewrite run_userConnected by assumption.
  set (c2 := set_chat_log _ _).
  assert (Hsock : In socketId (getSockets (Some username) c2)).
  { change (In socketId (getSockets (Some username)
                           (snd (userConnected (Some username) socketId c1)))).
    rewrite sockets_after_connect by assumption.
    rewrite bool_decide_eq_true_2 by reflexivity. apply in_set_add. now left. }
  unfold cbind at 1. unfold getUndeliveredMessages.
  rewrite run_chat_query by assumption.
  set (c3 := set_base _ c2).
  change (messages c3) with (messages c). rewrite <- Edue.
  unfold cbind at 1.
  destruct (Nat.eqb_spec (length due) 0) as [Hlen | Hlen].
  - destruct due as [|r due']; [| discriminate Hlen].
    cbn [negb]. unfold cret, cbind, emit_all. cbn.
    eexists. split; [reflexivity |]. cbn.
    split; [exact Hperm |]. split; [constructor |].
    split; [reflexivity |].
    assert (E : messages c =
                map (fun r => if undelivered_for same_name username r
                              then mark_delivered r else r) (messages c)).
    { rewrite <- Hmarked. cbn. now rewrite map_id. }
    split; [exact E |]. split; [| exact Hsock].
    rewrite E. apply nothing_left.
  - cbn [negb]. unfold cbind at 1.
    rewrite (for_each_emit_ok env (fun _ => socketId) StoredMessageEvent)
      by assumption.
    set (c4 := set_sent _ c3).
    destruct (run_markAsDelivered env due c4 Hdb) as (c5 & E5 & Hm5 & Hs5 & Hu5).
    rewrite E5. unfold cbind, emit_all. cbn [fst snd].
    eexists. split; [reflexivity |].
    cbn [sent set_sent messages userSockets getActiveUsers getSockets].
    split; [exact Hperm |]. split; [exact Hsorted |].
    rewrite Hs5, Hm5, Hu5.
    change (messages c4) with (messages c). rewrite Hmarked.
    split; [unfold c4; cbn; now rewrite <- app_assoc |].
    split; [reflexivity |]. split; [apply nothing_left | exact Hsock].
Qed.

Lemma waiting_keyed : keyed (messages waiting).
Proof.
  split.
  - apply (bool_decide_unpack _). reflexivity.
  - repeat constructor; discriminate.
Qed.

Lemma register_delivers_what_was_stored_witness :
  exists due c',
    on_register quiet exact_name (js "s1") (Some (js "bob")) waiting = (Ok tt, c') /\
    map row_content due = [Some (js "first"); Some (js "second")] /\
    List.filter (undelivered_for exact_name (js "bob")) (messages c') = [].
Proof.
  destruct (register_delivers_what_was_stored quiet exact_name (js "s1") (js "bob")
              waiting quiet_ok eq_refl waiting_keyed)
    as (due & c' & E & _ & _ & _ & _ & Hnone & _).
  exists (order_by_time (List.filter (undelivered_for exact_name (js "bob"))
                           (messages waiting))), c'.
  split; [| split; [reflexivity | exact Hnone]].
  rewrite E. reflexivity.
Defined.

(** *** [POST /api/messages] *)

Lemma run_sendOrStoreMessage
    (env : ChatEnv) (m : Message) (sender receiver : jsstring) (c : ChatState) :
  chat_ok env ->
  msg_sender m = Some sender ->
  msg_receiver m = Some receiver ->
  exists c',
    sendOrStoreMessage env m c =
      (Ok (with_id (next_chat_id c)
             (set_delivered (isUserActive (truthy_string (Some receiver)) c) m)), c') /\
    messages c' =
      messages c ++
      [{| row_id := next_chat_id c; row_sender := sender; row_receiver := receiver;
          row_content := msg_content m;
          row_msg_no := truthy_number (msg_msgNo m);
          row_signature := truthy_string (msg_signature m);
          row_verified := msg_verified m;
          row_type := truthy_string (msg_type m);
          row_delivered := isUserActive (truthy_string (Some receiver)) c;
          row_timestamp := now (base c) |}] /\
    sent c' =
      sent c ++
      (if isUserActive (truthy_string (Some receiver)) c
       then map (fun sid => ToSocket sid (MessageEvent m)) (getSockets (Some receiver) c)
       else []).
Proof.
  intros [Hdb Hemit] Hs Hr. unfold sendOrStoreMessage. rewrite Hr.
  unfold cbind at 1. unfold ctry at 1. unfold cbind at 1.
  destruct (isUserActive (truthy_string (Some receiver)) c) eqn:Ha.
  - unfold cbind at 1. unfold cbind at 1.
    rewrite (for_each_emit_ok env (fun sid => sid) (fun _ => MessageEvent m))
      by assumption.
    unfold cbind, clog, cret, saveMessageToDb. unfold cbind.
    rewrite run_chat_query by assumption.
    unfold insert_chat_message. cbn. rewrite Hs, Hr.
    eexists. split; [reflexivity |]. cbn. now split.
  - unfold cbind, clog, cret, saveMessageToDb. unfold cbind.
    rewrite run_chat_query by assumption.
    unfold insert_chat_message. cbn. rewrite Hs, Hr.
    eexists. split; [reflexivity |]. cbn. rewrite app_nil_r. now split.
Qed.

(** The check of the signature in the message route: it answers with a
    boolean and touches neither the messages nor the sockets. *)
Lemma run_signature_check
    (env : ChatEnv) (sender message : jsstring) (sig : option jsstring)
    (c : ChatState) :
  exists verified c1,
    match sig with
    | Some signature =>
        (v <- on_base (verifyMessageSignature (server_env env)
                         sender message signature) ;;
         clog (LogMessageSignature v) ;;
         cret v)%chat
    | None => cret false
    end c = (Ok verified, c1) /\
    messages c1 = messages c /\
    next_chat_id c1 = next_chat_id c /\
    userSockets c1 = userSockets c /\
    sent c1 = sent c /\
    now (base c1) = now (base c) /\
    (verified = true ->
     exists signature,
       sig = Some signature /\
       fst (verifyMessageSignature (server_env env) sender message signature (base c))
       = Ok true).
Proof.
  destruct sig as [signature|].
  - destruct (ChatFacts.verify_keeps_the_messages (server_env env) sender message
                signature (base c)) as (b & w1 & Hv & _ & _ & Hnow).
    unfold cbind, on_base, clog, cret. rewrite Hv.
    do 2 eexists. split; [reflexivity |]. cbn.
    repeat (split; [reflexivity || exact Hnow |]).
    intros ->. exists signature. split; [reflexivity |]. now rewrite Hv.
  - exists false, c. unfold cret. repeat (split; [reflexivity |]). discriminate.
Qed.

Lemma receiver_sockets (receiver : jsstring) (p : Payload) (c : ChatState) :
  (if isUserActive (Some receiver) c
   then map (fun sid => ToSocket sid p) (getSockets (Some receiver) c)
   else []) =
  map (fun sid => ToSocket sid p) (getSockets (Some receiver) c).
Proof.
  unfold isUserActive, getSockets, map_has.
  now destruct (map_get receiver (userSockets c)).
Qed.

Lemma truthy_twice (s : option jsstring) :
  truthy_string (truthy_string s) = truthy_string s.
Proof.
  destruct s as [s|]; cbn; [| reflexivity].
  destruct (truthy s) eqn:E; cbn; [now rewrite E | reflexivity].
Qed.

Lemma truthy_of_some (s : option jsstring) (v : jsstring) :
  truthy_string s = Some v -> s = Some v /\ truthy v = true.
Proof.
  destruct s as [x|]; cbn; [| discriminate].
  destruct (truthy x) eqn:E; [| discriminate]. intros [= <-]. now split.
Qed.

(** The row the message route appends. *)
Lemma posted_row
    (env : ChatEnv) (req : PostRequest) (sender receiver message : jsstring)
    (c : ChatState) :
  chat_ok env ->
  truthy_string (chat_sender req) = Some sender ->
  truthy_string (chat_receiver req) = Some receiver ->
  truthy_string (chat_message req) = Some message ->
  exists row,
    messages (snd (post_chat_message env req c)) = messages c ++ [row] /\
    row_id row = next_chat_id c /\
    row_sender row = sender /\ row_receiver row = receiver /\
    row_content row = Some (trim message) /\
    row_timestamp row = now (base c).
Proof.
  intros Hok Hs Hr Hm. unfold post_chat_message. rewrite Hs, Hr, Hm.
  unfold ctry, cbind at 1.
  destruct (run_signature_check env sender message
              (truthy_string (chat_signature req)) c)
    as (verified & c1 & E1 & Hm1 & Hn1 & _ & _ & Hnow & _).
  rewrite E1. unfold cbind at 1.
  match goal with |- context [sendOrStoreMessage env ?m c1] =>
    destruct (run_sendOrStoreMessage env m sender receiver c1 Hok eq_refl eq_refl)
      as (c' & E & Hmsg & _)
  end.
  rewrite E. cbn [snd cret]. eexists. split.
  - rewrite Hmsg, Hm1. reflexivity.
  - cbn. rewrite Hn1, Hnow. now repeat split.
Qed.

(** A request with a sender, a receiver and a message, while the store
    answers and no emit throws, is answered with the stored message.
    The content stored is the message without the white space around it;
    the sockets of the receiver get the message before it is stored,
    without an id and not yet marked delivered; and the message is stored
    as verified only if a signature came with it and the verifier accepted
    it for the message as it was posted. *)
Theorem posted_message_is_stored_trimmed
    (env : ChatEnv) (req : PostRequest) (sender receiver message : jsstring)
    (c : ChatState) :
  chat_ok env ->
  truthy_string (chat_sender req) = Some sender ->
  truthy_string (chat_receiver req) = Some receiver ->
  truthy_string (chat_message req) = Some message ->
  exists verified c',
    let posted delivered id :=
      {| msg_id := id; msg_sender := Some sender; msg_receiver := Some receiver;
         msg_content := Some (trim message); msg_msgNo := chat_msgNo req;
         msg_signature := truthy_string (chat_signature req);
         msg_verified := verified; msg_type := Some (js "text");
         msg_delivered := delivered |} in
    post_chat_message env req c =
      (Ok (Stored (posted (isUserActive (Some receiver) c) (Some (next_chat_id c)))),
       c') /\
    messages c' =
      messages c ++
      [{| row_id := next_chat_id c; row_sender := sender; row_receiver := receiver;
          row_content := Some (trim message);
          row_msg_no := truthy_number (chat_msgNo req);
          row_signature := truthy_string (chat_signature req);
          row_verified := verified;
          row_type := Some (js "text");
          row_delivered := isUserActive (Some receiver) c;
          row_timestamp := now (base c) |}] /\
    sent c' =
      sent c ++ map (fun sid => ToSocket sid (MessageEvent (posted false None)))
                  (getSockets (Some receiver) c) /\
    (verified = true ->
     exists signature,
       truthy_string (chat_signature req) = Some signature /\
       fst (verifyMessageSignature (server_env env) sender message signature (base c))
       = Ok true).
Proof.
  intros Hok Hs Hr Hm. unfold post_chat_message. rewrite Hs, Hr, Hm.
  destruct (truthy_of_some _ _ Hr) as [_ Htr].
  assert (Hact : forall c0, isUserActive (truthy_string (Some receiver)) c0
                            = isUserActive (Some receiver) c0).
  { intros c0. cbn. now rewrite Htr. }
  unfold ctry, cbind at 1.
  destruct (run_signature_check env sender message
              (truthy_string (chat_signature req)) c)
    as (verified & c1 & E1 & Hm1 & Hn1 & Hu1 & Hs1 & Hnow & Hverified).
  rewrite E1. unfold cbind at 1.
  match goal with |- context [sendOrStoreMessage env ?m c1] =>
    destruct (run_sendOrStoreMessage env m sender receiver c1 Hok eq_refl eq_refl)
      as (c' & E & Hmsg & Hsnt)
  end.
  rewrite E. exists verified, c'. cbn zeta.
  rewrite Hact, receiver_sockets in *.
  assert (Hactive : isUserActive (Some receiver) c1 = isUserActive (Some receiver) c)
    by (unfold isUserActive; now rewrite Hu1).
  assert (Hsockets : getSockets (Some receiver) c1 = getSockets (Some receiver) c)
    by (unfold getSockets; now rewrite Hu1).
  rewrite Hactive, Hsockets, Hn1, Hm1, Hs1, Hnow in *.
  split; [reflexivity |].
  split; [rewrite Hmsg; cbn; now rewrite truthy_twice |].
  split; [exact Hsnt | exact Hverified].
Qed.

Lemma posted_message_is_stored_trimmed_witness :
  exists c',
    fst (post_chat_message quiet hello_request waiting) = Ok (Stored
      {| msg_id := Some 4; msg_sender := Some (js "alice");
         msg_receiver := Some (js "bob"); msg_content := Some (js "hello");
         msg_msgNo := None; msg_signature := None; msg_verified := false;
         msg_type := Some (js "text"); msg_delivered := false |}) /\
    snd (post_chat_message quiet hello_request waiting) = c'.
Proof.
  destruct (posted_message_is_stored_trimmed quiet hello_request
              (js "alice") (js "bob") (js " hello ") waiting quiet_ok
              eq_refl eq_refl eq_refl) as (verified & c' & E & _ & _ & Hv).
  exists c'. rewrite E. split; [| reflexivity]. cbn [fst].
  destruct verified.
  - destruct (Hv eq_refl) as (signature & Hsig & _). discriminate Hsig.
  - reflexivity.
Defined.

End DeliveryFacts.

Module PresenceFacts.

Import RoutesFacts ActiveUserFacts DeliveryFacts.
Local Open Scope Z_scope.

Section Keeps.

Context (P : ChatState -> Prop).
Hypothesis only_sockets : forall c c', userSockets c' = userSockets c -> P c -> P c'.

Lemma leaves_keeps {A} (m : C A) : leaves_sockets m -> chat_keeps P m.
Proof. intros H c Hc. eapply only_sockets; [apply H | exact Hc]. Qed.

Lemma keeps_cbind {A B} (m : C A) (k : A -> C B) :
  chat_keeps P m -> (forall a, chat_keeps P (k a)) -> chat_keeps P (cbind m k).
Proof.
  intros Hm Hk c Hc. unfold cbind. specialize (Hm c Hc).
  destruct (m c) as [[a|e] c1]; cbn in *; [now apply Hk | exact Hm].
Qed.

Lemma keeps_ctry {A} (m : C A) (h : Exn -> C A) :
  chat_keeps P m -> (forall e, chat_keeps P (h e)) -> chat_keeps P (ctry m h).
Proof.
  intros Hm Hh c Hc. unfold ctry. specialize (Hm c Hc).
  destruct (m c) as [[a|e] c1]; cbn in *; [exact Hm | now apply Hh].
Qed.

Lemma keeps_for_each {A} (f : A -> C unit) (l : list A) :
  (forall x, chat_keeps P (f x)) -> chat_keeps P (for_each f l).
Proof.
  intros Hf. induction l as [|x l IH]; cbn [for_each].
  - now intros c Hc.
  - apply keeps_cbind; [apply Hf | intros _; exact IH].
Qed.

Lemma keeps_cret {A} (a : A) : chat_keeps P (cret a).
Proof. now intros c Hc. Qed.

Lemma keeps_read {A} (f : ChatState -> Result A) : chat_keeps P (fun c => (f c, c)).
Proof. now intros c Hc. Qed.

Lemma keeps_clog (l : ChatLog) : chat_keeps P (clog l).
Proof. apply leaves_keeps. now intros c. Qed.

Lemma keeps_emit (env : ChatEnv) (socketId : jsstring) (p : Payload) :
  chat_keeps P (emit env socketId p).
Proof.
  apply leaves_keeps. intros c. unfold emit. now destruct (emit_throws env socketId).
Qed.

Lemma keeps_emit_all (p : Payload) : chat_keeps P (emit_all p).
Proof. apply leaves_keeps. now intros c. Qed.

Lemma keeps_on_base {A} (m : M A) : chat_keeps P (on_base m).
Proof.
  apply leaves_keeps. intros c. unfold on_base. now destruct (m (base c)).
Qed.

Lemma keeps_chat_query {A} (env : ChatEnv) (q : ChatState -> Result A * ChatState) :
  leaves_sockets q -> chat_keeps P (chat_query env q).
Proof.
  intros Hq. apply leaves_keeps. intros c. unfold chat_query.
  destruct (db_fails (server_env env) (queries (base c))); [reflexivity |].
  now rewrite Hq.
Qed.

Lemma keeps_saveMessageToDb (env : ChatEnv) (m : Message) :
  chat_keeps P (saveMessageToDb env m).
Proof.
  apply keeps_cbind; [| intros; apply keeps_cret].
  apply keeps_chat_query. intros c. unfold insert_chat_message.
  now destruct (msg_sender m), (msg_receiver m).
Qed.

Lemma keeps_getUndeliveredMessages (env : ChatEnv)
    (same_name : jsstring -> jsstring -> bool) (receiver : jsstring) :
  chat_keeps P (getUndeliveredMessages env same_name receiver).
Proof. apply keeps_chat_query. now intros c. Qed.

Lemma keeps_markAsDelivered (env : ChatEnv) (rows : list ChatRow) :
  chat_keeps P (markAsDelivered env rows).
Proof.
  unfold markAsDelivered.
  destruct (length rows =? 0)%nat; [apply keeps_cret |].
  destruct (length _ =? 0)%nat; [apply keeps_cret |].
  apply keeps_chat_query. now intros c.
Qed.

Lemma keeps_sendOrStoreMessage (env : ChatEnv) (m : Message) :
  chat_keeps P (sendOrStoreMessage env m).
Proof.
  apply keeps_cbind; [| intros; apply keeps_saveMessageToDb].
  apply keeps_ctry.
  - apply keeps_cbind; [apply keeps_read |]. intros [].
    + apply keeps_cbind; [apply keeps_read |]. intros sockets.
      apply keeps_cbind; [apply keeps_for_each; intros; apply keeps_emit |].
      intros _. apply keeps_cbind; [apply keeps_clog | intros; apply keeps_cret].
    + apply keeps_cbind; [apply keeps_clog | intros; apply keeps_cret].
  - intros e. apply keeps_cbind; [apply keeps_clog | intros; apply keeps_cret].
Qed.

Lemma keeps_on_chat (env : ChatEnv) (socketId : jsstring) (m : Message) :
  chat_keeps P (on_chat env socketId m).
Proof.
  apply keeps_ctry; [| intros; apply keeps_clog].
  apply keeps_cbind; [apply keeps_sendOrStoreMessage | intros; apply keeps_emit].
Qed.

Lemma keeps_on_uss_message (env : ChatEnv) (socketId : jsstring) (m : MessageObj) :
  chat_keeps P (on_uss_message env socketId m).
Proof.
  apply keeps_ctry.
  - apply keeps_cbind; [apply keeps_clog | intros _].
    apply keeps_cbind; [apply keeps_read | intros sockets].
    apply keeps_cbind; [| intros; apply keeps_emit].
    destruct (negb _); [| apply keeps_clog].
    apply keeps_cbind; [| intros; apply keeps_clog].
    apply keeps_for_each. intros. apply keeps_emit.
  - intros e. apply keeps_cbind; [apply keeps_clog | intros; apply keeps_emit].
Qed.

Lemma keeps_post_chat_message (env : ChatEnv) (req : PostRequest) :
  chat_keeps P (post_chat_message env req).
Proof.
  unfold post_chat_message.
  destruct (truthy_string (chat_sender req)); [| apply keeps_cret].
  destruct (truthy_string (chat_receiver req)); [| apply keeps_cret].
  destruct (truthy_string (chat_message req)); [| apply keeps_cret].
  apply keeps_ctry.
  - apply keeps_cbind.
    + destruct (truthy_string (chat_signature req)); [| apply keeps_cret].
      apply keeps_cbind; [apply keeps_on_base | intros v].
      apply keeps_cbind; [apply keeps_clog | intros; apply keeps_cret].
    + intros v. apply keeps_cbind; [apply keeps_sendOrStoreMessage |].
      intros; apply keeps_cret.
  - intros e. apply keeps_cbind; [apply keeps_clog | intros; apply keeps_cret].
Qed.

Lemma keeps_post_logout (username : option jsstring) :
  chat_keeps P (post_logout username).
Proof.
  unfold post_logout. destruct (truthy_string username); [| apply keeps_cret].
  apply keeps_cbind; [apply keeps_clog | intros; apply keeps_cret].
Qed.

(** The handlers that call the manager keep what its calls keep. *)

Lemma keeps_on_register (env : ChatEnv) (same_name : jsstring -> jsstring -> bool)
    (socketId : jsstring) (username : option jsstring) :
  (forall name, chat_keeps P (userConnected name socketId)) ->
  chat_keeps P (on_register env same_name socketId username).
Proof.
  intros Hconn. apply keeps_ctry; [| intros; apply keeps_clog].
  destruct (truthy_string username) as [name|]; [| apply keeps_cret].
  apply keeps_cbind; [apply leaves_keeps; now intros c | intros _].
  apply keeps_cbind; [apply Hconn | intros _].
  apply keeps_cbind; [apply keeps_getUndeliveredMessages | intros rows].
  apply keeps_cbind.
  - destruct (negb _); [| apply keeps_cret].
    apply keeps_cbind; [| intros; apply keeps_markAsDelivered].
    apply keeps_for_each. intros. apply keeps_emit.
  - intros _. apply keeps_cbind; [apply keeps_read | intros; apply keeps_emit_all].
Qed.

Lemma keeps_on_disconnect (socketId : jsstring) :
  (forall name, chat_keeps P (userDisconnected name socketId)) ->
  chat_keeps P (on_disconnect socketId).
Proof.
  intros Hdisc.
  apply keeps_cbind; [apply keeps_read | intros username].
  apply keeps_cbind; [| intros; apply keeps_clog].
  destruct (truthy_string username) as [name|]; [| apply keeps_cret].
  apply keeps_cbind; [apply Hdisc | intros _].
  apply keeps_cbind; [apply keeps_read | intros; apply keeps_emit_all].
Qed.

Lemma keeps_post_login (env : ChatEnv) (same_name : jsstring -> jsstring -> bool)
    (username password : option jsstring) :
  (forall name socketId, chat_keeps P (userConnected name socketId)) ->
  chat_keeps P (post_login env same_name username password).
Proof.
  intros Hconn. apply keeps_ctry.
  - destruct (truthy_string username) as [name|]; [| apply keeps_cret].
    destruct (truthy_string password) as [pw|]; [| apply keeps_cret].
    apply keeps_cbind; [apply keeps_chat_query; now intros c | intros rows].
    destruct rows as [|[key user] rows]; [apply keeps_cret |].
    apply keeps_cbind; [apply keeps_read | intros []]; [| apply keeps_cret].
    cbn [negb].
    apply keeps_cbind; [apply keeps_read | intros time].
    apply keeps_cbind; [apply Hconn | intros _].
    apply keeps_cbind; [apply keeps_getUndeliveredMessages | intros rows'].
    apply keeps_cbind; [apply keeps_markAsDelivered | intros; apply keeps_cret].
  - intros e. apply keeps_cbind; [apply keeps_clog | intros; apply keeps_cret].
Qed.

End Keeps.

Lemma listed_only_sockets (username : jsstring) (time : Z) (c c' : ChatState) :
  userSockets c' = userSockets c ->
  login_listed username time c -> login_listed username time c'.
Proof.
  unfold login_listed, getSockets. now intros ->.
Qed.

Lemma listed_after_connect (username : jsstring) (time : Z)
    (name : option jsstring) (socketId : jsstring) :
  chat_keeps (login_listed username time) (userConnected name socketId).
Proof.
  intros c [Ht Hin]. split; [now apply tidy_after_connect |].
  destruct name as [name|]; [| exact Hin].
  destruct (truthy name) eqn:Hn.
  - rewrite sockets_after_connect by assumption.
    destruct (bool_decide (name = username)); [| exact Hin].
    apply in_set_add. now right.
  - unfold userConnected. cbn. rewrite Hn. exact Hin.
Qed.

Lemma listed_after_disconnect (username : jsstring) (time : Z)
    (name : option jsstring) (socketId : jsstring) :
  socketId <> login_socket time ->
  chat_keeps (login_listed username time) (userDisconnected name socketId).
Proof.
  intros Hne c [Ht Hin]. split; [now apply tidy_after_disconnect |].
  destruct name as [name|]; [| exact Hin].
  destruct (truthy name) eqn:Hn.
  - rewrite sockets_after_disconnect by assumption.
    destruct (bool_decide (name = username)); [| exact Hin].
    apply in_set_delete. split; [congruence | exact Hin].
  - unfold userDisconnected. cbn. rewrite Hn. exact Hin.
Qed.

Lemma listed_after_event (env : ChatEnv) (same_name : jsstring -> jsstring -> bool)
    (username : jsstring) (time : Z) (ev : ChatEvent) (c : ChatState) :
  ev <> EvDisconnect (login_socket time) ->
  login_listed username time c ->
  login_listed username time (handle env same_name ev c).
Proof.
  intros Hev.
  pose proof (listed_only_sockets username time) as Hs.
  destruct ev; cbn [handle].
  - apply keeps_on_register; [exact Hs |]. intros. apply listed_after_connect.
  - apply keeps_on_chat. exact Hs.
  - apply keeps_on_uss_message. exact Hs.
  - apply keeps_on_disconnect; [exact Hs |]. intros.
    apply listed_after_disconnect. congruence.
  - apply keeps_post_chat_message. exact Hs.
  - apply keeps_post_login; [exact Hs |]. intros. apply listed_after_connect.
  - apply keeps_post_logout. exact Hs.
Qed.

(** A successful login lists its socket for the user. *)
Lemma listed_after_login (env : ChatEnv) (same_name : jsstring -> jsstring -> bool)
    (username password : option jsstring) (c : ChatState) :
  tidy (userSockets c) ->
  match post_login env same_name username password c with
  | (Ok (LoginSuccessful name _ _), c') =>
      username = Some name /\ login_listed name (now (base c)) c'
  | _ => True
  end.
Proof.
  intros Ht. unfold post_login.
  destruct username as [name|]; cbn [truthy_string]; [| exact I].
  destruct (truthy name) eqn:Hn; [| exact I].
  destruct (truthy_string password) as [pw|]; [| exact I].
  unfold ctry. unfold cbind at 1. unfold chat_query at 1.
  destruct (db_fails (server_env env) (queries (base c))); [exact I |].
  set (c1 := set_base _ c).
  destruct (List.filter _ (accounts c1)) as [|[key user] rows]; [exact I |].
  unfold cbind at 1.
  destruct (bcrypt_compare env pw (password_hash user)) as [[]|e]; cbn [negb];
    try exact I.
  unfold cbind at 1. unfold cbind at 1.
  rewrite run_userConnected by assumption.
  set (c2 := set_chat_log _ _).
  assert (H2 : login_listed name (now (base c)) c2).
  { split.
    - change (tidy (userSockets (snd (userConnected (Some name)
                                        (login_socket (now (base c1))) c1)))).
      now apply tidy_after_connect.
    - change (In (login_socket (now (base c)))
                (getSockets (Some name)
                   (snd (userConnected (Some name) (login_socket (now (base c))) c1)))).
      rewrite sockets_after_connect by assumption.
      rewrite bool_decide_eq_true_2 by reflexivity. apply in_set_add. now left. }
  pose proof (listed_only_sockets name (now (base c))) as Hs.
  pose proof (keeps_getUndeliveredMessages _ Hs env same_name name c2 H2) as H3.
  unfold cbind at 1.
  destruct (getUndeliveredMessages env same_name name c2) as [[rows'|e] c3];
    cbn [fst snd] in *; [| exact I].
  pose proof (keeps_markAsDelivered _ Hs env rows' c3 H3) as H4.
  unfold cbind at 1.
  destruct (markAsDelivered env rows' c3) as [[[]|e] c4];
    cbn [fst snd] in *; [| exact I].
  now split.
Qed.

Lemma listed_after_events (env : ChatEnv) (same_name : jsstring -> jsstring -> bool)
    (username : jsstring) (time : Z) (events : list ChatEvent) (c : ChatState) :
  Forall (fun ev => ev <> EvDisconnect (login_socket time)) events ->
  login_listed username time c ->
  login_listed username time (handle_all env same_name events c).
Proof.
  intros Hev. revert c. induction Hev as [|ev events Hne Hev IH]; intros c Hc.
  - exact Hc.
  - cbn. apply IH. now apply listed_after_event.
Qed.

(** After a successful login the user counts as connected for good: the
    login lists a socket id of its own for the user, and no event of
    another socket, no request and no logout takes it from the list.  A
    message sent to the user later finds the user active. *)
Theorem login_keeps_the_user_active
    (env : ChatEnv) (same_name : jsstring -> jsstring -> bool)
    (username password : option jsstring) (name email : jsstring)
    (offline : list ChatRow) (events : list ChatEvent) (c c' : ChatState) :
  tidy (userSockets c) ->
  post_login env same_name username password c =
    (Ok (LoginSuccessful name email offline), c') ->
  Forall (fun ev => ev <> EvDisconnect (login_socket (now (base c)))) events ->
  In (login_socket (now (base c)))
    (getSockets (Some name) (handle_all env same_name events c')) /\
  isUserActive (Some name) (handle_all env same_name events c') = true /\
  isUserActive (Some name)
    (handle_all env same_name (events ++ [EvLogout (Some name)]) c') = true.
Proof.
  intros Ht Hlogin Hev.
  pose proof (listed_after_login env same_name username password c Ht) as H.
  rewrite Hlogin in H. destruct H as [_ H].
  assert (Hall : forall evs,
            Forall (fun ev => ev <> EvDisconnect (login_socket (now (base c)))) evs ->
            In (login_socket (now (base c)))
              (getSockets (Some name) (handle_all env same_name evs c')) /\
            isUserActive (Some name) (handle_all env same_name evs c') = true).
  { intros evs Hevs.
    destruct (listed_after_events env same_name name _ evs c' Hevs H) as [Ht' Hin].
    split; [exact Hin |].
    apply active_has_sockets; [exact Ht' |]. intros E. rewrite E in Hin. exact Hin. }
  split; [now apply Hall |]. split; [now apply Hall |].
  apply Hall. apply Forall_app. split; [exact Hev |].
  constructor; [discriminate | constructor].
Qed.

Lemma login_keeps_the_user_active_witness :
  let c' := snd (post_login quiet exact_name (Some (js "bob")) (Some (js "hunter2"))
                   waiting) in
  let events := [EvRegister (js "s1") (Some (js "bob")); EvDisconnect (js "s1")] in
  In (login_socket 1000) (getSockets (Some (js "bob")) (handle_all quiet exact_name events c')) /\
  isUserActive (Some (js "bob")) (handle_all quiet exact_name events c') = true /\
  isUserActive (Some (js "bob"))
    (handle_all quiet exact_name (events ++ [EvLogout (Some (js "bob"))]) c') = true.
Proof.
  intros c' events.
  apply (login_keeps_the_user_active quiet exact_name
           (Some (js "bob")) (Some (js "hunter2")) (js "bob") (js "bob@example.org")
           (order_by_time (List.filter (undelivered_for exact_name (js "bob"))
                             (messages waiting)))
           events waiting c').
  - split; constructor.
  - reflexivity.
  - repeat constructor; discriminate.
Defined.

End PresenceFacts.

Module ConversationFacts.

Import RoutesFacts ActiveUserFacts DeliveryFacts.
Local Open Scope Z_scope.

Lemma run_get_conversation (env : ChatEnv) (same_name : jsstring -> jsstring -> bool)
    (userA userB : jsstring) (c : ChatState) :
  db_ok (server_env env) ->
  truthy userA = true -> truthy userB = true ->
  fst (get_conversation env same_name userA userB c) =
  Ok (ConversationOf
        (map selected
           (order_by_time
              (List.filter (between_the_two same_name userA userB) (messages c))))).
Proof.
  intros Hdb Ha Hb. unfold get_conversation. rewrite Ha, Hb. cbn [negb orb].
  unfold ctry, cbind. rewrite run_chat_query by assumption. reflexivity.
Qed.

(** A message that was posted is in the conversation of its sender and
    its receiver, and the conversation is the same whichever of the two
    is named first.  While the store answers and no emit throws, and the
    collation takes each of the two names for itself: after
    [POST /api/messages], [GET /api/messages/:sender/:receiver] returns
    what it returned before and the new row, with the trimmed message, in
    the order of the timestamps; the request with the two names exchanged
    returns the same, in every state. *)
Theorem posted_message_is_in_the_conversation
    (env : ChatEnv) (same_name : jsstring -> jsstring -> bool)
    (req : PostRequest) (sender receiver message : jsstring) (c : ChatState) :
  chat_ok env ->
  truthy_string (chat_sender req) = Some sender ->
  truthy_string (chat_receiver req) = Some receiver ->
  truthy_string (chat_message req) = Some message ->
  same_name sender sender = true ->
  same_name receiver receiver = true ->
  (exists before after row,
     fst (get_conversation env same_name sender receiver c) =
       Ok (ConversationOf (map selected before)) /\
     fst (get_conversation env same_name sender receiver
            (snd (post_chat_message env req c))) =
       Ok (ConversationOf (map selected after)) /\
     Permutation after (row :: before) /\
     in_order_of_time after /\
     row_id row = next_chat_id c /\
     row_sender row = sender /\ row_receiver row = receiver /\
     row_content row = Some (trim message)) /\
  (forall c0,
     get_conversation env same_name receiver sender c0 =
     get_conversation env same_name sender receiver c0).
Proof.
  intros Hok Hs Hr Hm Hss Hrr.
  destruct (truthy_of_some _ _ Hs) as [_ Hts].
  destruct (truthy_of_some _ _ Hr) as [_ Htr].
  split.
  - destruct (posted_row env req sender receiver message c Hok Hs Hr Hm)
      as (row & Hmsg & Hid & Hrs & Hrv & Hcontent & _).
    destruct Hok as [Hdb _].
    rewrite !run_get_conversation by assumption.
    rewrite Hmsg. rewrite List.filter_app. cbn [List.filter].
    assert (Hrow : between_the_two same_name sender receiver row = true)
      by (unfold between_the_two; now rewrite Hrs, Hrv, Hss, Hrr).
    rewrite Hrow.
    do 2 eexists. exists row. split; [reflexivity |]. split; [reflexivity |].
    split; [| split; [apply order_by_time_sorted | now repeat split]].
    rewrite !order_by_time_perm. rewrite Permutation_app_comm. reflexivity.
  - intros c0. unfold get_conversation.
    rewrite (orb_comm (negb (truthy receiver))).
    destruct (negb (truthy sender) || negb (truthy receiver)); [reflexivity |].
    assert (E : forall rows,
              List.filter (between_the_two same_name receiver sender) rows =
              List.filter (between_the_two same_name sender receiver) rows).
    { intros rows. apply List.filter_ext. intros r. unfold between_the_two.
      apply orb_comm. }
    unfold ctry, cbind, chat_query. now rewrite E.
Qed.

Lemma posted_message_is_in_the_conversation_witness :
  exists rows,
    fst (get_conversation quiet exact_name (js "alice") (js "bob")
           (snd (post_chat_message quiet hello_request waiting))) =
      Ok (ConversationOf rows) /\
    map cv_message rows =
      [Some (js "first"); Some (js "second"); Some (js "hello")].
Proof.
  destruct (posted_message_is_in_the_conversation quiet exact_name hello_request
              (js "alice") (js "bob") (js " hello ") waiting quiet_ok
              eq_refl eq_refl eq_refl eq_refl eq_refl)
    as [(before & after & row & _ & E & _) _].
  eexists. split; reflexivity.
Defined.

End ConversationFacts.

(** ** Steganography *)

Module SteganographyFacts.

Import Base64Facts TextFacts.
Local Open Scope Z_scope.

Lemma byte_bits (b : byte) :
  fold_left (fun acc v => bor (shl acc 1) v) (bits_of (number b)) 0 = number b.
Proof. destruct b; vm_compute; reflexivity. Qed.

Lemma bits_are_bits (b : byte) : Forall (fun v => v = 0 \/ v = 1) (bits_of (number b)).
Proof.
  assert (H : forallb (fun v => (v =? 0) || (v =? 1)) (bits_of (number b)) = true)
    by (destruct b; vm_compute; reflexivity).
  apply List.Forall_forall. intros v Hv.
  apply (proj1 (forallb_forall _ _) H) in Hv.
  apply orb_true_iff in Hv. destruct Hv as [Hv | Hv]; apply Z.eqb_eq in Hv; auto.
Qed.

Lemma uint8_number (b : byte) : uint8 (number b) = b.
Proof. destruct b; reflexivity. Qed.

Lemma number_range (b : byte) : 0 <= number b < 256.
Proof. destruct b; cbn; lia. Qed.

Lemma number_uint8 (z : Z) : 0 <= z < 256 -> number (uint8 z) = z.
Proof.
  intros Hz. unfold number, uint8. rewrite Z.mod_small by lia.
  rewrite to_N_byte_of_N by lia. lia.
Qed.

Lemma mark_byte (o : byte) (v : Z) :
  v = 0 \/ v = 1 ->
  band (mark (number o) v) 1 = v /\
  0 <= mark (number o) v < 256 /\
  Z.lor (mark (number o) v) 1 = Z.lor (number o) 1.
Proof. intros [-> | ->]; destruct o; vm_compute; repeat split; congruence. Qed.

Lemma mark_spec (old v : Z) :
  0 <= old < 256 -> v = 0 \/ v = 1 ->
  band (mark old v) 1 = v /\ 0 <= mark old v < 256 /\
  Z.lor (mark old v) 1 = Z.lor old 1.
Proof.
  intros Hold Hv. rewrite <- (number_uint8 old Hold). now apply mark_byte.
Qed.

(** *** Writing *)

Lemma hide_bits_written (byte : Z) (bits : list Z) (i : nat) (data : list Z) :
  hide_bits byte bits i data =
  written (map (fun bit => band (sar byte (7 - bit)) 1) bits) i data.
Proof.
  revert i data; induction bits as [|bit bits IH]; intros i data; cbn; [reflexivity |].
  destruct (data !! (i * 4)%nat); [apply IH | reflexivity].
Qed.

Lemma written_stuck (bits : list Z) (i : nat) (data : list Z) :
  data !! (i * 4)%nat = None -> written bits i data = (i, data).
Proof. intros H. destruct bits; cbn; [reflexivity | now rewrite H]. Qed.

Lemma written_app (a b : list Z) (i : nat) (data : list Z) :
  written (a ++ b) i data = written b (fst (written a i data)) (snd (written a i data)).
Proof.
  revert i data; induction a as [|v a IH]; intros i data; cbn; [reflexivity |].
  destruct (data !! (i * 4)%nat) eqn:E; [apply IH |].
  cbn. symmetry. now apply written_stuck.
Qed.

Lemma stream_cons (b : byte) (bs : bytes) :
  stream (b :: bs) = bits_of (number b) ++ stream bs.
Proof. reflexivity. Qed.

Lemma stream_app (a b : bytes) : stream (a ++ b) = stream a ++ stream b.
Proof. unfold stream. apply flat_map_app. Qed.

Lemma stream_length (bs : bytes) : length (stream bs) = (8 * length bs)%nat.
Proof.
  induction bs as [|b bs IH]; [reflexivity |].
  rewrite stream_cons, length_app, IH. cbn [length]. unfold bits_of.
  rewrite length_map. replace (length (seqZ 0 8)) with 8%nat by reflexivity. lia.
Qed.

Lemma stream_bits (bs : bytes) : Forall (fun v => v = 0 \/ v = 1) (stream bs).
Proof.
  induction bs as [|b bs IH]; [constructor |].
  rewrite stream_cons. apply Forall_app. split; [apply bits_are_bits | exact IH].
Qed.

Lemma hide_bytes_written (bs : bytes) (st : nat * list Z) :
  hide_bytes bs st = written (stream bs) (fst st) (snd st).
Proof.
  revert st; induction bs as [|b bs IH]; intros [i data]; [reflexivity |].
  cbn [hide_bytes fold_left fst snd]. fold (hide_bytes bs).
  rewrite IH, hide_bits_written, stream_cons, written_app. reflexivity.
Qed.

Lemma div4 (p i : nat) :
  (p mod 4 = 0 -> p / 4 = i -> p = i * 4)%nat.
Proof.
  intros Hm Hd. pose proof (Nat.div_mod_eq p 4). lia.
Qed.

Lemma written_embedded (bits : list Z) (i : nat) (data : list Z) :
  snd (written bits i data) = embedded i bits data.
Proof.
  revert i data; induction bits as [|v bits IH]; intros i data.
  - cbn [written snd]. apply list_eq. intros p. unfold embedded. rewrite list_lookup_imap.
    destruct (data !! p); cbn [fmap option_fmap option_map]; [| reflexivity].
    destruct (_ && _); [now rewrite lookup_nil | reflexivity].
  - cbn [written]. destruct (data !! (i * 4)%nat) as [old|] eqn:E.
    + rewrite IH. apply list_eq. intros p. unfold embedded.
      rewrite !list_lookup_imap.
      destruct (decide (p = i * 4)%nat) as [-> | Hne].
      * rewrite list_lookup_insert_eq by (eapply lookup_lt_Some; exact E).
        rewrite E. cbn [fmap option_fmap option_map].
        rewrite Nat.Div0.mod_mul, Nat.div_mul by lia. cbn [Nat.eqb andb].
        replace (S i <=? i)%nat with false by (symmetry; apply Nat.leb_gt; lia).
        rewrite Nat.leb_refl, Nat.sub_diag. reflexivity.
      * rewrite list_lookup_insert_ne by congruence.
        destruct (data !! p) as [x|]; cbn [fmap option_fmap option_map]; [| reflexivity]. f_equal.
        destruct (p mod 4 =? 0)%nat eqn:Em; cbn [andb]; [| reflexivity].
        apply Nat.eqb_eq in Em.
        assert (Hd : (p / 4 <> i)%nat) by (intros Hd; apply Hne; now apply div4).
        destruct (S i <=? p / 4)%nat eqn:E1.
        -- apply Nat.leb_le in E1.
           replace (i <=? p / 4)%nat with true by (symmetry; apply Nat.leb_le; lia).
           replace (p / 4 - i)%nat with (S (p / 4 - S i)) by lia. reflexivity.
        -- apply Nat.leb_gt in E1.
           replace (i <=? p / 4)%nat with false by (symmetry; apply Nat.leb_gt; lia).
           reflexivity.
    + cbn [snd]. apply list_eq. intros p. unfold embedded. rewrite list_lookup_imap.
      destruct (data !! p) as [x|] eqn:Ep; cbn [fmap option_fmap option_map]; [| reflexivity]. f_equal.
      apply lookup_lt_Some in Ep. apply lookup_ge_None in E.
      replace (i <=? p / 4)%nat with false; [now rewrite andb_false_r |].
      symmetry. apply Nat.leb_gt. pose proof (Nat.div_mod_eq p 4). lia.
Qed.

(** What [hideTextInImage] resolves with. *)
Lemma run_hideTextInImage (data : list Z) (text : jsstring) :
  (4 + text_length text) * 4 <= Z.of_nat (length data) ->
  hideTextInImage data text =
  Resolved (embedded 0
              (stream (length_bytes (text_length text) ++ TEXT_ENCODER_encode text))
              data).
Proof.
  intros Hfit. unfold hideTextInImage. fold (text_length text).
  rewrite Z.gtb_ltb.
  replace (_ <? _) with false by (symmetry; apply Z.ltb_ge; lia).
  f_equal. rewrite !hide_bytes_written. cbn [fst snd].
  fold (length_bytes (text_length text)).
  rewrite <- written_app, <- stream_app. apply written_embedded.
Qed.

Lemma embedded_length (first : nat) (bits data : list Z) :
  length (embedded first bits data) = length data.
Proof. unfold embedded. apply length_imap. Qed.

(** The bits that found room are in the array. *)
Lemma low_bits_embedded (pixels : nat) (bits data : list Z) :
  image_data pixels data ->
  Forall (fun v => v = 0 \/ v = 1) bits ->
  low_bits_at (embedded 0 bits data) 0 (take pixels bits).
Proof.
  intros [Hlen Hrange] Hbits k bit Hk.
  apply lookup_take_Some in Hk. destruct Hk as [Hk Hlt].
  destruct (lookup_lt_is_Some_2 data (k * 4)%nat ltac:(lia)) as [old Hold].
  cbn [Nat.add]. unfold embedded. rewrite list_lookup_imap, Hold.
  cbn [fmap option_fmap option_map].
  rewrite Nat.Div0.mod_mul, Nat.div_mul by lia. cbn [Nat.eqb andb Nat.leb].
  rewrite Nat.sub_0_r, Hk. eexists. split; [reflexivity |].
  apply mark_spec.
  - exact (proj1 (Forall_lookup _ _) Hrange _ _ Hold).
  - exact (proj1 (Forall_lookup _ _) Hbits _ _ Hk).
Qed.

(** Only the lowest bit of the first byte of a pixel changes. *)
Lemma embedded_changes (pixels : nat) (bits data : list Z) (p : nat) (old new : Z) :
  image_data pixels data ->
  Forall (fun v => v = 0 \/ v = 1) bits ->
  data !! p = Some old -> embedded 0 bits data !! p = Some new ->
  Z.lor new 1 = Z.lor old 1 /\
  ((p mod 4 <> 0 \/ 4 * length bits <= p)%nat -> new = old).
Proof.
  intros [Hlen Hrange] Hbits Hold. unfold embedded. rewrite list_lookup_imap, Hold.
  cbn [fmap option_fmap option_map].
  change (0 <=? p / 4)%nat with true. rewrite andb_true_r, Nat.sub_0_r.
  intros Hnew. apply (inj Some) in Hnew. subst new.
  destruct (p mod 4 =? 0)%nat eqn:Em.
  - apply Nat.eqb_eq in Em.
    destruct (bits !! (p / 4)%nat) as [bit|] eqn:Eb.
    + split.
      * apply mark_spec.
        -- exact (proj1 (Forall_lookup _ _) Hrange _ _ Hold).
        -- exact (proj1 (Forall_lookup _ _) Hbits _ _ Eb).
      * apply lookup_lt_Some in Eb. pose proof (Nat.div_mod_eq p 4) as Hp.
        intros [H | H]; lia.
    + now split.
  - now split.
Qed.

Lemma embedded_image (pixels : nat) (bits data : list Z) :
  image_data pixels data ->
  Forall (fun v => v = 0 \/ v = 1) bits ->
  image_data pixels (embedded 0 bits data).
Proof.
  intros Himg Hbits. split; [rewrite embedded_length; apply Himg |].
  apply Forall_lookup. intros p new Hnew.
  destruct (lookup_lt_is_Some_2 data p) as [old Hold].
  { apply lookup_lt_Some in Hnew. now rewrite embedded_length in Hnew. }
  unfold embedded in Hnew. rewrite list_lookup_imap, Hold in Hnew.
  cbn [fmap option_fmap option_map] in Hnew. apply (inj Some) in Hnew. subst new.
  pose proof (proj1 (Forall_lookup _ _) (proj2 Himg) _ _ Hold) as Hr.
  destruct (_ && _); [| exact Hr].
  destruct (bits !! _) as [bit|] eqn:Eb; [| exact Hr].
  apply mark_spec; [exact Hr |].
  exact (proj1 (Forall_lookup _ _) Hbits _ _ Eb).
Qed.

(** *** Reading *)

Lemma low_bits_prefix (d : list Z) (i : nat) (a b : list Z) :
  low_bits_at d i (a ++ b) -> low_bits_at d i a.
Proof.
  intros H k bit Hk. apply H. now apply lookup_app_l_Some.
Qed.

Lemma low_bits_suffix (d : list Z) (i : nat) (a b : list Z) :
  low_bits_at d i (a ++ b) -> low_bits_at d (i + length a) b.
Proof.
  intros H k bit Hk.
  destruct (H (length a + k)%nat bit) as (v & Hv & Eb).
  - rewrite lookup_app_r by lia. now replace (length a + k - length a)%nat with k by lia.
  - exists v. split; [| exact Eb]. now replace (i + length a + k)%nat
      with (i + (length a + k))%nat by lia.
Qed.

Lemma read_bits_spec (bits ws : list Z) (acc : Z) (i : nat) (d : list Z) :
  length ws = length bits ->
  low_bits_at d i ws ->
  read_bits bits acc i d =
  Some (fold_left (fun acc v => bor (shl acc 1) v) ws acc, (i + length bits)%nat).
Proof.
  revert ws acc i; induction bits as [|bit bits IH]; intros ws acc i Hlen Hlow.
  - destruct ws; [| discriminate Hlen]. cbn. now rewrite Nat.add_0_r.
  - destruct ws as [|w ws]; [discriminate Hlen |].
    cbn [read_bits fold_left length].
    destruct (Hlow 0%nat w eq_refl) as (v & Hv & Ev).
    rewrite Nat.add_0_r in Hv. rewrite Hv, Ev.
    assert (Hlen' : length ws = length bits) by (cbn in Hlen; lia).
    assert (Hlow' : low_bits_at d (S i) ws).
    { intros k b Hk. destruct (Hlow (S k) b Hk) as (v' & Hv' & Ev').
      exists v'. split; [| exact Ev'].
      now replace (S i + k)%nat with (i + S k)%nat by lia. }
    rewrite (IH ws _ _ Hlen' Hlow'). do 2 f_equal. lia.
Qed.

Lemma read_bytes_spec (bs : bytes) (i : nat) (d : list Z) :
  low_bits_at d i (stream bs) ->
  read_bytes (length bs) i d = Some (bs, (i + 8 * length bs)%nat).
Proof.
  revert i; induction bs as [|b bs IH]; intros i Hlow.
  - cbn. now rewrite Nat.add_0_r.
  - rewrite stream_cons in Hlow. cbn [length read_bytes].
    rewrite (read_bits_spec (seqZ 0 8) (bits_of (number b)))
      by (reflexivity || now apply low_bits_prefix in Hlow).
    rewrite byte_bits.
    apply low_bits_suffix in Hlow.
    replace (length (bits_of (number b))) with 8%nat in Hlow by reflexivity.
    replace (length (seqZ 0 8)) with 8%nat by reflexivity.
    rewrite (IH _ Hlow), uint8_number. do 2 f_equal. lia.
Qed.

Lemma read_bits_needs (bits : list Z) (acc : Z) (i : nat) (d : list Z) (b : Z) (j : nat) :
  read_bits bits acc i d = Some (b, j) ->
  j = (i + length bits)%nat /\ (bits <> [] -> (j - 1) * 4 < length d)%nat.
Proof.
  revert acc i; induction bits as [|bit bits IH]; intros acc i; cbn.
  - intros [= _ <-]. split; [lia | congruence].
  - destruct (d !! (i * 4)%nat) as [v|] eqn:E; [| discriminate].
    intros H. apply IH in H. destruct H as [-> H]. split; [lia |].
    intros _. destruct bits as [|bit' bits].
    + apply lookup_lt_Some in E. cbn. replace (S i + 0 - 1)%nat with i by lia. lia.
    + specialize (H ltac:(discriminate)). exact H.
Qed.

Lemma read_bytes_needs (n i : nat) (d : list Z) (bs : bytes) (j : nat) :
  read_bytes n i d = Some (bs, j) ->
  j = (i + 8 * n)%nat /\ (0 < n -> (j - 1) * 4 < length d)%nat.
Proof.
  revert i bs j; induction n as [|n IH]; intros i bs j; cbn [read_bytes].
  - intros [= _ <-]. split; lia.
  - destruct (read_bits (seqZ 0 8) 0 i d) as [[b i']|] eqn:Eb; [| discriminate].
    destruct (read_bytes n i' d) as [[rest j']|] eqn:Er; [| discriminate].
    intros [= _ <-].
    apply read_bits_needs in Eb. destruct Eb as [-> Hb].
    apply IH in Er. destruct Er as [-> Hr].
    replace (length (seqZ 0 8)) with 8%nat in * by reflexivity.
    split; [lia |]. intros _.
    destruct n as [|n]; [| specialize (Hr ltac:(lia)); exact Hr].
    specialize (Hb ltac:(discriminate)).
    replace (i + 8 + 8 * 0 - 1)%nat with (i + 8 - 1)%nat by lia. exact Hb.
Qed.

(** *** The length *)

Lemma to_int32_small (z : Z) : 0 <= z < 2 ^ 31 -> to_int32 z = z.
Proof.
  intros Hz. unfold to_int32. rewrite Z.mod_small by lia.
  destruct (Z.leb_spec (2 ^ 31) z); lia.
Qed.

Lemma lor_sum (hi lo k : Z) :
  0 <= k -> 0 <= lo < 2 ^ k -> Z.lor (hi * 2 ^ k) lo = hi * 2 ^ k + lo.
Proof.
  intros Hk Hlo.
  assert (H0 : Z.land (hi * 2 ^ k) lo = 0).
  { apply Z.bits_inj'. intros n Hn. rewrite Z.land_spec, Z.bits_0.
    destruct (Z.ltb_spec n k).
    - rewrite Z.mul_pow2_bits_low by lia. reflexivity.
    - rewrite <- (Z.mod_small lo (2 ^ k)) by lia.
      rewrite Z.mod_pow2_bits_high by lia. apply andb_false_r. }
  rewrite <- Z.lxor_lor by exact H0. symmetry. now apply Z.add_nocarry_lxor.
Qed.

Lemma band_255 (z : Z) : 0 <= z < 2 ^ 31 -> band z 0xFF = z mod 256.
Proof.
  intros Hz. unfold band. rewrite !to_int32_small by lia.
  change 255 with (Z.ones 8). now rewrite Z.land_ones by lia.
Qed.

Lemma sar_div (z k : Z) :
  0 <= z < 2 ^ 31 -> 0 <= k < 32 -> sar z k = z / 2 ^ k.
Proof.
  intros Hz Hk. unfold sar. rewrite to_int32_small, Z.mod_small by lia.
  now apply Z.shiftr_div_pow2.
Qed.

Lemma shl_mul (z k : Z) :
  0 <= z -> 0 <= k < 32 -> z * 2 ^ k < 2 ^ 31 -> shl z k = z * 2 ^ k.
Proof.
  intros Hz Hk Hlt. unfold shl.
  assert (z < 2 ^ 31) by (assert (1 <= 2 ^ k) by (apply Z.pow_le_mono_r with (b := 0); lia); nia).
  rewrite (to_int32_small z), Z.mod_small, Z.shiftl_mul_pow2 by lia.
  apply to_int32_small. split; [| exact Hlt].
  apply Z.mul_nonneg_nonneg; [lia | apply Z.pow_nonneg; lia].
Qed.

Lemma bor_sum (x y k : Z) :
  0 <= k -> 0 <= x < 2 ^ 31 -> x mod 2 ^ k = 0 -> 0 <= y < 2 ^ k -> y < 2 ^ 31 ->
  bor x y = x + y.
Proof.
  intros Hk Hx Hmod Hy Hy'. unfold bor. rewrite !to_int32_small by lia.
  assert (E : x = x / 2 ^ k * 2 ^ k).
  { pose proof (Z.div_mod x (2 ^ k)) as H.
    assert (0 < 2 ^ k) by (apply Z.pow_pos_nonneg; lia). lia. }
  rewrite E. now apply lor_sum.
Qed.

(** The four bytes hold every length below 2{^31}. *)
Lemma length_round_trip (n : Z) :
  0 <= n < 2 ^ 31 -> length_read (length_bytes n) = n.
Proof.
  intros Hn. unfold length_read, length_bytes. cbn [nth].
  assert (Hdiv : forall k, 0 <= k < 32 -> 0 <= n / 2 ^ k < 2 ^ 31).
  { intros k Hk. assert (0 < 2 ^ k) by (apply Z.pow_pos_nonneg; lia).
    split; [apply Z.div_pos; lia |].
    apply Z.div_lt_upper_bound; [lia | nia]. }
  rewrite (sar_div n 24), (sar_div n 16), (sar_div n 8) by lia.
  rewrite (band_255 (n / 2 ^ 24)), (band_255 (n / 2 ^ 16)), (band_255 (n / 2 ^ 8)),
    (band_255 n) by (try apply Hdiv; lia).
  rewrite !number_uint8 by (apply Z.mod_pos_bound; lia).
  set (a := (n / 2 ^ 24) mod 256). set (b := (n / 2 ^ 16) mod 256).
  set (c := (n / 2 ^ 8) mod 256). set (e := n mod 256).
  assert (Hall : 0 <= a < 128 /\ 0 <= b < 256 /\ 0 <= c < 256 /\ 0 <= e < 256 /\
                 a * 16777216 + b * 65536 + c * 256 + e = n).
  { subst a b c e. change (2 ^ 24) with 16777216. change (2 ^ 16) with 65536.
    change (2 ^ 8) with 256. change (2 ^ 31) with 2147483648 in Hn.
    Z.to_euclidean_division_equations. lia. }
  destruct Hall as (Ha & Hb & Hc & He & Hsum).
  rewrite !shl_mul by (change (2 ^ 31) with 2147483648; cbn; lia).
  change (2 ^ 24) with 16777216. change (2 ^ 16) with 65536. change (2 ^ 8) with 256.
  rewrite (bor_sum (a * 16777216) (b * 65536) 24)
    by (change (2 ^ 31) with 2147483648; change (2 ^ 24) with 16777216;
        Z.to_euclidean_division_equations; lia).
  rewrite (bor_sum (a * 16777216 + b * 65536) (c * 256) 16)
    by (change (2 ^ 31) with 2147483648; change (2 ^ 16) with 65536;
        Z.to_euclidean_division_equations; lia).
  rewrite (bor_sum (a * 16777216 + b * 65536 + c * 256) e 8)
    by (change (2 ^ 31) with 2147483648; change (2 ^ 8) with 256;
        Z.to_euclidean_division_equations; lia).
  exact Hsum.
Qed.

(** *** Hiding and extracting *)

Lemma run_extractTextFromImage (data : list Z) (lengthBytes : bytes) (i : nat) :
  read_bytes 4 0 data = Some (lengthBytes, i) ->
  extractTextFromImage data =
  if (length_read lengthBytes <=? 0) || (length_read lengthBytes >? 200000)
  then Rejected InvalidTextLength
  else
    match read_bytes (Z.to_nat (length_read lengthBytes)) i data with
    | None => Rejected IncompleteSteganographyData
    | Some (textBytes, _) => Resolved (TEXT_DECODER_decode textBytes)
    end.
Proof.
  intros H. unfold extractTextFromImage. rewrite H. unfold length_read.
  reflexivity.
Qed.

Lemma written_bits (text : jsstring) :
  length (stream (length_bytes (text_length text) ++ TEXT_ENCODER_encode text)) =
  Z.to_nat (8 * (4 + text_length text)).
Proof.
  rewrite stream_length, length_app. unfold text_length.
  change (length (length_bytes _)) with 4%nat.
  generalize (length (TEXT_ENCODER_encode text)). intros n. lia.
Qed.

(** A text is read back from the image it was hidden in, when the image
    has eight pixels for every byte of the text and of the four bytes of
    its length.  For the array of an image of that size and a text of 1 to
    200000 bytes of UTF-8: [hideTextInImage] resolves; [extractTextFromImage]
    on the array it wrote resolves with the text as the text codec returns
    it, which is the text itself when it is well formed and does not
    begin with a byte order mark; and what was written differs from the
    image in nothing but the lowest bit of the first byte of the pixels
    used. *)
Theorem hidden_text_is_extracted (pixels : nat) (data : list Z) (text : jsstring) :
  image_data pixels data ->
  0 < text_length text <= 200000 ->
  8 * (4 + text_length text) <= Z.of_nat pixels ->
  exists hidden,
    hideTextInImage data text = Resolved hidden /\
    extractTextFromImage hidden =
      Resolved (TEXT_DECODER_decode (TEXT_ENCODER_encode text)) /\
    (well_formed text = true -> no_leading_bom text = true ->
     extractTextFromImage hidden = Resolved text) /\
    image_data pixels hidden /\
    forall p old new,
      data !! p = Some old -> hidden !! p = Some new ->
      Z.lor new 1 = Z.lor old 1 /\
      ((p mod 4 <> 0)%nat \/ 32 * (4 + text_length text) <= Z.of_nat p -> new = old).
Proof.
  intros Himg Hlen Hfit.
  rewrite run_hideTextInImage by (destruct Himg as [Hl _]; rewrite Hl; lia).
  set (bits := stream (length_bytes (text_length text) ++ TEXT_ENCODER_encode text)).
  assert (Hbits : Forall (fun v => v = 0 \/ v = 1) bits) by apply stream_bits.
  assert (Hn : length bits = Z.to_nat (8 * (4 + text_length text)))
    by apply written_bits.
  exists (embedded 0 bits data). split; [reflexivity |].
  assert (Hlow : low_bits_at (embedded 0 bits data) 0 bits).
  { rewrite <- (take_ge bits pixels) at 2 by lia.
    now apply low_bits_embedded. }
  unfold bits in Hlow. rewrite stream_app in Hlow.
  assert (Hext : extractTextFromImage (embedded 0 bits data) =
                 Resolved (TEXT_DECODER_decode (TEXT_ENCODER_encode text))).
  { rewrite (run_extractTextFromImage _ (length_bytes (text_length text)) (0 + 8 * 4)).
    - rewrite length_round_trip by (change (2 ^ 31) with 2147483648; lia).
      replace (text_length text <=? 0) with false by (symmetry; apply Z.leb_gt; lia).
      rewrite Z.gtb_ltb.
      replace (200000 <? text_length text) with false by (symmetry; apply Z.ltb_ge; lia).
      cbn [orb]. unfold text_length. rewrite Nat2Z.id.
      rewrite (read_bytes_spec (TEXT_ENCODER_encode text)); [reflexivity |].
      apply low_bits_suffix in Hlow. now rewrite stream_length in Hlow.
    - apply (read_bytes_spec (length_bytes (text_length text)) 0).
      now apply low_bits_prefix in Hlow. }
  split; [exact Hext |]. split.
  { intros Hwf Hbom. rewrite Hext. now rewrite text_round_trip. }
  split; [now apply embedded_image |].
  intros p old new Hold Hnew.
  destruct (embedded_changes pixels bits data p old new Himg Hbits Hold Hnew)
    as [Hlow_bit Hsame].
  split; [exact Hlow_bit |]. intros [Hp | Hp]; apply Hsame; [now left | right; lia].
Qed.

Lemma gray_image (pixels : nat) : image_data pixels (replicate (4 * pixels) 200).
Proof.
  split; [apply length_replicate |].
  apply Forall_replicate. lia.
Qed.

Lemma hidden_text_is_extracted_witness :
  exists hidden,
    hideTextInImage (replicate (4 * 48) 200) (js "hi") = Resolved hidden /\
    extractTextFromImage hidden = Resolved (js "hi").
Proof.
  destruct (hidden_text_is_extracted 48 (replicate (4 * 48) 200) (js "hi"))
    as (hidden & Hh & _ & He & _).
  - apply gray_image.
  - vm_compute. split; [reflexivity | discriminate].
  - vm_compute. discriminate.
  - exists hidden. split; [exact Hh |]. now apply He.
Defined.

(** An image that is too small for the text is not refused, and the text
    is lost.  [hideTextInImage] asks for one pixel a byte, and writes one
    bit a pixel: for a text of up to 200000 bytes and an image with a
    pixel for every byte but fewer than eight, [hideTextInImage] resolves
    and [extractTextFromImage] rejects the array it wrote.  So it does
    for the empty text in every image of at least the four pixels the
    check asks for, however large. *)
Theorem small_image_loses_the_text (pixels : nat) (data : list Z) (text : jsstring) :
  image_data pixels data ->
  text_length text <= 200000 ->
  4 + text_length text <= Z.of_nat pixels ->
  text_length text = 0 \/ Z.of_nat pixels < 8 * (4 + text_length text) ->
  exists hidden,
    hideTextInImage data text = Resolved hidden /\
    exists e, extractTextFromImage hidden = Rejected e.
Proof.
  intros Himg Hlen Hfit Hshort.
  assert (Hpos : 0 <= text_length text) by (unfold text_length; lia).
  rewrite run_hideTextInImage by (destruct Himg as [Hl _]; rewrite Hl; lia).
  set (bits := stream (length_bytes (text_length text) ++ TEXT_ENCODER_encode text)).
  assert (Hbits : Forall (fun v => v = 0 \/ v = 1) bits) by apply stream_bits.
  exists (embedded 0 bits data). split; [reflexivity |].
  assert (Hsize : length (embedded 0 bits data) = (4 * pixels)%nat)
    by (rewrite embedded_length; apply Himg).
  destruct (read_bytes 4 0 (embedded 0 bits data)) as [[hb i]|] eqn:Eh.
  - pose proof (read_bytes_needs _ _ _ _ _ Eh) as [-> Hroom].
    specialize (Hroom ltac:(lia)). rewrite Hsize in Hroom.
    assert (Hlow : low_bits_at (embedded 0 bits data) 0
                     (stream (length_bytes (text_length text)))).
    { pose proof (low_bits_embedded pixels bits data Himg Hbits) as H.
      unfold bits in H. rewrite stream_app in H.
      rewrite take_app_ge in H by (rewrite stream_length; cbn [length length_bytes]; lia).
      now apply low_bits_prefix in H. }
    apply (read_bytes_spec (length_bytes (text_length text)) 0) in Hlow.
    change (length (length_bytes (text_length text))) with 4%nat in Hlow.
    rewrite Hlow in Eh. injection Eh as <-.
    rewrite (run_extractTextFromImage _ _ _ Hlow).
    rewrite length_round_trip by (change (2 ^ 31) with 2147483648; lia).
    destruct (Z.leb_spec (text_length text) 0) as [Hz | Hz]; [now eexists |].
    rewrite Z.gtb_ltb.
    replace (200000 <? text_length text) with false by (symmetry; apply Z.ltb_ge; lia).
    cbn [orb].
    destruct (read_bytes (Z.to_nat (text_length text)) (0 + 8 * 4)
                (embedded 0 bits data)) as [[tb j]|] eqn:Et; [| now eexists].
    apply read_bytes_needs in Et. destruct Et as [-> Hroom'].
    specialize (Hroom' ltac:(lia)). rewrite Hsize in Hroom'.
    destruct Hshort as [H0 | Hfew]; lia.
  - unfold extractTextFromImage. rewrite Eh. now eexists.
Qed.

Lemma small_image_loses_the_text_witness :
  exists hidden,
    hideTextInImage (replicate (4 * 8) 200) (js "hi") = Resolved hidden /\
    extractTextFromImage hidden = Rejected InvalidSteganographyData.
Proof.
  destruct (small_image_loses_the_text 8 (replicate (4 * 8) 200) (js "hi"))
    as (hidden & Hh & e & He).
  - apply gray_image.
  - vm_compute. discriminate.
  - vm_compute. discriminate.
  - right. vm_compute. reflexivity.
  - exists hidden. split; [exact Hh |].
    assert (E : hidden = embedded 0
              (stream (length_bytes (text_length (js "hi")) ++ TEXT_ENCODER_encode (js "hi")))
              (replicate (4 * 8) 200)).
    { rewrite run_hideTextInImage in Hh by (vm_compute; discriminate). congruence. }
    rewrite E. vm_compute. reflexivity.
Defined.

End SteganographyFacts.

(** ** Morse code *)

Module MorseFacts.

Import ChatFacts.

(** *** The table *)

Lemma own_in (key : jsstring) (entries : list (jsstring * jsstring)) (value : jsstring) :
  own key entries = Some value -> In (key, value) entries.
Proof.
  unfold own.
  enough (H : forall found,
             fold_left (fun found entry =>
                          if bool_decide (fst entry = key) then Some (snd entry) else found)
               entries found = Some value ->
             found = Some value \/ In (key, value) entries).
  { intros Hv. destruct (H None Hv) as [H0 | H0]; [discriminate H0 | exact H0]. }
  induction entries as [|[k v] entries IH]; intros found; cbn; [now left |].
  intros Hv. apply IH in Hv. destruct Hv as [Hv | Hv]; [| now (right; right)].
  destruct (bool_decide (k = key)) eqn:E; [| now left].
  apply bool_decide_eq_true in E. injection Hv as <-. subst k. right. now left.
Qed.

Lemma codes_decode :
  forallb (fun entry => match property_of morseToChar (snd entry) with
                        | Own ch => bool_decide (ch = fst entry)
                        | _ => false
                        end) charToMorse = true.
Proof. vm_compute. reflexivity. Qed.

Lemma codes_are_tokens :
  forallb (fun entry => negb (length (snd entry) =? 0)%nat &&
                        forallb (fun c => negb (is_white_space c)) (snd entry) &&
                        forallb (fun c => (c =? 46) || (c =? 45) || (c =? 47)) (snd entry))
    charToMorse = true.
Proof. vm_compute. reflexivity. Qed.

Lemma code_decodes (key code : jsstring) :
  In (key, code) charToMorse -> property_of morseToChar code = Own key.
Proof.
  intros Hin. pose proof (proj1 (forallb_forall _ _) codes_decode _ Hin) as H.
  cbn [fst snd] in H. destruct (property_of morseToChar code); try discriminate H.
  apply bool_decide_eq_true in H. now subst.
Qed.

Lemma code_is_token (key code : jsstring) :
  In (key, code) charToMorse ->
  code <> [] /\ Forall (fun c => is_white_space c = false) code /\
  forallb (fun c => (c =? 46) || (c =? 45) || (c =? 47)) code = true.
Proof.
  intros Hin. pose proof (proj1 (forallb_forall _ _) codes_are_tokens _ Hin) as H.
  cbn [fst snd] in H. apply andb_true_iff in H. destruct H as [H H3].
  apply andb_true_iff in H. destruct H as [H1 H2].
  split; [| split; [| exact H3]].
  - intros ->. discriminate H1.
  - apply List.Forall_forall. intros c Hc.
    apply (proj1 (forallb_forall _ _) H2) in Hc. now apply negb_true_iff.
Qed.

(** A single character that is a code is one of the three signs, which
    are keys of the table. *)
Lemma single_code (ch : N) (value : jsstring) :
  own [ch] morseToChar = Some value -> ch = 46 \/ ch = 45 \/ ch = 47.
Proof.
  intros H. apply own_in in H.
  unfold morseToChar in H. apply in_map_iff in H.
  destruct H as ([key code] & E & Hin). cbn [fst snd] in E.
  injection E as -> ->.
  cbn in Hin.
  repeat (destruct Hin as [Hin | Hin];
          [try discriminate Hin; injection Hin as <-; auto |]).
  contradiction.
Qed.

Lemma signs_are_keys (ch : N) :
  ch = 46 \/ ch = 45 \/ ch = 47 -> exists code, In ([ch], code) charToMorse.
Proof.
  intros [-> | [-> | ->]]; eexists; cbn; repeat ((left; reflexivity) || right).
Qed.

Lemma short_is_not_inherited (key : jsstring) :
  (length key <= 3)%nat ->
  existsb (fun name => bool_decide (name = key)) object_prototype = false.
Proof.
  intros Hlen. apply not_true_is_false. intros H.
  apply existsb_exists in H. destruct H as (name & Hin & E).
  apply bool_decide_eq_true in E. subst key.
  cbn in Hin. repeat (destruct Hin as [<- | Hin]; [cbn in Hlen; lia |]).
  contradiction.
Qed.

Lemma own_key (key code : jsstring) :
  own key charToMorse = Some code -> In (key, code) charToMorse.
Proof. apply own_in. Qed.

(** *** Pieces, joined and split *)

Lemma collect_map {A B} (f : A -> option B) (g : A -> B) (l : list A) :
  (forall x, In x l -> f x = Some (g x)) -> collect f l = Some (map g l).
Proof.
  induction l as [|x l IH]; intros H; cbn; [reflexivity |].
  rewrite (H x) by now left. rewrite IH; [reflexivity |].
  intros y Hy. apply H. now right.
Qed.

Lemma split_piece (piece rest cur : jsstring) (in_sep : bool) :
  piece <> [] ->
  Forall (fun c => is_white_space c = false) piece ->
  split_white_space in_sep cur (piece ++ rest) =
  split_white_space false (cur ++ piece) rest.
Proof.
  intros Hne Hp. revert cur in_sep.
  induction Hp as [|c piece Hc Hp IH]; intros cur in_sep; [congruence |].
  cbn. rewrite Hc.
  destruct piece as [|d piece]; [reflexivity |].
  rewrite IH by discriminate. now rewrite <- app_assoc.
Qed.

Lemma split_join (pieces : list jsstring) (in_sep : bool) :
  pieces <> [] ->
  Forall (fun piece => piece <> [] /\
                       Forall (fun c => is_white_space c = false) piece) pieces ->
  split_white_space in_sep [] (join (js " ") pieces) = pieces.
Proof.
  intros Hne Hp. revert in_sep.
  induction Hp as [|piece pieces [Hpne Hpc] Hp IH]; intros in_sep; [congruence |].
  destruct pieces as [|next pieces].
  - cbn [join]. rewrite <- (app_nil_r piece) at 1.
    now rewrite split_piece.
  - change (join (js " ") (piece :: next :: pieces))
      with (piece ++ js " " ++ join (js " ") (next :: pieces)).
    rewrite split_piece by assumption.
    change (js " " ++ ?s) with (32 :: s). cbn [split_white_space app].
    change (is_white_space 32) with true. cbn iota.
    f_equal. apply IH. discriminate.
Qed.

Lemma join_ends (pieces : list jsstring) :
  pieces <> [] ->
  Forall (fun piece => piece <> [] /\
                       Forall (fun c => is_white_space c = false) piece) pieces ->
  exists front c, join (js " ") pieces = front ++ [c] /\ is_white_space c = false.
Proof.
  intros Hne Hp.
  induction Hp as [|piece pieces [Hpne Hpc] Hp IH]; [congruence |].
  destruct pieces as [|next pieces].
  - cbn [join]. destruct (exists_last Hpne) as (front & c & ->).
    exists front, c. split; [reflexivity |].
    apply Forall_app in Hpc. destruct Hpc as [_ Hc]. now inversion Hc.
  - destruct (IH ltac:(discriminate)) as (front & c & E & Hc).
    exists (piece ++ js " " ++ front), c. split; [| exact Hc].
    change (join (js " ") (piece :: next :: pieces))
      with (piece ++ js " " ++ join (js " ") (next :: pieces)).
    rewrite E. now rewrite !app_assoc.
Qed.

Lemma join_is_trimmed (pieces : list jsstring) :
  Forall (fun piece => piece <> [] /\
                       Forall (fun c => is_white_space c = false) piece) pieces ->
  trim (join (js " ") pieces) = join (js " ") pieces.
Proof.
  intros Hp. destruct pieces as [|piece pieces]; [reflexivity |].
  destruct (join_ends (piece :: pieces) ltac:(discriminate) Hp) as (front & c & E & Hc).
  assert (Hstart : trim_start (join (js " ") (piece :: pieces)) =
                   join (js " ") (piece :: pieces)).
  { inversion Hp as [|? ? [Hne Hpc] _]; subst.
    destruct piece as [|d piece]; [congruence |].
    inversion Hpc as [|? ? Hd _]; subst.
    destruct pieces; cbn; now rewrite Hd. }
  unfold trim. rewrite Hstart, E, rev_app_distr. cbn. rewrite Hc.
  change (c :: rev front) with ([c] ++ rev front).
  rewrite rev_app_distr, rev_involutive. reflexivity.
Qed.

(** *** Round trip *)

Section WithPlatform.

Context (toLowerCase : jsstring -> jsstring).
Hypothesis law : lower_case toLowerCase.

(** The piece written for a character. *)
Lemma run_encode_char (ch : N) :
  exists piece,
    encode_char toLowerCase ch = Some piece /\
    decode_token piece = Some (echo toLowerCase ch) /\
    (is_white_space ch = false \/
     property_of charToMorse (toLowerCase [ch]) <> Absent ->
     piece <> [] /\ Forall (fun c => is_white_space c = false) piece).
Proof.
  unfold encode_char, echo, property_of.
  destruct (own (toLowerCase [ch]) charToMorse) as [code|] eqn:E.
  - apply own_in in E. exists code. split; [reflexivity |]. split.
    + unfold decode_token. now rewrite (code_decodes _ _ E).
    + intros _. destruct (code_is_token _ _ E) as (H1 & H2 & _). now split.
  - rewrite short_is_not_inherited by apply law.
    exists [ch]. split; [reflexivity |]. split.
    + unfold decode_token, property_of.
      destruct (own [ch] morseToChar) as [value|] eqn:Ev.
      * apply single_code, signs_are_keys in Ev. destruct Ev as (code & Hin).
        pose proof (keeps_keys _ law _ _ Hin) as Hk. rewrite Hk in E.
        exfalso. clear -E Hin.
        assert (H : own [ch] charToMorse <> None).
        { clear E. cbn in Hin.
          repeat (destruct Hin as [Hin | Hin];
                  [try discriminate Hin; injection Hin as <- <-; discriminate |]).
          contradiction. }
        contradiction.
      * now rewrite short_is_not_inherited by (cbn; lia).
    + intros [Hws | Hne]; [| congruence].
      split; [discriminate | now repeat constructor].
Qed.

Lemma collect_pieces {A B C} (f : B -> option C) (g : A -> B) (h : A -> C)
    (l : list A) :
  (forall x, In x l -> f (g x) = Some (h x)) ->
  collect f (map g l) = Some (map h l).
Proof.
  induction l as [|x l IH]; intros H; cbn; [reflexivity |].
  rewrite (H x) by now left. rewrite IH; [reflexivity |].
  intros y Hy. apply H. now right.
Qed.

Lemma signs_joined (pieces : list jsstring) :
  Forall (fun piece =>
            forallb (fun c => (c =? 46) || (c =? 45) || (c =? 47)) piece = true) pieces ->
  forallb (fun c => (c =? 46) || (c =? 45) || is_white_space c || (c =? 47))
    (join (js " ") pieces) = true.
Proof.
  assert (Hpiece : forall piece,
            forallb (fun c => (c =? 46) || (c =? 45) || (c =? 47)) piece = true ->
            forallb (fun c => (c =? 46) || (c =? 45) || is_white_space c || (c =? 47))
              piece = true).
  { intros piece H. apply forallb_forall. intros c Hc.
    apply (proj1 (forallb_forall _ _) H) in Hc.
    destruct (c =? 46), (c =? 45), (c =? 47); try discriminate Hc;
      cbn; rewrite ?orb_true_r; reflexivity. }
  induction 1 as [|piece pieces Hp Hps IH]; [reflexivity |].
  destruct pieces as [|next pieces]; [now apply Hpiece |].
  change (join (js " ") (piece :: next :: pieces))
    with (piece ++ js " " ++ join (js " ") (next :: pieces)).
  rewrite !forallb_app, IH, (Hpiece _ Hp). reflexivity.
Qed.

(** What was written in Morse code is read back, in lower case.  For
    every [toLowerCase] that leaves the keys of the table as they are and
    every text in which the characters that are not in the table are no
    white space: [fromMorse] of [toMorse] of the text is the text with
    each character that is in the table once it is lowered replaced by
    its lowered form.  When every character of a text that is not empty
    is in the table, the code written looks like Morse. *)
Theorem morse_is_read_back_in_lower_case (s : jsstring) :
  (forall ch, In ch s ->
     property_of charToMorse (toLowerCase [ch]) = Absent -> is_white_space ch = false) ->
  exists morse,
    toMorse toLowerCase s = Some morse /\
    fromMorse morse = Some (flat_map (echo toLowerCase) s) /\
    (s <> [] ->
     (forall ch, In ch s -> property_of charToMorse (toLowerCase [ch]) <> Absent) ->
     looksLikeMorse morse = true).
Proof.
  intros Hws.
  set (piece := fun ch => match encode_char toLowerCase ch with
                          | Some p => p
                          | None => []
                          end).
  assert (Hpiece : forall ch,
            encode_char toLowerCase ch = Some (piece ch) /\
            decode_token (piece ch) = Some (echo toLowerCase ch) /\
            (is_white_space ch = false \/
             property_of charToMorse (toLowerCase [ch]) <> Absent ->
             piece ch <> [] /\ Forall (fun c => is_white_space c = false) (piece ch))).
  { intros ch. destruct (run_encode_char ch) as (p & E & H). unfold piece.
    now rewrite E. }
  assert (Hgood : Forall (fun p => p <> [] /\
                                   Forall (fun c => is_white_space c = false) p)
                    (map piece s)).
  { apply List.Forall_forall. intros p Hp. apply in_map_iff in Hp.
    destruct Hp as (ch & <- & Hch). apply Hpiece.
    destruct (property_of charToMorse (toLowerCase [ch])) eqn:E;
      [right; discriminate | right; discriminate | left; now apply Hws]. }
  exists (join (js " ") (map piece s)). split; [| split].
  - unfold toMorse. rewrite (collect_map _ piece); [reflexivity |].
    intros ch _. apply Hpiece.
  - unfold fromMorse. rewrite join_is_trimmed by exact Hgood.
    destruct s as [|ch s]; [reflexivity |].
    rewrite split_join by (exact Hgood || discriminate).
    rewrite (collect_pieces _ piece (echo toLowerCase)).
    + now rewrite flat_map_concat_map.
    + intros x _. apply Hpiece.
  - intros Hne Hall. unfold looksLikeMorse. apply andb_true_iff. split.
    + destruct s as [|ch s]; [congruence |].
      destruct (join_ends (map piece (ch :: s)) ltac:(discriminate) Hgood)
        as (front & c & -> & _).
      rewrite length_app. cbn. now rewrite Nat.add_1_r.
    + apply signs_joined. apply List.Forall_forall. intros p Hp.
      apply in_map_iff in Hp. destruct Hp as (ch & <- & Hch).
      specialize (Hall ch Hch). destruct (Hpiece ch) as (E & _).
      unfold encode_char in E. unfold property_of in Hall, E.
      destruct (own (toLowerCase [ch]) charToMorse) as [code|] eqn:Eo.
      * injection E as <-. apply own_in in Eo. now apply code_is_token in Eo.
      * rewrite short_is_not_inherited in Hall by apply law. congruence.
Qed.

End WithPlatform.

Lemma ascii_lower_law : lower_case ascii_lower.
Proof.
  split.
  - intros key code Hin. cbn in Hin.
    repeat (destruct Hin as [Hin | Hin]; [injection Hin as <- <-; reflexivity |]).
    contradiction.
  - intros ch. unfold ascii_lower. cbn. lia.
Qed.

Lemma morse_is_read_back_in_lower_case_witness :
  exists morse,
    toMorse ascii_lower (js "SOS at 9!") = Some morse /\
    fromMorse morse = Some (js "sos at 9!").
Proof.
  destruct (morse_is_read_back_in_lower_case ascii_lower ascii_lower_law (js "SOS at 9!"))
    as (morse & E & Hback & _).
  - intros ch Hin. cbn in Hin.
    repeat (destruct Hin as [<- | Hin];
            [intros Habsent; (reflexivity || discriminate Habsent) |]).
    contradiction.
  - exists morse. split; [exact E | exact Hback].
Defined.

End MorseFacts.

(** ** The key pairs in the browser *)

Module KeyStoreFacts.

Import KeysFacts.

Lemma pem_truthy (spki : bytes) (pem : jsstring) :
  spkiToPem spki = Ok pem -> truthy pem = true.
Proof.
  destruct spki as [|b spki]; [discriminate |].
  destruct (run_spkiToPem (b :: spki)) as (chunks & E & _); [discriminate |].
  rewrite E. intros [= <-]. reflexivity.
Qed.

Lemma truthy_string_some (s : jsstring) :
  truthy s = true -> truthy_string (Some s) = Some s.
Proof. intros H. cbn. now rewrite H. Qed.

Section WithBrowser.

Context {asym : Asymmetric} (browser : Browser asym).
Hypothesis law : json_law browser.

Ltac fresh_pair law :=
  unfold generate, generateSigningKeyPair, generate,
    exportSigningPublicKey, exportSigningPrivateKey;
  destruct (generateKey _ _ _) as [[publicKey privateKey]|e]; [| discriminate];
  destruct (exportKey_spki _ publicKey) as [spki|e]; [| discriminate];
  cbn [rbind];
  destruct (spkiToPem spki) as [publicPem|e] eqn:Epem; [| discriminate];
  destruct (exportKey_jwk _ privateKey) as [privateJwk|e]; [| discriminate];
  unfold setItem; cbn [localStorage generated];
  destruct (quota_exceeded _ _ _ _); [discriminate |];
  cbn [localStorage generated];
  destruct (quota_exceeded _ _ _ _); [discriminate |];
  intros [= <- <-];
  unfold getItem; cbn [localStorage];
  rewrite lookup_insert_ne by discriminate;
  rewrite !lookup_insert_eq;
  rewrite (truthy_string_some publicPem) by (eapply pem_truthy; exact Epem);
  rewrite truthy_string_some by apply law;
  rewrite (parse_stringify _ law); reflexivity.

Ltac other_items :=
  unfold generate, generateSigningKeyPair, generate,
    exportSigningPublicKey, exportSigningPrivateKey;
  destruct (generateKey _ _ _) as [[publicKey privateKey]|e]; [| discriminate];
  destruct (exportKey_spki _ publicKey) as [spki|e]; [| discriminate];
  cbn [rbind];
  destruct (spkiToPem spki) as [publicPem|e]; [| discriminate];
  destruct (exportKey_jwk _ privateKey) as [privateJwk|e]; [| discriminate];
  unfold setItem; cbn [localStorage generated];
  destruct (quota_exceeded _ _ _ _); [discriminate |];
  cbn [localStorage generated];
  destruct (quota_exceeded _ _ _ _); [discriminate |];
  intros [= _ <-];
  unfold getItem; cbn [localStorage];
  rewrite !lookup_insert_ne by discriminate; split; reflexivity.

Lemma ensureKeyPair_again (tab tab1 : Tab) (pair : StoredPair asym) :
  ensureKeyPair browser tab = (Returned pair, tab1) ->
  ensureKeyPair browser tab1 = (Returned pair, tab1).
Proof.
  unfold ensureKeyPair at 1.
  destruct (truthy_string (getItem (js "chatapp_public_key_pem") tab))
    as [storedPub|] eqn:Epub;
    [destruct (truthy_string (getItem (js "chatapp_private_key_jwk") tab))
       as [storedPriv|] eqn:Epriv |].
  - destruct (JSON_parse browser storedPriv) as [parsed|] eqn:Ep; [| discriminate].
    intros [= <- <-]. unfold ensureKeyPair. now rewrite Epub, Epriv, Ep.
  - unfold ensureKeyPair. fresh_pair law.
  - unfold ensureKeyPair. fresh_pair law.
Qed.

Lemma ensureSigningKeyPair_again (tab tab1 : Tab) (pair : StoredPair asym) :
  ensureSigningKeyPair browser tab = (Returned pair, tab1) ->
  ensureSigningKeyPair browser tab1 = (Returned pair, tab1).
Proof.
  unfold ensureSigningKeyPair at 1.
  destruct (truthy_string (getItem (js "chatapp_signing_public_key_pem") tab))
    as [storedPub|] eqn:Epub;
    [destruct (truthy_string (getItem (js "chatapp_signing_private_key_jwk") tab))
       as [storedPriv|] eqn:Epriv |].
  - destruct (JSON_parse browser storedPriv) as [parsed|] eqn:Ep; [| discriminate].
    intros [= <- <-]. unfold ensureSigningKeyPair. now rewrite Epub, Epriv, Ep.
  - unfold ensureSigningKeyPair. fresh_pair law.
  - unfold ensureSigningKeyPair. fresh_pair law.
Qed.

(** A key pair is generated once.  With a [JSON] that reads what it
    wrote: when [ensureKeyPair] returns a pair, stored before or generated
    by this call, every later call returns the same pair and changes
    nothing, so that no other pair is generated; the call leaves the
    signing pair that is stored alone.  The same holds of
    [ensureSigningKeyPair], with the two pairs exchanged.  A stored
    private key that [JSON.parse] rejects makes the call fail and is not
    replaced. *)
Theorem key_pair_is_generated_once (tab tab1 : Tab) (pair : StoredPair asym) :
  (ensureKeyPair browser tab = (Returned pair, tab1) ->
   ensureKeyPair browser tab1 = (Returned pair, tab1) /\
   getItem (js "chatapp_signing_public_key_pem") tab1 =
     getItem (js "chatapp_signing_public_key_pem") tab /\
   getItem (js "chatapp_signing_private_key_jwk") tab1 =
     getItem (js "chatapp_signing_private_key_jwk") tab) /\
  (ensureSigningKeyPair browser tab = (Returned pair, tab1) ->
   ensureSigningKeyPair browser tab1 = (Returned pair, tab1) /\
   getItem (js "chatapp_public_key_pem") tab1 =
     getItem (js "chatapp_public_key_pem") tab /\
   getItem (js "chatapp_private_key_jwk") tab1 =
     getItem (js "chatapp_private_key_jwk") tab) /\
  (forall storedPub storedPriv,
     truthy_string (getItem (js "chatapp_public_key_pem") tab) = Some storedPub ->
     truthy_string (getItem (js "chatapp_private_key_jwk") tab) = Some storedPriv ->
     JSON_parse browser storedPriv = None ->
     ensureKeyPair browser tab = (Failed SyntaxError, tab)).
Proof.
  split; [| split].
  - intros H. split; [now apply (ensureKeyPair_again tab) |].
    revert H. unfold ensureKeyPair.
    destruct (truthy_string (getItem (js "chatapp_public_key_pem") tab));
      [destruct (truthy_string (getItem (js "chatapp_private_key_jwk") tab)) |];
      [destruct (JSON_parse browser _); [| discriminate]; now intros [= _ <-] | |];
      other_items.
  - intros H. split; [now apply (ensureSigningKeyPair_again tab) |].
    revert H. unfold ensureSigningKeyPair.
    destruct (truthy_string (getItem (js "chatapp_signing_public_key_pem") tab));
      [destruct (truthy_string (getItem (js "chatapp_signing_private_key_jwk") tab)) |];
      [destruct (JSON_parse browser _); [| discriminate]; now intros [= _ <-] | |];
      other_items.
  - intros storedPub storedPriv Hpub Hpriv Hparse. unfold ensureKeyPair.
    now rewrite Hpub, Hpriv, Hparse.
Qed.

End WithBrowser.

Lemma toy_json_law : json_law toy_browser.
Proof.
  split.
  - intros j. unfold JSON_parse, JSON_stringify, toy_browser.
    rewrite removelast_last.
    rewrite Base64Facts.atob_encode by apply Base64Facts.byte_bounded.
    now rewrite Base64Facts.bytes_of_to_N.
  - intros j. reflexivity.
Qed.

Lemma toy_first_call :
  exists pair tab1, ensureKeyPair toy_browser empty_tab = (Returned pair, tab1).
Proof.
  destruct (ensureKeyPair toy_browser empty_tab) as [[pair|f] tab1] eqn:E;
    [now exists pair, tab1 |].
  exfalso.
  assert (H : match fst (ensureKeyPair toy_browser empty_tab) with
              | Returned _ => true
              | Failed _ => false
              end = true) by (vm_compute; reflexivity).
  rewrite E in H. discriminate H.
Qed.

Lemma key_pair_is_generated_once_witness :
  exists pair tab1,
    ensureKeyPair toy_browser empty_tab = (Returned pair, tab1) /\
    ensureKeyPair toy_browser tab1 = (Returned pair, tab1).
Proof.
  destruct toy_first_call as (pair & tab1 & E).
  exists pair, tab1. split; [exact E |].
  now apply (key_pair_is_generated_once toy_browser toy_json_law empty_tab tab1 pair).
Defined.

End KeyStoreFacts.
